(** * PySaic: colour matching, tile stores, streaming and rendering

    A shallow embedding of the colour-matching engine
    ([mosaic/match.py]), of the tile analysis that feeds it
    ([mosaic/tiles.py], [stage_mosaic.py]), of the multi-resolution tile
    store with its streaming manager ([mosaic/render_stream.py]) and of
    the render kernels ([mosaic/render_funcs.py]).

    Conventions used throughout:
    - NumPy integers are modelled in [Z] with the wrap-around of their
      width written out where the code narrows a value;
    - the float64 scratch array [distances] only ever holds integers of
      magnitude below 2^20, which float64 represents exactly, so it is
      modelled in [Z];
    - Python exceptions are modelled by [option] (pure code) or by an
      explicit outcome type (stateful code);
    - [numba.prange] lanes and thread pools are run in index order. *)

From stdpp Require Import base numbers list gmap sorting.
From Stdlib Require Import ZArith Lia.

(* ================================================================== *)
(** ** The colour matcher ([mosaic/match.py]) *)
(* ================================================================== *)

Module Match.

Local Open Scope Z_scope.

(** An RGB triple.  Source pixels are [uint8], tile averages are stored
    as [uint16] ([colour_ok] states the range of a [uint8] triple). *)
Definition colour : Type := Z * Z * Z.

Definition colour_ok (c : colour) : Prop :=
  let '(r, g, b) := c in
  (0 <= r < 256) /\ (0 <= g < 256) /\ (0 <= b < 256).

Definition u16 (z : Z) : Z := z mod 2 ^ 16.
Definition u64 (z : Z) : Z := z mod 2 ^ 64.
Definition i32 (z : Z) : Z := (z + 2 ^ 31) mod 2 ^ 32 - 2 ^ 31.

(** [np.sum(avg_colours ** 2, axis=1)] of [stage_mosaic.py]: the square
    is taken element-wise in [uint16], the row sum accumulates in
    [uint64]. *)
Definition sum_sq (a : colour) : Z :=
  let '(r, g, b) := a in u64 (u16 (r * r) + u16 (g * g) + u16 (b * b)).

Definition sum_avg_sq (avg_colours : list colour) : list Z :=
  map sum_sq avg_colours.

(** [ar*sr + ag*sg + ab*sb] *)
Definition dot (a s : colour) : Z :=
  let '(ar, ag, ab) := a in
  let '(sr, sg, sb) := s in
  ar * sr + ag * sg + ab * sb.

(** The inner loop over [enumerate(avg_colour_list_u16)]:
    [distances[k] = sum_avg_sq[k] - 2*(ar*sr + ag*sg + ab*sb)]. *)
Definition distances (avg : list colour) (ssq : list Z) (s : colour) : list Z :=
  zip_with (fun a q => q - 2 * dot a s) avg ssq.

(** [np.argmin]: index of the first occurrence of the minimum;
    [ValueError] (here [None]) on an empty array. *)
Fixpoint argmin_from (best_i : nat) (best : Z) (i : nat) (l : list Z) : nat :=
  match l with
  | [] => best_i
  | d :: l' =>
      if d <? best then argmin_from i d (S i) l'
      else argmin_from best_i best (S i) l'
  end.

Definition argmin (l : list Z) : option nat :=
  match l with
  | [] => None
  | d :: l' => Some (argmin_from 0 d 1 l')
  end.

(** The scan of [build_matches_st]: [min_dist = np.inf] (here [None]),
    [min_idx = -1], and [if dist < min_dist] keeps the first minimum. *)
Fixpoint scan_min (min_dist : option Z) (min_idx : Z) (k : Z) (l : list Z) : Z :=
  match l with
  | [] => min_idx
  | dist :: l' =>
      let better := match min_dist with None => true | Some m => dist <? m end in
      if better then scan_min (Some dist) k (k + 1) l'
      else scan_min min_dist min_idx (k + 1) l'
  end.

(** [key = sr << 16 | sg << 8 | sb] *)
Definition key (s : colour) : Z :=
  let '(sr, sg, sb) := s in
  Z.lor (Z.lor (Z.shiftl sr 16) (Z.shiftl sg 8)) sb.

(** The memo table [cmap]: an [int32] array of 2^24 cells filled with
    [-1].  The finite map holds the cells written so far; every other
    cell still reads [-1]. *)
Definition cmap_get (cmap : gmap Z Z) (k : Z) : Z := default (-1) (cmap !! k).

Definition cmap_set (cmap : gmap Z Z) (k v : Z) : gmap Z Z := <[k := i32 v]> cmap.

(** One iteration of the pixel loop of [build_matches_mt_1d]. *)
Definition match_pixel_1d (avg : list colour) (ssq : list Z)
    (cmap : gmap Z Z) (s : colour) : option (gmap Z Z * Z) :=
  let k := key s in
  let tile_idx := cmap_get cmap k in
  if tile_idx =? -1 then
    i ← argmin (distances avg ssq s);
    Some (cmap_set cmap k (Z.of_nat i), i32 (Z.of_nat i))
  else Some (cmap, tile_idx).

(** One iteration of the pixel loop of [build_matches_st]; the third
    component is the index set in [unique_mask], if any. *)
Definition match_pixel_st (avg : list colour) (ssq : list Z)
    (cmap : gmap Z Z) (s : colour) : gmap Z Z * Z * option Z :=
  let k := key s in
  let tile_idx := cmap_get cmap k in
  if tile_idx =? -1 then
    let min_idx := scan_min None (-1) 0 (distances avg ssq s) in
    (cmap_set cmap k min_idx, i32 min_idx, Some min_idx)
  else (cmap, tile_idx, None).

(** The loop over one lane's [subslice]. *)
Fixpoint lane_1d (avg : list colour) (ssq : list Z) (cmap : gmap Z Z)
    (subslice : list colour) : option (gmap Z Z * list Z) :=
  match subslice with
  | [] => Some (cmap, [])
  | s :: rest =>
      '(cmap1, t) ← match_pixel_1d avg ssq cmap s;
      '(cmap2, ts) ← lane_1d avg ssq cmap1 rest;
      Some (cmap2, t :: ts)
  end.

Fixpoint lane_st (avg : list colour) (ssq : list Z) (cmap : gmap Z Z)
    (subslice : list colour) : gmap Z Z * list Z * list Z :=
  match subslice with
  | [] => (cmap, [], [])
  | s :: rest =>
      let '(cmap1, t, u) := match_pixel_st avg ssq cmap s in
      let '(cmap2, ts, us) := lane_st avg ssq cmap1 rest in
      (cmap2, t :: ts, match u with Some i => i :: us | None => us end)
  end.

(** [s_len = int(np.ceil(len(source_blocks) / cpu_count))] *)
Definition s_len (n cpu_count : nat) : nat :=
  ((n + cpu_count - 1) / cpu_count)%nat.

(** [source_blocks[i*s_len : (i+1)*s_len]] *)
Definition subslice (blocks : list colour) (sl i : nat) : list colour :=
  take sl (drop (i * sl) blocks).

(** A lane writes its matches into a zeroed row of [s_len] cells. *)
Definition pad_row {A} (zero : A) (sl : nat) (row : list A) : list A :=
  row ++ replicate (sl - length row) zero.

(** The [prange] loop of [build_matches_mt_1d] over the lanes [lane_ids]. *)
Fixpoint lanes_1d (avg : list colour) (ssq : list Z) (blocks : list colour)
    (sl : nat) (cmap : gmap Z Z) (lane_ids : list nat) : option (gmap Z Z * list Z) :=
  match lane_ids with
  | [] => Some (cmap, [])
  | i :: rest_ids =>
      '(cmap1, row) ← lane_1d avg ssq cmap (subslice blocks sl i);
      '(cmap2, out) ← lanes_1d avg ssq blocks sl cmap1 rest_ids;
      Some (cmap2, pad_row 0 sl row ++ out)
  end.

(** [build_matches_mt_1d]: [None] stands for the [ZeroDivisionError] of
    [cpu_count = 0] and for [np.argmin] raising on an empty tile set. *)
Definition build_matches_mt_1d (avg : list colour) (ssq : list Z)
    (blocks : list colour) (cpu_count : nat) : option (list Z) :=
  if (cpu_count =? 0)%nat then None
  else
    let sl := s_len (length blocks) cpu_count in
    snd <$> lanes_1d avg ssq blocks sl ∅ (seq 0 cpu_count).

Fixpoint lanes_st (avg : list colour) (ssq : list Z) (blocks : list colour)
    (sl : nat) (cmap : gmap Z Z) (lane_ids : list nat) : gmap Z Z * list Z * list Z :=
  match lane_ids with
  | [] => (cmap, [], [])
  | i :: rest_ids =>
      let '(cmap1, row, us) := lane_st avg ssq cmap (subslice blocks sl i) in
      let '(cmap2, out, us') := lanes_st avg ssq blocks sl cmap1 rest_ids in
      (cmap2, pad_row 0 sl row ++ out, us ++ us')
  end.

(** [build_matches_st]: returns the memo table as the caller finds it
    afterwards, the match list, and the indices set in [unique_mask]. *)
Definition build_matches_st (avg : list colour) (ssq : list Z)
    (blocks : list colour) (cmap : gmap Z Z) (cpu_count : nat)
    : option (gmap Z Z * list Z * list Z) :=
  if (cpu_count =? 0)%nat then None
  else
    let sl := s_len (length blocks) cpu_count in
    Some (lanes_st avg ssq blocks sl cmap (seq 0 cpu_count)).

(** The truncation [raw_matches[:source.blocks.shape[0]]] applied by
    [Mosaic.process_mosaic] to the padded output. *)
Definition capped {A} (blocks : list colour) (raw_matches : list A) : list A :=
  take (length blocks) raw_matches.

(** *** Reference matcher, after the specification

    The brute-force comparison: the full squared Euclidean distance
    [(p - t) . (p - t)] to every tile, first minimum in tile order, no
    memo table. *)
Definition euclid (p t : colour) : Z :=
  let '(pr, pg, pb) := p in
  let '(tr, tg, tb) := t in
  (pr - tr) * (pr - tr) + (pg - tg) * (pg - tg) + (pb - tb) * (pb - tb).

Definition brute_force_match (avg : list colour) (p : colour) : option nat :=
  argmin (map (euclid p) avg).

(** The same passes with the memo table taken away: every pixel is
    matched afresh, the lanes and the zero padding stay as they are. *)
Definition fresh_1d (avg : list colour) (ssq : list Z) (s : colour) : option Z :=
  i ← argmin (distances avg ssq s); Some (i32 (Z.of_nat i)).

Definition fresh_st (avg : list colour) (ssq : list Z) (s : colour) : Z :=
  i32 (scan_min None (-1) 0 (distances avg ssq s)).

Definition rows {A} (zero : A) (g : colour -> A) (blocks : list colour) (sl : nat)
    (lane_ids : list nat) : list A :=
  concat (map (fun i => pad_row zero sl (map g (subslice blocks sl i))) lane_ids).

Definition pass_without_memo_1d (avg : list colour) (ssq : list Z)
    (blocks : list colour) (cpu_count : nat) : option (list Z) :=
  if (cpu_count =? 0)%nat then None
  else
    let sl := s_len (length blocks) cpu_count in
    @concat Z <$> mapM (fun i => pad_row 0 sl <$> mapM (fresh_1d avg ssq) (subslice blocks sl i))
                    (seq 0 cpu_count).

Definition pass_without_memo_st (avg : list colour) (ssq : list Z)
    (blocks : list colour) (cpu_count : nat) : option (list Z) :=
  if (cpu_count =? 0)%nat then None
  else Some (rows 0 (fresh_st avg ssq) blocks (s_len (length blocks) cpu_count)
               (seq 0 cpu_count)).

(** [VidSource._process_thread]: every streamed frame is matched by
    [build_matches_st] against the one table [self.cmap], which
    [VidSource.__init__] and [VidSource.reset] fill with [-1]. *)
Fixpoint video_session (avg : list colour) (ssq : list Z) (cmap : gmap Z Z)
    (frames : list (list colour)) (cpu_count : nat) : option (list (list Z)) :=
  match frames with
  | [] => Some []
  | f :: fs =>
      '(cmap', out, _) ← build_matches_st avg ssq f cmap cpu_count;
      outs ← video_session avg ssq cmap' fs cpu_count;
      Some (out :: outs)
  end.

(** *** The dithered matcher

    [np.argpartition] and [np.argsort] are NumPy's.  The index
    permutation each of them returns is a parameter here; the facts
    about the dithered matcher assume of them what NumPy documents. *)
Section TopK.

Variable argpartition : list Z -> nat -> list nat.
Variable argsort : list Z -> list nat.

(** [np.argpartition(a, kth)]: [ValueError] when [kth] is out of
    bounds. *)
Definition np_argpartition (a : list Z) (kth : nat) : option (list nat) :=
  if (kth <? length a)%nat then Some (argpartition a kth) else None.

(** Indexing by an index array, [a[idx]]: [IndexError] out of bounds. *)
Definition index_by {A} (a : list A) (idx : list nat) : option (list A) :=
  mapM (fun i => a !! i) idx.

(** [parted = np.argpartition(distances, K)[:K]], then
    [parted[np.argsort(distances[parted])]]. *)
Definition top_k (dist : list Z) (K : nat) : option (list nat) :=
  whole ← np_argpartition dist K;
  let parted := take K whole in
  dp ← index_by dist parted;
  index_by parted (argsort dp).

(** The memo table of the dithered matcher has one row of [K] cells per
    colour, all filled with [-1]. *)
Definition cmap2_get (K : nat) (cmap : gmap Z (list Z)) (k : Z) : list Z :=
  default (replicate K (-1)) (cmap !! k).

Definition i32_row (idxs : list nat) : list Z :=
  map (fun i => i32 (Z.of_nat i)) idxs.

(** One iteration of the pixel loop of [build_matches_mt_2d];
    [tile_idxs[0]] has no cell to read when [K = 0]. *)
Definition match_pixel_2d (avg : list colour) (ssq : list Z) (K : nat)
    (cmap : gmap Z (list Z)) (s : colour) : option (gmap Z (list Z) * list Z) :=
  let k := key s in
  let tile_idxs := cmap2_get K cmap k in
  first ← tile_idxs !! 0%nat;
  if first =? -1 then
    idxs ← top_k (distances avg ssq s) K;
    Some (<[k := i32_row idxs]> cmap, i32_row idxs)
  else Some (cmap, tile_idxs).

Fixpoint lane_2d (avg : list colour) (ssq : list Z) (K : nat)
    (cmap : gmap Z (list Z)) (subslice : list colour)
    : option (gmap Z (list Z) * list (list Z)) :=
  match subslice with
  | [] => Some (cmap, [])
  | s :: rest =>
      '(cmap1, t) ← match_pixel_2d avg ssq K cmap s;
      '(cmap2, ts) ← lane_2d avg ssq K cmap1 rest;
      Some (cmap2, t :: ts)
  end.

Fixpoint lanes_2d (avg : list colour) (ssq : list Z) (K : nat)
    (blocks : list colour) (sl : nat) (cmap : gmap Z (list Z))
    (lane_ids : list nat) : option (gmap Z (list Z) * list (list Z)) :=
  match lane_ids with
  | [] => Some (cmap, [])
  | i :: rest_ids =>
      '(cmap1, row) ← lane_2d avg ssq K cmap (subslice blocks sl i);
      '(cmap2, out) ← lanes_2d avg ssq K blocks sl cmap1 rest_ids;
      Some (cmap2, pad_row (replicate K 0) sl row ++ out)
  end.

(** [build_matches_mt_2d] *)
Definition build_matches_mt_2d (avg : list colour) (ssq : list Z)
    (blocks : list colour) (cpu_count : nat) (random_choice : nat)
    : option (list (list Z)) :=
  if (cpu_count =? 0)%nat then None
  else
    let sl := s_len (length blocks) cpu_count in
    snd <$> lanes_2d avg ssq random_choice blocks sl ∅ (seq 0 cpu_count).

(** [process_matches_2d]: [randint i] is the value that
    [np.random.randint(0, random_choice)] draws at row [i]. *)
Definition process_matches_2d (match_arr : list (list Z)) (random_choice : nat)
    (randint : nat -> nat) : option (list Z) :=
  mapM (fun '(i, row) =>
          row !! (if (random_choice =? 0)%nat then 0%nat else randint i))
       (imap pair match_arr).

(** Steps 3 and 4 of [Mosaic.process_mosaic] outside video mode.
    [raw_matches] is one-dimensional when built without dithering. *)
Inductive raw_matches : Type :=
  | Raw1d (m : list Z)
  | Raw2d (m : list (list Z)).

(** Step 3 when the match list is rebuilt. *)
Definition build_raw_matches (avg : list colour) (ssq : list Z)
    (blocks : list colour) (cpu_count : nat) (rand_choice : nat) : option raw_matches :=
  if (rand_choice =? 0)%nat then
    m ← build_matches_mt_1d avg ssq blocks cpu_count; Some (Raw1d (capped blocks m))
  else
    m ← build_matches_mt_2d avg ssq blocks cpu_count rand_choice;
    Some (Raw2d (capped blocks m)).

(** Step 4; [raw_matches[0]] raises on an empty match list. *)
Definition flatten_matches (raw : raw_matches) (rand_choice : nat)
    (randint : nat -> nat) : option (list Z) :=
  match raw with
  | Raw1d [] | Raw2d [] => None
  | Raw1d m => Some m
  | Raw2d m => process_matches_2d m rand_choice randint
  end.

Definition dithered_matches (avg : list colour) (ssq : list Z)
    (blocks : list colour) (cpu_count : nat) (rand_choice : nat)
    (randint : nat -> nat) : option (list Z) :=
  raw ← build_raw_matches avg ssq blocks cpu_count rand_choice;
  flatten_matches raw rand_choice randint.

End TopK.

(** What NumPy documents of the two routines.  [np.argpartition]: the
    result is a permutation of the indices, the entry at position [kth]
    is where a full sort would put it, no entry before it is larger and
    no entry after it is smaller; the order within the two parts is not
    fixed.  [np.argsort]: a permutation of the indices that sorts the
    array. *)
Definition argpartition_contract (argpartition : list Z -> nat -> list nat) : Prop :=
  forall (a : list Z) (kth : nat), (kth < length a)%nat ->
    argpartition a kth ≡ₚ seq 0 (length a)
    /\ forall i xi xk,
         argpartition a kth !! i = Some xi ->
         argpartition a kth !! kth = Some xk ->
         ((i < kth)%nat -> a !!! xi <= a !!! xk)
         /\ ((kth < i)%nat -> a !!! xk <= a !!! xi).

Definition argsort_contract (argsort : list Z -> list nat) : Prop :=
  forall (a : list Z),
    argsort a ≡ₚ seq 0 (length a)
    /\ forall i j xi xj, (i <= j)%nat ->
         argsort a !! i = Some xi -> argsort a !! j = Some xj ->
         a !!! xi <= a !!! xj.

(** *** "Among the K nearest", after the specification

    Tile [t] is among the [K] nearest tiles of pixel [p] when fewer than
    [K] tiles are strictly nearer to [p] than [t] is. *)
Definition nearer (avg : list colour) (p : colour) (t : nat) : list nat :=
  filter (fun u => euclid p (avg !!! u) < euclid p (avg !!! t)) (seq 0 (length avg)).

Definition among_k_nearest (avg : list colour) (p : colour) (K t : nat) : Prop :=
  (t < length avg)%nat /\ (length (nearer avg p t) < K)%nat.

(** Tile [t] is the one nearest tile of [p]: every other tile is
    strictly farther. *)
Definition unique_nearest (avg : list colour) (p : colour) (t : nat) : Prop :=
  forall u, (u < length avg)%nat -> u <> t ->
    euclid p (avg !!! t) < euclid p (avg !!! u).

End Match.

(* ================================================================== *)
(** ** The tile store ([mosaic/render_stream.py], class [TileStore]) *)
(* ================================================================== *)

Module Store.

(** Exceptions the store and the manager can raise. *)
Inductive exn : Type :=
  | IndexError
  | KeyError
  | AttributeError
  | ValueError.

(** The outcome of a call that mutates an object: it returns, or it
    raises and leaves the object as mutated so far. *)
Inductive outcome (S A : Type) : Type :=
  | Ret (s : S) (a : A)
  | Raise (s : S) (e : exn).
Arguments Ret {S A} s a.
Arguments Raise {S A} s e.

Definition state_of {S A} (o : outcome S A) : S :=
  match o with Ret s _ => s | Raise s _ => s end.

Definition returned {S A} (o : outcome S A) : option A :=
  match o with Ret _ a => Some a | Raise _ _ => None end.

(** *** [OrderedDict] as a list of bindings, oldest first *)
Section OrderedDict.

Context {V : Type}.

Fixpoint od_get (k : nat) (d : list (nat * V)) : option V :=
  match d with
  | [] => None
  | (k', v) :: d' => if (k =? k')%nat then Some v else od_get k d'
  end.

Definition od_mem (k : nat) (d : list (nat * V)) : bool :=
  match od_get k d with Some _ => true | None => false end.

Fixpoint od_remove (k : nat) (d : list (nat * V)) : list (nat * V) :=
  match d with
  | [] => []
  | (k', v) :: d' => if (k =? k')%nat then od_remove k d' else (k', v) :: od_remove k d'
  end.

(** [d[k] = v]: a present key keeps its place, a new key goes last. *)
Fixpoint od_set (k : nat) (v : V) (d : list (nat * V)) : list (nat * V) :=
  match d with
  | [] => [(k, v)]
  | (k', v') :: d' => if (k =? k')%nat then (k, v) :: d' else (k', v') :: od_set k v d'
  end.

(** [d.move_to_end(k)] for a key that is present. *)
Definition od_move_to_end (k : nat) (d : list (nat * V)) : list (nat * V) :=
  match od_get k d with
  | Some v => od_remove k d ++ [(k, v)]
  | None => d
  end.

Definition od_keys (d : list (nat * V)) : list nat := map fst d.

End OrderedDict.

Section WithFrame.

(** A decoded frame of a tile, [tile_size x tile_size x 3] bytes. *)
Context {Frame : Type}.
(** The all-zero frame of [np.zeros]. *)
Variable zero_frame : Frame.

(** [self.raw]: a NumPy array of frames (fast) or a Numba typed
    dictionary (smart). *)
Inductive raw_store : Type :=
  | Fast (arr : list Frame)
  | Smart (d : gmap nat Frame).

Record TileStore : Type := mkTileStore {
  finished : list (nat * (nat * nat));  (* tile_idx : (mapped idx, tile length) *)
  tile_size : nat;
  len : nat;
  is_smart : bool;
  raw : raw_store;
  ram_usage : Z
}.

Definition set_finished (f : list (nat * (nat * nat))) (s : TileStore) : TileStore :=
  mkTileStore f (tile_size s) (len s) (is_smart s) (raw s) (ram_usage s).

Definition set_raw (r : raw_store) (s : TileStore) : TileStore :=
  mkTileStore (finished s) (tile_size s) (len s) (is_smart s) r (ram_usage s).

Definition set_ram_usage (u : Z) (s : TileStore) : TileStore :=
  mkTileStore (finished s) (tile_size s) (len s) (is_smart s) (raw s) u.

(** [tile_size*tile_size*3], the bytes of one frame. *)
Definition frame_bytes (s : TileStore) : Z :=
  (Z.of_nat (tile_size s) * Z.of_nat (tile_size s) * 3)%Z.

(** [TileStore.__init__] *)
Definition new_store (tile_size len : nat) (smart : bool) : TileStore :=
  if smart then
    mkTileStore [] tile_size len true (Smart ∅) 0
  else
    mkTileStore [] tile_size len false (Fast (replicate len zero_frame))
      (Z.of_nat len * Z.of_nat tile_size * Z.of_nat tile_size * 3)%Z.

(** The loop of [add_tile] over [enumerate(values)], from index [i]. *)
Fixpoint add_frames (s : TileStore) (mapped_idx i : nat) (values : list Frame)
    : outcome TileStore bool :=
  match values with
  | [] => Ret s false
  | frame :: rest =>
      let s1 := if is_smart s then set_ram_usage (ram_usage s + frame_bytes s)%Z s else s in
      match raw s1 with
      | Fast arr =>
          if decide (mapped_idx + i < length arr) then
            add_frames (set_raw (Fast (<[mapped_idx + i := frame]> arr)) s1)
              mapped_idx (S i) rest
          else Raise s1 IndexError
      | Smart d =>
          add_frames (set_raw (Smart (<[mapped_idx + i := frame]> d)) s1)
            mapped_idx (S i) rest
      end
  end.

(** [add_tile]; the result tells whether the duplicate warning was
    logged. *)
Definition add_tile (s : TileStore) (tile_idx mapped_idx : nat) (values : list Frame)
    : outcome TileStore bool :=
  if od_mem tile_idx (finished s) then Ret s true
  else
    let s1 := set_finished (od_set tile_idx (mapped_idx, length values) (finished s)) s in
    let s2 := set_finished (od_move_to_end tile_idx (finished s1)) s1 in
    add_frames s2 mapped_idx 0 values.

(** [refresh]: [idxs] in the order the set is iterated. *)
Definition refresh (s : TileStore) (idxs : list nat) : TileStore :=
  if negb (is_smart s) then s
  else
    set_finished
      (foldl (fun f idx => if od_mem idx f then od_move_to_end idx f else f)
             (finished s) idxs) s.

(** [get_least_used] *)
Definition get_least_used (s : TileStore) : list nat := od_keys (finished s).

(** The loop of [free_tile] over [range(mapped_idx, mapped_idx+tile_len)]:
    [self.raw.pop(offset)] raises when the key is absent. *)
Fixpoint pop_frames (s : TileStore) (offsets : list nat) (freed : Z)
    : outcome TileStore Z :=
  match offsets with
  | [] => Ret s freed
  | offset :: rest =>
      match raw s with
      | Fast _ => Raise s AttributeError
      | Smart d =>
          match d !! offset with
          | None => Raise s KeyError
          | Some _ =>
              pop_frames (set_raw (Smart (delete offset d)) s) rest (freed + frame_bytes s)%Z
          end
      end
  end.

(** [free_tile]: returns the bytes freed. *)
Definition free_tile (s : TileStore) (tile_idx : nat) : outcome TileStore Z :=
  if negb (is_smart s) then Ret s 0%Z
  else
    match od_get tile_idx (finished s) with
    | None => Ret s 0%Z
    | Some (mapped_idx, tile_len) =>
        let s1 := set_finished (od_remove tile_idx (finished s)) s in
        match pop_frames s1 (seq mapped_idx tile_len) 0 with
        | Ret s2 freed => Ret (set_ram_usage (ram_usage s2 - freed)%Z s2) freed
        | Raise s2 e => Raise s2 e
        end
    end.

(** [__getitem__] and [__contains__] *)
Definition getitem (s : TileStore) (idx : nat) : option Frame :=
  match raw s with
  | Fast arr => arr !! idx
  | Smart d => d !! idx
  end.

Definition contains (s : TileStore) (tile_idx : nat) : bool :=
  od_mem tile_idx (finished s).

(** The frames the store holds, as it counts them itself and as the
    dictionary holds them. *)
Definition recorded_frames (s : TileStore) : nat :=
  sum_list (map (fun b => snd (snd b)) (finished s)).

Definition stored_frames (s : TileStore) : nat :=
  match raw s with
  | Fast arr => length arr
  | Smart d => size d
  end.

(** A client's calls on a store, and a run of them; a call that raises
    leaves the store as it was when the exception left it. *)
Inductive call : Type :=
  | Put (tile_idx mapped_idx : nat) (values : list Frame)
  | Evict (tile_idx : nat)
  | Touch (idxs : list nat).

Definition step (s : TileStore) (c : call) : TileStore :=
  match c with
  | Put t m vs => state_of (add_tile s t m vs)
  | Evict t => state_of (free_tile s t)
  | Touch idxs => refresh s idxs
  end.

Definition run (s : TileStore) (calls : list call) : TileStore := foldl step s calls.

(** The slot layout the callers keep to.  Offset [x] lies in the [k]
    slots from [m] on; [tile_map] gives every tile its first slot and
    [tile_len_map] its number of slots, and no slot belongs to two
    tiles; a [Put] stores a tile at its own offset and within its own
    slots. *)
Definition in_slots (m k x : nat) : Prop := m <= x < m + k.

Definition layout_ok (tile_map tile_len_map : nat -> nat) : Prop :=
  forall t1 t2 x,
    in_slots (tile_map t1) (tile_len_map t1) x ->
    in_slots (tile_map t2) (tile_len_map t2) x -> t1 = t2.

Definition follows_layout (tile_map tile_len_map : nat -> nat) (c : call) : Prop :=
  match c with
  | Put t m vs => m = tile_map t /\ length vs <= tile_len_map t
  | Evict _ | Touch _ => True
  end.

End WithFrame.

End Store.

(* ================================================================== *)
(** ** The streaming manager ([mosaic/render_stream.py],
       class [StreamingManager]) *)
(* ================================================================== *)

Module Stream.

Import Store.

(** What the manager reads of a tile of [PySaic.mosaic.tiles]. *)
Inductive source_type : Type := Pic | Vid.

Record TileInfo : Type := mkTileInfo {
  t_len : Z;                 (* Tile.len *)
  t_source_type : source_type;
  t_path : nat               (* the source file, by number *)
}.

(** The read-only references and settings the manager works with:
    [PySaic.mosaic.tiles], [.max_tile_len], [.mean_tile_len],
    [.tile_map], [.total_frames], and the settings
    [PREFETCH_MULTIPLIER] and [BASE_TILE_RES]. *)
Record Env : Type := mkEnv {
  tiles : list TileInfo;
  max_tile_len : Z;
  mean_tile_len : Z;
  tile_map : list nat;
  total_frames : nat;
  PREFETCH_MULTIPLIER : nat;
  BASE_TILE_RES : nat
}.

Section WithFrame.

Context {Frame : Type}.
Variable zero_frame : Frame.
Variable env : Env.

Local Open Scope Z_scope.

(** [self.tile_stores] is a [dict], which keeps insertion order.
    [init_ram] is a float in the source; the model keeps it in whole
    bytes. *)
Record Manager : Type := mkManager {
  tile_stores : list (nat * TileStore (Frame := Frame));
  fast_limit : nat;
  res_limit : nat;
  init_ram : Z;
  sm_ram_usage : Z;
  min_ram : Z;
  stop_streaming_flag : bool;
  never_stream_flag : bool
}.

Definition set_tile_stores (ts : list (nat * TileStore (Frame := Frame))) (sm : Manager)
    : Manager :=
  mkManager ts (fast_limit sm) (res_limit sm) (init_ram sm) (sm_ram_usage sm)
    (min_ram sm) (stop_streaming_flag sm) (never_stream_flag sm).

Definition set_sm_ram_usage (u : Z) (sm : Manager) : Manager :=
  mkManager (tile_stores sm) (fast_limit sm) (res_limit sm) (init_ram sm) u
    (min_ram sm) (stop_streaming_flag sm) (never_stream_flag sm).

(** *** [partition] *)

(** The running variables of the loop over the exponents. *)
Record part_state : Type := mkPart {
  ps_stores : list (nat * TileStore (Frame := Frame));
  ps_available_ram : Z;
  ps_ram_usage : Z;
  ps_fast_limit : nat;
  ps_kept : list nat
}.

(** The prefetch reserve,
    [3*PREFETCH_MULTIPLIER*min(mean_tile_len, max_tile_len)*w*h*3]. *)
Definition prefetch_reserve (w h : nat) : Z :=
  3 * Z.of_nat (PREFETCH_MULTIPLIER env) * Z.min (mean_tile_len env) (max_tile_len env)
  * Z.of_nat w * Z.of_nat h * 3.

Definition required_ram (raised w h : nat) : Z :=
  2 * Z.of_nat (total_frames env) * Z.of_nat raised * Z.of_nat raised * 3
  + prefetch_reserve w h.

Definition store_is_smart (stores : list (nat * TileStore (Frame := Frame))) (raised : nat)
    : option bool :=
  is_smart <$> od_get raised stores.

(** The body of the loop for one exponent. *)
Definition partition_step (w h : nat) (ps : part_state) (exponent : nat) : part_state :=
  let raised := (2 ^ exponent)%nat in
  let required := required_ram raised w h in
  let kept := ps_kept ps ++ [raised] in
  if bool_decide (ps_available_ram ps - required >= 0) || (raised =? 1)%nat then
    let stores :=
      match store_is_smart (ps_stores ps) raised with
      | Some false => ps_stores ps
      | _ => od_set raised (new_store zero_frame raised (total_frames env) false) (ps_stores ps)
      end in
    let bytes := Z.of_nat raised * Z.of_nat raised * 3 * Z.of_nat (total_frames env) in
    mkPart stores (ps_available_ram ps - bytes) (ps_ram_usage ps + bytes) raised kept
  else
    let stores :=
      match store_is_smart (ps_stores ps) raised with
      | Some true => ps_stores ps
      | _ => od_set raised (new_store zero_frame raised (total_frames env) true) (ps_stores ps)
      end in
    mkPart stores (ps_available_ram ps) (ps_ram_usage ps) (ps_fast_limit ps) kept.

(** [partition(min_limit, display_res)]; [math.log2] raises
    [ValueError] on 0.  [int(math.log2(n))] is [Nat.log2 n] for the
    sizes at hand. *)
Definition partition (sm : Manager) (min_limit : nat) (display_res : nat * nat)
    : outcome Manager unit :=
  let '(w, h) := display_res in
  if (Nat.min w h =? 0)%nat then Raise sm ValueError
  else
    let res_limit := (2 ^ Nat.log2 (Nat.min w h))%nat in
    let min_ram := 2 * Z.of_nat (total_frames env) * 3 + prefetch_reserve w h in
    let sm1 := mkManager (tile_stores sm) (fast_limit sm) res_limit (init_ram sm) 0
                 min_ram (stop_streaming_flag sm) (never_stream_flag sm) in
    if (min_limit =? 0)%nat then Raise sm1 ValueError
    else
      let lo := Nat.log2 min_limit in
      let hi := Nat.log2 (res_limit * 2) in
      let ps := foldl (partition_step w h)
                  (mkPart (tile_stores sm) (init_ram sm) 0 (fast_limit sm) [])
                  (seq lo (hi - lo)) in
      let stores := filter (fun b => fst b ∈ ps_kept ps) (ps_stores ps) in
      Ret (mkManager stores (ps_fast_limit ps) res_limit (init_ram sm) (ps_ram_usage ps)
             min_ram (stop_streaming_flag sm) (never_stream_flag sm)) tt.

(** [get_store] *)
Definition get_store (sm : Manager) (size : nat) : option (TileStore (Frame := Frame)) :=
  od_get size (tile_stores sm).

(** *** [_find_supersized_tile] *)

(** What the probe yields: a size, [False], the [KeyError] of a missing
    store, or the end of the fuel the model gives the [while] loop. *)
Inductive probe : Type :=
  | Found (size : nat)
  | Missing
  | NoStore
  | OutOfFuel.

(** [tile_idx in self.tile_stores[size]] *)
Definition store_contains (sm : Manager) (size tile_idx : nat) : option bool :=
  (fun st => contains st tile_idx) <$> od_get size (tile_stores sm).

(** [while size <= self.res_limit: ...; size *= 2] *)
Fixpoint probe_up (sm : Manager) (tile_idx : nat) (fuel size : nat) : probe :=
  if decide (size <= res_limit sm)%nat then
    match fuel with
    | O => OutOfFuel
    | S fuel' =>
        match store_contains sm size tile_idx with
        | None => NoStore
        | Some true => Found size
        | Some false => probe_up sm tile_idx fuel' (size * 2)
        end
    end
  else Missing.

Definition find_supersized_tile (sm : Manager) (tile_idx start_size : nat) : probe :=
  match (if decide (res_limit sm <= start_size)%nat
         then store_contains sm (res_limit sm) tile_idx else Some false) with
  | None => NoStore
  | Some true => Found (res_limit sm)
  | Some false =>
      match (if decide (start_size < fast_limit sm)%nat
             then store_contains sm (fast_limit sm) tile_idx else Some false) with
      | None => NoStore
      | Some true => Found (fast_limit sm)
      | Some false =>
          probe_up sm tile_idx (S (res_limit sm)) (Nat.max (fast_limit sm) start_size * 2)
      end
  end.

(** Truth value of the result in a condition; [None] when the call
    raised. *)
Definition probe_truth (p : probe) : option bool :=
  match p with
  | Found size => Some (negb (size =? 0)%nat)
  | Missing => Some false
  | NoStore | OutOfFuel => None
  end.

(** [_base_tile(tile_idx, ts)], with the frame that
    [tile.as_fixed_res(ts)] yields; the stop flag is read as it stands. *)
Definition base_tile (sm : Manager) (tile_idx ts : nat) (frame : Frame)
    : outcome Manager unit :=
  if stop_streaming_flag sm then Ret sm tt
  else
    match tiles env !! tile_idx, tile_map env !! tile_idx, od_get ts (tile_stores sm) with
    | None, _, _ | _, None, _ => Raise sm IndexError
    | _, _, None => Raise sm KeyError
    | Some _, Some mapped, Some store =>
        match add_tile store tile_idx mapped [frame] with
        | Ret store' _ => Ret (set_tile_stores (od_set ts store' (tile_stores sm)) sm) tt
        | Raise store' e => Raise (set_tile_stores (od_set ts store' (tile_stores sm)) sm) e
        end
    end.

(** *** [_stream_thread] *)

(** The tiles to load, by kind, and the memory they need. *)
Record needs : Type := mkNeeds {
  base_idxs : list nat;
  pic_idxs : list nat;
  vid_idxs : list nat;
  cached_idxs : list nat;
  needed_ram : Z
}.

Definition tile_frames (tile : TileInfo) : Z := Z.min (t_len tile) (max_tile_len env).

(** The loop [for tile_idx in blanks.difference(base_idxs)]; [None]
    when it raises ([self.tiles[tile_idx]] out of range, a store the
    probe does not find). *)
Fixpoint classify (sm : Manager) (ts prefetch_size : nat) (todo : list nat) (n : needs)
    : option needs :=
  match todo with
  | [] => Some n
  | tile_idx :: rest =>
      tile ← tiles env !! tile_idx;
      found ← probe_truth (find_supersized_tile sm tile_idx ts);
      let n1 :=
        if (found : bool) then n
        else
          let n' := match t_source_type tile with
                    | Pic => mkNeeds (base_idxs n) (pic_idxs n ++ [tile_idx]) (vid_idxs n)
                               (cached_idxs n) (needed_ram n)
                    | Vid => mkNeeds (base_idxs n) (pic_idxs n) (vid_idxs n ++ [tile_idx])
                               (cached_idxs n) (needed_ram n)
                    end in
          if decide (fast_limit sm < prefetch_size)%nat then
            mkNeeds (base_idxs n') (pic_idxs n') (vid_idxs n') (cached_idxs n')
              (needed_ram n' + tile_frames tile * Z.of_nat prefetch_size
                               * Z.of_nat prefetch_size * 3)
          else n' in
      let n2 :=
        if decide (ts < res_limit sm)%nat then
          mkNeeds (base_idxs n1) (pic_idxs n1) (vid_idxs n1) (cached_idxs n1 ++ [tile_idx])
            (if decide (fast_limit sm < ts)%nat
             then needed_ram n1 + tile_frames tile * Z.of_nat ts * Z.of_nat ts * 3
             else needed_ram n1)
        else n1 in
      classify sm ts prefetch_size rest n2
  end.

(** [prefetch_size] *)
Definition prefetch_size_of (sm : Manager) (ts : nat) : nat :=
  Nat.min (Nat.max (ts * PREFETCH_MULTIPLIER env) (fast_limit sm)) (res_limit sm).

(** The classification of the blanks, from [needed_ram = 0] up to the
    cache hit ratio. *)
Definition compute_needs (sm : Manager) (ts : nat) (blanks : list nat) : option needs :=
  base ←
    (if decide (ts <= BASE_TILE_RES env)%nat then
       if max_tile_len env =? 1 then Some blanks
       else
         flags ← mapM (fun tile_idx => (fun tile => t_len tile =? 1) <$> tiles env !! tile_idx)
                   blanks;
         Some (map fst (filter (fun b => snd b = true) (zip blanks flags)))
     else Some []);
  let needed0 :=
    if decide (ts <= BASE_TILE_RES env)%nat then
      if decide (fast_limit sm < ts)%nat
      then Z.of_nat (length base) * Z.of_nat ts * Z.of_nat ts * 3 else 0
    else 0 in
  classify sm ts (prefetch_size_of sm ts)
    (filter (fun t => t ∉ base) blanks) (mkNeeds base [] [] [] needed0).

(** One eviction, with the manager as it stood just before. *)
Record eviction : Type := mkEviction {
  ev_stage : nat;
  ev_size : nat;
  ev_tile : nat;
  ev_before : Manager
}.

Record evict_state : Type := mkEvict {
  es_sm : Manager;
  es_freeing : bool;
  es_trace : list eviction
}.

(** The condition under which the tile is freed:
    [freeing_stage == 1 and tile_idx not in onscreen
     or freeing_stage == 2 and (tile_store.tile_size != ts
          and self._find_supersized_tile(tile_idx, tile_store.tile_size))
     or freeing_stage == 3 and (tile_store.tile_size != ts
          and tile_idx not in cached_idxs)];
    [None] when the probe raises. *)
Definition evict_cond (sm : Manager) (onscreen cached : list nat)
    (ts stage size tile_idx : nat) : option bool :=
  if (stage =? 1)%nat && bool_decide (tile_idx ∉ onscreen) then Some true
  else if (stage =? 2)%nat then
    if negb (size =? ts)%nat then probe_truth (find_supersized_tile sm tile_idx size)
    else Some false
  else if (stage =? 3)%nat then
    Some (negb (size =? ts)%nat && bool_decide (tile_idx ∉ cached))
  else Some false.

(** The loop [for tile_idx in tile_store.get_least_used()] for the store
    of tile size [size]; the result says whether the loop was left by
    [break]. *)
Fixpoint evict_tiles (onscreen cached : list nat) (needed : Z) (ts stage size : nat)
    (todo : list nat) (st : evict_state) : outcome evict_state bool :=
  match todo with
  | [] => Ret st false
  | tile_idx :: rest =>
      let sm := es_sm st in
      match evict_cond sm onscreen cached ts stage size tile_idx with
      | None => Raise st KeyError
      | Some c =>
          let freed_state :=
            if c then
              match od_get size (tile_stores sm) with
              | None => Raise st KeyError
              | Some store =>
                  let ev := mkEviction stage size tile_idx sm in
                  match free_tile store tile_idx with
                  | Ret store' freed =>
                      Ret (mkEvict
                             (set_sm_ram_usage (sm_ram_usage sm - freed)
                                (set_tile_stores (od_set size store' (tile_stores sm)) sm))
                             (es_freeing st) (es_trace st ++ [ev])) tt
                  | Raise store' e =>
                      Raise (mkEvict (set_tile_stores (od_set size store' (tile_stores sm)) sm)
                               (es_freeing st) (es_trace st ++ [ev])) e
                  end
              end
            else Ret st tt in
          match freed_state with
          | Raise st' e => Raise st' e
          | Ret st' _ =>
              if bool_decide (init_ram (es_sm st') - sm_ram_usage (es_sm st') >= needed)
              then Ret (mkEvict (es_sm st') false (es_trace st')) true
              else evict_tiles onscreen cached needed ts stage size rest st'
          end
      end
  end.

(** The loop [for tile_store in freeable], the stores named by their
    tile sizes. *)
Fixpoint evict_stores (onscreen cached : list nat) (needed : Z) (ts stage : nat)
    (freeable : list nat) (st : evict_state) : outcome evict_state unit :=
  match freeable with
  | [] => Ret st tt
  | size :: rest =>
      match od_get size (tile_stores (es_sm st)) with
      | None => Raise st KeyError
      | Some store =>
          let store' := refresh store onscreen in
          let st1 := mkEvict (set_tile_stores (od_set size store' (tile_stores (es_sm st)))
                                (es_sm st))
                       (es_freeing st) (es_trace st) in
          match evict_tiles onscreen cached needed ts stage size (get_least_used store') st1 with
          | Raise st2 e => Raise st2 e
          | Ret st2 _ => evict_stores onscreen cached needed ts stage rest st2
          end
      end
  end.

(** The loop [while freeing and freeable], one pass per stage; the
    stage goes up by one after every pass that leaves [freeing] set and
    the loop is left at stage 4, so the passes are those of the stages
    in [stages], [[0; 1; 2; 3]] from the start.  Returns
    [freeing_stage]. *)
Fixpoint evict_stages (onscreen cached : list nat) (needed : Z) (ts : nat)
    (freeable : list nat) (stages : list nat) (st : evict_state)
    : outcome evict_state nat :=
  match stages with
  | [] => Ret st 4%nat
  | stage :: later =>
      match evict_stores onscreen cached needed ts stage freeable st with
      | Raise st' e => Raise st' e
      | Ret st' _ =>
          if es_freeing st'
          then evict_stages onscreen cached needed ts freeable later st'
          else Ret st' stage
      end
  end.

(** [freeable = [tst for tst in self.tile_stores.values()
                 if tst.is_smart and tst.ram_usage]] *)
Definition freeable_sizes (sm : Manager) : list nat :=
  map fst (filter (fun b => is_smart (snd b) = true /\ ram_usage (snd b) <> 0)
             (tile_stores sm)).

(** The part of [_stream_thread] under [#free ram]. *)
Definition free_ram (sm : Manager) (onscreen cached : list nat) (needed : Z) (ts : nat)
    : outcome evict_state nat :=
  let usage := foldr Z.add 0 (map (fun b => ram_usage (snd b)) (tile_stores sm)) in
  let st := mkEvict (set_sm_ram_usage usage sm) true [] in
  match freeable_sizes sm with
  | [] => Ret st 0%nat
  | freeable => evict_stages onscreen cached needed ts freeable [0; 1; 2; 3]%nat st
  end.

(** The decode work the job hands to its worker pools.  Decoding reads
    image and video files through PIL and OpenCV; the model ends with
    the tasks dispatched, in the order of dispatch. *)
Inductive task : Type :=
  | BaseTile (tile_idx ts : nat)
  | PicTile (tile_idx size : nat)
  | VidTiles (path : nat) (tile_idxs : list nat) (size : nat)
  | CachedTile (tile_idx ts : nat).

(** [vids]: the video tiles grouped by source file, files in the order
    they first occur. *)
Fixpoint group_by_path (idxs : list nat) (vids : list (nat * list nat))
    : option (list (nat * list nat)) :=
  match idxs with
  | [] => Some vids
  | tile_idx :: rest =>
      tile ← tiles env !! tile_idx;
      let old := default [] (od_get (t_path tile) vids) in
      group_by_path rest (od_set (t_path tile) (old ++ [tile_idx]) vids)
  end.

Record job : Type := mkJob {
  dispatched : list task;
  evictions : list eviction;
  freeing_stage : nat
}.

Definition no_job : job := mkJob [] [] 0.

(** [_stream_thread(onscreen, ts)], [onscreen] being the set of
    requested tiles in iteration order.  The two flags are read as they
    stand when the job starts. *)
Definition stream_thread (sm : Manager) (onscreen : list nat) (ts : nat)
    : outcome Manager job :=
  if stop_streaming_flag sm || never_stream_flag sm then Ret sm no_job
  else
    match od_get ts (tile_stores sm) with
    | None => Raise sm KeyError
    | Some store =>
        let blanks := filter (fun t => t ∉ od_keys (finished store)) onscreen in
        match blanks with
        | [] =>
            Ret (set_tile_stores
                   (map (fun b =>
                           if is_smart (snd b) && negb (ram_usage (snd b) =? 0)
                           then (fst b, refresh (snd b) onscreen) else b)
                      (tile_stores sm)) sm) no_job
        | _ =>
            match compute_needs sm ts blanks with
            | None => Raise sm KeyError
            | Some n =>
                match free_ram sm onscreen (cached_idxs n) (needed_ram n) ts with
                | Raise st e => Raise (es_sm st) e
                | Ret st stage =>
                    match group_by_path (vid_idxs n) [] with
                    | None => Raise (es_sm st) IndexError
                    | Some vids =>
                        let prefetch := prefetch_size_of sm ts in
                        Ret (es_sm st)
                          (mkJob
                             (map (fun t => BaseTile t ts) (base_idxs n)
                              ++ map (fun t => PicTile t prefetch) (pic_idxs n)
                              ++ map (fun v => VidTiles (fst v) (snd v) prefetch) vids
                              ++ map (fun t => CachedTile t ts) (cached_idxs n))
                             (es_trace st) stage)
                    end
                end
            end
        end
    end.

(** The blanks of a request and the tiles the job then flags for
    downscaling from cache ([cached_idxs]); empty when the job does not
    get that far. *)
Definition blanks_of (sm : Manager) (onscreen : list nat) (ts : nat) : list nat :=
  match od_get ts (tile_stores sm) with
  | Some store => filter (fun t => t ∉ od_keys (finished store)) onscreen
  | None => []
  end.

Definition downscale_set (sm : Manager) (onscreen : list nat) (ts : nat) : list nat :=
  match compute_needs sm ts (blanks_of sm onscreen ts) with
  | Some n => cached_idxs n
  | None => []
  end.

(** A copy of the tile at a tier of higher resolution than [size]. *)
Definition has_higher_copy (sm : Manager) (tile_idx size : nat) : Prop :=
  exists size' st,
    (size < size')%nat /\ get_store sm size' = Some st /\ contains st tile_idx = true.

(** A copy of the tile at any tier but [size]. *)
Definition has_other_copy (sm : Manager) (tile_idx size : nat) : Prop :=
  exists size' st,
    size' <> size /\ get_store sm size' = Some st /\ contains st tile_idx = true.

(** What each stage requires of a tile it evicts, as the condition in
    the loop has it. *)
Definition eviction_rule (onscreen cached : list nat) (ts : nat) (ev : eviction) : Prop :=
  match ev_stage ev with
  | 1%nat => ev_tile ev ∉ onscreen
  | 2%nat =>
      ev_size ev <> ts
      /\ exists size,
           find_supersized_tile (ev_before ev) (ev_tile ev) (ev_size ev) = Found size
           /\ size <> 0%nat
  | 3%nat => ev_size ev <> ts /\ ev_tile ev ∉ cached
  | _ => False
  end.

End WithFrame.

End Stream.

(* ================================================================== *)
(** ** The render kernels ([mosaic/render_funcs.py]) *)
(* ================================================================== *)

Module Render.

Import Store.
Local Open Scope Z_scope.

(** An RGB pixel of the [uint8] raster. *)
Definition pixel : Type := Z * Z * Z.
Definition black : pixel := (0, 0, 0).

(** A NumPy array of pixels with two leading axes: its shape and its
    content.  The content function is only read inside the shape. *)
Record image : Type := mkImage {
  im_rows : nat;                       (* shape[0] *)
  im_cols : nat;                       (* shape[1] *)
  im_px : nat -> nat -> pixel
}.

(** The match grid: a two-dimensional array of tile indices. *)
Record grid : Type := mkGrid {
  g_shape0 : nat;
  g_shape1 : nat;
  g_cell : nat -> nat -> nat
}.

(** What can go wrong in a kernel. *)
Inductive fault : Type :=
  | MatchOutOfRange          (* match_list[y, x] outside the grid *)
  | TileMapOutOfRange        (* tile_map[match_id] *)
  | EndFrameMapOutOfRange    (* end_frame_map[match_id] *)
  | ModulusByZero            (* frame_pos % 0 *)
  | StoreOutOfRange          (* tile_store[mapped_id] on the array *)
  | ShapeMismatch.           (* the tile does not fit the slice *)

Inductive result (A : Type) : Type :=
  | Ok (a : A)
  | Fault (f : fault).
Arguments Ok {A} a.
Arguments Fault {A} f.

Definition bind {A B} (r : result A) (k : A -> result B) : result B :=
  match r with Ok a => k a | Fault f => Fault f end.

Definition of_option {A} (f : fault) (o : option A) : result A :=
  match o with Some a => Ok a | None => Fault f end.

Fixpoint foldM {A B} (step : A -> B -> result A) (a : A) (l : list B) : result A :=
  match l with
  | [] => Ok a
  | b :: l' => bind (step a b) (fun a' => foldM step a' l')
  end.

(** An index along an axis of length [n]: a negative one counts from
    the end, and out of range is out of range. *)
Definition axis_index (n : nat) (i : Z) : option nat :=
  let i' := if i <? 0 then i + Z.of_nat n else i in
  if (0 <=? i') && (i' <? Z.of_nat n) then Some (Z.to_nat i') else None.

(** [match_list[y, x]] *)
Definition read_grid (g : grid) (y x : Z) : option nat :=
  yi ← axis_index (g_shape0 g) y;
  xi ← axis_index (g_shape1 g) x;
  Some (g_cell g yi xi).

(** [np.zeros((rows, cols, 3), dtype=np.uint8)] *)
Definition zeros (rows cols : nat) : image := mkImage rows cols (fun _ _ => black).

(** [mosaic[a : a + size, b : b + size] = tile].  The loops only yield
    slices that lie inside the raster; a slice that does not, or a tile
    of another shape, is reported as a fault. *)
Definition slice_assign (mosaic : image) (a b : Z) (size : nat) (tile : image)
    : result image :=
  if (0 <=? a) && (a + Z.of_nat size <=? Z.of_nat (im_rows mosaic))
     && (0 <=? b) && (b + Z.of_nat size <=? Z.of_nat (im_cols mosaic))
     && (im_rows tile =? size)%nat && (im_cols tile =? size)%nat
  then
    Ok (mkImage (im_rows mosaic) (im_cols mosaic)
          (fun i j =>
             if (a <=? Z.of_nat i) && (Z.of_nat i <? a + Z.of_nat size)
                && (b <=? Z.of_nat j) && (Z.of_nat j <? b + Z.of_nat size)
             then im_px tile (Z.to_nat (Z.of_nat i - a)) (Z.to_nat (Z.of_nat j - b))
             else im_px mosaic i j))
  else Fault ShapeMismatch.

(** [range(lo, hi)] *)
Definition range (lo hi : Z) : list Z := seqZ lo (hi - lo).

Section Kernel.

(** The arguments of a kernel.  [hybrid] adds
    [frame_pos % end_frame_map[match_id]] to the mapped index. *)
Variables (x_start : Z) (x_len : nat) (y_start : Z) (y_len : nat).
Variable tile_map : list Z.
Variable tile_store : raw_store (Frame := image).
Variable match_list : grid.
Variable tile_size : nat.
Variable hybrid : bool.
Variable frame_pos : Z.
Variable end_frame_map : list Z.

(** [mapped_id] *)
Definition mapped_id (match_id : nat) : result Z :=
  bind (of_option TileMapOutOfRange (tile_map !! match_id)) (fun base =>
  if hybrid then
    bind (of_option EndFrameMapOutOfRange (end_frame_map !! match_id)) (fun e =>
    if e =? 0 then Fault ModulusByZero
    else Ok (base + frame_pos mod e))
  else Ok base).

(** The tile to draw: [tile_store[mapped_id]] on the array,
    [tile_dict.get(mapped_id)] on the dictionary, where [None] means
    the cell is skipped. *)
Definition fetch (mapped : Z) : result (option image) :=
  match tile_store with
  | Fast arr =>
      match axis_index (length arr) mapped with
      | Some i => of_option StoreOutOfRange (Some <$> arr !! i)
      | None => Fault StoreOutOfRange
      end
  | Smart d =>
      Ok (if 0 <=? mapped then d !! Z.to_nat mapped else None)
  end.

(** The body of the inner loop, for the cell [(y, x)]. *)
Definition draw_cell (mosaic : image) (y x : Z) : result image :=
  bind (of_option MatchOutOfRange (read_grid match_list y x)) (fun match_id =>
  bind (mapped_id match_id) (fun mapped =>
  bind (fetch mapped) (fun tile =>
  match tile with
  | None => Ok mosaic
  | Some t =>
      slice_assign mosaic ((x - x_start) * Z.of_nat tile_size)
        ((y - y_start) * Z.of_nat tile_size) tile_size t
  end))).

Definition xs : list Z :=
  range (Z.max x_start 0) (Z.min (x_start + Z.of_nat x_len) (Z.of_nat (g_shape1 match_list))).

Definition ys : list Z :=
  range (Z.max y_start 0) (Z.min (y_start + Z.of_nat y_len) (Z.of_nat (g_shape0 match_list))).

(** The two loops of a kernel; the rows of [numba.prange] are taken in
    order, their writes going to disjoint parts of the raster. *)
Definition draw_kernel : result image :=
  foldM (fun mosaic y => foldM (fun mosaic' x => draw_cell mosaic' y x) mosaic xs)
    (zeros (x_len * tile_size) (y_len * tile_size)) ys.

End Kernel.

(** The eight kernels.  They share the loops; the smart ones read a
    dictionary, the hybrid ones add the frame offset, and the [_st]
    ones differ in the decorator only. *)
Definition draw_fast_static x_start x_len y_start y_len tile_map tile_store match_list tile_size :=
  draw_kernel x_start x_len y_start y_len tile_map tile_store match_list tile_size false 0 [].
Definition draw_smart_static x_start x_len y_start y_len tile_map tile_dict match_list tile_size :=
  draw_kernel x_start x_len y_start y_len tile_map tile_dict match_list tile_size false 0 [].
Definition draw_fast_hybrid x_start x_len y_start y_len tile_map tile_store match_list tile_size
    frame_pos end_frame_map :=
  draw_kernel x_start x_len y_start y_len tile_map tile_store match_list tile_size
    true frame_pos end_frame_map.
Definition draw_smart_hybrid x_start x_len y_start y_len tile_map tile_dict match_list tile_size
    frame_pos end_frame_map :=
  draw_kernel x_start x_len y_start y_len tile_map tile_dict match_list tile_size
    true frame_pos end_frame_map.
Definition draw_fast_static_st := draw_fast_static.
Definition draw_smart_static_st := draw_smart_static.
Definition draw_fast_hybrid_st := draw_fast_hybrid.
Definition draw_smart_hybrid_st := draw_smart_hybrid.

(** [isinstance(tile_store, np.ndarray)] *)
Definition is_array (tile_store : raw_store (Frame := image)) : bool :=
  match tile_store with Fast _ => true | Smart _ => false end.

(** [draw]: the mask [is_fast*100 + is_hybrid*10 + is_st] picks the
    kernel; [None] is what falls out of the [match] when no case
    applies. *)
Definition draw (x_start : Z) (x_len : nat) (y_start : Z) (y_len : nat)
    (tile_map : list Z) (tile_store : raw_store (Frame := image)) (match_arr : grid)
    (tile_size : nat) (is_hybrid : bool) (frame_pos : Z) (end_frame_map : list Z)
    (st_flag : bool) (cpu_count : nat) : option (result image) :=
  let is_hybrid := Nat.b2n is_hybrid in
  let is_st := Nat.b2n (st_flag || (y_len <=? cpu_count)%nat) in
  let is_fast := Nat.b2n (is_array tile_store) in
  let mask := (is_fast * 100 + is_hybrid * 10 + is_st)%nat in
  match mask with
  | 0%nat => Some (draw_smart_static x_start x_len y_start y_len tile_map tile_store
                     match_arr tile_size)
  | 1%nat => Some (draw_smart_static_st x_start x_len y_start y_len tile_map tile_store
                     match_arr tile_size)
  | 10%nat => Some (draw_smart_hybrid x_start x_len y_start y_len tile_map tile_store
                      match_arr tile_size frame_pos end_frame_map)
  | 11%nat => Some (draw_smart_hybrid_st x_start x_len y_start y_len tile_map tile_store
                      match_arr tile_size frame_pos end_frame_map)
  | 100%nat => Some (draw_fast_static x_start x_len y_start y_len tile_map tile_store
                       match_arr tile_size)
  | 101%nat => Some (draw_fast_static_st x_start x_len y_start y_len tile_map tile_store
                       match_arr tile_size)
  | 110%nat => Some (draw_fast_hybrid x_start x_len y_start y_len tile_map tile_store
                       match_arr tile_size frame_pos end_frame_map)
  | 111%nat => Some (draw_fast_hybrid_st x_start x_len y_start y_len tile_map tile_store
                       match_arr tile_size frame_pos end_frame_map)
  | _ => None
  end.

(** The tile a smart kernel draws in the cell [(y, x)] of the grid, if
    the dictionary holds one. *)
Definition cell_tile (tile_map : list Z) (d : gmap nat image) (match_list : grid)
    (hybrid : bool) (frame_pos : Z) (end_frame_map : list Z) (y x : nat) : option image :=
  base ← tile_map !! g_cell match_list y x;
  offset ← (if hybrid
            then (fun e => frame_pos mod e) <$> end_frame_map !! g_cell match_list y x
            else Some 0);
  if 0 <=? base + offset then d !! Z.to_nat (base + offset) else None.

(** [(y, x)] is a cell of the grid. *)
Definition on_grid (match_list : grid) (y x : Z) : bool :=
  (0 <=? y) && (y <? Z.of_nat (g_shape0 match_list))
  && (0 <=? x) && (x <? Z.of_nat (g_shape1 match_list)).

(** The tile a smart kernel draws in the block [(cx, cy)] of the
    raster: the one of the cell [(y_start + cy, x_start + cx)], when
    that cell is on the grid and the dictionary holds its tile. *)
Definition block_tile (x_start y_start : Z) (tile_map : list Z) (d : gmap nat image)
    (match_list : grid) (hybrid : bool) (frame_pos : Z) (end_frame_map : list Z)
    (cy cx : nat) : option image :=
  let y := y_start + Z.of_nat cy in
  let x := x_start + Z.of_nat cx in
  if on_grid match_list y x
  then cell_tile tile_map d match_list hybrid frame_pos end_frame_map (Z.to_nat y) (Z.to_nat x)
  else None.

(** The maps cover the tile indices of the cells the loops visit, and
    in hybrid mode no such tile has length zero. *)
Definition maps_ok (x_start : Z) (x_len : nat) (y_start : Z) (y_len : nat)
    (tile_map : list Z) (match_list : grid) (hybrid : bool) (end_frame_map : list Z) : Prop :=
  forall y x, y ∈ ys y_start y_len match_list -> x ∈ xs x_start x_len match_list ->
    let match_id := g_cell match_list (Z.to_nat y) (Z.to_nat x) in
    is_Some (tile_map !! match_id)
    /\ (hybrid = true -> exists e, end_frame_map !! match_id = Some e /\ e <> 0).

(** Every frame of the dictionary is a [tile_size] square. *)
Definition tiles_fit (d : gmap nat image) (tile_size : nat) : Prop :=
  forall k t, d !! k = Some t -> im_rows t = tile_size /\ im_cols t = tile_size.

End Render.

(* ================================================================== *)
(** * Tiles and the rendering maps ([tiles.py], [stage_mosaic.py]) *)
(* ================================================================== *)

Module Tiles.

Import Match.
Local Open Scope Z_scope.

(** [x or default] on an optional integer: [None] and [0] are falsy. *)
Definition or_default (x : option Z) (default : Z) : Z :=
  match x with
  | Some v => if v =? 0 then default else v
  | None => default
  end.

(** The fields of a [Tile] that its frame count depends on. *)
Record Tile : Type := mkTile {
  source_type : Stream.source_type;
  frame_idx : Z;
  end_frame_idx : Z;
  len : Z
}.

(** [Tile.__init__] *)
Definition new_Tile (source_type : Stream.source_type)
    (tile_frame_idx end_frame_idx : option Z) : Tile :=
  let frame_idx := or_default tile_frame_idx 0 in
  let end_frame_idx := or_default end_frame_idx 1 in
  mkTile source_type frame_idx end_frame_idx (end_frame_idx - frame_idx).

(** [pic_tile]: nothing is returned for a picture that cannot be read,
    and the tile is built without frame indices otherwise. *)
Definition pic_tile (readable : bool) : option Tile :=
  if readable then Some (new_Tile Stream.Pic None None) else None.

(** [mse(a, b) > threshold] of [tiles_funcs.py] on two [uint16]
    colours: the differences and their squares are taken in [uint64],
    and the third of their sum is compared with the integer setting. *)
Definition mse_above (a b : colour) (threshold : Z) : bool :=
  let '(ar, ag, ab) := a in
  let '(br, bg, bb) := b in
  let cr := u64 (ar - br) in
  let cg := u64 (ag - bg) in
  let cb := u64 (ab - bb) in
  3 * threshold <? u64 (u64 (u64 (cr * cr) + u64 (cg * cg)) + u64 (cb * cb)).

(** The second pass over the colours of a tile candidate: the end
    frame is moved before the first frame [j] whose colour is too far
    from the colour of the first frame. *)
Fixpoint scan_colours (avg_colour : colour) (threshold frame_idx j : Z)
    (cs : list colour) (end_frame : Z) : Z :=
  match cs with
  | [] => end_frame
  | c :: cs' =>
      if mse_above avg_colour c threshold then j - 1 + frame_idx
      else scan_colours avg_colour threshold frame_idx (j + 1) cs' end_frame
  end.

(** One turn of the loop of [video_tiles] over the good frames: the
    tile it appends, if it appends one.  A colour missing from
    [colours] is a [KeyError]. *)
Definition video_tile (colours : gmap Z colour) (threshold : Z) (good_idxs : list Z)
    (i : nat) (frame_idx : Z) : option (option Tile) :=
  avg_colour ← colours !! frame_idx;
  end_frame ← good_idxs !! S i;
  cs ← mapM (fun k => colours !! k) (seqZ frame_idx (end_frame - frame_idx));
  let end_frame := scan_colours avg_colour threshold frame_idx 0 cs end_frame in
  Some (if end_frame <=? frame_idx then None
        else Some (new_Tile Stream.Vid (Some frame_idx) (Some end_frame))).

(** [video_tiles], from the data of the frame cache: the indices of the
    good frames in the order of the dictionary, the indices of all
    frames, the colour of every frame. *)
Definition video_tiles (good_frames : list Z) (frame_dict : list Z)
    (colours : gmap Z colour) (threshold : Z) : option (list Tile) :=
  last_frame ← last (merge_sort Z.le frame_dict);
  let good_idxs := good_frames ++ [last_frame] in
  omap id <$> mapM (fun p : nat * Z => video_tile colours threshold good_idxs (fst p) (snd p))
                (imap pair good_frames).

(** The tiles that the two constructors return. *)
Definition constructed (t : Tile) : Prop :=
  pic_tile true = Some t
  \/ exists good_frames frame_dict colours threshold ts,
       video_tiles good_frames frame_dict colours threshold = Some ts /\ t ∈ ts.

(** ** Step 5 of [process_mosaic] *)

Inductive mode : Type := ModePic | ModeHyb | ModeVid.

Definition is_vid (m : mode) : bool :=
  match m with ModeVid => true | _ => false end.

Record maps : Type := mkMaps {
  tile_map : list Z;        (* np.int32 *)
  tile_len_map : list Z;    (* np.int32 *)
  mean_tile_len : Z;
  max_tile_len : Z;
  total_frames : Z
}.

(** [int(np.mean(tile_lens))]; the mean of no number is [nan], which
    [int] refuses.  The sum is exact in [float64] below [2 ^ 53]. *)
Definition int_mean (l : list Z) : option Z :=
  match l with
  | [] => None
  | _ => Some (Z.quot (foldr Z.add 0 l) (Z.of_nat (length l)))
  end.

(** [max(tile_lens)] *)
Definition py_max (l : list Z) : option Z :=
  match l with
  | [] => None
  | x :: l' => Some (foldl Z.max x l')
  end.

(** [np.max(matches) + 1] *)
Definition np_max_succ (matches : list nat) : option nat :=
  match matches with
  | [] => None
  | _ => Some (max_list matches + 1)%nat
  end.

(** The body of the loop that fills the maps. *)
Definition map_step (tiles : list Tile) (max_tile_len : Z)
    (st : list Z * list Z * Z) (tile_idx : nat) : option (list Z * list Z * Z) :=
  let '(tile_map, tile_len_map, offset) := st in
  if decide (tile_idx < length tile_map)%nat then
    t ← tiles !! tile_idx;
    let frame_count := Z.min (len t) max_tile_len in
    Some (<[tile_idx := i32 offset]> tile_map,
          <[tile_idx := i32 frame_count]> tile_len_map,
          offset + frame_count)
  else None.

Fixpoint map_loop (tiles : list Tile) (max_tile_len : Z)
    (st : list Z * list Z * Z) (streamable : list nat) : option (list Z * list Z * Z) :=
  match streamable with
  | [] => Some st
  | tile_idx :: rest =>
      st' ← map_step tiles max_tile_len st tile_idx;
      map_loop tiles max_tile_len st' rest
  end.

(** Step 5.  [unique_tiles] is the set of the matches in the order
    Python iterates it; in ["vid"] mode the matches are [None] and are
    not looked at. *)
Definition rendering_maps (m : mode) (CAP_TILE_LENGTHS : bool) (tiles : list Tile)
    (matches unique_tiles : list nat) : option maps :=
  let streamable := if is_vid m then seq 0 (length tiles) else unique_tiles in
  map_size ← (if is_vid m then Some (length tiles) else np_max_succ matches);
  tile_lens ← mapM (fun tile_idx => len <$> tiles !! tile_idx) streamable;
  mean_tile_len ← int_mean tile_lens;
  max_tile_len ← match m with
                 | ModeHyb => if CAP_TILE_LENGTHS then Some mean_tile_len else py_max tile_lens
                 | _ => Some 1
                 end;
  '(tile_map, tile_len_map, offset) ←
    map_loop tiles max_tile_len (replicate map_size 0, replicate map_size 0, 0) streamable;
  Some (mkMaps tile_map tile_len_map mean_tile_len max_tile_len offset).

(** [unique_tiles = set(matches)] *)
Definition set_of (unique_tiles matches : list nat) : Prop :=
  NoDup unique_tiles /\ forall i, i ∈ unique_tiles <-> i ∈ matches.

(** [np.reshape(matches, (h, w))] of the renderer. *)
Definition reshape (matches : list nat) (h w : nat) : option Render.grid :=
  if decide (h * w = length matches)%nat
  then Some (Render.mkGrid h w (fun y x => matches !!! (y * w + x)%nat))
  else None.

(** The frame offset of the hybrid kernels is defined on the maps [mp]
    and the grid [g]: for every rectangle, store and frame position,
    each cell the loops visit gets [tile_map[match_id] + frame_pos %
    end_frame_map[match_id]] with a positive modulus, and [draw] does
    not stop on a modulus by zero. *)
Definition hybrid_offsets_defined (mp : maps) (g : Render.grid) : Prop :=
  forall x_start x_len y_start y_len tile_store tile_size frame_pos st_flag cpu_count,
    (forall y x,
       y ∈ Render.ys y_start y_len g -> x ∈ Render.xs x_start x_len g ->
       exists base e,
         1 <= e
         /\ Render.mapped_id (tile_map mp) true frame_pos (tile_len_map mp)
              (Render.g_cell g (Z.to_nat y) (Z.to_nat x))
            = Render.Ok (base + frame_pos mod e))
    /\ Render.draw x_start x_len y_start y_len (tile_map mp) tile_store g tile_size
         true frame_pos (tile_len_map mp) st_flag cpu_count
       <> Some (Render.Fault Render.ModulusByZero).

End Tiles.

(* ================================================================== *)
(** ** [mosaic/tiles_funcs.py]: cropping *)
(* ================================================================== *)

Module Funcs.

Import Render.

(** [crop]: the slice
    [array[start_y : start_y + min_dim, start_x : start_x + min_dim]];
    [copy] decides whether the result shares memory with the input,
    which does not show in its content. *)
Definition crop (array : image) : image :=
  let min_dim := Nat.min (im_rows array) (im_cols array) in
  let start_y := ((im_rows array - min_dim) / 2)%nat in
  let start_x := ((im_cols array - min_dim) / 2)%nat in
  mkImage min_dim min_dim (fun i j => im_px array (start_y + i) (start_x + j)).

End Funcs.

(* ================================================================== *)
(** ** [stage_mosaic.py]: filtering the tiles by colour *)
(* ================================================================== *)

Module Stage.

Import Match.
Local Open Scope Z_scope.

(** [Tile.colour_key]: the average colour as [np.int32] channels,
    [avg_colour[0] << 16 | avg_colour[1] << 8 | avg_colour[2]]. *)
Definition colour_key (avg_colour : colour) : Z :=
  let '(r, g, b) := avg_colour in
  i32 (Z.lor (i32 (Z.lor (i32 (Z.shiftl (i32 r) 16)) (i32 (Z.shiftl (i32 g) 8)))) (i32 b)).

Section Filter.

(** The tiles, of which the filter reads the average colour only. *)
Context {T : Type}.
Variable avg_colour : T -> colour.

(** The loop of [filter_tiles]. *)
Fixpoint filter_loop (tiles : list T) (tile_set : gset Z) (filtered_tiles : list T)
    : list T :=
  match tiles with
  | [] => filtered_tiles
  | tile :: rest =>
      if decide (colour_key (avg_colour tile) ∈ tile_set)
      then filter_loop rest tile_set filtered_tiles
      else filter_loop rest ({[ colour_key (avg_colour tile) ]} ∪ tile_set)
             (filtered_tiles ++ [tile])
  end.

(** [filter_tiles]; the percentage it prints divides by [len(tiles)],
    so no tiles at all is a [ZeroDivisionError], here [None]. *)
Definition filter_tiles (tiles : list T) : option (list T) :=
  let filtered_tiles := filter_loop tiles ∅ [] in
  if (length tiles =? 0)%nat then None else Some filtered_tiles.

End Filter.

End Stage.

(* ================================================================== *)
(** ** [mosaic/render_classes.py]: the smallest tile size of [resize] *)
(* ================================================================== *)

Module Renderer.

Local Open Scope Z_scope.

(** The loop of [resize] from the tile size [ts] on: the size is
    doubled while the mosaic, [scaled_size] tiles of that size, fits
    the display [size] both ways, and [min_size] is half of the first
    size that does not fit.  [fuel] bounds the turns of [while True];
    [None] is a loop that is still running when it is used up. *)
Fixpoint min_size_from (fuel : nat) (scaled_size size : Z * Z) (ts : Z) : option Z :=
  match fuel with
  | O => None
  | S fuel' =>
      if (fst scaled_size * ts <=? fst size) && (snd scaled_size * ts <=? snd size)
      then min_size_from fuel' scaled_size size (ts * 2)
      else Some (ts / 2)
  end.

Definition min_size (fuel : nat) (scaled_size size : Z * Z) : option Z :=
  min_size_from fuel scaled_size size 1.

End Renderer.

(* ================================================================== *)
(** ** Facts about the single-choice matcher *)
(* ================================================================== *)

Section MatchFacts.

Import Match.
Local Open Scope Z_scope.

Lemma u16_small z : 0 <= z < 2 ^ 16 -> u16 z = z.
Proof. intros H. unfold u16. apply Z.mod_small. exact H. Qed.

Lemma u64_small z : 0 <= z < 2 ^ 64 -> u64 z = z.
Proof. intros H. unfold u64. apply Z.mod_small. exact H. Qed.

Lemma i32_small z : - 2 ^ 31 <= z < 2 ^ 31 -> i32 z = z.
Proof.
  intros H. unfold i32. rewrite Z.mod_small; lia.
Qed.

Lemma sq_byte_bound z : 0 <= z < 256 -> 0 <= z * z <= 65025.
Proof. intros H. nia. Qed.

(** The squares of 8-bit channels do not wrap in [uint16]. *)
Lemma sum_sq_exact r g b :
  colour_ok (r, g, b) -> sum_sq (r, g, b) = r * r + g * g + b * b.
Proof.
  intros (Hr & Hg & Hb). unfold sum_sq.
  pose proof (sq_byte_bound r Hr). pose proof (sq_byte_bound g Hg).
  pose proof (sq_byte_bound b Hb).
  rewrite !u16_small by lia. apply u64_small. lia.
Qed.

(** Expanding the square: the shortcut value is the Euclidean distance
    minus the squared norm of the pixel. *)
Lemma shortcut_is_euclid_shifted a p :
  colour_ok a -> sum_sq a - 2 * dot a p = euclid p a - dot p p.
Proof.
  destruct a as [[ar ag] ab], p as [[pr pg] pb]. intros Ha.
  rewrite sum_sq_exact by exact Ha. unfold dot, euclid. ring.
Qed.

Lemma distances_shift avg p :
  Forall colour_ok avg ->
  distances avg (sum_avg_sq avg) p = map (fun d => d - dot p p) (map (euclid p) avg).
Proof.
  unfold distances, sum_avg_sq. induction 1 as [|a avg Ha _ IH]; simpl.
  - reflexivity.
  - rewrite IH. f_equal. apply shortcut_is_euclid_shifted, Ha.
Qed.

Lemma argmin_from_shift c l : forall bi b i,
  argmin_from bi (b - c) i (map (fun d => d - c) l) = argmin_from bi b i l.
Proof.
  induction l as [|d l IH]; intros bi b i; simpl.
  - reflexivity.
  - replace (d - c <? b - c) with (d <? b).
    + destruct (d <? b); apply IH.
    + destruct (Z.ltb_spec d b), (Z.ltb_spec (d - c) (b - c)); lia.
Qed.

(** Dropping a per-pixel constant does not move the first minimum. *)
Lemma argmin_shift c l : argmin (map (fun d => d - c) l) = argmin l.
Proof.
  destruct l as [|d l]; simpl.
  - reflexivity.
  - f_equal. apply argmin_from_shift.
Qed.

Lemma shortcut_argmin_is_brute_force avg p :
  Forall colour_ok avg ->
  argmin (distances avg (sum_avg_sq avg) p) = brute_force_match avg p.
Proof.
  intros Havg. rewrite distances_shift by exact Havg.
  unfold brute_force_match. apply argmin_shift.
Qed.

(** [argmin] really is an index of a minimum, and the first one. *)
Lemma argmin_from_spec l : forall bi b i j,
  argmin_from bi b i l = j ->
  (j = bi /\ Forall (fun d => b <= d) l) \/
  (exists k d, j = (i + k)%nat /\ l !! k = Some d /\ d < b
     /\ Forall (fun e => d <= e) l
     /\ (forall k' e, (k' < k)%nat -> l !! k' = Some e -> d < e)).
Proof.
  induction l as [|d l IH]; intros bi b i j Hj; simpl in Hj.
  - left. split; [congruence | constructor].
  - destruct (Z.ltb_spec d b) as [Hlt | Hge].
    + right.
      destruct (IH _ _ _ _ Hj) as [[-> Hall] | (k & e & -> & Hk & Hlt' & Hall & Hfirst)].
      * exists 0%nat, d.
        split; [lia|]. split; [reflexivity|]. split; [exact Hlt|].
        split; [constructor; [lia | exact Hall]|].
        intros k' e Hk'. lia.
      * exists (S k), e.
        split; [lia|]. split; [exact Hk|]. split; [lia|].
        split; [constructor; [lia | exact Hall]|].
        intros [|k'] e' Hk' He'; simpl in He'.
        -- injection He' as <-. lia.
        -- apply (Hfirst k' e'); [lia | exact He'].
    + destruct (IH _ _ _ _ Hj) as [[-> Hall] | (k & e & -> & Hk & Hlt' & Hall & Hfirst)].
      * left. split; [reflexivity | constructor; [lia | exact Hall]].
      * right. exists (S k), e.
        split; [lia|]. split; [exact Hk|]. split; [exact Hlt'|].
        split; [constructor; [lia | exact Hall]|].
        intros [|k'] e' Hk' He'; simpl in He'.
        -- injection He' as <-. lia.
        -- apply (Hfirst k' e'); [lia | exact He'].
Qed.

Lemma argmin_spec l j :
  argmin l = Some j ->
  exists d, l !! j = Some d /\ Forall (fun e => d <= e) l
    /\ (forall k e, (k < j)%nat -> l !! k = Some e -> d < e).
Proof.
  destruct l as [|d0 l]; simpl; [discriminate|].
  intros [= Hj].
  destruct (argmin_from_spec _ _ _ _ _ Hj) as [[-> Hall] | (k & e & -> & Hk & Hlt & Hall & Hfirst)].
  - exists d0. split; [reflexivity|].
    split; [constructor; [lia | exact Hall] | intros; lia].
  - exists e. split; [exact Hk|].
    split; [constructor; [lia | exact Hall]|].
    intros [|k'] e' Hk' He'; simpl in He'.
    + injection He' as <-. exact Hlt.
    + apply (Hfirst k' e'); [lia | exact He'].
Qed.

Lemma argmin_is_Some l : l <> [] -> exists j, argmin l = Some j /\ (j < length l)%nat.
Proof.
  destruct l as [|d l]; [congruence|]. intros _. eexists. split; [reflexivity|].
  destruct (argmin_spec (d :: l) _ eq_refl) as (e & He & _).
  apply lookup_lt_Some in He. exact He.
Qed.

(** *** The memo key *)

Lemma lor_disjoint a b n :
  0 <= n -> 0 <= b < 2 ^ n -> Z.lor (a * 2 ^ n) b = a * 2 ^ n + b.
Proof.
  intros Hn Hb. symmetry. apply Z.add_nocarry_lor.
  apply Z.bits_inj'. intros m Hm.
  rewrite Z.land_spec, Z.bits_0.
  destruct (Z.lt_ge_cases m n) as [Hlt | Hge].
  - rewrite Z.mul_pow2_bits_low by exact Hlt. reflexivity.
  - destruct (Z.eq_dec b 0) as [-> | Hb0].
    + rewrite Z.bits_0. apply andb_false_r.
    + rewrite (Z.bits_above_log2 b m); [apply andb_false_r | lia |].
      assert (Z.log2 b < n) by (apply Z.log2_lt_pow2; lia). lia.
Qed.

Lemma key_linear r g b :
  colour_ok (r, g, b) -> key (r, g, b) = r * 65536 + g * 256 + b.
Proof.
  intros (Hr & Hg & Hb). unfold key.
  rewrite !Z.shiftl_mul_pow2 by lia.
  change (2 ^ 16) with (256 * 2 ^ 8).
  replace (r * (256 * 2 ^ 8)) with (r * 256 * 2 ^ 8) by ring.
  rewrite <- Z.shiftl_mul_pow2 by lia.
  rewrite <- Z.shiftl_mul_pow2 by lia.
  rewrite <- Z.shiftl_lor.
  rewrite !Z.shiftl_mul_pow2 by lia.
  change (2 ^ 8) with 256.
  assert (Z.lor (r * 256) g = r * 256 + g) as ->.
  { change 256 with (2 ^ 8). apply lor_disjoint; lia. }
  change 256 with (2 ^ 8). rewrite lor_disjoint by lia.
  change (2 ^ 8) with 256. ring.
Qed.

(** Distinct 8-bit colours get distinct cells of the memo table. *)
Lemma key_inj s1 s2 :
  colour_ok s1 -> colour_ok s2 -> key s1 = key s2 -> s1 = s2.
Proof.
  destruct s1 as [[r1 g1] b1], s2 as [[r2 g2] b2]. intros H1 H2 Hk.
  rewrite !key_linear in Hk by assumption.
  destruct H1 as (? & ? & ?), H2 as (? & ? & ?).
  assert (r1 = r2) by lia. assert (g1 = g2) by lia. assert (b1 = b2) by lia.
  congruence.
Qed.

Lemma key_range s : colour_ok s -> 0 <= key s < 2 ^ 24.
Proof.
  destruct s as [[r g] b]. intros Hs. rewrite key_linear by exact Hs.
  destruct Hs as (? & ? & ?). lia.
Qed.

End MatchFacts.

(* ================================================================== *)
(** ** The memo table is transparent *)
(* ================================================================== *)

Section MemoFacts.

Import Match.
Local Open Scope Z_scope.

Variables (avg : list colour) (ssq : list Z).

(** Every written cell holds what a fresh match of its colour gives. *)
Definition consistent_1d (cmap : gmap Z Z) : Prop :=
  forall s, colour_ok s ->
    cmap_get cmap (key s) = -1 \/ fresh_1d avg ssq s = Some (cmap_get cmap (key s)).

Definition consistent_st (cmap : gmap Z Z) : Prop :=
  forall s, colour_ok s ->
    cmap_get cmap (key s) = -1 \/ cmap_get cmap (key s) = fresh_st avg ssq s.

Lemma consistent_1d_empty : consistent_1d ∅.
Proof. intros s _. left. reflexivity. Qed.

Lemma consistent_st_empty : consistent_st ∅.
Proof. intros s _. left. reflexivity. Qed.

Lemma cmap_get_set_eq cmap k v : cmap_get (cmap_set cmap k v) k = i32 v.
Proof. unfold cmap_get, cmap_set. rewrite lookup_insert_eq. reflexivity. Qed.

Lemma cmap_get_set_ne cmap k k' v :
  k <> k' -> cmap_get (cmap_set cmap k v) k' = cmap_get cmap k'.
Proof. intros Hne. unfold cmap_get, cmap_set. rewrite lookup_insert_ne by exact Hne. reflexivity. Qed.

Lemma match_pixel_1d_fresh cmap s :
  consistent_1d cmap -> colour_ok s ->
  snd <$> match_pixel_1d avg ssq cmap s = fresh_1d avg ssq s.
Proof.
  intros Hc Hs. unfold match_pixel_1d, fresh_1d.
  destruct (Z.eqb_spec (cmap_get cmap (key s)) (-1)) as [Heq | Hne].
  - destruct (argmin (distances avg ssq s)); reflexivity.
  - destruct (Hc s Hs) as [H | H]; [contradiction|].
    unfold fresh_1d in H. rewrite H. reflexivity.
Qed.

Lemma match_pixel_1d_consistent cmap s cmap' t :
  consistent_1d cmap -> colour_ok s ->
  match_pixel_1d avg ssq cmap s = Some (cmap', t) -> consistent_1d cmap'.
Proof.
  intros Hc Hs. unfold match_pixel_1d.
  destruct (Z.eqb_spec (cmap_get cmap (key s)) (-1)) as [Heq | Hne].
  - destruct (argmin (distances avg ssq s)) as [i|] eqn:Hi; simpl; [|discriminate].
    intros [= <- <-] s' Hs'.
    destruct (Z.eq_dec (key s) (key s')) as [Hk | Hk].
    + right. apply key_inj in Hk; [subst s' | assumption..].
      rewrite cmap_get_set_eq. unfold fresh_1d. rewrite Hi. reflexivity.
    + rewrite cmap_get_set_ne by exact Hk. apply Hc, Hs'.
  - intros [= <- <-]. exact Hc.
Qed.

Lemma lane_1d_fresh sub : forall cmap,
  consistent_1d cmap -> Forall colour_ok sub ->
  snd <$> lane_1d avg ssq cmap sub = mapM (fresh_1d avg ssq) sub
  /\ (forall cmap' row, lane_1d avg ssq cmap sub = Some (cmap', row) -> consistent_1d cmap').
Proof.
  induction sub as [|s sub IH]; intros cmap Hc Hok; simpl.
  - split; [reflexivity|]. intros ? ? [= <- <-]. exact Hc.
  - apply Forall_cons in Hok as [Hs Hok].
    pose proof (match_pixel_1d_fresh cmap s Hc Hs) as Hf.
    destruct (match_pixel_1d avg ssq cmap s) as [[cmap1 t]|] eqn:Hm; simpl in *.
    + rewrite <- Hf. simpl.
      pose proof (match_pixel_1d_consistent _ _ _ _ Hc Hs Hm) as Hc1.
      destruct (IH cmap1 Hc1 Hok) as [Hrow Hcons].
      rewrite <- Hrow.
      destruct (lane_1d avg ssq cmap1 sub) as [[cmap2 ts]|] eqn:Hl; simpl.
      * split; [reflexivity|]. intros ? ? [= <- <-]. apply (Hcons _ _ eq_refl).
      * split; [reflexivity | discriminate].
    + rewrite <- Hf. simpl. split; [reflexivity | discriminate].
Qed.

Lemma subslice_ok blocks sl i : Forall colour_ok blocks -> Forall colour_ok (subslice blocks sl i).
Proof. intros H. unfold subslice. apply Forall_take, Forall_drop, H. Qed.

Lemma lanes_1d_fresh blocks sl ids : forall cmap,
  consistent_1d cmap -> Forall colour_ok blocks ->
  snd <$> lanes_1d avg ssq blocks sl cmap ids
  = @concat Z <$> mapM (fun i => pad_row 0 sl <$> mapM (fresh_1d avg ssq) (subslice blocks sl i)) ids.
Proof.
  induction ids as [|i ids IH]; intros cmap Hc Hok; simpl.
  - reflexivity.
  - destruct (lane_1d_fresh (subslice blocks sl i) cmap Hc (subslice_ok _ _ _ Hok)) as [Hrow Hcons].
    rewrite <- Hrow.
    destruct (lane_1d avg ssq cmap (subslice blocks sl i)) as [[cmap1 row]|] eqn:Hl; simpl.
    + specialize (IH cmap1 (Hcons _ _ eq_refl) Hok).
      destruct (lanes_1d avg ssq blocks sl cmap1 ids) as [[cmap2 out]|];
        destruct (mapM _ ids) as [k|]; simpl in IH |- *;
        try discriminate; try reflexivity.
      injection IH as ->. reflexivity.
    + reflexivity.
Qed.

(** The multi-lane pass and the pass without a memo table agree, as
    values of [option (list Z)]. *)
Lemma build_matches_mt_1d_no_memo blocks cpu :
  Forall colour_ok blocks ->
  build_matches_mt_1d avg ssq blocks cpu = pass_without_memo_1d avg ssq blocks cpu.
Proof.
  intros Hok. unfold build_matches_mt_1d, pass_without_memo_1d.
  destruct (cpu =? 0)%nat; [reflexivity|].
  apply lanes_1d_fresh; [apply consistent_1d_empty | exact Hok].
Qed.

Lemma match_pixel_st_fresh cmap s cmap' t u :
  consistent_st cmap -> colour_ok s ->
  match_pixel_st avg ssq cmap s = (cmap', t, u) ->
  t = fresh_st avg ssq s /\ consistent_st cmap'.
Proof.
  intros Hc Hs. unfold match_pixel_st.
  destruct (Z.eqb_spec (cmap_get cmap (key s)) (-1)) as [Heq | Hne].
  - intros [= <- <- <-]. split; [reflexivity|].
    intros s' Hs'.
    destruct (Z.eq_dec (key s) (key s')) as [Hk | Hk].
    + right. apply key_inj in Hk; [subst s' | assumption..].
      rewrite cmap_get_set_eq. reflexivity.
    + rewrite cmap_get_set_ne by exact Hk. apply Hc, Hs'.
  - intros [= <- <- <-]. split; [|exact Hc].
    destruct (Hc s Hs) as [H | H]; [contradiction | exact H].
Qed.

Lemma lane_st_fresh sub : forall cmap cmap' row us,
  consistent_st cmap -> Forall colour_ok sub ->
  lane_st avg ssq cmap sub = (cmap', row, us) ->
  row = map (fresh_st avg ssq) sub /\ consistent_st cmap'.
Proof.
  induction sub as [|s sub IH]; intros cmap cmap' row us Hc Hok; simpl.
  - intros [= <- <- <-]. split; [reflexivity | exact Hc].
  - apply Forall_cons in Hok as [Hs Hok].
    destruct (match_pixel_st avg ssq cmap s) as [[cmap1 t] u] eqn:Hm.
    destruct (match_pixel_st_fresh _ _ _ _ _ Hc Hs Hm) as [-> Hc1].
    destruct (lane_st avg ssq cmap1 sub) as [[cmap2 ts] us'] eqn:Hl.
    destruct (IH _ _ _ _ Hc1 Hok Hl) as [-> Hc2].
    intros [= <- <- <-]. split; [reflexivity | exact Hc2].
Qed.

Lemma lanes_st_fresh blocks sl ids : forall cmap cmap' out us,
  consistent_st cmap -> Forall colour_ok blocks ->
  lanes_st avg ssq blocks sl cmap ids = (cmap', out, us) ->
  out = rows 0 (fresh_st avg ssq) blocks sl ids /\ consistent_st cmap'.
Proof.
  induction ids as [|i ids IH]; intros cmap cmap' out us Hc Hok; simpl.
  - intros [= <- <- <-]. split; [reflexivity | exact Hc].
  - destruct (lane_st avg ssq cmap (subslice blocks sl i)) as [[cmap1 row] us1] eqn:Hl.
    destruct (lane_st_fresh _ _ _ _ _ Hc (subslice_ok _ _ _ Hok) Hl) as [-> Hc1].
    destruct (lanes_st avg ssq blocks sl cmap1 ids) as [[cmap2 out'] us2] eqn:Hls.
    destruct (IH _ _ _ _ Hc1 Hok Hls) as [-> Hc2].
    intros [= <- <- <-]. split; [reflexivity | exact Hc2].
Qed.

(** The single-lane-table pass agrees with the pass without a memo
    table whenever the caller's table is consistent, and hands a
    consistent table back. *)
Lemma build_matches_st_no_memo blocks cmap cpu cmap' out us :
  consistent_st cmap -> Forall colour_ok blocks ->
  build_matches_st avg ssq blocks cmap cpu = Some (cmap', out, us) ->
  pass_without_memo_st avg ssq blocks cpu = Some out /\ consistent_st cmap'.
Proof.
  intros Hc Hok. unfold build_matches_st, pass_without_memo_st.
  destruct (cpu =? 0)%nat; [discriminate|].
  intros [= H]. destruct (lanes_st_fresh _ _ _ _ _ _ _ Hc Hok H) as [-> Hc'].
  split; [reflexivity | exact Hc'].
Qed.

End MemoFacts.

(* ================================================================== *)
(** ** Lanes, padding and the cap *)
(* ================================================================== *)

Section LaneFacts.

Import Match.

Lemma s_len_covers n cpu : cpu <> 0 -> n <= s_len n cpu * cpu.
Proof.
  intros Hc. unfold s_len.
  pose proof (Nat.div_mod_eq (n + cpu - 1) cpu) as Hd.
  pose proof (Nat.mod_upper_bound (n + cpu - 1) cpu Hc) as Hm.
  nia.
Qed.

Lemma length_pad_row {A} (zero : A) sl row :
  length row <= sl -> length (pad_row zero sl row) = sl.
Proof.
  intros H. unfold pad_row. rewrite length_app, length_replicate. lia.
Qed.

Lemma length_subslice blocks sl i :
  length (subslice blocks sl i) = Nat.min sl (length blocks - i * sl).
Proof. unfold subslice. rewrite length_take, length_drop. reflexivity. Qed.

(** Up to the length of the source, the padded rows of the lanes are the
    per-pixel results in source order. *)
Lemma take_rows {A} (zero : A) (g : colour -> A) blocks sl c : forall i0,
  length blocks <= (i0 + c) * sl ->
  take (length blocks - i0 * sl) (rows zero g blocks sl (seq i0 c))
  = map g (drop (i0 * sl) blocks).
Proof.
  induction c as [|c IH]; intros i0 Hcov.
  - simpl. rewrite drop_ge by lia. replace (length blocks - i0 * sl) with 0 by lia.
    reflexivity.
  - unfold rows. simpl. fold (rows zero g blocks sl (seq (S i0) c)).
    destruct (le_lt_dec sl (length blocks - i0 * sl)) as [Hfull | Hpart].
    + assert (length (map g (subslice blocks sl i0)) = sl) as Hlen.
      { rewrite length_map, length_subslice. lia. }
      unfold pad_row. rewrite Hlen, Nat.sub_diag. simpl. rewrite app_nil_r.
      rewrite take_app_ge by lia. rewrite Hlen.
      replace (length blocks - i0 * sl - sl) with (length blocks - S i0 * sl) by lia.
      rewrite IH by lia.
      unfold subslice. rewrite <- map_app. f_equal.
      replace (S i0 * sl) with (i0 * sl + sl) by lia.
      rewrite <- drop_drop. apply take_drop.
    + assert (subslice blocks sl i0 = drop (i0 * sl) blocks) as Hsub.
      { unfold subslice. apply take_ge. rewrite length_drop. lia. }
      rewrite Hsub.
      rewrite take_app_le.
      2:{ rewrite length_pad_row; [lia | rewrite length_map, length_drop; lia]. }
      unfold pad_row. rewrite take_app_le by (rewrite length_map, length_drop; lia).
      apply take_ge. rewrite length_map, length_drop. lia.
Qed.

Lemma capped_rows {A} (zero : A) (g : colour -> A) blocks cpu :
  cpu <> 0 ->
  capped blocks (rows zero g blocks (s_len (length blocks) cpu) (seq 0 cpu)) = map g blocks.
Proof.
  intros Hc. unfold capped.
  pose proof (take_rows zero g blocks (s_len (length blocks) cpu) cpu 0) as H.
  rewrite Nat.mul_0_l, Nat.sub_0_r, Nat.add_0_l in H. simpl in H. apply H.
  pose proof (s_len_covers (length blocks) cpu Hc). lia.
Qed.

Lemma mapM_total {A B} (f : A -> option B) (g : A -> B) l :
  (forall x, x ∈ l -> f x = Some (g x)) -> mapM f l = Some (map g l).
Proof.
  induction l as [|x l IH]; intros H; simpl.
  - reflexivity.
  - rewrite (H x) by constructor. simpl.
    rewrite IH by (intros y Hy; apply H; constructor; exact Hy). reflexivity.
Qed.

End LaneFacts.

(* ================================================================== *)
(** ** Results on the single-choice matcher *)
(* ================================================================== *)

Section MatchResults.

Import Match.
Local Open Scope Z_scope.

Lemma scan_min_from l : forall bi b i,
  scan_min (Some b) (Z.of_nat bi) (Z.of_nat i) l = Z.of_nat (argmin_from bi b i l).
Proof.
  induction l as [|d l IH]; intros bi b i; simpl.
  - reflexivity.
  - replace (Z.of_nat i + 1) with (Z.of_nat (S i)) by lia.
    destruct (d <? b); apply IH.
Qed.

(** The hand-written scan of [build_matches_st] picks what [np.argmin]
    picks, and [-1] when there is no tile. *)
Lemma scan_min_argmin l :
  scan_min None (-1) 0 l = match argmin l with Some j => Z.of_nat j | None => -1 end.
Proof.
  destruct l as [|d l]; simpl; [reflexivity|].
  apply (scan_min_from l 0%nat d 1%nat).
Qed.

Lemma brute_force_is_Some avg p :
  avg <> [] -> exists j, brute_force_match avg p = Some j /\ (j < length avg)%nat.
Proof.
  intros Hne. unfold brute_force_match.
  destruct (argmin_is_Some (map (euclid p) avg)) as (j & Hj & Hlt).
  - destruct avg; [congruence | discriminate].
  - exists j. split; [exact Hj|]. rewrite length_map in Hlt. exact Hlt.
Qed.

Lemma fresh_1d_brute_force avg p :
  avg <> [] -> Forall colour_ok avg -> Z.of_nat (length avg) <= 2 ^ 31 ->
  fresh_1d avg (sum_avg_sq avg) p
  = Some (Z.of_nat (default 0%nat (brute_force_match avg p))).
Proof.
  intros Hne Hok Hlen. unfold fresh_1d.
  rewrite shortcut_argmin_is_brute_force by exact Hok.
  destruct (brute_force_is_Some avg p Hne) as (j & -> & Hj). simpl.
  rewrite i32_small by lia. reflexivity.
Qed.

Lemma pass_without_memo_1d_total avg ssq (g : colour -> Z) blocks cpu :
  cpu <> 0%nat ->
  (forall s, fresh_1d avg ssq s = Some (g s)) ->
  pass_without_memo_1d avg ssq blocks cpu
  = Some (rows 0 g blocks (s_len (length blocks) cpu) (seq 0 cpu)).
Proof.
  intros Hc Hg. unfold pass_without_memo_1d.
  destruct (Nat.eqb_spec cpu 0) as [? | _]; [contradiction|].
  cbv zeta. unfold rows.
  rewrite (mapM_total _ (fun i => pad_row 0 (s_len (length blocks) cpu)
                                     (map g (subslice blocks (s_len (length blocks) cpu) i)))).
  - reflexivity.
  - intros i _. rewrite (mapM_total _ g) by (intros; apply Hg). reflexivity.
Qed.

(** What the multi-lane pass returns, once capped to the source. *)
Lemma mt_1d_output avg blocks cpu :
  avg <> [] -> Forall colour_ok avg -> Z.of_nat (length avg) <= 2 ^ 31 ->
  Forall colour_ok blocks -> cpu <> 0%nat ->
  capped blocks <$> build_matches_mt_1d avg (sum_avg_sq avg) blocks cpu
  = Some (map (fun p => Z.of_nat (default 0%nat (brute_force_match avg p))) blocks).
Proof.
  intros Hne Hok Hlen Hblocks Hcpu.
  rewrite build_matches_mt_1d_no_memo by exact Hblocks.
  rewrite (pass_without_memo_1d_total _ _
             (fun p => Z.of_nat (default 0%nat (brute_force_match avg p)))); [| exact Hcpu |].
  - simpl. rewrite capped_rows by exact Hcpu. reflexivity.
  - intros s. apply fresh_1d_brute_force; assumption.
Qed.

(** C1.  For 8-bit tile averages and 8-bit source pixels, the index that
    [np.argmin] picks on the squared-sum shortcut
    [sum_avg_sq[t] - 2*(p . t)] is the index a brute-force comparison of
    the full distances [(p - t) . (p - t)] picks, first minimum in tile
    order on both sides; and the whole multi-lane pass
    [build_matches_mt_1d], memo table and lane padding included, returns
    the brute-force index of every source pixel, in source order. *)
Theorem shortcut_matcher_is_brute_force (avg blocks : list colour) (cpu : nat) :
  avg <> [] -> Forall colour_ok avg -> Z.of_nat (length avg) <= 2 ^ 31 ->
  Forall colour_ok blocks -> cpu <> 0%nat ->
  (forall p, argmin (distances avg (sum_avg_sq avg) p) = brute_force_match avg p)
  /\ exists out,
       build_matches_mt_1d avg (sum_avg_sq avg) blocks cpu = Some out
       /\ map Some (capped blocks out)
          = map (fun p => Z.of_nat <$> brute_force_match avg p) blocks.
Proof.
  intros Hne Hok Hlen Hblocks Hcpu. split.
  - intros p. apply shortcut_argmin_is_brute_force, Hok.
  - pose proof (mt_1d_output avg blocks cpu Hne Hok Hlen Hblocks Hcpu) as Hout.
    destruct (build_matches_mt_1d avg (sum_avg_sq avg) blocks cpu) as [out|]; [|discriminate].
    injection Hout as Hout. exists out. split; [reflexivity|].
    rewrite Hout, map_map. apply map_ext. intros p.
    destruct (brute_force_is_Some avg p Hne) as (j & -> & _). reflexivity.
Qed.

End MatchResults.

(** The tile set and the source of the worked example: four tiles, a
    source of two pixels. *)
Definition demo_tiles : list Match.colour :=
  [(0, 0, 0); (255, 255, 255); (128, 128, 128); (200, 50, 50)]%Z.

Definition demo_source : list Match.colour :=
  [(10, 10, 10); (240, 240, 240)]%Z.

Example demo_single_choice :
  Match.build_matches_mt_1d demo_tiles (Match.sum_avg_sq demo_tiles) demo_source 2
  = Some [0; 1]%Z.
Proof. reflexivity. Qed.

Example demo_single_choice_padding :
  Match.build_matches_mt_1d demo_tiles (Match.sum_avg_sq demo_tiles)
    (demo_source ++ [(130, 120, 125)%Z]) 2
  = Some [0; 1; 2; 0]%Z.
Proof. reflexivity. Qed.

Lemma shortcut_matcher_witness :
  (forall p, Match.argmin (Match.distances demo_tiles (Match.sum_avg_sq demo_tiles) p)
             = Match.brute_force_match demo_tiles p)
  /\ exists out,
       Match.build_matches_mt_1d demo_tiles (Match.sum_avg_sq demo_tiles) demo_source 2
       = Some out
       /\ map Some (Match.capped demo_source out)
          = map (fun p => Z.of_nat <$> Match.brute_force_match demo_tiles p) demo_source.
Proof.
  apply shortcut_matcher_is_brute_force.
  - discriminate.
  - repeat (constructor; [cbn; lia|]). constructor.
  - cbn. lia.
  - repeat (constructor; [cbn; lia|]). constructor.
  - discriminate.
Defined.

Section MemoResults.

Import Match.
Local Open Scope Z_scope.

Variables (avg : list colour) (ssq : list Z).

Lemma video_session_no_memo cpu frames : forall cmap,
  consistent_st avg ssq cmap -> Forall (Forall colour_ok) frames ->
  video_session avg ssq cmap frames cpu
  = mapM (fun f => pass_without_memo_st avg ssq f cpu) frames.
Proof.
  induction frames as [|f fs IH]; intros cmap Hc Hok; simpl.
  - reflexivity.
  - apply Forall_cons in Hok as [Hf Hfs].
    destruct (build_matches_st avg ssq f cmap cpu) as [[[cmap' out] us]|] eqn:Hb; simpl.
    + destruct (build_matches_st_no_memo _ _ _ _ _ _ _ _ Hc Hf Hb) as [-> Hc'].
      simpl. rewrite (IH cmap' Hc' Hfs). reflexivity.
    + unfold build_matches_st in Hb. unfold pass_without_memo_st.
      destruct (cpu =? 0)%nat; [reflexivity | discriminate].
Qed.

Lemma lookup_capped {A} blocks (out : list A) i (s : colour) :
  blocks !! i = Some s -> out !! i = capped blocks out !! i.
Proof.
  intros Hi. unfold capped. symmetry. apply lookup_take_lt.
  apply lookup_lt_Some in Hi. exact Hi.
Qed.

Lemma pass_without_memo_st_lookup blocks cpu out i s :
  pass_without_memo_st avg ssq blocks cpu = Some out ->
  blocks !! i = Some s -> out !! i = Some (fresh_st avg ssq s).
Proof.
  unfold pass_without_memo_st.
  destruct (Nat.eqb_spec cpu 0) as [? | Hc]; [discriminate|].
  intros [= <-] Hi. rewrite (lookup_capped blocks _ i s Hi).
  rewrite capped_rows by exact Hc. rewrite list_lookup_fmap, Hi. reflexivity.
Qed.

Lemma argmin_None l : argmin l = None <-> l = [].
Proof. destruct l; simpl; split; congruence. Qed.

Lemma fresh_1d_uniform s0 s : fresh_1d avg ssq s0 = None -> fresh_1d avg ssq s = None.
Proof.
  unfold fresh_1d. intros H0.
  destruct (argmin (distances avg ssq s0)) eqn:E0; [discriminate|].
  apply argmin_None in E0.
  assert (distances avg ssq s = []) as ->; [|reflexivity].
  apply (f_equal length) in E0. apply length_zero_iff_nil.
  unfold distances in *. rewrite length_zip_with in *. exact E0.
Qed.

Lemma pass_without_memo_1d_lookup blocks cpu out i s :
  pass_without_memo_1d avg ssq blocks cpu = Some out ->
  blocks !! i = Some s -> out !! i = fresh_1d avg ssq s /\ is_Some (out !! i).
Proof.
  intros Hp Hi.
  assert (cpu <> 0%nat) as Hc.
  { intros ->. discriminate Hp. }
  destruct (fresh_1d avg ssq s) as [t|] eqn:Hs.
  - (* the tile set is not empty: every fresh match succeeds *)
    set (g := fun s' => default 0 (fresh_1d avg ssq s')).
    assert (forall s', fresh_1d avg ssq s' = Some (g s')) as Hg.
    { intros s'. unfold g. destruct (fresh_1d avg ssq s') eqn:E; [reflexivity|].
      rewrite (fresh_1d_uniform s' s E) in Hs. discriminate. }
    rewrite (pass_without_memo_1d_total _ _ g _ _ Hc Hg) in Hp.
    injection Hp as <-. rewrite (lookup_capped blocks _ i s Hi).
    rewrite capped_rows by exact Hc. rewrite list_lookup_fmap, Hi. simpl.
    unfold g. rewrite Hs. split; [reflexivity | eexists; reflexivity].
  - (* no tile: the first lane already raises *)
    exfalso. unfold pass_without_memo_1d in Hp.
    destruct (Nat.eqb_spec cpu 0) as [? | _]; [contradiction|].
    cbv zeta in Hp.
    pose proof (s_len_covers (length blocks) cpu Hc) as Hcov.
    remember (s_len (length blocks) cpu) as sl eqn:Hsl. clear Hsl.
    apply lookup_lt_Some in Hi.
    destruct cpu as [|c]; [contradiction|].
    rewrite <- cons_seq in Hp.
    destruct blocks as [|s1 rest]; [simpl in Hi; lia|].
    destruct sl as [|sl]; [simpl in Hcov; lia|].
    unfold subslice in Hp. simpl in Hp.
    rewrite (fresh_1d_uniform s s1 Hs) in Hp. discriminate Hp.
Qed.

End MemoResults.

Section MemoTheorem.

Import Match.
Local Open Scope Z_scope.

(** C6.  Memoization is transparent.  A multi-lane pass
    [build_matches_mt_1d] over a frame returns exactly what the same
    pass returns when every pixel is matched afresh, and gives two
    pixels of one colour the same index, the freshly computed one.  A
    video session, which matches frame after frame with
    [build_matches_st] through one table that starts out filled with
    [-1], returns for every frame what the pass without a table returns;
    the same colour gets the same index wherever it occurs in the
    session, and that index is the fresh match of the colour. *)
Theorem memoization_is_transparent
    (avg : list colour) (ssq : list Z) (cpu : nat) (frames : list (list colour)) :
  Forall (Forall colour_ok) frames ->
  (forall f, f ∈ frames ->
     build_matches_mt_1d avg ssq f cpu = pass_without_memo_1d avg ssq f cpu
     /\ forall out i j s,
          build_matches_mt_1d avg ssq f cpu = Some out ->
          f !! i = Some s -> f !! j = Some s ->
          out !! i = out !! j /\ out !! i = fresh_1d avg ssq s /\ is_Some (out !! i))
  /\ video_session avg ssq ∅ frames cpu
     = mapM (fun f => pass_without_memo_st avg ssq f cpu) frames
  /\ (forall outs a b fa fb outa outb i j s,
        video_session avg ssq ∅ frames cpu = Some outs ->
        frames !! a = Some fa -> outs !! a = Some outa ->
        frames !! b = Some fb -> outs !! b = Some outb ->
        fa !! i = Some s -> fb !! j = Some s ->
        outa !! i = outb !! j /\ outa !! i = Some (fresh_st avg ssq s)).
Proof.
  intros Hok.
  assert (video_session avg ssq ∅ frames cpu
          = mapM (fun f => pass_without_memo_st avg ssq f cpu) frames) as Hsession.
  { apply video_session_no_memo; [apply consistent_st_empty | exact Hok]. }
  split; [|split].
  - intros f Hf.
    assert (Forall colour_ok f) as Hfok.
    { rewrite Forall_forall in Hok. apply Hok, Hf. }
    pose proof (build_matches_mt_1d_no_memo avg ssq f cpu Hfok) as Heq.
    split; [exact Heq|].
    intros out i j s Hout Hi Hj. rewrite Heq in Hout.
    destruct (pass_without_memo_1d_lookup avg ssq f cpu out i s Hout Hi) as [Hi' Hsome].
    destruct (pass_without_memo_1d_lookup avg ssq f cpu out j s Hout Hj) as [Hj' _].
    split; [congruence|]. split; assumption.
  - exact Hsession.
  - intros outs a b fa fb outa outb i j s Hv Ha Hoa Hb Hob Hi Hj.
    rewrite Hsession in Hv. apply mapM_Some in Hv.
    pose proof (Forall2_lookup_lr _ _ _ _ _ _ Hv Ha Hoa) as Hpa.
    pose proof (Forall2_lookup_lr _ _ _ _ _ _ Hv Hb Hob) as Hpb.
    simpl in Hpa, Hpb.
    rewrite (pass_without_memo_st_lookup avg ssq fa cpu outa i s Hpa Hi).
    rewrite (pass_without_memo_st_lookup avg ssq fb cpu outb j s Hpb Hj).
    split; reflexivity.
Qed.

End MemoTheorem.

(** Two frames of a video source; the second repeats colours of the
    first. *)
Definition demo_frames : list (list Match.colour) :=
  [ demo_source; [(240, 240, 240); (10, 10, 10); (190, 60, 40)]%Z ].

Example demo_video_session :
  Match.video_session demo_tiles (Match.sum_avg_sq demo_tiles) ∅ demo_frames 2
  = Some [[0; 1]; [1; 0; 3; 0]]%Z.
Proof. reflexivity. Qed.

Lemma memoization_witness :
  Match.video_session demo_tiles (Match.sum_avg_sq demo_tiles) ∅ demo_frames 2
  = mapM (fun f => Match.pass_without_memo_st demo_tiles (Match.sum_avg_sq demo_tiles) f 2)
      demo_frames.
Proof.
  apply (memoization_is_transparent demo_tiles (Match.sum_avg_sq demo_tiles) 2 demo_frames).
  repeat (constructor; [repeat (constructor; [cbn; lia|]); constructor|]). constructor.
Defined.

(* ================================================================== *)
(** ** Facts about the dithered matcher *)
(* ================================================================== *)

Section TopKFacts.

Import Match.
Local Open Scope Z_scope.

Variable argpartition : list Z -> nat -> list nat.
Variable argsort : list Z -> list nat.
Hypothesis Hpart : argpartition_contract argpartition.
Hypothesis Hsort : argsort_contract argsort.

Lemma index_by_total {A} `{Inhabited A} (a : list A) (idx : list nat) :
  (forall i, i ∈ idx -> (i < length a)%nat) ->
  index_by a idx = Some (map (fun i => a !!! i) idx).
Proof.
  intros Hin. unfold index_by. apply mapM_total.
  intros i Hi. apply list_lookup_lookup_total_lt, Hin, Hi.
Qed.

Lemma map_lookup_total_seq {A} `{Inhabited A} (l : list A) :
  map (fun i => l !!! i) (seq 0 (length l)) = l.
Proof.
  apply list_eq. intros i. rewrite list_lookup_fmap.
  destruct (decide (i < length l)%nat) as [Hlt | Hge].
  - rewrite lookup_seq_lt by exact Hlt. simpl.
    symmetry. apply list_lookup_lookup_total_lt, Hlt.
  - rewrite lookup_seq_ge by lia. simpl. symmetry. apply lookup_ge_None. lia.
Qed.

Lemma perm_seq_bound (l : list nat) n x : l ≡ₚ seq 0 n -> x ∈ l -> (x < n)%nat.
Proof.
  intros Hp Hx. rewrite Hp in Hx. apply elem_of_seq in Hx. lia.
Qed.

(** The shape of what [top_k] returns: the first [K] entries of the
    partition, reordered so that their values do not decrease. *)
Lemma top_k_spec (d : list Z) (K : nat) :
  (K < length d)%nat ->
  exists row,
    top_k argpartition argsort d K = Some row
    /\ row ≡ₚ take K (argpartition d K)
    /\ (forall i j xi xj, (i <= j)%nat ->
          row !! i = Some xi -> row !! j = Some xj -> d !!! xi <= d !!! xj).
Proof.
  intros HK. destruct (Hpart d K HK) as [Hperm _].
  unfold top_k, np_argpartition.
  destruct (Nat.ltb_spec K (length d)) as [_ | ?]; [|lia]. simpl.
  set (parted := take K (argpartition d K)).
  assert (length parted = K) as Hlen.
  { unfold parted. rewrite length_take. apply Permutation_length in Hperm.
    rewrite length_seq in Hperm. lia. }
  assert (forall x, x ∈ parted -> (x < length d)%nat) as Hbound.
  { intros x Hx. apply (perm_seq_bound _ _ _ Hperm).
    unfold parted in Hx. apply elem_of_take in Hx as (i & Hi & _).
    apply list_elem_of_lookup. eauto. }
  rewrite (index_by_total d parted Hbound). simpl.
  set (dp := map (fun i => d !!! i) parted).
  assert (length dp = K) as Hdp by (unfold dp; rewrite length_map; exact Hlen).
  destruct (Hsort dp) as [Hoperm Hosorted]. rewrite Hdp in Hoperm.
  rewrite (index_by_total parted (argsort dp)).
  2:{ intros i Hi. rewrite Hlen. apply (perm_seq_bound _ _ _ Hoperm Hi). }
  eexists. split; [reflexivity|]. split.
  - rewrite Hoperm. rewrite <- Hlen at 1. rewrite map_lookup_total_seq. reflexivity.
  - intros i j xi xj Hij Hi Hj.
    rewrite list_lookup_fmap in Hi, Hj.
    destruct (argsort dp !! i) as [oi|] eqn:Eoi; [|discriminate].
    destruct (argsort dp !! j) as [oj|] eqn:Eoj; [|discriminate].
    simpl in Hi, Hj. injection Hi as <-. injection Hj as <-.
    pose proof (Hosorted i j oi oj Hij Eoi Eoj) as Hle.
    assert (forall o, o ∈ argsort dp -> dp !!! o = d !!! (parted !!! o)) as Hval.
    { intros o Ho. pose proof (perm_seq_bound _ _ _ Hoperm Ho) as Hlt.
      unfold dp. apply list_lookup_total_correct.
      rewrite list_lookup_fmap.
      rewrite (list_lookup_lookup_total_lt parted o) by lia. reflexivity. }
    rewrite <- !Hval by (apply list_elem_of_lookup; eauto). exact Hle.
Qed.

Lemma top_k_length d K row :
  (K < length d)%nat -> top_k argpartition argsort d K = Some row -> length row = K.
Proof.
  intros HK Hrow. destruct (top_k_spec d K HK) as (row' & Hrow' & Hperm & _).
  rewrite Hrow in Hrow'. injection Hrow' as <-.
  rewrite Hperm, length_take.
  destruct (Hpart d K HK) as [Hp _]. apply Permutation_length in Hp.
  rewrite length_seq in Hp. lia.
Qed.

(** The entry at position [r] of the row has at most [r] indices whose
    value is strictly smaller. *)
Lemma top_k_rank d K row r t :
  (K < length d)%nat ->
  top_k argpartition argsort d K = Some row ->
  row !! r = Some t ->
  (t < length d)%nat /\ (r < K)%nat
  /\ forall smaller : list nat,
       NoDup smaller ->
       (forall u, u ∈ smaller -> (u < length d)%nat /\ d !!! u < d !!! t) ->
       (length smaller <= r)%nat.
Proof.
  intros HK Hrow Hr.
  destruct (top_k_spec d K HK) as (row' & Hrow' & Hperm & Hsorted).
  rewrite Hrow in Hrow'. injection Hrow' as <-.
  destruct (Hpart d K HK) as [Hwhole Hpivot].
  assert (t ∈ take K (argpartition d K)) as Htp.
  { rewrite <- Hperm. apply list_elem_of_lookup. eauto. }
  apply elem_of_take in Htp as (qt & Hqt & Hqtlt).
  assert (t < length d)%nat as Htlt.
  { apply (perm_seq_bound _ _ _ Hwhole). apply list_elem_of_lookup. eauto. }
  split; [exact Htlt|]. split.
  { apply lookup_lt_Some in Hr. rewrite (top_k_length d K row HK Hrow) in Hr. exact Hr. }
  intros smaller Hnd Hsm.
  assert (length (argpartition d K) = length d) as Hwlen.
  { apply Permutation_length in Hwhole. rewrite length_seq in Hwhole. exact Hwhole. }
  destruct (lookup_lt_is_Some_2 (argpartition d K) K) as [xk Hxk]; [lia|].
  transitivity (length (take r row)); [|rewrite length_take; lia].
  apply submseteq_length, NoDup_submseteq; [exact Hnd|].
  intros u Hu. destruct (Hsm u Hu) as [Hult Hud].
  (* [u] sits before position [K] of the partition *)
  assert (u ∈ argpartition d K) as Huw.
  { rewrite Hwhole. apply elem_of_seq. lia. }
  apply list_elem_of_lookup in Huw as (qu & Hqu).
  assert (qu < K)%nat as Hqulk.
  { destruct (decide (qu < K)%nat) as [? | Hge]; [assumption|]. exfalso.
    destruct (Hpivot qt t xk Hqt Hxk) as [Hbefore _]. specialize (Hbefore Hqtlt).
    destruct (decide (qu = K)) as [-> | Hne].
    - rewrite Hxk in Hqu. injection Hqu as ->. lia.
    - destruct (Hpivot qu u xk Hqu Hxk) as [_ Hafter].
      specialize (Hafter ltac:(lia)). lia. }
  (* hence in the row, and before position [r] *)
  assert (u ∈ row) as Hurow.
  { rewrite Hperm. apply elem_of_take. eauto. }
  apply list_elem_of_lookup in Hurow as (ru & Hru).
  apply elem_of_take. exists ru. split; [exact Hru|].
  destruct (decide (ru < r)%nat) as [? | Hge]; [assumption|]. exfalso.
  pose proof (Hsorted r ru t u ltac:(lia) Hr Hru). lia.
Qed.

End TopKFacts.

Section DitherPass.

Import Match.
Local Open Scope Z_scope.

Variable argpartition : list Z -> nat -> list nat.
Variable argsort : list Z -> list nat.
Variables (avg : list colour) (ssq : list Z) (K : nat).

Hypothesis HK : K <> 0%nat.
Hypothesis Hfresh : forall s, exists idxs,
  top_k argpartition argsort (distances avg ssq s) K = Some idxs /\ length idxs = K.

(** The row a fresh computation stores for colour [s]. *)
Definition fresh_row (s : colour) : list Z :=
  i32_row (default [] (top_k argpartition argsort (distances avg ssq s) K)).

Definition consistent_2d (cmap : gmap Z (list Z)) : Prop :=
  forall s, colour_ok s -> cmap !! key s = None \/ cmap !! key s = Some (fresh_row s).

Lemma fresh_row_length s : length (fresh_row s) = K.
Proof.
  unfold fresh_row. destruct (Hfresh s) as (idxs & -> & Hlen). simpl.
  unfold i32_row. rewrite length_map. exact Hlen.
Qed.

Lemma consistent_2d_insert cmap s :
  consistent_2d cmap -> colour_ok s -> consistent_2d (<[key s := fresh_row s]> cmap).
Proof.
  intros Hc Hs s' Hs'.
  destruct (Z.eq_dec (key s) (key s')) as [Hk | Hk].
  - right. apply key_inj in Hk; [subst s' | assumption..]. apply lookup_insert_eq.
  - rewrite lookup_insert_ne by exact Hk. apply Hc, Hs'.
Qed.

Lemma match_pixel_2d_fresh cmap s :
  consistent_2d cmap -> colour_ok s ->
  exists cmap', match_pixel_2d argpartition argsort avg ssq K cmap s = Some (cmap', fresh_row s)
                /\ consistent_2d cmap'.
Proof.
  intros Hc Hs. unfold match_pixel_2d, cmap2_get.
  assert (top_k argpartition argsort (distances avg ssq s) K ≫=
            (fun idxs => Some (<[key s := i32_row idxs]> cmap, i32_row idxs))
          = Some (<[key s := fresh_row s]> cmap, fresh_row s)) as Hmiss.
  { unfold fresh_row. destruct (Hfresh s) as (idxs & -> & _). reflexivity. }
  destruct (Hc s Hs) as [Hn | Hsome].
  - rewrite Hn. simpl. destruct K as [|k]; [contradiction|]. simpl.
    rewrite Hmiss. eexists. split; [reflexivity|]. apply consistent_2d_insert; assumption.
  - rewrite Hsome. simpl.
    destruct (fresh_row s !! 0%nat) as [first|] eqn:Hfirst.
    + simpl. destruct (first =? -1).
      * rewrite Hmiss. eexists. split; [reflexivity|].
        apply consistent_2d_insert; assumption.
      * eexists. split; [reflexivity | exact Hc].
    + apply lookup_ge_None in Hfirst. rewrite fresh_row_length in Hfirst. lia.
Qed.

Lemma lane_2d_fresh sub : forall cmap,
  consistent_2d cmap -> Forall colour_ok sub ->
  exists cmap', lane_2d argpartition argsort avg ssq K cmap sub = Some (cmap', map fresh_row sub)
                /\ consistent_2d cmap'.
Proof.
  induction sub as [|s sub IH]; intros cmap Hc Hok; simpl.
  - eexists. split; [reflexivity | exact Hc].
  - apply Forall_cons in Hok as [Hs Hok].
    destruct (match_pixel_2d_fresh cmap s Hc Hs) as (cmap1 & -> & Hc1). simpl.
    destruct (IH cmap1 Hc1 Hok) as (cmap2 & -> & Hc2). simpl.
    eexists. split; [reflexivity | exact Hc2].
Qed.

Lemma lanes_2d_fresh blocks sl ids : forall cmap,
  consistent_2d cmap -> Forall colour_ok blocks ->
  exists cmap', lanes_2d argpartition argsort avg ssq K blocks sl cmap ids
                = Some (cmap', rows (replicate K 0) fresh_row blocks sl ids)
                /\ consistent_2d cmap'.
Proof.
  induction ids as [|i ids IH]; intros cmap Hc Hok; simpl.
  - eexists. split; [reflexivity | exact Hc].
  - destruct (lane_2d_fresh (subslice blocks sl i) cmap Hc (subslice_ok _ _ _ Hok))
      as (cmap1 & -> & Hc1). simpl.
    destruct (IH cmap1 Hc1 Hok) as (cmap2 & -> & Hc2). simpl.
    eexists. split; [reflexivity | exact Hc2].
Qed.

Lemma build_matches_mt_2d_fresh blocks cpu :
  cpu <> 0%nat -> Forall colour_ok blocks ->
  capped blocks <$> build_matches_mt_2d argpartition argsort avg ssq blocks cpu K
  = Some (map fresh_row blocks).
Proof.
  intros Hcpu Hok. unfold build_matches_mt_2d.
  destruct (Nat.eqb_spec cpu 0) as [? | _]; [contradiction|]. cbv zeta.
  destruct (lanes_2d_fresh blocks (s_len (length blocks) cpu) (seq 0 cpu) ∅) as (cmap' & -> & _).
  - intros s _. left. apply lookup_empty.
  - exact Hok.
  - simpl. rewrite capped_rows by exact Hcpu. reflexivity.
Qed.

End DitherPass.

Lemma mapM_imap_total {A B} (f : nat * A -> option B) (l : list A) :
  forall (h : nat -> A -> B) (mk : nat -> A -> nat * A),
  (forall i x, l !! i = Some x -> f (mk i x) = Some (h i x)) ->
  mapM f (imap mk l) = Some (imap h l).
Proof.
  induction l as [|x l IH]; intros h mk Hf; simpl.
  - reflexivity.
  - rewrite (Hf 0%nat x eq_refl). simpl.
    rewrite (IH (h ∘ S) (mk ∘ S)); [reflexivity|].
    intros i y Hi. apply (Hf (S i) y Hi).
Qed.

Section NearestFacts.

Import Match.
Local Open Scope Z_scope.

Lemma length_distances avg p : length (distances avg (sum_avg_sq avg) p) = length avg.
Proof. unfold distances, sum_avg_sq. rewrite length_zip_with, length_map. lia. Qed.

Lemma distances_lookup avg p u :
  Forall colour_ok avg -> (u < length avg)%nat ->
  distances avg (sum_avg_sq avg) p !!! u = euclid p (avg !!! u) - dot p p.
Proof.
  intros Hok Hu. rewrite distances_shift by exact Hok.
  apply list_lookup_total_correct. rewrite !list_lookup_fmap.
  rewrite (list_lookup_lookup_total_lt avg u Hu). reflexivity.
Qed.

Lemma elem_of_nearer avg p t u :
  u ∈ nearer avg p t <->
  (u < length avg)%nat /\ euclid p (avg !!! u) < euclid p (avg !!! t).
Proof.
  unfold nearer. rewrite list_elem_of_filter, elem_of_seq. split.
  - intros [H1 H2]. split; [lia | exact H1].
  - intros [H1 H2]. split; [exact H2 | lia].
Qed.

Lemma NoDup_nearer avg p t : NoDup (nearer avg p t).
Proof. unfold nearer. apply NoDup_filter, NoDup_seq. Qed.

(** The first minimum of the brute-force scan has no tile nearer. *)
Lemma brute_force_nearest avg p t1 :
  brute_force_match avg p = Some t1 -> among_k_nearest avg p 1 t1.
Proof.
  unfold brute_force_match. intros H.
  destruct (argmin_spec _ _ H) as (d & Hd & Hall & _).
  rewrite list_lookup_fmap in Hd.
  destruct (avg !! t1) as [a|] eqn:Ea; [|discriminate]. injection Hd as <-.
  pose proof (lookup_lt_Some _ _ _ Ea) as Hlt.
  split; [exact Hlt|].
  assert (nearer avg p t1 = []) as ->; [|simpl; lia].
  apply elem_of_nil_inv. intros u Hu. apply elem_of_nearer in Hu as [Hu Hlt'].
  rewrite Forall_forall in Hall.
  rewrite (list_lookup_total_correct avg t1 a Ea) in Hlt'.
  assert (euclid p (avg !!! u) ∈ map (euclid p) avg) as Hin.
  { apply list_elem_of_fmap. exists (avg !!! u). split; [reflexivity|].
    apply list_elem_of_lookup. exists u. apply list_lookup_lookup_total_lt, Hu. }
  specialize (Hall _ Hin). lia.
Qed.

Lemma among_1_minimal avg p t u :
  among_k_nearest avg p 1 t -> (u < length avg)%nat ->
  euclid p (avg !!! t) <= euclid p (avg !!! u).
Proof.
  intros [_ Hlen] Hu.
  destruct (Z.le_gt_cases (euclid p (avg !!! t)) (euclid p (avg !!! u))) as [? | Hgt];
    [assumption|].
  assert (u ∈ nearer avg p t) as Hin by (apply elem_of_nearer; split; [exact Hu | lia]).
  destruct (nearer avg p t); [inversion Hin | simpl in Hlen; lia].
Qed.

(** Two tiles with nothing nearer are equally far, and are one tile
    when the nearest tile is unique. *)
Lemma among_1_agree avg p t t1 :
  among_k_nearest avg p 1 t -> among_k_nearest avg p 1 t1 ->
  euclid p (avg !!! t) = euclid p (avg !!! t1)
  /\ (unique_nearest avg p t1 -> t = t1).
Proof.
  intros Ht Ht1.
  pose proof (among_1_minimal avg p t t1 Ht (proj1 Ht1)).
  pose proof (among_1_minimal avg p t1 t Ht1 (proj1 Ht)).
  split; [lia|]. intros Hu.
  destruct (decide (t = t1)) as [? | Hne]; [assumption|].
  specialize (Hu t (proj1 Ht) Hne). lia.
Qed.

Variable argpartition : list Z -> nat -> list nat.
Variable argsort : list Z -> list nat.
Hypothesis Hpart : argpartition_contract argpartition.
Hypothesis Hsort : argsort_contract argsort.

Lemma top_k_among avg p K row r t :
  Forall colour_ok avg -> (K < length avg)%nat ->
  top_k argpartition argsort (distances avg (sum_avg_sq avg) p) K = Some row ->
  row !! r = Some t ->
  (r < K)%nat /\ among_k_nearest avg p (S r) t.
Proof.
  intros Hok HK Hrow Hr.
  rewrite <- (length_distances avg p) in HK.
  destruct (top_k_rank argpartition argsort Hpart Hsort _ _ _ _ _ HK Hrow Hr)
    as (Ht & HrK & Hcount).
  rewrite length_distances in Ht.
  split; [exact HrK|]. split; [exact Ht|].
  apply Nat.lt_succ_r, Hcount; [apply NoDup_nearer|].
  intros u Hu. apply elem_of_nearer in Hu as [Hu Hlt].
  rewrite length_distances. split; [exact Hu|].
  rewrite !distances_lookup by assumption. lia.
Qed.

Lemma top_k_total avg p K :
  (K < length avg)%nat ->
  exists idxs, top_k argpartition argsort (distances avg (sum_avg_sq avg) p) K = Some idxs
               /\ length idxs = K.
Proof.
  intros HK. rewrite <- (length_distances avg p) in HK.
  destruct (top_k_spec argpartition argsort Hpart Hsort _ _ HK) as (row & Hrow & _).
  exists row. split; [exact Hrow|].
  apply (top_k_length argpartition argsort Hpart Hsort _ _ _ HK Hrow).
Qed.

End NearestFacts.

(* ================================================================== *)
(** ** Two index routines that meet NumPy's contract *)
(* ================================================================== *)

(** Full sorts of the index range.  Both orders sort by value; they
    differ in where they put equal values, which the contract leaves
    open.  They make the contract concrete and let the dithered matcher
    run on examples. *)
Module NumpyModel.

Local Open Scope Z_scope.

Definition before_ties_last (a : list Z) (i j : nat) : Prop :=
  a !!! i < a !!! j \/ (a !!! i = a !!! j /\ (j <= i)%nat).

Definition before_ties_first (a : list Z) (i j : nat) : Prop :=
  a !!! i < a !!! j \/ (a !!! i = a !!! j /\ (i <= j)%nat).

#[local] Instance before_ties_last_dec a i j : Decision (before_ties_last a i j).
Proof. unfold before_ties_last. apply _. Defined.

#[local] Instance before_ties_first_dec a i j : Decision (before_ties_first a i j).
Proof. unfold before_ties_first. apply _. Defined.

Definition argpartition_ties_last (a : list Z) (kth : nat) : list nat :=
  merge_sort (before_ties_last a) (seq 0 (length a)).

Definition argpartition_ties_first (a : list Z) (kth : nat) : list nat :=
  merge_sort (before_ties_first a) (seq 0 (length a)).

Definition argsort_ties_first (a : list Z) : list nat :=
  merge_sort (before_ties_first a) (seq 0 (length a)).

End NumpyModel.

Section NumpyModelFacts.

Import Match NumpyModel.
Local Open Scope Z_scope.

Lemma StronglySorted_lookup_lt {A} (R : relation A) (l : list A) :
  StronglySorted R l ->
  forall i j x y, (i < j)%nat -> l !! i = Some x -> l !! j = Some y -> R x y.
Proof.
  induction 1 as [|a l Hs IH Hall]; intros i j x y Hij Hi Hj.
  - discriminate.
  - destruct j as [|j]; [lia|]. simpl in Hj.
    destruct i as [|i]; simpl in Hi.
    + injection Hi as <-. rewrite Forall_forall in Hall. apply Hall.
      apply list_elem_of_lookup. eauto.
    + apply (IH i j); [lia | assumption..].
Qed.

#[local] Instance before_ties_last_trans a : Transitive (before_ties_last a).
Proof. intros x y z. unfold before_ties_last. lia. Qed.

#[local] Instance before_ties_last_total a : Total (before_ties_last a).
Proof. intros x y. unfold before_ties_last. lia. Qed.

#[local] Instance before_ties_first_trans a : Transitive (before_ties_first a).
Proof. intros x y z. unfold before_ties_first. lia. Qed.

#[local] Instance before_ties_first_total a : Total (before_ties_first a).
Proof. intros x y. unfold before_ties_first. lia. Qed.

Lemma sorted_is_partition (R : list Z -> relation nat)
    `{forall a x y, Decision (R a x y)} `{forall a, Transitive (R a)} `{forall a, Total (R a)} :
  (forall a x y, R a x y -> a !!! x <= a !!! y) ->
  argpartition_contract (fun a _ => merge_sort (R a) (seq 0 (length a))).
Proof.
  intros Hle a kth Hk. split; [apply merge_sort_Permutation|].
  intros i xi xk Hi Hxk.
  pose proof (StronglySorted_merge_sort (R a) (seq 0 (length a))) as Hs.
  split; intros Hlt; apply Hle.
  - apply (StronglySorted_lookup_lt _ _ Hs i kth); assumption.
  - apply (StronglySorted_lookup_lt _ _ Hs kth i); assumption.
Qed.

Lemma argpartition_ties_last_ok : argpartition_contract argpartition_ties_last.
Proof.
  apply (sorted_is_partition before_ties_last).
  intros a x y. unfold before_ties_last. lia.
Qed.

Lemma argpartition_ties_first_ok : argpartition_contract argpartition_ties_first.
Proof.
  apply (sorted_is_partition before_ties_first).
  intros a x y. unfold before_ties_first. lia.
Qed.

Lemma argsort_ties_first_ok : argsort_contract argsort_ties_first.
Proof.
  intros a. split; [apply merge_sort_Permutation|].
  intros i j xi xj Hij Hi Hj.
  destruct (decide (i = j)) as [-> | Hne].
  - rewrite Hi in Hj. injection Hj as ->. lia.
  - pose proof (StronglySorted_merge_sort (before_ties_first a) (seq 0 (length a))) as Hs.
    pose proof (StronglySorted_lookup_lt _ _ Hs i j xi xj ltac:(lia) Hi Hj) as Hr.
    unfold before_ties_first in Hr. lia.
Qed.

End NumpyModelFacts.

(** The dithered matcher on the worked example, two candidates per
    pixel, and on a tile set with two equidistant tiles. *)
Example demo_dithered_rows :
  Match.build_matches_mt_2d NumpyModel.argpartition_ties_first NumpyModel.argsort_ties_first
    demo_tiles (Match.sum_avg_sq demo_tiles) demo_source 2 2
  = Some [[0; 3]; [1; 2]]%Z.
Proof. vm_compute. reflexivity. Qed.

Definition tie_tiles : list Match.colour := [(0, 0, 0); (2, 0, 0); (9, 9, 9)]%Z.
Definition tie_source : list Match.colour := [(1, 0, 0)]%Z.

Example tie_single_choice :
  Match.build_matches_mt_1d tie_tiles (Match.sum_avg_sq tie_tiles) tie_source 1 = Some [0]%Z.
Proof. reflexivity. Qed.

Example tie_dithered_one :
  Match.dithered_matches NumpyModel.argpartition_ties_last NumpyModel.argsort_ties_first
    tie_tiles (Match.sum_avg_sq tie_tiles) tie_source 1 1 (fun _ => 0%nat)
  = Some [1]%Z.
Proof. vm_compute. reflexivity. Qed.

Section DitherTheorem.

Import Match.
Local Open Scope Z_scope.

Lemma among_k_nearest_mono avg p K1 K2 t :
  among_k_nearest avg p K1 t -> (K1 <= K2)%nat -> among_k_nearest avg p K2 t.
Proof. intros [H1 H2] Hle. split; [exact H1 | lia]. Qed.

Lemma flatten_raw1d (m : list Z) rc randint :
  m <> [] -> flatten_matches (Raw1d m) rc randint = Some m.
Proof. destruct m; [congruence | reflexivity]. Qed.

Lemma flatten_raw2d (m : list (list Z)) rc randint :
  m <> [] -> flatten_matches (Raw2d m) rc randint = process_matches_2d m rc randint.
Proof. destruct m; [congruence | reflexivity]. Qed.

(** C5, as the code has it.  [np.argpartition] and [np.argsort] are
    assumed to do what NumPy documents, and the tile set to hold more
    than [K] tiles ([np.argpartition] raises otherwise).  The match list
    is built with [K] candidates per pixel and flattened with
    [rc <= K] of them in play ([rc = K] on a fresh build).  Then steps 3
    and 4 of [process_mosaic] return a match list in which every index
    is among the [max rc 1] nearest tiles of its pixel: fewer than that
    many tiles are strictly nearer.  With [K = 0] the list is the
    single-choice matcher's list.  With at most one candidate in play
    ([rc <= 1], so also [K = 1]) every index is a tile as near as the
    single-choice one, and is the single-choice one whenever the nearest
    tile is unique; which of several equidistant tiles comes out is not
    fixed. *)
Theorem dithered_top_k
    (argpartition : list Z -> nat -> list nat) (argsort : list Z -> list nat)
    (avg blocks : list colour) (cpu K rc : nat) (randint : nat -> nat) :
  argpartition_contract argpartition -> argsort_contract argsort ->
  Forall colour_ok avg -> Z.of_nat (length avg) <= 2 ^ 31 ->
  Forall colour_ok blocks -> blocks <> [] -> cpu <> 0%nat ->
  (K < length avg)%nat -> (rc <= K)%nat ->
  (forall i, rc <> 0%nat -> (randint i < rc)%nat) ->
  exists raw m single,
    build_raw_matches argpartition argsort avg (sum_avg_sq avg) blocks cpu K = Some raw
    /\ flatten_matches raw rc randint = Some m
    /\ capped blocks <$> build_matches_mt_1d avg (sum_avg_sq avg) blocks cpu = Some single
    /\ (K = 0%nat -> m = single)
    /\ forall i p, blocks !! i = Some p ->
         exists t t1,
           m !! i = Some (Z.of_nat t) /\ single !! i = Some (Z.of_nat t1)
           /\ among_k_nearest avg p (Nat.max rc 1) t
           /\ ((rc <= 1)%nat ->
               euclid p (avg !!! t) = euclid p (avg !!! t1)
               /\ (unique_nearest avg p t1 -> t = t1)).
Proof.
  intros Hpart Hsort Hok Hlen Hblocks Hne Hcpu HK Hrc Hrand.
  assert (avg <> []) as Havg by (destruct avg; [simpl in HK; lia | discriminate]).
  pose proof (mt_1d_output avg blocks cpu Havg Hok Hlen Hblocks Hcpu) as Hsingle.
  set (g1 := fun p => Z.of_nat (default 0%nat (brute_force_match avg p))) in Hsingle.
  assert (forall i p, blocks !! i = Some p ->
            exists t1, map g1 blocks !! i = Some (Z.of_nat t1)
                       /\ among_k_nearest avg p 1 t1) as Hone.
  { intros i p Hi. destruct (brute_force_is_Some avg p Havg) as (t1 & Ht1 & _).
    exists t1. split.
    - rewrite list_lookup_fmap, Hi. simpl. unfold g1. rewrite Ht1. reflexivity.
    - apply brute_force_nearest, Ht1. }
  assert (map g1 blocks <> []) as Hne1 by (destruct blocks; [congruence | discriminate]).
  destruct (decide (K = 0%nat)) as [-> | HK0].
  - (* no dithering: the one-dimensional matcher *)
    assert (rc = 0%nat) as -> by lia.
    unfold build_raw_matches. simpl.
    destruct (build_matches_mt_1d avg (sum_avg_sq avg) blocks cpu) as [out|];
      [|discriminate].
    simpl in Hsingle |- *. injection Hsingle as Hsingle. rewrite Hsingle.
    exists (Raw1d (map g1 blocks)), (map g1 blocks), (map g1 blocks).
    split; [reflexivity|]. split; [apply flatten_raw1d, Hne1|].
    split; [reflexivity|]. split; [reflexivity|].
    intros i p Hi. destruct (Hone i p Hi) as (t1 & Hm & Hamong).
    exists t1, t1. split; [exact Hm|]. split; [exact Hm|]. split; [exact Hamong|].
    intros _. apply among_1_agree; exact Hamong.
  - (* dithering *)
    assert (forall s, exists idxs,
              top_k argpartition argsort (distances avg (sum_avg_sq avg) s) K = Some idxs
              /\ length idxs = K) as Hfresh.
    { intros s. apply top_k_total; assumption. }
    pose proof (build_matches_mt_2d_fresh argpartition argsort avg (sum_avg_sq avg) K
                  HK0 Hfresh blocks cpu Hcpu Hblocks) as H2d.
    set (frow := fresh_row argpartition argsort avg (sum_avg_sq avg) K) in H2d.
    unfold build_raw_matches.
    destruct (Nat.eqb_spec K 0) as [? | _]; [contradiction|].
    destruct (build_matches_mt_2d argpartition argsort avg (sum_avg_sq avg) blocks cpu K)
      as [out2|]; [|discriminate].
    simpl in H2d |- *. injection H2d as H2d. rewrite H2d.
    set (pick := fun i : nat => if (rc =? 0)%nat then 0%nat else randint i).
    assert (forall i, (pick i < K)%nat /\ (S (pick i) <= Nat.max rc 1)%nat) as Hpick.
    { intros i. unfold pick. destruct (Nat.eqb_spec rc 0) as [-> | Hrc0].
      - lia.
      - specialize (Hrand i Hrc0). lia. }
    assert (process_matches_2d (map frow blocks) rc randint
            = Some (imap (fun i row => row !!! pick i) (map frow blocks))) as Hproc.
    { unfold process_matches_2d. apply mapM_imap_total.
      intros i row Hi. fold (pick i).
      apply list_lookup_lookup_total_lt.
      rewrite list_lookup_fmap in Hi.
      destruct (blocks !! i) as [p|]; [|discriminate]. injection Hi as <-.
      unfold frow. rewrite (fresh_row_length _ _ _ _ _ Hfresh). apply Hpick. }
    destruct (build_matches_mt_1d avg (sum_avg_sq avg) blocks cpu) as [out|];
      [|discriminate].
    simpl in Hsingle |- *. injection Hsingle as Hsingle. rewrite Hsingle.
    eexists _, _, _. split; [reflexivity|].
    split.
    { rewrite flatten_raw2d; [exact Hproc|].
      destruct blocks; [congruence | discriminate]. }
    split; [reflexivity|]. split; [intros ?; contradiction|].
    intros i p Hi. destruct (Hone i p Hi) as (t1 & Hm1 & Hamong1).
    destruct (Hfresh p) as (idxs & Hidxs & Hidxlen).
    destruct (lookup_lt_is_Some_2 idxs (pick i)) as [t Ht];
      [rewrite Hidxlen; apply Hpick|].
    destruct (top_k_among argpartition argsort Hpart Hsort avg p K idxs (pick i) t
                Hok HK Hidxs Ht) as [_ Hamong].
    exists t, t1. split.
    { rewrite list_lookup_imap, list_lookup_fmap, Hi. simpl. f_equal.
      unfold frow, fresh_row. rewrite Hidxs. simpl.
      apply list_lookup_total_correct. unfold i32_row.
      rewrite list_lookup_fmap, Ht. simpl. f_equal.
      apply i32_small. destruct Hamong as [Hlt _]. lia. }
    split; [exact Hm1|].
    assert (among_k_nearest avg p (Nat.max rc 1) t) as Hamong'.
    { apply (among_k_nearest_mono _ _ _ _ _ Hamong), Hpick. }
    split; [exact Hamong'|].
    intros Hrc1. apply among_1_agree; [|exact Hamong1].
    replace (Nat.max rc 1) with 1%nat in Hamong' by lia. exact Hamong'.
Qed.

End DitherTheorem.

Lemma dithered_top_k_witness :
  exists raw m single,
    Match.build_raw_matches NumpyModel.argpartition_ties_last NumpyModel.argsort_ties_first
      tie_tiles (Match.sum_avg_sq tie_tiles) tie_source 1 1 = Some raw
    /\ Match.flatten_matches raw 1 (fun _ => 0%nat) = Some m
    /\ Match.capped tie_source
         <$> Match.build_matches_mt_1d tie_tiles (Match.sum_avg_sq tie_tiles) tie_source 1
       = Some single
    /\ (1%nat = 0%nat -> m = single)
    /\ forall i p, tie_source !! i = Some p ->
         exists t t1,
           m !! i = Some (Z.of_nat t) /\ single !! i = Some (Z.of_nat t1)
           /\ Match.among_k_nearest tie_tiles p (Nat.max 1 1) t
           /\ ((1 <= 1)%nat ->
               Match.euclid p (tie_tiles !!! t) = Match.euclid p (tie_tiles !!! t1)
               /\ (Match.unique_nearest tie_tiles p t1 -> t = t1)).
Proof.
  apply (dithered_top_k NumpyModel.argpartition_ties_last NumpyModel.argsort_ties_first
           tie_tiles tie_source 1 1 1 (fun _ => 0%nat)).
  - apply argpartition_ties_last_ok.
  - apply argsort_ties_first_ok.
  - repeat (constructor; [cbn; lia|]). constructor.
  - cbn. lia.
  - repeat (constructor; [cbn; lia|]). constructor.
  - discriminate.
  - discriminate.
  - cbn. lia.
  - lia.
  - intros; lia.
Defined.

(** With one candidate per pixel the dithered matcher may return a tile
    other than the single-choice one: tiles 0 and 1 are equally far from
    the pixel, the single-choice matcher takes tile 0, and a partition
    that lists tile 1 first is within NumPy's contract. *)
Lemma dithered_one_differs_from_single_choice :
  Match.argpartition_contract NumpyModel.argpartition_ties_last
  /\ Match.argsort_contract NumpyModel.argsort_ties_first
  /\ Match.dithered_matches NumpyModel.argpartition_ties_last NumpyModel.argsort_ties_first
       tie_tiles (Match.sum_avg_sq tie_tiles) tie_source 1 1 (fun _ => 0%nat)
     = Some [1]%Z
  /\ Match.capped tie_source
       <$> Match.build_matches_mt_1d tie_tiles (Match.sum_avg_sq tie_tiles) tie_source 1
     = Some [0]%Z.
Proof.
  split; [apply argpartition_ties_last_ok|].
  split; [apply argsort_ties_first_ok|].
  split; vm_compute; reflexivity.
Qed.

(* ================================================================== *)
(** ** Facts about the tile store *)
(* ================================================================== *)

Section OrderedDictFacts.

Import Store.
Context {V : Type}.
Implicit Types (d : list (nat * V)) (k : nat) (v : V).

Lemma od_get_app k d1 d2 :
  od_get k (d1 ++ d2) = match od_get k d1 with Some v => Some v | None => od_get k d2 end.
Proof.
  induction d1 as [|[k' v'] d1 IH]; simpl; [reflexivity|].
  destruct (k =? k'); [reflexivity | exact IH].
Qed.

Lemma od_get_remove_eq k d : od_get k (od_remove k d) = None.
Proof.
  induction d as [|[k' v'] d IH]; simpl; [reflexivity|].
  destruct (Nat.eqb_spec k k') as [-> | Hne]; [exact IH|].
  simpl. destruct (Nat.eqb_spec k k'); [contradiction | exact IH].
Qed.

Lemma od_get_remove_ne k k' d : k <> k' -> od_get k' (od_remove k d) = od_get k' d.
Proof.
  intros Hne. induction d as [|[k0 v0] d IH]; simpl; [reflexivity|].
  destruct (Nat.eqb_spec k k0) as [-> | Hne0].
  - destruct (Nat.eqb_spec k' k0); [congruence | exact IH].
  - simpl. destruct (k' =? k0); [reflexivity | exact IH].
Qed.

Lemma od_get_set_eq k v d : od_get k (od_set k v d) = Some v.
Proof.
  induction d as [|[k' v'] d IH]; simpl.
  - rewrite Nat.eqb_refl. reflexivity.
  - destruct (Nat.eqb_spec k k') as [-> | Hne]; simpl.
    + rewrite Nat.eqb_refl. reflexivity.
    + destruct (Nat.eqb_spec k k'); [contradiction | exact IH].
Qed.

Lemma od_get_set_ne k k' v d : k <> k' -> od_get k' (od_set k v d) = od_get k' d.
Proof.
  intros Hne. induction d as [|[k0 v0] d IH]; simpl.
  - destruct (Nat.eqb_spec k' k); [congruence | reflexivity].
  - destruct (Nat.eqb_spec k k0) as [-> | Hne0]; simpl.
    + destruct (Nat.eqb_spec k' k0); [congruence | reflexivity].
    + destruct (k' =? k0); [reflexivity | exact IH].
Qed.

(** Moving a key to the end changes the order only. *)
Lemma od_get_move_to_end k k' d : od_get k' (od_move_to_end k d) = od_get k' d.
Proof.
  unfold od_move_to_end. destruct (od_get k d) as [v|] eqn:Hk; [|reflexivity].
  rewrite od_get_app. destruct (Nat.eq_dec k k') as [<- | Hne].
  - rewrite od_get_remove_eq. simpl. rewrite Nat.eqb_refl. symmetry. exact Hk.
  - rewrite od_get_remove_ne by exact Hne.
    destruct (od_get k' d); [reflexivity|]. simpl.
    destruct (Nat.eqb_spec k' k); [congruence | reflexivity].
Qed.

Lemma od_mem_true k d : od_mem k d = true <-> is_Some (od_get k d).
Proof.
  unfold od_mem. destruct (od_get k d); split; intros H;
    try reflexivity; try discriminate; eauto.
  destruct H as [? H]. discriminate.
Qed.

Lemma od_mem_false k d : od_mem k d = false <-> od_get k d = None.
Proof. unfold od_mem. destruct (od_get k d); split; congruence. Qed.

Lemma od_get_refresh (idxs : list nat) k d :
  od_get k (foldl (fun f idx => if od_mem idx f then od_move_to_end idx f else f) d idxs)
  = od_get k d.
Proof.
  revert d. induction idxs as [|i idxs IH]; intros d; simpl; [reflexivity|].
  rewrite IH. destruct (od_mem i d); [apply od_get_move_to_end | reflexivity].
Qed.

Lemma od_keys_get k d : k ∈ od_keys d <-> is_Some (od_get k d).
Proof.
  unfold od_keys. induction d as [|[k' v'] d IH]; simpl.
  - split; [intros H; inversion H | intros [? H]; discriminate].
  - rewrite elem_of_cons, IH. destruct (Nat.eqb_spec k k') as [-> | Hne].
    + split; eauto.
    + split; [intros [?|?]; [contradiction | assumption] | auto].
Qed.

End OrderedDictFacts.

Section StoreFacts.

Import Store.
Context {Frame : Type}.
Variable zero_frame : Frame.
Local Open Scope Z_scope.
Implicit Types (s : TileStore (Frame := Frame)).

(** Static fields never change. *)
Lemma add_frames_static values : forall s m i,
  tile_size (state_of (add_frames s m i values)) = tile_size s
  /\ is_smart (state_of (add_frames s m i values)) = is_smart s
  /\ finished (state_of (add_frames s m i values)) = finished s.
Proof.
  induction values as [|frame rest IH]; intros s m i; simpl; [auto|].
  destruct (is_smart s) eqn:Hsm; simpl.
  - destruct (raw s); simpl.
    + case_decide; simpl; [|rewrite Hsm; auto].
      destruct (IH (set_raw (Fast (<[(m + i)%nat := frame]> arr))
                     (set_ram_usage (ram_usage s + frame_bytes s) s)) m (S i))
        as (H1 & H2 & H3).
      rewrite H1, H2, H3. simpl. auto.
    + destruct (IH (set_raw (Smart (<[(m + i)%nat := frame]> d))
                     (set_ram_usage (ram_usage s + frame_bytes s) s)) m (S i))
        as (H1 & H2 & H3).
      rewrite H1, H2, H3. simpl. auto.
  - destruct (raw s) eqn:Hraw; simpl.
    + case_decide; simpl; [|auto].
      destruct (IH (set_raw (Fast (<[(m + i)%nat := frame]> arr)) s) m (S i))
        as (H1 & H2 & H3).
      rewrite H1, H2, H3. simpl. auto.
    + destruct (IH (set_raw (Smart (<[(m + i)%nat := frame]> d)) s) m (S i))
        as (H1 & H2 & H3).
      rewrite H1, H2, H3. simpl. auto.
Qed.

(** A fast store never charges a frame. *)
Lemma add_frames_fast_ram values : forall s m i,
  is_smart s = false ->
  ram_usage (state_of (add_frames s m i values)) = ram_usage s.
Proof.
  induction values as [|frame rest IH]; intros s m i Hsm; simpl; [reflexivity|].
  rewrite Hsm. destruct (raw s) eqn:Hraw; simpl.
  - case_decide; simpl; [|reflexivity]. rewrite IH by exact Hsm. reflexivity.
  - rewrite IH by exact Hsm. reflexivity.
Qed.

Lemma step_fast s c :
  is_smart s = false ->
  is_smart (step s c) = false /\ ram_usage (step s c) = ram_usage s
  /\ tile_size (step s c) = tile_size s.
Proof.
  intros Hsm. destruct c as [t m vs | t | idxs]; simpl.
  - unfold add_tile. destruct (od_mem t (finished s)); simpl; [auto|].
    match goal with |- context [add_frames ?s2 m 0%nat vs] =>
      destruct (add_frames_static vs s2 m 0%nat) as (H1 & H2 & _);
      rewrite H1, H2, (add_frames_fast_ram vs s2 m 0%nat) by exact Hsm end.
    simpl. auto.
  - unfold free_tile. rewrite Hsm. simpl. auto.
  - unfold refresh. rewrite Hsm. simpl. auto.
Qed.

Lemma run_fast calls : forall s,
  is_smart s = false ->
  ram_usage (run s calls) = ram_usage s /\ tile_size (run s calls) = tile_size s.
Proof.
  induction calls as [|c calls IH]; intros s Hsm; simpl; [auto|].
  destruct (step_fast s c Hsm) as (H1 & H2 & H3).
  destruct (IH (step s c) H1) as [H4 H5]. rewrite H4, H5. auto.
Qed.

End StoreFacts.

Section SmartStoreFacts.

Import Store.
Context {Frame : Type}.
Local Open Scope Z_scope.
Implicit Types (s : TileStore (Frame := Frame)) (d : gmap nat Frame).

Lemma add_frames_smart values : forall s d m i,
  is_smart s = true -> raw s = Smart d ->
  exists s' d',
    add_frames s m i values = Ret s' false
    /\ raw s' = Smart d' /\ is_smart s' = true
    /\ finished s' = finished s /\ tile_size s' = tile_size s
    /\ ram_usage s' = ram_usage s + Z.of_nat (length values) * frame_bytes s
    /\ (forall x, is_Some (d' !! x) <->
                  is_Some (d !! x) \/ in_slots (m + i) (length values) x)
    /\ ((forall x, in_slots (m + i) (length values) x -> d !! x = None) ->
        size d' = (size d + length values)%nat).
Proof.
  induction values as [|frame rest IH]; intros s d m i Hsm Hraw; simpl.
  - exists s, d. split; [reflexivity|]. split; [exact Hraw|]. split; [exact Hsm|].
    split; [reflexivity|]. split; [reflexivity|]. split; [lia|]. split.
    + intros x. unfold in_slots. split; [auto | intros [? | ?]; [assumption | lia]].
    + intros _. lia.
  - rewrite Hsm. simpl. rewrite Hraw.
    set (s1 := set_raw (Smart (<[(m + i)%nat := frame]> d))
                 (set_ram_usage (ram_usage s + frame_bytes s) s)).
    destruct (IH s1 (<[(m + i)%nat := frame]> d) m (S i) Hsm eq_refl)
      as (s' & d' & Hrun & Hraw' & Hsm' & Hfin & Hts & Hram & Hdom & Hsize).
    exists s', d'. split; [exact Hrun|]. split; [exact Hraw'|]. split; [exact Hsm'|].
    split; [exact Hfin|]. split; [exact Hts|]. split.
    { rewrite Hram. unfold s1, frame_bytes. simpl. lia. }
    split.
    + intros x. rewrite Hdom. unfold in_slots.
      destruct (decide (x = (m + i)%nat)) as [-> | Hne].
      * rewrite lookup_insert_eq. split; [intros _; right; lia | intros _; left; eauto].
      * rewrite lookup_insert_ne by congruence.
        split; (intros [? | ?]; [left; assumption | right; lia]).
    + intros Hfree. rewrite Hsize.
      * rewrite map_size_insert_None by (apply Hfree; unfold in_slots; lia). lia.
      * intros x Hx. unfold in_slots in Hx.
        rewrite lookup_insert_ne by lia. apply Hfree. unfold in_slots. lia.
Qed.

Lemma pop_frames_smart offsets : forall s d freed,
  raw s = Smart d -> NoDup offsets ->
  (forall x, x ∈ offsets -> is_Some (d !! x)) ->
  exists s' d',
    pop_frames s offsets freed = Ret s' (freed + Z.of_nat (length offsets) * frame_bytes s)
    /\ raw s' = Smart d' /\ is_smart s' = is_smart s
    /\ finished s' = finished s /\ tile_size s' = tile_size s
    /\ ram_usage s' = ram_usage s
    /\ (forall x, is_Some (d' !! x) <-> is_Some (d !! x) /\ x ∉ offsets)
    /\ size d = (size d' + length offsets)%nat.
Proof.
  induction offsets as [|o rest IH]; intros s d freed Hraw Hnd Hin; simpl.
  - exists s, d. split; [f_equal; lia|]. split; [exact Hraw|].
    repeat (split; [reflexivity|]). split; [|lia].
    intros x. split; [intros H; split; [exact H | apply not_elem_of_nil] | tauto].
  - rewrite Hraw. apply NoDup_cons in Hnd as [Hno Hnd].
    destruct (Hin o ltac:(left)) as [f Hf]. rewrite Hf.
    set (s1 := set_raw (Smart (delete o d)) s).
    destruct (IH s1 (delete o d) (freed + frame_bytes s) eq_refl Hnd)
      as (s' & d' & Hrun & Hraw' & Hsm' & Hfin & Hts & Hram & Hdom & Hsize).
    { intros x Hx. rewrite lookup_delete_ne by (intros ->; contradiction).
      apply Hin. right. exact Hx. }
    exists s', d'. split.
    { rewrite Hrun. f_equal. unfold s1, frame_bytes. simpl. lia. }
    split; [exact Hraw'|]. split; [exact Hsm'|]. split; [exact Hfin|].
    split; [exact Hts|]. split; [exact Hram|]. split.
    + intros x. rewrite Hdom, elem_of_cons.
      destruct (decide (x = o)) as [-> | Hne].
      * rewrite lookup_delete_eq. split; [intros [[? H] _]; discriminate | tauto].
      * rewrite lookup_delete_ne by congruence. tauto.
    + pose proof (map_size_delete_Some o d (ex_intro _ f Hf)) as Hdel.
      assert (size d <> 0%nat) as Hpos.
      { intros H0. apply map_size_empty_iff in H0. subst d.
        rewrite lookup_empty in Hf. discriminate. }
      simpl. lia.
Qed.

End SmartStoreFacts.

Section SmartStoreInvariant.

Import Store.
Context {Frame : Type}.
Local Open Scope Z_scope.
Implicit Types (s : TileStore (Frame := Frame)) (d : gmap nat Frame).

Variables tile_map tile_len_map : nat -> nat.
Hypothesis Hlayout : layout_ok tile_map tile_len_map.

(** What holds of a smart store between calls: every recorded tile sits
    in its own slots, the dictionary holds exactly the slots of the
    recorded tiles, and the counter charges every held frame once. *)
Definition smart_inv s : Prop :=
  is_smart s = true
  /\ exists d,
       raw s = Smart d
       /\ (forall t m k, od_get t (finished s) = Some (m, k) ->
             m = tile_map t /\ (k <= tile_len_map t)%nat)
       /\ (forall x, is_Some (d !! x) <->
             exists t m k, od_get t (finished s) = Some (m, k) /\ in_slots m k x)
       /\ ram_usage s = frame_bytes s * Z.of_nat (size d).

Lemma smart_inv_footprint s :
  smart_inv s -> ram_usage s = 3 * (Z.of_nat (tile_size s) * Z.of_nat (tile_size s))
                               * Z.of_nat (stored_frames s).
Proof.
  intros (_ & d & Hraw & _ & _ & Hram). unfold stored_frames. rewrite Hraw, Hram.
  unfold frame_bytes. lia.
Qed.

Lemma smart_inv_put s t m vs :
  smart_inv s -> m = tile_map t -> (length vs <= tile_len_map t)%nat ->
  od_mem t (finished s) = false ->
  exists s', add_tile s t m vs = Ret s' false
    /\ smart_inv s'
    /\ tile_size s' = tile_size s
    /\ ram_usage s' = ram_usage s + Z.of_nat (length vs) * frame_bytes s
    /\ stored_frames s' = (stored_frames s + length vs)%nat
    /\ od_get t (finished s') = Some (m, length vs).
Proof.
  intros (Hsm & d & Hraw & Hown & Hdom & Hram) Hm Hlen Hnew.
  unfold add_tile. rewrite Hnew.
  set (s2 := set_finished _ (set_finished _ s)).
  destruct (add_frames_smart vs s2 d m 0%nat Hsm Hraw)
    as (s' & d' & Hrun & Hraw' & Hsm' & Hfin & Hts & Hram' & Hdom' & Hsize).
  assert (forall t', od_get t' (finished s2)
                     = if decide (t' = t) then Some (m, length vs)
                       else od_get t' (finished s)) as Hget.
  { intros t'. unfold s2. simpl. rewrite od_get_move_to_end.
    case_decide as Hd.
    - subst t'. apply od_get_set_eq.
    - apply od_get_set_ne. congruence. }
  assert (forall x, in_slots (m + 0) (length vs) x -> d !! x = None) as Hfree.
  { intros x Hx. destruct (d !! x) as [f|] eqn:Hdx; [|reflexivity]. exfalso.
    destruct (proj1 (Hdom x) (ex_intro _ f Hdx)) as (t' & m' & k' & Hg & Hx').
    destruct (Hown t' m' k' Hg) as [-> Hk'].
    assert (t' = t) as ->.
    { apply (Hlayout t' t x); unfold in_slots in *; subst m; lia. }
    apply od_mem_false in Hnew. congruence. }
  exists s'. split; [exact Hrun|]. split; [|split; [|split; [|split]]].
  - split; [exact Hsm'|]. exists d'. split; [exact Hraw'|]. rewrite Hfin. split; [|split].
    + intros t' m' k'. rewrite Hget. case_decide as Hd.
      * intros [= <- <-]. subst t'. auto.
      * apply Hown.
    + intros x. rewrite Hdom'. split.
      * intros [Hold | Hnewx].
        -- apply Hdom in Hold as (t' & m' & k' & Hg & Hx').
           exists t', m', k'. split; [|exact Hx'].
           rewrite Hget. case_decide as Hd; [|exact Hg].
           subst t'. apply od_mem_false in Hnew. congruence.
        -- exists t, m, (length vs). split.
           ++ rewrite Hget. case_decide; [reflexivity | contradiction].
           ++ unfold in_slots in *. lia.
      * intros (t' & m' & k' & Hg & Hx'). rewrite Hget in Hg.
        case_decide as Hd.
        -- injection Hg as <- <-. right. unfold in_slots in *. lia.
        -- left. apply Hdom. eauto.
    + rewrite Hram', Hsize by exact Hfree. unfold frame_bytes in *.
      rewrite Hts. unfold s2. simpl. rewrite Hram. unfold frame_bytes. lia.
  - rewrite Hts. reflexivity.
  - rewrite Hram'. reflexivity.
  - unfold stored_frames. rewrite Hraw', Hraw. apply Hsize, Hfree.
  - rewrite Hfin, Hget. case_decide; [reflexivity | contradiction].
Qed.

Lemma smart_inv_evict s t m k :
  smart_inv s -> od_get t (finished s) = Some (m, k) ->
  exists s', free_tile s t = Ret s' (Z.of_nat k * frame_bytes s)
    /\ smart_inv s'
    /\ tile_size s' = tile_size s
    /\ ram_usage s' = ram_usage s - Z.of_nat k * frame_bytes s
    /\ stored_frames s = (stored_frames s' + k)%nat
    /\ od_get t (finished s') = None.
Proof.
  intros (Hsm & d & Hraw & Hown & Hdom & Hram) Hget.
  unfold free_tile. rewrite Hsm, Hget. simpl.
  set (s1 := set_finished (od_remove t (finished s)) s).
  destruct (pop_frames_smart (seq m k) s1 d 0 Hraw (NoDup_seq m k))
    as (s' & d' & Hrun & Hraw' & Hsm' & Hfin & Hts & Hram' & Hdom' & Hsize).
  { intros x Hx. apply elem_of_seq in Hx. apply Hdom. exists t, m, k.
    split; [exact Hget | unfold in_slots; lia]. }
  rewrite Hrun, length_seq. simpl.
  replace (0 + Z.of_nat k * frame_bytes s1) with (Z.of_nat k * frame_bytes s) by
    (unfold s1, frame_bytes; simpl; lia).
  eexists. split; [reflexivity|]. split; [|split; [|split; [|split]]].
  - split; [simpl; rewrite Hsm'; exact Hsm|]. exists d'. simpl.
    split; [exact Hraw'|]. rewrite Hfin. unfold s1. simpl. split; [|split].
    + intros t' m' k'. destruct (decide (t = t')) as [<- | Hne].
      * rewrite od_get_remove_eq. discriminate.
      * rewrite od_get_remove_ne by exact Hne. apply Hown.
    + intros x. rewrite Hdom', elem_of_seq, Hdom. split.
      * intros [(t' & m' & k' & Hg & Hx') Hout].
        exists t', m', k'. split; [|exact Hx'].
        destruct (decide (t = t')) as [<- | Hne].
        -- rewrite Hget in Hg. injection Hg as <- <-. unfold in_slots in Hx'. lia.
        -- rewrite od_get_remove_ne by exact Hne. exact Hg.
      * intros (t' & m' & k' & Hg & Hx').
        destruct (decide (t = t')) as [<- | Hne].
        { rewrite od_get_remove_eq in Hg. discriminate. }
        rewrite od_get_remove_ne in Hg by exact Hne.
        split; [eauto|]. intros Hin.
        destruct (Hown t' m' k' Hg) as [-> Hk'].
        destruct (Hown t m k Hget) as [-> Hk].
        apply Hne. apply (Hlayout t t' x); unfold in_slots in *; lia.
    + rewrite Hram'. unfold s1. simpl. rewrite Hram.
      unfold frame_bytes. simpl. rewrite Hts. unfold s1. simpl.
      rewrite length_seq in Hsize. rewrite Hsize, Nat2Z.inj_add. ring.
  - simpl. rewrite Hts. reflexivity.
  - simpl. rewrite Hram'. reflexivity.
  - unfold stored_frames. simpl. rewrite Hraw', Hraw.
    rewrite length_seq in Hsize. exact Hsize.
  - simpl. rewrite Hfin. unfold s1. simpl. apply od_get_remove_eq.
Qed.

Lemma smart_inv_refresh s idxs :
  smart_inv s ->
  smart_inv (refresh s idxs)
  /\ tile_size (refresh s idxs) = tile_size s
  /\ ram_usage (refresh s idxs) = ram_usage s
  /\ raw (refresh s idxs) = raw s.
Proof.
  intros (Hsm & d & Hraw & Hown & Hdom & Hram).
  unfold refresh. rewrite Hsm. simpl.
  split; [|auto]. split; [exact Hsm|]. exists d. simpl. split; [exact Hraw|].
  split; [|split].
  - intros t m k. rewrite od_get_refresh. apply Hown.
  - intros x. rewrite Hdom. split; intros (t & m & k & Hg & Hx); exists t, m, k;
      (split; [|exact Hx]); [rewrite od_get_refresh | rewrite od_get_refresh in Hg]; exact Hg.
  - exact Hram.
Qed.

(** Every call that keeps to the layout returns, and keeps what holds
    of the store. *)
Lemma smart_inv_step s c :
  smart_inv s -> follows_layout tile_map tile_len_map c ->
  smart_inv (step s c) /\ tile_size (step s c) = tile_size s.
Proof.
  intros Hinv Hc. destruct c as [t m vs | t | idxs]; simpl.
  - destruct Hc as [Hm Hlen].
    destruct (od_mem t (finished s)) eqn:Hmem.
    + unfold add_tile. rewrite Hmem. simpl. auto.
    + destruct (smart_inv_put s t m vs Hinv Hm Hlen Hmem) as (s' & -> & Hinv' & Hts & _).
      simpl. auto.
  - destruct (od_get t (finished s)) as [[m k]|] eqn:Hget.
    + destruct (smart_inv_evict s t m k Hinv Hget) as (s' & -> & Hinv' & Hts & _).
      simpl. auto.
    + unfold free_tile. destruct Hinv as (Hsm & Hrest). rewrite Hsm, Hget. simpl.
      split; [exact (conj Hsm Hrest) | reflexivity].
  - destruct (smart_inv_refresh s idxs Hinv) as (H1 & H2 & _). auto.
Qed.

Lemma smart_inv_run calls : forall s,
  smart_inv s -> Forall (follows_layout tile_map tile_len_map) calls ->
  smart_inv (run s calls) /\ tile_size (run s calls) = tile_size s.
Proof.
  induction calls as [|c calls IH]; intros s Hinv Hall; simpl; [auto|].
  apply Forall_cons in Hall as [Hc Hall].
  destruct (smart_inv_step s c Hinv Hc) as [Hinv' Hts].
  destruct (IH (step s c) Hinv' Hall) as [H1 H2]. rewrite H2, Hts. auto.
Qed.

End SmartStoreInvariant.

Section StoreTheorems.

Import Store.
Context {Frame : Type}.
Local Open Scope Z_scope.
Implicit Types (s : TileStore (Frame := Frame)).

Lemma new_store_smart_inv (zero_frame : Frame) tile_map tile_len_map size n :
  smart_inv tile_map tile_len_map (new_store zero_frame size n true).
Proof.
  split; [reflexivity|]. exists ∅. simpl. split; [reflexivity|]. split; [|split].
  - intros t m k H. discriminate.
  - intros x. rewrite lookup_empty. split.
    + intros [? H]. discriminate.
    + intros (t & m & k & H & _). discriminate.
  - rewrite map_size_empty. lia.
Qed.

(** C2.  The footprint a store reports.  A fast (dense) store reports
    [total_frames * size^2 * 3] bytes when built and after any run of
    calls.  A smart (sparse) store reports 0 when built; after any run
    of calls that keep to the slot layout it reports [3 * size^2] bytes
    per frame its dictionary holds; from such a state, a put of a tile
    not yet stored returns and adds [size^2 * 3] bytes per frame put,
    and evicting a stored tile returns the bytes freed and takes
    [size^2 * 3] bytes off per frame removed. *)
Theorem store_footprint (zero_frame : Frame) (tile_map tile_len_map : nat -> nat)
    (size total_frames : nat) (any_calls calls : list call) :
  layout_ok tile_map tile_len_map ->
  Forall (follows_layout tile_map tile_len_map) calls ->
  let fast := new_store zero_frame size total_frames false in
  let smart := run (new_store zero_frame size total_frames true) calls in
  let bytes := Z.of_nat size * Z.of_nat size * 3 in
  ram_usage fast = Z.of_nat total_frames * bytes
  /\ ram_usage (run fast any_calls) = Z.of_nat total_frames * bytes
  /\ ram_usage (new_store zero_frame size total_frames true) = 0
  /\ stored_frames (new_store zero_frame size total_frames true) = 0%nat
  /\ ram_usage smart = bytes * Z.of_nat (stored_frames smart)
  /\ (forall t vs,
        contains smart t = false -> (length vs <= tile_len_map t)%nat ->
        exists s', add_tile smart t (tile_map t) vs = Ret s' false
          /\ ram_usage s' = ram_usage smart + Z.of_nat (length vs) * bytes
          /\ stored_frames s' = (stored_frames smart + length vs)%nat)
  /\ (forall t m k,
        od_get t (finished smart) = Some (m, k) ->
        exists s', free_tile smart t = Ret s' (Z.of_nat k * bytes)
          /\ ram_usage s' = ram_usage smart - Z.of_nat k * bytes
          /\ stored_frames smart = (stored_frames s' + k)%nat).
Proof.
  intros Hlayout Hcalls fast smart bytes.
  destruct (smart_inv_run tile_map tile_len_map Hlayout calls
              (new_store zero_frame size total_frames true)
              (new_store_smart_inv zero_frame tile_map tile_len_map size total_frames)
              Hcalls) as [Hinv Hts].
  fold smart in Hinv, Hts. simpl in Hts.
  assert (frame_bytes smart = bytes) as Hfb.
  { unfold frame_bytes. rewrite Hts. reflexivity. }
  split; [unfold fast, bytes; simpl; lia|].
  split.
  { destruct (run_fast any_calls fast eq_refl) as [-> _]. unfold fast, bytes. simpl. lia. }
  split; [reflexivity|]. split; [simpl; apply map_size_empty|].
  split.
  { rewrite (smart_inv_footprint _ _ _ Hinv), Hts. unfold bytes. lia. }
  split.
  - intros t vs Hnew Hlen.
    destruct (smart_inv_put tile_map tile_len_map Hlayout smart t (tile_map t) vs
                Hinv eq_refl Hlen Hnew) as (s' & Hrun & _ & _ & Hram & Hsf & _).
    exists s'. rewrite Hfb in Hram. auto.
  - intros t m k Hget.
    destruct (smart_inv_evict tile_map tile_len_map Hlayout smart t m k Hinv Hget)
      as (s' & Hrun & _ & _ & Hram & Hsf & _).
    exists s'. rewrite Hfb in Hrun, Hram. auto.
Qed.

Lemma add_tile_records s t m vs :
  od_mem t (finished (state_of (add_tile s t m vs))) = true.
Proof.
  unfold add_tile. destruct (od_mem t (finished s)) eqn:Hmem; simpl; [exact Hmem|].
  match goal with |- context [add_frames ?s2 m 0%nat vs] =>
    destruct (add_frames_static vs s2 m 0%nat) as (_ & _ & ->) end.
  simpl. apply od_mem_true. rewrite od_get_move_to_end, od_get_set_eq. eauto.
Qed.

(** C4.  A put for a tile index that is already stored returns at once:
    the store it leaves is the store it found, entries, frames, LRU
    order and reported usage alike, and only the duplicate warning is
    logged.  So of two puts for one tile index the first one wins,
    whatever offset and frames the second one brings. *)
Theorem put_is_idempotent s (t m0 m : nat) (vs0 vs : list Frame) :
  (contains s t = true -> add_tile s t m vs = Ret s true)
  /\ add_tile (state_of (add_tile s t m0 vs0)) t m vs
     = Ret (state_of (add_tile s t m0 vs0)) true.
Proof.
  assert (forall s', contains s' t = true -> add_tile s' t m vs = Ret s' true) as Hdup.
  { intros s' Hin. unfold contains in Hin. unfold add_tile. rewrite Hin. reflexivity. }
  split; [apply Hdup|]. apply Hdup. unfold contains. apply add_tile_records.
Qed.

End StoreTheorems.

(** A smart store of 4x4 tiles with two slots per tile, and a short run
    of calls on it. *)
Definition demo_calls : list (Store.call (Frame := nat)) :=
  [Store.Put 0 0 [7; 8]; Store.Touch [0]; Store.Put 1 2 [9]; Store.Evict 0].

Example demo_store_run :
  let s := Store.run (Store.new_store 0 4 6 true) demo_calls in
  Store.ram_usage s = 48%Z /\ Store.get_least_used s = [1]
  /\ Store.getitem s 2 = Some 9 /\ Store.getitem s 0 = None.
Proof. vm_compute. auto. Qed.

Lemma store_footprint_witness :
  let smart := Store.run (Store.new_store 0 4 6 true) demo_calls in
  Store.ram_usage (Store.run (Store.new_store 0 4 6 false) demo_calls) = (6 * (4 * 4 * 3))%Z
  /\ Store.ram_usage smart = (4 * 4 * 3 * Z.of_nat (Store.stored_frames smart))%Z.
Proof.
  assert (Store.layout_ok (fun t => 2 * t) (fun _ => 2)) as Hlayout.
  { intros t1 t2 x. unfold Store.in_slots. lia. }
  assert (Forall (Store.follows_layout (fun t => 2 * t) (fun _ => 2)) demo_calls) as Hcalls.
  { repeat constructor; simpl; lia. }
  pose proof (store_footprint 0 (fun t => 2 * t) (fun _ => 2) 4 6 demo_calls demo_calls
                Hlayout Hcalls) as H.
  cbv zeta in H. destruct H as (_ & Hfast & _ & _ & Hsmart & _).
  split; [exact Hfast | exact Hsmart].
Defined.

Lemma put_is_idempotent_witness :
  let s := Store.run (Store.new_store 0 4 6 true) demo_calls in
  Store.contains s 1 = true /\ Store.add_tile s 1 5 [3; 4] = Store.Ret s true.
Proof.
  split; [reflexivity|].
  apply (proj1 (put_is_idempotent (Store.run (Store.new_store 0 4 6 true) demo_calls)
                  1 0 5 [] [3; 4])).
  reflexivity.
Defined.

(* ================================================================== *)
(** ** Facts about the streaming manager *)
(* ================================================================== *)

Lemma pow2_ge_2 e : 1 <= e -> 2 <= 2 ^ e.
Proof.
  intros He. destruct e as [|e]; [lia|]. rewrite Nat.pow_succ_r'.
  pose proof (Nat.pow_nonzero 2 e). lia.
Qed.

Section PartitionFacts.

Import Store Stream.
Context {Frame : Type}.
Variable zero_frame : Frame.
Variable env : Env.
Local Open Scope Z_scope.

Hypothesis Hframes : (1 <= total_frames env)%nat.
Hypothesis Hmean : 0 <= mean_tile_len env.
Hypothesis Hmax : 0 <= max_tile_len env.

Lemma od_get_filter_keys {V} (kept : list nat) (d : list (nat * V)) k :
  od_get k (filter (fun b => fst b ∈ kept) d)
  = if decide (k ∈ kept) then od_get k d else None.
Proof.
  induction d as [|[k' v] d IH]; simpl.
  - case_decide; reflexivity.
  - rewrite filter_cons. simpl. destruct (decide (k' ∈ kept)) as [Hin | Hout]; simpl.
    + destruct (Nat.eqb_spec k k') as [-> | Hne].
      * case_decide; [reflexivity | contradiction].
      * exact IH.
    + rewrite IH. destruct (Nat.eqb_spec k k') as [-> | Hne]; [|reflexivity].
      case_decide; [contradiction | reflexivity].
Qed.

Lemma prefetch_reserve_nonneg w h : 0 <= prefetch_reserve env w h.
Proof.
  unfold prefetch_reserve.
  assert (0 <= Z.min (mean_tile_len env) (max_tile_len env)) by lia.
  repeat apply Z.mul_nonneg_nonneg; lia.
Qed.

Lemma required_ram_nonneg raised w h : 0 <= required_ram env raised w h.
Proof.
  unfold required_ram. pose proof (prefetch_reserve_nonneg w h).
  assert (0 <= 2 * Z.of_nat (total_frames env) * Z.of_nat raised * Z.of_nat raised * 3)
    by (repeat apply Z.mul_nonneg_nonneg; lia).
  lia.
Qed.

(** With the budget overdrawn, a tier above size 1 is made smart. *)
Lemma partition_step_overdrawn w h (ps : part_state (Frame := Frame)) e :
  ps_available_ram ps < 0 -> (1 <= e)%nat ->
  let ps' := partition_step zero_frame env w h ps e in
  ps_available_ram ps' = ps_available_ram ps
  /\ ps_fast_limit ps' = ps_fast_limit ps
  /\ ps_kept ps' = ps_kept ps ++ [(2 ^ e)%nat]
  /\ (exists st, od_get (2 ^ e)%nat (ps_stores ps') = Some st /\ is_smart st = true)
  /\ (forall size, size <> (2 ^ e)%nat ->
        od_get size (ps_stores ps') = od_get size (ps_stores ps)).
Proof.
  intros Hneg He. unfold partition_step.
  pose proof (required_ram_nonneg (2 ^ e) w h) as Hreq.
  pose proof (pow2_ge_2 e He) as Hpow.
  rewrite bool_decide_eq_false_2 by lia.
  destruct (Nat.eqb_spec (2 ^ e) 1) as [? | _]; [lia|]. simpl.
  split; [reflexivity|]. split; [reflexivity|]. split; [reflexivity|].
  unfold store_is_smart.
  destruct (od_get (2 ^ e)%nat (ps_stores ps)) as [st|] eqn:Hget; simpl.
  - destruct (is_smart st) eqn:Hsm.
    + split; [eauto | reflexivity].
    + split; [rewrite od_get_set_eq; eauto|].
      intros size Hne. apply od_get_set_ne. congruence.
  - split; [rewrite od_get_set_eq; eauto|].
    intros size Hne. apply od_get_set_ne. congruence.
Qed.

Lemma partition_tail_overdrawn w h es : forall (ps : part_state (Frame := Frame)),
  ps_available_ram ps < 0 -> Forall (fun e => (1 <= e)%nat) es ->
  let ps' := foldl (partition_step zero_frame env w h) ps es in
  ps_fast_limit ps' = ps_fast_limit ps
  /\ ps_kept ps' = ps_kept ps ++ map (fun e => (2 ^ e)%nat) es
  /\ (forall e, e ∈ es ->
        exists st, od_get (2 ^ e)%nat (ps_stores ps') = Some st /\ is_smart st = true)
  /\ (forall size, size ∉ map (fun e => (2 ^ e)%nat) es ->
        od_get size (ps_stores ps') = od_get size (ps_stores ps)).
Proof.
  induction es as [|e es IH]; intros ps Hneg Hes; simpl.
  - split; [reflexivity|]. split; [rewrite app_nil_r; reflexivity|].
    split; [intros e He; inversion He | reflexivity].
  - apply Forall_cons in Hes as [He Hes].
    destruct (partition_step_overdrawn w h ps e Hneg He)
      as (Hav & Hfl & Hk & Hsmart & Hother).
    destruct (IH (partition_step zero_frame env w h ps e) ltac:(lia) Hes)
      as (Hfl' & Hk' & Hsmart' & Hother').
    split; [congruence|].
    split; [rewrite Hk', Hk, <- app_assoc; reflexivity|].
    split.
    + intros e' He'. apply elem_of_cons in He' as [-> | He'].
      * destruct (decide ((2 ^ e)%nat ∈ map (fun e0 => (2 ^ e0)%nat) es)) as [Hin | Hout].
        -- apply list_elem_of_fmap in Hin as (e0 & Heq & He0).
           rewrite Heq. apply Hsmart', He0.
        -- rewrite Hother' by exact Hout. exact Hsmart.
      * apply Hsmart', He'.
    + intros size Hout. apply not_elem_of_cons in Hout as [Hne Hout].
      rewrite Hother' by exact Hout. apply Hother, Hne.
Qed.

End PartitionFacts.

Section PartitionTheorem.

Import Store Stream.
Context {Frame : Type}.
Local Open Scope Z_scope.

(** C7.  [partition] with minimum tier 1 and a budget of 0 bytes (any
    display of at least one pixel each way, any tile stores from
    before; the mosaic holds at least one frame, as every processed
    mosaic does).  The call returns; the tier of size 1 is dense; every
    other retained tier is sparse; the retained tiers are the powers of
    two up to the largest one that fits the display; and the fast limit
    is 1. *)
Theorem partition_zero_budget (zero_frame : Frame) (env : Env)
    (sm : Manager (Frame := Frame)) (w h : nat) :
  init_ram sm = 0 ->
  (1 <= Nat.min w h)%nat ->
  (1 <= total_frames env)%nat ->
  0 <= mean_tile_len env -> 0 <= max_tile_len env ->
  exists sm',
    partition zero_frame env sm 1 (w, h) = Ret sm' tt
    /\ (exists st, get_store sm' 1 = Some st /\ is_smart st = false)
    /\ (forall size st, get_store sm' size = Some st -> size <> 1%nat -> is_smart st = true)
    /\ (forall size, is_Some (get_store sm' size) <->
          exists e, (e <= Nat.log2 (Nat.min w h))%nat /\ size = (2 ^ e)%nat)
    /\ fast_limit sm' = 1%nat.
Proof.
  intros Hram Hdisp Hframes Hmean Hmax.
  unfold partition.
  destruct (Nat.eqb_spec (Nat.min w h) 0) as [? | _]; [lia|].
  simpl (1 =? 0)%nat. cbv iota.
  set (E := Nat.log2 (Nat.min w h)).
  replace (Nat.log2 1) with 0%nat by reflexivity.
  replace (Nat.log2 (2 ^ E * 2)) with (S E).
  2:{ replace (2 ^ E * 2)%nat with (2 ^ S E)%nat by (rewrite Nat.pow_succ_r'; lia).
      symmetry. apply Nat.log2_pow2. lia. }
  rewrite Nat.sub_0_r. rewrite <- cons_seq. simpl foldl.
  set (ps0 := mkPart (tile_stores sm) (init_ram sm) 0 (fast_limit sm) []).
  set (ps1 := partition_step zero_frame env w h ps0 0).
  (* the first tier *)
  assert (ps_available_ram ps1 < 0 /\ ps_fast_limit ps1 = 1%nat /\ ps_kept ps1 = [1%nat]
          /\ exists st, od_get 1%nat (ps_stores ps1) = Some st /\ is_smart st = false)
    as (Hav1 & Hfl1 & Hk1 & Hdense).
  { unfold ps1, partition_step. simpl (2 ^ 0)%nat. simpl (1 =? 1)%nat.
    rewrite orb_true_r. simpl. rewrite Hram. split; [lia|].
    split; [reflexivity|]. split; [reflexivity|].
    unfold store_is_smart.
    destruct (od_get 1%nat (tile_stores sm)) as [st|] eqn:Hget; simpl.
    - destruct (is_smart st) eqn:Hsm.
      + rewrite od_get_set_eq. eauto.
      + eauto.
    - rewrite od_get_set_eq. eauto. }
  (* the tiers above it *)
  destruct (partition_tail_overdrawn zero_frame env Hframes Hmean Hmax w h (seq 1 E) ps1 Hav1)
    as (Hfl & Hk & Hsmart & Hother).
  { apply Forall_forall. intros e He. apply elem_of_seq in He. lia. }
  set (ps := foldl (partition_step zero_frame env w h) ps1 (seq 1 E)) in *.
  assert (forall size, size ∈ ps_kept ps <->
            exists e, (e <= E)%nat /\ size = (2 ^ e)%nat) as Hkept.
  { intros size. rewrite Hk, Hk1. simpl. rewrite elem_of_cons, list_elem_of_fmap. split.
    - intros [-> | (e & -> & He)].
      + exists 0%nat. split; [lia | reflexivity].
      + apply elem_of_seq in He. exists e. split; [lia | reflexivity].
    - intros (e & He & ->). destruct e as [|e]; [left; reflexivity|].
      right. exists (S e). split; [reflexivity|]. apply elem_of_seq. lia. }
  assert (1%nat ∉ map (fun e => (2 ^ e)%nat) (seq 1 E)) as Hone.
  { intros Hin. apply list_elem_of_fmap in Hin as (e & Heq & He).
    apply elem_of_seq in He. pose proof (pow2_ge_2 e ltac:(lia)). lia. }
  eexists. split; [reflexivity|]. unfold get_store. simpl.
  split; [|split; [|split]].
  - destruct Hdense as (st & Hst & Hsm). exists st. split; [|exact Hsm].
    rewrite od_get_filter_keys. rewrite decide_True.
    + rewrite (Hother 1%nat Hone). exact Hst.
    + apply Hkept. exists 0%nat. split; [lia | reflexivity].
  - intros size st. rewrite od_get_filter_keys. case_decide as Hin; [|discriminate].
    intros Hst Hne. apply Hkept in Hin as (e & He & ->).
    destruct e as [|e]; [contradiction|].
    destruct (Hsmart (S e)) as (st' & Hst' & Hsm'); [apply elem_of_seq; lia|].
    congruence.
  - intros size. rewrite od_get_filter_keys. rewrite <- Hkept. split.
    + intros [st Hst]. case_decide; [assumption | discriminate].
    + intros Hin. rewrite decide_True by exact Hin.
      apply Hkept in Hin as (e & He & ->). destruct e as [|e].
      * change (2 ^ 0)%nat with 1%nat.
        rewrite (Hother 1%nat Hone). destruct Hdense as (st & -> & _). eauto.
      * destruct (Hsmart (S e)) as (st' & -> & _); [apply elem_of_seq; lia | eauto].
  - rewrite Hfl. exact Hfl1.
Qed.

End PartitionTheorem.

(** A mosaic of three frames on a 5 x 9 display, nothing allocated yet. *)
Definition demo_env : Stream.Env :=
  Stream.mkEnv [Stream.mkTileInfo 1 Stream.Pic 0; Stream.mkTileInfo 2 Stream.Vid 1]
    2 1 [0; 1] 3 4 64.

Definition demo_manager : Stream.Manager (Frame := nat) :=
  Stream.mkManager [] 1 1 0 0 0 false false.

Example demo_partition :
  map (fun b => (fst b, Store.is_smart (snd b)))
    (Stream.tile_stores (Store.state_of (Stream.partition 0 demo_env demo_manager 1 (5, 9))))
  = [(1, false); (2, true); (4, true)].
Proof. vm_compute. reflexivity. Qed.

Lemma partition_zero_budget_witness :
  exists sm',
    Stream.partition 0 demo_env demo_manager 1 (5, 9) = Store.Ret sm' tt
    /\ (exists st, Stream.get_store sm' 1 = Some st /\ Store.is_smart st = false)
    /\ (forall size st, Stream.get_store sm' size = Some st -> size <> 1 ->
          Store.is_smart st = true)
    /\ (forall size, is_Some (Stream.get_store sm' size) <->
          exists e, e <= Nat.log2 (Nat.min 5 9) /\ size = 2 ^ e)
    /\ Stream.fast_limit sm' = 1.
Proof.
  apply (partition_zero_budget 0 demo_env demo_manager 5 9).
  - reflexivity.
  - simpl. lia.
  - simpl. lia.
  - simpl. lia.
  - simpl. lia.
Defined.

Section StreamHitFacts.

Import Store Stream.
Context {Frame : Type}.
Local Open Scope Z_scope.
Implicit Types (st : TileStore (Frame := Frame)) (sm : Manager (Frame := Frame)).

(** [refresh] touches the order of [finished] and nothing else. *)
Lemma refresh_keeps st idxs :
  raw (refresh st idxs) = raw st
  /\ ram_usage (refresh st idxs) = ram_usage st
  /\ tile_size (refresh st idxs) = tile_size st
  /\ len (refresh st idxs) = len st
  /\ is_smart (refresh st idxs) = is_smart st
  /\ (forall t, od_get t (finished (refresh st idxs)) = od_get t (finished st)).
Proof.
  unfold refresh. destruct (is_smart st) eqn:Hsm; simpl.
  - do 4 (split; [reflexivity|]). split; [exact Hsm|].
    intros t. apply od_get_refresh.
  - do 4 (split; [reflexivity|]). split; [exact Hsm|].
    intros t. reflexivity.
Qed.

Lemma od_get_map_values {V} (f : nat * V -> V) (d : list (nat * V)) k :
  od_get k (map (fun b => (fst b, f b)) d) = (fun v => f (k, v)) <$> od_get k d.
Proof.
  induction d as [|[k' v] d IH]; simpl; [reflexivity|].
  destruct (Nat.eqb_spec k k') as [-> | Hne]; [reflexivity | exact IH].
Qed.

Lemma filter_none {A} (P : A -> Prop) `{forall x, Decision (P x)} (l : list A) :
  (forall x, x ∈ l -> ~ P x) -> filter P l = [].
Proof.
  induction l as [|x l IH]; intros Hall; [reflexivity|].
  rewrite filter_cons. rewrite decide_False by (apply Hall; left).
  apply IH. intros y Hy. apply Hall. right. exact Hy.
Qed.

End StreamHitFacts.

Section StreamHitTheorem.

Import Store Stream.
Context {Frame : Type}.
Local Open Scope Z_scope.

(** C8.  A stream request all of whose tiles are already stored at the
    requested tier.  The job returns without dispatching any decode
    task and without evicting; the manager's own counters and limits
    stay as they were; the tiers stay the same tiers in the same order;
    and every tier keeps its frames, its reported usage, its mode and
    the entry of every tile.  What the job does is refresh: with the
    two flags clear, every smart tier with bytes in use is the tier
    from before refreshed with the requested tiles, which moves them to
    the end of its LRU list, and every other tier is the tier from
    before; with a flag set the job returns the manager as it is. *)
Theorem stream_all_cached (env : Env) (sm : Manager (Frame := Frame))
    (onscreen : list nat) (ts : nat) (store : TileStore) :
  get_store sm ts = Some store ->
  (forall t, t ∈ onscreen -> contains store t = true) ->
  exists sm',
    stream_thread env sm onscreen ts = Ret sm' (mkJob [] [] 0)
    /\ sm_ram_usage sm' = sm_ram_usage sm
    /\ fast_limit sm' = fast_limit sm /\ res_limit sm' = res_limit sm
    /\ init_ram sm' = init_ram sm
    /\ map fst (tile_stores sm') = map fst (tile_stores sm)
    /\ (forall size st, get_store sm size = Some st ->
          exists st',
            get_store sm' size = Some st'
            /\ (st' = st \/ (is_smart st = true /\ st' = refresh st onscreen))
            /\ raw st' = raw st /\ ram_usage st' = ram_usage st
            /\ is_smart st' = is_smart st
            /\ (forall t, od_get t (finished st') = od_get t (finished st)))
    /\ (stop_streaming_flag sm = false -> never_stream_flag sm = false ->
        forall size st, get_store sm size = Some st ->
          (is_smart st = true -> ram_usage st <> 0 ->
             get_store sm' size = Some (refresh st onscreen))
          /\ (is_smart st = false \/ ram_usage st = 0 -> get_store sm' size = Some st))
    /\ (stop_streaming_flag sm = true \/ never_stream_flag sm = true -> sm' = sm).
Proof.
  intros Hstore Hall. unfold stream_thread.
  destruct (stop_streaming_flag sm || never_stream_flag sm) eqn:Hflags.
  - exists sm. do 6 (split; [reflexivity|]).
    split; [|split; [|reflexivity]].
    + intros size st Hst. exists st. split; [exact Hst|]. split; [left; reflexivity|].
      do 3 (split; [reflexivity|]). intros t. reflexivity.
    + intros Hstop Hnever. rewrite Hstop, Hnever in Hflags. discriminate.
  - unfold get_store in Hstore. rewrite Hstore.
    rewrite filter_none.
    2:{ intros t Ht Hnot. apply Hnot. apply od_keys_get, od_mem_true.
        apply (Hall t Ht). }
    eexists. split; [reflexivity|]. simpl.
    do 4 (split; [reflexivity|]).
    split.
    { rewrite map_map. apply map_ext. intros [k st]. simpl.
      destruct (is_smart st && negb (ram_usage st =? 0)); reflexivity. }
    set (f := fun b : nat * TileStore (Frame := Frame) =>
                if is_smart (snd b) && negb (ram_usage (snd b) =? 0)
                then refresh (snd b) onscreen else snd b).
    assert (map (fun b => if is_smart (snd b) && negb (ram_usage (snd b) =? 0)
                          then (fst b, refresh (snd b) onscreen) else b) (tile_stores sm)
            = map (fun b => (fst b, f b)) (tile_stores sm)) as ->.
    { apply map_ext. intros [k st0]. unfold f. simpl.
      destruct (is_smart st0 && negb (ram_usage st0 =? 0)); reflexivity. }
    assert (forall size st, od_get size (tile_stores sm) = Some st ->
              od_get size (map (fun b => (fst b, f b)) (tile_stores sm))
              = Some (if is_smart st && negb (ram_usage st =? 0)
                      then refresh st onscreen else st)) as Hget.
    { intros size st Hst. rewrite od_get_map_values, Hst. reflexivity. }
    unfold get_store. simpl.
    split; [|split].
    + intros size st Hst. rewrite (Hget size st Hst). eexists. split; [reflexivity|].
      destruct (is_smart st) eqn:Hsm; simpl.
      * destruct (ram_usage st =? 0); simpl.
        -- split; [left; reflexivity|]. split; [reflexivity|]. split; [reflexivity|].
           split; [first [reflexivity | assumption]|]. intros t. reflexivity.
        -- destruct (refresh_keeps st onscreen) as (H1 & H2 & _ & _ & H5 & H6).
           split; [right; split; reflexivity|].
           split; [exact H1|]. split; [exact H2|]. split; [congruence | exact H6].
      * split; [left; reflexivity|]. split; [reflexivity|]. split; [reflexivity|].
        split; [first [reflexivity | assumption]|]. intros t. reflexivity.
    + intros _ _ size st Hst. rewrite (Hget size st Hst). split.
      * intros Hsm Hu. rewrite Hsm. simpl.
        destruct (Z.eqb_spec (ram_usage st) 0) as [? | _]; [contradiction | reflexivity].
      * intros [Hsm | Hu].
        -- rewrite Hsm. reflexivity.
        -- rewrite Hu. simpl. rewrite andb_false_r. reflexivity.
    + intros [Hstop | Hnever].
      * rewrite Hstop in Hflags. discriminate.
      * rewrite Hnever, orb_true_r in Hflags. discriminate.
Qed.

End StreamHitTheorem.

Section EvictionFacts.

Import Store Stream.
Context {Frame : Type}.
Local Open Scope Z_scope.
Implicit Types (sm : Manager (Frame := Frame)) (st : evict_state (Frame := Frame)).

Lemma store_contains_true sm size t :
  store_contains sm size t = Some true ->
  exists store, get_store sm size = Some store /\ contains store t = true.
Proof.
  unfold store_contains, get_store.
  destruct (od_get size (tile_stores sm)) as [store|]; simpl; [|discriminate].
  intros [= H]. eauto.
Qed.

Lemma probe_up_sound sm t fuel : forall size size',
  probe_up sm t fuel size = Found size' ->
  (size <= size')%nat /\ store_contains sm size' t = Some true.
Proof.
  induction fuel as [|fuel IH]; intros size size'; simpl.
  - case_decide; discriminate.
  - case_decide; [|discriminate].
    destruct (store_contains sm size t) as [[|]|] eqn:Hc; try discriminate.
    + intros [= <-]. split; [lia | exact Hc].
    + intros H'. apply IH in H' as [Hle Hc']. split; [lia | exact Hc'].
Qed.

(** The loop of the probe ends within the fuel it is given. *)
Lemma probe_up_fuel sm t fuel : forall size,
  (1 <= size)%nat -> (res_limit sm < size + fuel)%nat ->
  probe_up sm t fuel size <> OutOfFuel.
Proof.
  induction fuel as [|fuel IH]; intros size Hpos Hfuel; simpl.
  - case_decide; [lia | discriminate].
  - case_decide; [|discriminate].
    destruct (store_contains sm size t) as [[|]|]; try discriminate.
    apply IH; lia.
Qed.

Lemma find_supersized_tile_fuel sm t start :
  (1 <= Nat.max (fast_limit sm) start)%nat ->
  find_supersized_tile sm t start <> OutOfFuel.
Proof.
  intros Hpos. unfold find_supersized_tile.
  destruct (if decide (res_limit sm <= start)%nat then _ else _) as [[|]|]; try discriminate.
  destruct (if decide (start < fast_limit sm)%nat then _ else _) as [[|]|]; try discriminate.
  apply probe_up_fuel; lia.
Qed.

(** Below the resolution limit, a size the probe returns is a tier of
    higher resolution that holds the tile. *)
Lemma find_supersized_tile_higher sm t start size :
  find_supersized_tile sm t start = Found size -> size <> 0%nat ->
  (start < res_limit sm)%nat ->
  has_higher_copy sm t start.
Proof.
  unfold find_supersized_tile. intros Hfind Hsize Hlt.
  destruct (decide (res_limit sm <= start)%nat) as [? | _]; [lia|].
  destruct (decide (start < fast_limit sm)%nat) as [Hfast | Hfast].
  - destruct (store_contains sm (fast_limit sm) t) as [[|]|] eqn:Hc; try discriminate.
    + injection Hfind as <-.
      destruct (store_contains_true _ _ _ Hc) as (store & Hs & Hin).
      exists (fast_limit sm), store. auto.
    + apply probe_up_sound in Hfind as [Hle Hc'].
      destruct (store_contains_true _ _ _ Hc') as (store & Hs & Hin).
      exists size, store. split; [lia | auto].
  - apply probe_up_sound in Hfind as [Hle Hc'].
    destruct (store_contains_true _ _ _ Hc') as (store & Hs & Hin).
    exists size, store. split; [lia | auto].
Qed.

Variables (onscreen cached : list nat) (needed : Z) (ts : nat).

Lemma evict_cond_rule sm stage size t :
  evict_cond sm onscreen cached ts stage size t = Some true ->
  eviction_rule onscreen cached ts (mkEviction stage size t sm).
Proof.
  unfold evict_cond, eviction_rule. simpl.
  destruct (Nat.eqb_spec stage 1) as [-> | H1]; simpl.
  - destruct (bool_decide_reflect (t ∉ onscreen)) as [Hout | Hin]; [auto|].
    simpl. discriminate.
  - destruct (Nat.eqb_spec stage 2) as [-> | H2].
    + destruct (Nat.eqb_spec size ts) as [-> | Hne]; simpl; [discriminate|].
      destruct (find_supersized_tile sm t size) as [size'| | |] eqn:Hf; simpl;
        try discriminate.
      intros [= Hz]. split; [exact Hne|]. exists size'. split; [reflexivity|].
      destruct (Nat.eqb_spec size' 0); [discriminate | assumption].
    + destruct (Nat.eqb_spec stage 3) as [-> | H3]; [|discriminate].
      intros [= Hc]. apply andb_true_iff in Hc as [Hne Hout].
      split.
      * destruct (Nat.eqb_spec size ts); [discriminate | assumption].
      * apply bool_decide_eq_true in Hout. exact Hout.
Qed.

Local Abbreviation ok := (Forall (eviction_rule onscreen cached ts)).

Lemma evict_tiles_trace stage size todo : forall st,
  ok (es_trace st) ->
  ok (es_trace (state_of (evict_tiles onscreen cached needed ts stage size todo st))).
Proof.
  induction todo as [|t rest IH]; intros st Hok; simpl; [exact Hok|].
  destruct (evict_cond (es_sm st) onscreen cached ts stage size t) as [c|] eqn:Hc;
    [|exact Hok].
  destruct c.
  - pose proof (evict_cond_rule _ _ _ _ Hc) as Hrule.
    destruct (od_get size (tile_stores (es_sm st))) as [store|]; [|exact Hok].
    destruct (free_tile store t) as [store' freed | store' e]; simpl.
    + case_bool_decide; simpl.
      * apply Forall_app. split; [exact Hok | constructor; [exact Hrule | constructor]].
      * apply IH. simpl.
        apply Forall_app. split; [exact Hok | constructor; [exact Hrule | constructor]].
    + apply Forall_app. split; [exact Hok | constructor; [exact Hrule | constructor]].
  - case_bool_decide; simpl; [exact Hok | apply IH, Hok].
Qed.

Lemma evict_stores_trace stage freeable : forall st,
  ok (es_trace st) ->
  ok (es_trace (state_of (evict_stores onscreen cached needed ts stage freeable st))).
Proof.
  induction freeable as [|size rest IH]; intros st Hok; simpl; [exact Hok|].
  destruct (od_get size (tile_stores (es_sm st))) as [store|]; [|exact Hok].
  match goal with |- context [evict_tiles _ _ _ _ _ _ ?todo ?st1] =>
    pose proof (evict_tiles_trace stage size todo st1 Hok) as Ht;
    destruct (evict_tiles onscreen cached needed ts stage size todo st1) as [st2 b | st2 e]
  end; simpl in Ht |- *.
  - apply IH, Ht.
  - exact Ht.
Qed.

Lemma evict_stages_trace freeable stages : forall st,
  ok (es_trace st) ->
  ok (es_trace (state_of (evict_stages onscreen cached needed ts freeable stages st))).
Proof.
  induction stages as [|stage later IH]; intros st Hok; simpl; [exact Hok|].
  pose proof (evict_stores_trace stage freeable st Hok) as Hs.
  destruct (evict_stores onscreen cached needed ts stage freeable st) as [st' u | st' e];
    simpl in Hs |- *; [|exact Hs].
  destruct (es_freeing st'); [apply IH, Hs | exact Hs].
Qed.

Lemma free_ram_trace sm :
  ok (es_trace (state_of (free_ram sm onscreen cached needed ts))).
Proof.
  unfold free_ram. destruct (freeable_sizes sm) as [|size rest].
  - simpl. constructor.
  - apply evict_stages_trace. simpl. constructor.
Qed.

End EvictionFacts.

Section EvictionTheorem.

Import Store Stream.
Context {Frame : Type}.
Local Open Scope Z_scope.

(** C3, as the code has it.  Every eviction of a streaming job happens
    at stage 1, 2 or 3 and meets the condition of its stage: at stage 1
    the tile is not on-screen; at stage 2 the copy is held at a tier
    other than the requested one and the probe for a larger copy
    succeeds; at stage 3 the copy is held at a tier other than the
    requested one and the tile is not flagged for downscaling.  So at
    stages 1 and 2, a copy evicted from below the resolution limit
    belongs to a tile that is off-screen or has a copy of higher
    resolution; and at no stage does an on-screen tile lose its copy at
    the requested tier.  Stage 3 does evict on-screen tiles that have no
    copy of higher resolution. *)
Theorem eviction_stages (env : Env) (sm sm' : Manager (Frame := Frame))
    (onscreen : list nat) (ts : nat) (j : job) :
  stream_thread env sm onscreen ts = Ret sm' j ->
  Forall (fun ev =>
      eviction_rule onscreen (downscale_set env sm onscreen ts) ts ev
      /\ (1 <= ev_stage ev <= 3)%nat
      /\ ((ev_stage ev <= 2)%nat -> (ev_size ev < res_limit (ev_before ev))%nat ->
          ev_tile ev ∉ onscreen \/ has_higher_copy (ev_before ev) (ev_tile ev) (ev_size ev))
      /\ (ev_tile ev ∈ onscreen -> ev_size ev <> ts))
    (evictions j).
Proof.
  unfold stream_thread. intros Hrun.
  destruct (stop_streaming_flag sm || never_stream_flag sm).
  { injection Hrun as <- <-. constructor. }
  destruct (od_get ts (tile_stores sm)) as [store|] eqn:Hstore; [|discriminate].
  destruct (filter _ onscreen) as [|b blanks] eqn:Hblanks.
  { injection Hrun as <- <-. constructor. }
  destruct (compute_needs env sm ts (b :: blanks)) as [n|] eqn:Hneeds; [|discriminate].
  pose proof (free_ram_trace onscreen (cached_idxs n) (needed_ram n) ts sm) as Htrace.
  destruct (free_ram sm onscreen (cached_idxs n) (needed_ram n) ts) as [st stage | st e];
    [|discriminate].
  destruct (group_by_path env (vid_idxs n) []) as [vids|]; [|discriminate].
  injection Hrun as <- <-. simpl in Htrace |- *.
  assert (downscale_set env sm onscreen ts = cached_idxs n) as ->.
  { unfold downscale_set, blanks_of. rewrite Hstore, Hblanks, Hneeds. reflexivity. }
  eapply Forall_impl; [exact Htrace|].
  intros ev Hrule. split; [exact Hrule|].
  unfold eviction_rule in Hrule.
  destruct (ev_stage ev) as [|[|[|[|s]]]] eqn:Hstage; try contradiction.
  - split; [lia|]. split; [auto | intros Hin; contradiction].
  - destruct Hrule as (Hne & size & Hfind & Hsize).
    split; [lia|]. split; [|intros _; exact Hne].
    intros _ Hlt. right. apply (find_supersized_tile_higher _ _ _ _ Hfind Hsize Hlt).
  - destruct Hrule as [Hne Hout].
    split; [lia|]. split; [intros ?; lia | intros _; exact Hne].
Qed.

End EvictionTheorem.

(** A mosaic of one picture tile on an 8 x 9 display with a budget of
    20 bytes: the tiers 2, 4 and 8 are all smart.  Tile 0 has been
    streamed in at tier 2, and is then requested at tier 4. *)
Definition evict_env : Stream.Env :=
  Stream.mkEnv [Stream.mkTileInfo 1 Stream.Pic 0] 1 1 [0] 1 4 64.

Definition evict_manager : Stream.Manager (Frame := nat) :=
  Store.state_of
    (Stream.base_tile evict_env
       (Store.state_of
          (Stream.partition 0 evict_env (Stream.mkManager [] 1 1 20 0 0 false false) 2 (8, 9)))
       0 2 7).

Example evict_manager_tiers :
  map (fun b => (fst b, Store.is_smart (snd b), Store.get_least_used (snd b),
                 Store.ram_usage (snd b)))
    (Stream.tile_stores evict_manager)
  = [(2, true, [0], 12%Z); (4, true, [], 0%Z); (8, true, [], 0%Z)].
Proof. vm_compute. reflexivity. Qed.

Example evict_job_plan :
  Stream.dispatched <$> Store.returned (Stream.stream_thread evict_env evict_manager [0] 4)
  = Some [Stream.BaseTile 0 4].
Proof. vm_compute. reflexivity. Qed.

(** The same mosaic with tile 0 streamed in at the resolution limit,
    tier 8, only: asked for a copy larger than tier 8,
    [_find_supersized_tile] answers with tier 8 itself. *)
Definition top_tier_manager : Stream.Manager (Frame := nat) :=
  Store.state_of
    (Stream.base_tile evict_env
       (Store.state_of
          (Stream.partition 0 evict_env (Stream.mkManager [] 1 1 20 0 0 false false) 2 (8, 9)))
       0 8 7).

Example find_supersized_tile_at_limit :
  Stream.res_limit top_tier_manager = 8%nat
  /\ Stream.find_supersized_tile top_tier_manager 0 8 = Stream.Found 8.
Proof. vm_compute. split; reflexivity. Qed.

(** The tile requested at tier 4 is on-screen and its one cached copy,
    at tier 2, is evicted at stage 3. *)
Lemma stage3_evicts_onscreen_tile :
  exists sm' j ev,
    Stream.stream_thread evict_env evict_manager [0] 4 = Store.Ret sm' j
    /\ Stream.evictions j = [ev]
    /\ Stream.ev_stage ev = 3 /\ Stream.ev_size ev = 2 /\ Stream.ev_tile ev = 0
    /\ Stream.ev_tile ev ∈ [0]
    /\ (Stream.ev_size ev < Stream.res_limit (Stream.ev_before ev))
    /\ ~ Stream.has_other_copy (Stream.ev_before ev) (Stream.ev_tile ev) (Stream.ev_size ev).
Proof.
  destruct (Stream.stream_thread evict_env evict_manager [0] 4) as [sm' j | sm' e] eqn:Hrun;
    [|vm_compute in Hrun; discriminate].
  destruct (Stream.evictions j) as [|ev [|ev' rest]] eqn:Hev;
    [ vm_compute in Hrun; injection Hrun as _ <-; discriminate Hev
    | | vm_compute in Hrun; injection Hrun as _ <-; discriminate Hev ].
  exists sm', j, ev. split; [reflexivity|]. split; [exact Hev|].
  vm_compute in Hrun. injection Hrun as _ <-. simpl in Hev. injection Hev as <-.
  split; [reflexivity|]. split; [reflexivity|]. split; [reflexivity|].
  split; [simpl; left|]. split; [simpl; lia|].
  intros (size' & st & Hne & Hget & Hin).
  unfold Stream.get_store in Hget. simpl in Hne, Hget.
  destruct (Nat.eqb_spec size' 2); [contradiction|].
  destruct (Nat.eqb_spec size' 4); [injection Hget as <-; discriminate Hin|].
  destruct (Nat.eqb_spec size' 8); [injection Hget as <-; discriminate Hin|].
  discriminate Hget.
Qed.

Definition evict_job : Stream.job (Frame := nat) :=
  default Stream.no_job (Store.returned (Stream.stream_thread evict_env evict_manager [0] 4)).

Example evict_job_stage : Stream.freeing_stage evict_job = 4.
Proof. vm_compute. reflexivity. Qed.

Lemma eviction_stages_witness :
  Forall (fun ev =>
      Stream.eviction_rule [0] (Stream.downscale_set evict_env evict_manager [0] 4) 4 ev
      /\ 1 <= Stream.ev_stage ev <= 3
      /\ (Stream.ev_stage ev <= 2 ->
          Stream.ev_size ev < Stream.res_limit (Stream.ev_before ev) ->
          Stream.ev_tile ev ∉ [0]
          \/ Stream.has_higher_copy (Stream.ev_before ev) (Stream.ev_tile ev) (Stream.ev_size ev))
      /\ (Stream.ev_tile ev ∈ [0] -> Stream.ev_size ev <> 4))
    (Stream.evictions evict_job).
Proof.
  apply (eviction_stages evict_env evict_manager
           (Store.state_of (Stream.stream_thread evict_env evict_manager [0] 4)) [0] 4 evict_job).
  vm_compute. reflexivity.
Defined.

Lemma stream_all_cached_witness :
  exists sm',
    Stream.stream_thread evict_env evict_manager [0] 2 = Store.Ret sm' (Stream.mkJob [] [] 0)
    /\ Stream.sm_ram_usage sm' = Stream.sm_ram_usage evict_manager
    /\ Stream.fast_limit sm' = Stream.fast_limit evict_manager
    /\ Stream.res_limit sm' = Stream.res_limit evict_manager
    /\ Stream.init_ram sm' = Stream.init_ram evict_manager
    /\ map fst (Stream.tile_stores sm') = map fst (Stream.tile_stores evict_manager)
    /\ (forall size st, Stream.get_store evict_manager size = Some st ->
         exists st',
           Stream.get_store sm' size = Some st'
           /\ (st' = st \/ (Store.is_smart st = true /\ st' = Store.refresh st [0]))
           /\ Store.raw st' = Store.raw st /\ Store.ram_usage st' = Store.ram_usage st
           /\ Store.is_smart st' = Store.is_smart st
           /\ (forall t, Store.od_get t (Store.finished st')
                         = Store.od_get t (Store.finished st)))
    /\ (Stream.stop_streaming_flag evict_manager = false ->
        Stream.never_stream_flag evict_manager = false ->
        forall size st, Stream.get_store evict_manager size = Some st ->
          (Store.is_smart st = true -> Store.ram_usage st <> 0%Z ->
             Stream.get_store sm' size = Some (Store.refresh st [0]))
          /\ (Store.is_smart st = false \/ Store.ram_usage st = 0%Z ->
              Stream.get_store sm' size = Some st))
    /\ (Stream.stop_streaming_flag evict_manager = true
        \/ Stream.never_stream_flag evict_manager = true -> sm' = evict_manager).
Proof.
  apply (stream_all_cached evict_env evict_manager [0] 2
           (default (Store.new_store 0 0 0 true) (Stream.get_store evict_manager 2))).
  - vm_compute. reflexivity.
  - intros t Ht. apply list_elem_of_singleton in Ht. subst t. vm_compute. reflexivity.
Defined.

(* ================================================================== *)
(** ** Facts about the render kernels *)
(* ================================================================== *)

Section FoldFacts.

Import Render.
Context {A B : Type}.

Lemma foldM_app (step : A -> B -> result A) l1 l2 : forall a,
  foldM step a (l1 ++ l2) = bind (foldM step a l1) (fun a' => foldM step a' l2).
Proof.
  induction l1 as [|b l1 IH]; intros a; simpl; [reflexivity|].
  destruct (step a b) as [a'|f]; simpl; [apply IH | reflexivity].
Qed.

(** An invariant indexed by the part of the list already processed. *)
Lemma foldM_prefix_inv (step : A -> B -> result A) (I : list B -> A -> Prop)
    (E : fault -> Prop) (l : list B) (a : A) :
  I [] a ->
  (forall done b rest a0, l = done ++ b :: rest -> I done a0 ->
     match step a0 b with Ok a' => I (done ++ [b]) a' | Fault f => E f end) ->
  match foldM step a l with Ok a' => I l a' | Fault f => E f end.
Proof.
  intros Hstart Hstep.
  assert (forall rest done a0, l = done ++ rest -> I done a0 ->
            match foldM step a0 rest with Ok a' => I l a' | Fault f => E f end) as Hgen.
  { induction rest as [|b rest IH]; intros done a0 Hl Hdone; simpl.
    - rewrite app_nil_r in Hl. subst done. exact Hdone.
    - specialize (Hstep done b rest a0 Hl Hdone).
      destruct (step a0 b) as [a'|f]; simpl; [|exact Hstep].
      apply (IH (done ++ [b])); [|exact Hstep].
      rewrite <- app_assoc. exact Hl. }
  apply (Hgen l [] a); [reflexivity | exact Hstart].
Qed.

End FoldFacts.

Section FlattenFacts.

Import Render.
Context {A B C : Type}.

(** Two nested loops are one loop over the pairs, rows first. *)
Lemma foldM_nested (f : A -> B -> C -> result A) (l1 : list B) (l2 : list C) : forall a,
  foldM (fun a0 b => foldM (fun a1 c => f a1 b c) a0 l2) a l1
  = foldM (fun a0 p => f a0 (fst p) (snd p)) a (flat_map (fun b => map (pair b) l2) l1).
Proof.
  induction l1 as [|b l1 IH]; intros a; simpl; [reflexivity|].
  rewrite foldM_app.
  assert (forall a0, foldM (fun a1 c => f a1 b c) a0 l2
                     = foldM (fun a1 p => f a1 (fst p) (snd p)) a0 (map (pair b) l2)) as Hrow.
  { clear IH. induction l2 as [|c l2 IH2]; intros a0; simpl; [reflexivity|].
    destruct (f a0 b c); simpl; [apply IH2 | reflexivity]. }
  rewrite Hrow. destruct (foldM _ a (map (pair b) l2)); simpl; [apply IH | reflexivity].
Qed.

End FlattenFacts.

Section KernelFacts.

Import Store Render.
Local Open Scope Z_scope.

Variables (x_start : Z) (x_len : nat) (y_start : Z) (y_len : nat).
Variable tile_map : list Z.
Variable tile_store : raw_store (Frame := image).
Variable match_list : grid.
Variable tile_size : nat.
Variable hybrid : bool.
Variable frame_pos : Z.
Variable end_frame_map : list Z.

Lemma elem_of_range lo hi z : z ∈ range lo hi <-> lo <= z < hi.
Proof. unfold range. rewrite elem_of_seqZ. lia. Qed.

Lemma elem_of_xs x :
  x ∈ xs x_start x_len match_list <->
  0 <= x - x_start < Z.of_nat x_len /\ 0 <= x < Z.of_nat (g_shape1 match_list).
Proof. unfold xs. rewrite elem_of_range. lia. Qed.

Lemma elem_of_ys y :
  y ∈ ys y_start y_len match_list <->
  0 <= y - y_start < Z.of_nat y_len /\ 0 <= y < Z.of_nat (g_shape0 match_list).
Proof. unfold ys. rewrite elem_of_range. lia. Qed.

Lemma axis_index_in_range n i :
  0 <= i < Z.of_nat n -> axis_index n i = Some (Z.to_nat i).
Proof.
  intros Hi. unfold axis_index.
  destruct (Z.ltb_spec i 0) as [? | _]; [lia|].
  destruct (Z.leb_spec 0 i) as [_ | ?]; [|lia].
  destruct (Z.ltb_spec i (Z.of_nat n)) as [_ | ?]; [|lia]. reflexivity.
Qed.

(** Inside the loops every read of the match grid is in range. *)
Lemma read_grid_visible y x :
  y ∈ ys y_start y_len match_list -> x ∈ xs x_start x_len match_list ->
  read_grid match_list y x = Some (g_cell match_list (Z.to_nat y) (Z.to_nat x)).
Proof.
  intros Hy Hx. apply elem_of_ys in Hy as [_ Hy]. apply elem_of_xs in Hx as [_ Hx].
  unfold read_grid. rewrite !axis_index_in_range by assumption. reflexivity.
Qed.

Lemma slice_assign_shape mosaic a b size tile mosaic' :
  slice_assign mosaic a b size tile = Ok mosaic' ->
  im_rows mosaic' = im_rows mosaic /\ im_cols mosaic' = im_cols mosaic.
Proof.
  unfold slice_assign. destruct (_ && _); [|discriminate].
  intros [= <-]. simpl. auto.
Qed.

Local Abbreviation cell := (draw_cell x_start y_start tile_map tile_store match_list tile_size
                              hybrid frame_pos end_frame_map).

Lemma draw_cell_visible mosaic y x :
  y ∈ ys y_start y_len match_list -> x ∈ xs x_start x_len match_list ->
  match cell mosaic y x with
  | Ok mosaic' => im_rows mosaic' = im_rows mosaic /\ im_cols mosaic' = im_cols mosaic
  | Fault f => f <> MatchOutOfRange
  end.
Proof.
  intros Hy Hx. unfold draw_cell. rewrite (read_grid_visible y x Hy Hx). simpl.
  unfold mapped_id.
  destruct (tile_map !! _) as [base|]; simpl; [|discriminate].
  assert (forall mapped,
            match bind (fetch tile_store mapped) (fun tile =>
                    match tile with
                    | None => Ok mosaic
                    | Some t => slice_assign mosaic ((x - x_start) * Z.of_nat tile_size)
                                  ((y - y_start) * Z.of_nat tile_size) tile_size t
                    end) with
            | Ok mosaic' => im_rows mosaic' = im_rows mosaic /\ im_cols mosaic' = im_cols mosaic
            | Fault f => f <> MatchOutOfRange
            end) as Hrest.
  { intros mapped. unfold fetch.
    assert (forall o : option image,
              match match o with
                    | None => Ok mosaic
                    | Some t => slice_assign mosaic ((x - x_start) * Z.of_nat tile_size)
                                  ((y - y_start) * Z.of_nat tile_size) tile_size t
                    end with
              | Ok mosaic' => im_rows mosaic' = im_rows mosaic
                              /\ im_cols mosaic' = im_cols mosaic
              | Fault f => f <> MatchOutOfRange
              end) as Hassign.
    { intros [t|]; [|auto].
      destruct (slice_assign _ _ _ _ t) as [m'|f] eqn:Hs.
      - apply (slice_assign_shape _ _ _ _ _ _ Hs).
      - unfold slice_assign in Hs. destruct (_ && _); [discriminate|].
        injection Hs as <-. discriminate. }
    destruct tile_store as [arr | d]; simpl.
    - destruct (axis_index (length arr) mapped) as [i|]; simpl; [|discriminate].
      destruct (arr !! i) as [t|]; simpl; [apply (Hassign (Some t)) | discriminate].
    - apply Hassign. }
  destruct hybrid; simpl; [|apply Hrest].
  destruct (end_frame_map !! _) as [e|]; simpl; [|discriminate].
  destruct (e =? 0); simpl; [discriminate | apply Hrest].
Qed.

(** Whatever the arguments, a kernel never reads the match grid out of
    range, and the raster it returns has the shape it was created
    with. *)
Lemma draw_kernel_safe :
  match draw_kernel x_start x_len y_start y_len tile_map tile_store match_list tile_size
          hybrid frame_pos end_frame_map with
  | Ok mosaic => im_rows mosaic = (x_len * tile_size)%nat
                 /\ im_cols mosaic = (y_len * tile_size)%nat
  | Fault f => f <> MatchOutOfRange
  end.
Proof.
  unfold draw_kernel.
  apply (foldM_prefix_inv _
           (fun _ m => im_rows m = (x_len * tile_size)%nat
                       /\ im_cols m = (y_len * tile_size)%nat)
           (fun f => f <> MatchOutOfRange)); [simpl; auto|].
  intros done y rest m0 Hl Hm0.
  assert (y ∈ ys y_start y_len match_list) as Hy.
  { rewrite Hl. apply elem_of_app. right. left. }
  apply (foldM_prefix_inv _
           (fun _ m => im_rows m = (x_len * tile_size)%nat
                       /\ im_cols m = (y_len * tile_size)%nat)
           (fun f => f <> MatchOutOfRange)); [exact Hm0|].
  intros done' x rest' m1 Hl' Hm1.
  assert (x ∈ xs x_start x_len match_list) as Hx.
  { rewrite Hl'. apply elem_of_app. right. left. }
  pose proof (draw_cell_visible m1 y x Hy Hx) as Hc.
  destruct (cell m1 y x) as [m2|f]; [|exact Hc].
  destruct Hc as [-> ->]. exact Hm1.
Qed.

End KernelFacts.

(** A pixel of block [c] lies in the slice of block [k] exactly when
    the two blocks are the same. *)
Lemma block_hit (ts di c : nat) (k : Z) :
  (di < ts)%nat ->
  ((k * Z.of_nat ts <=? Z.of_nat (c * ts + di))%Z
   && (Z.of_nat (c * ts + di) <? k * Z.of_nat ts + Z.of_nat ts)%Z)
  = bool_decide (Z.of_nat c = k).
Proof.
  intros Hdi. rewrite Nat2Z.inj_add, Nat2Z.inj_mul.
  case_bool_decide as Hk.
  - subst k. apply andb_true_intro. split; [apply Z.leb_le | apply Z.ltb_lt]; lia.
  - apply andb_false_iff.
    destruct (Z.leb_spec (k * Z.of_nat ts) (Z.of_nat c * Z.of_nat ts + Z.of_nat di))
      as [Hle | _]; [|left; reflexivity].
    right. apply Z.ltb_ge.
    assert (k < Z.of_nat c)%Z by nia. nia.
Qed.

Section SmartKernelFacts.

Import Store Render.
Local Open Scope Z_scope.

Variables (x_start : Z) (x_len : nat) (y_start : Z) (y_len : nat).
Variable tile_map : list Z.
Variable d : gmap nat image.
Variable match_list : grid.
Variable tile_size : nat.
Variable hybrid : bool.
Variable frame_pos : Z.
Variable end_frame_map : list Z.

Hypothesis Hmaps : maps_ok x_start x_len y_start y_len tile_map match_list hybrid end_frame_map.
Hypothesis Hfit : tiles_fit d tile_size.

Local Abbreviation cell := (draw_cell x_start y_start tile_map (Smart d) match_list tile_size
                              hybrid frame_pos end_frame_map).
Local Abbreviation expected := (fun y x : Z =>
  cell_tile tile_map d match_list hybrid frame_pos end_frame_map (Z.to_nat y) (Z.to_nat x)).

(** One turn of the inner loop of a smart kernel: the cell is skipped
    when the dictionary has no tile for it, and its block is
    overwritten with the tile otherwise. *)
Lemma draw_cell_smart mosaic y x :
  y ∈ ys y_start y_len match_list -> x ∈ xs x_start x_len match_list ->
  im_rows mosaic = (x_len * tile_size)%nat -> im_cols mosaic = (y_len * tile_size)%nat ->
  cell mosaic y x
  = match expected y x with
    | None => Ok mosaic
    | Some t =>
        Ok (mkImage (im_rows mosaic) (im_cols mosaic)
              (fun i j =>
                 if ((x - x_start) * Z.of_nat tile_size <=? Z.of_nat i)
                    && (Z.of_nat i <? (x - x_start) * Z.of_nat tile_size + Z.of_nat tile_size)
                    && ((y - y_start) * Z.of_nat tile_size <=? Z.of_nat j)
                    && (Z.of_nat j <? (y - y_start) * Z.of_nat tile_size + Z.of_nat tile_size)
                 then im_px t (Z.to_nat (Z.of_nat i - (x - x_start) * Z.of_nat tile_size))
                        (Z.to_nat (Z.of_nat j - (y - y_start) * Z.of_nat tile_size))
                 else im_px mosaic i j))
    end.
Proof.
  intros Hy Hx Hrows Hcols. unfold draw_cell.
  rewrite (read_grid_visible x_start x_len y_start y_len match_list y x Hy Hx). simpl.
  destruct (Hmaps y x Hy Hx) as [[base Hbase] Hhyb].
  unfold mapped_id, cell_tile. rewrite Hbase. simpl.
  apply elem_of_ys in Hy as [Hy _]. apply elem_of_xs in Hx as [Hx _].
  assert (forall mapped,
    bind (fetch (Smart d) mapped) (fun tile =>
      match tile with
      | None => Ok mosaic
      | Some t => slice_assign mosaic ((x - x_start) * Z.of_nat tile_size)
                    ((y - y_start) * Z.of_nat tile_size) tile_size t
      end)
    = match (if 0 <=? mapped then d !! Z.to_nat mapped else None) with
      | None => Ok mosaic
      | Some t =>
        Ok (mkImage (im_rows mosaic) (im_cols mosaic)
              (fun i j =>
                 if ((x - x_start) * Z.of_nat tile_size <=? Z.of_nat i)
                    && (Z.of_nat i <? (x - x_start) * Z.of_nat tile_size + Z.of_nat tile_size)
                    && ((y - y_start) * Z.of_nat tile_size <=? Z.of_nat j)
                    && (Z.of_nat j <? (y - y_start) * Z.of_nat tile_size + Z.of_nat tile_size)
                 then im_px t (Z.to_nat (Z.of_nat i - (x - x_start) * Z.of_nat tile_size))
                        (Z.to_nat (Z.of_nat j - (y - y_start) * Z.of_nat tile_size))
                 else im_px mosaic i j))
      end) as Hfetch.
  { intros mapped. simpl.
    destruct (if 0 <=? mapped then d !! Z.to_nat mapped else None) as [t|] eqn:Ht;
      [|reflexivity].
    assert (im_rows t = tile_size /\ im_cols t = tile_size) as [Htr Htc].
    { destruct (0 <=? mapped); [|discriminate]. exact (Hfit _ _ Ht). }
    unfold slice_assign.
    assert (((0 <=? (x - x_start) * Z.of_nat tile_size)
             && ((x - x_start) * Z.of_nat tile_size + Z.of_nat tile_size
                 <=? Z.of_nat (im_rows mosaic))
             && (0 <=? (y - y_start) * Z.of_nat tile_size)
             && ((y - y_start) * Z.of_nat tile_size + Z.of_nat tile_size
                 <=? Z.of_nat (im_cols mosaic))
             && (im_rows t =? tile_size)%nat && (im_cols t =? tile_size)%nat) = true) as ->.
    { rewrite Hrows, Hcols, Htr, Htc, !Nat.eqb_refl, !andb_true_r.
      rewrite !andb_true_iff, !Z.leb_le. rewrite !Nat2Z.inj_mul. nia. }
    reflexivity. }
  destruct hybrid; simpl.
  - destruct Hhyb as [e [He Hne]]; [reflexivity|]. rewrite He. simpl.
    destruct (Z.eqb_spec e 0) as [?|_]; [contradiction|]. simpl. apply Hfetch.
  - rewrite Z.add_0_r. apply Hfetch.
Qed.

(** The cells of the two loops, in the order they are visited. *)
Local Abbreviation cells :=
  (flat_map (fun y => map (pair y) (xs x_start x_len match_list))
     (ys y_start y_len match_list)).

Lemma elem_of_cells y x :
  (y, x) ∈ cells <-> y ∈ ys y_start y_len match_list /\ x ∈ xs x_start x_len match_list.
Proof.
  rewrite list_elem_of_In, in_flat_map. split.
  - intros [y' [Hy' Hin]]. apply in_map_iff in Hin as [x' [Heq Hx']].
    injection Heq as <- <-. rewrite !list_elem_of_In. auto.
  - intros [Hy Hx]. exists y. rewrite <- list_elem_of_In. split; [exact Hy|].
    apply in_map. rewrite <- list_elem_of_In. exact Hx.
Qed.

(** What the raster holds after the cells [done]: the tile of every
    block whose cell was visited and found, black elsewhere. *)
Definition painted (done : list (Z * Z)) (mosaic : image) : Prop :=
  im_rows mosaic = (x_len * tile_size)%nat
  /\ im_cols mosaic = (y_len * tile_size)%nat
  /\ forall cx cy di dj : nat,
       (cx < x_len)%nat -> (cy < y_len)%nat -> (di < tile_size)%nat -> (dj < tile_size)%nat ->
       im_px mosaic (cx * tile_size + di) (cy * tile_size + dj)
       = match (if bool_decide ((y_start + Z.of_nat cy, x_start + Z.of_nat cx) ∈ done)
                then expected (y_start + Z.of_nat cy) (x_start + Z.of_nat cx)
                else None) with
         | Some t => im_px t di dj
         | None => black
         end.

Lemma painted_start : painted [] (zeros (x_len * tile_size) (y_len * tile_size)).
Proof.
  split; [reflexivity|]. split; [reflexivity|].
  intros cx cy di dj _ _ _ _. reflexivity.
Qed.

Lemma painted_step done y x mosaic :
  y ∈ ys y_start y_len match_list -> x ∈ xs x_start x_len match_list ->
  painted done mosaic ->
  exists mosaic', cell mosaic y x = Ok mosaic' /\ painted (done ++ [(y, x)]) mosaic'.
Proof.
  intros Hy Hx (Hrows & Hcols & Hpx).
  rewrite (draw_cell_smart mosaic y x Hy Hx Hrows Hcols).
  assert (forall cx cy : nat,
            bool_decide ((y_start + Z.of_nat cy, x_start + Z.of_nat cx) ∈ done ++ [(y, x)])
            = bool_decide ((y_start + Z.of_nat cy, x_start + Z.of_nat cx) ∈ done)
              || (bool_decide (Z.of_nat cx = x - x_start)
                  && bool_decide (Z.of_nat cy = y - y_start))) as Hmem.
  { intros cx cy. apply eq_true_iff_eq.
    rewrite orb_true_iff, andb_true_iff, !bool_decide_eq_true, elem_of_app,
      list_elem_of_singleton.
    split; (intros [Hd | He]; [left; exact Hd | right]).
    - injection He as Hy' Hx'. lia.
    - f_equal; lia. }
  destruct (expected y x) as [t|] eqn:Ht.
  - eexists. split; [reflexivity|].
    split; [exact Hrows|]. split; [exact Hcols|].
    intros cx cy di dj Hcx Hcy Hdi Hdj. simpl.
    rewrite <- !andb_assoc.
    rewrite (andb_assoc (_ <=? Z.of_nat (cx * tile_size + di))).
    rewrite !block_hit by assumption.
    rewrite Hmem, (Hpx cx cy di dj Hcx Hcy Hdi Hdj).
    case_bool_decide as Hcx'; simpl; [|rewrite orb_false_r; reflexivity].
    case_bool_decide as Hcy'; simpl; [|rewrite orb_false_r; reflexivity].
    rewrite orb_true_r.
    replace (y_start + Z.of_nat cy) with y by lia.
    replace (x_start + Z.of_nat cx) with x by lia.
    rewrite Ht. f_equal; rewrite <- ?Hcx', <- ?Hcy'; lia.
  - exists mosaic. split; [reflexivity|].
    split; [exact Hrows|]. split; [exact Hcols|].
    intros cx cy di dj Hcx Hcy Hdi Hdj.
    rewrite Hmem, (Hpx cx cy di dj Hcx Hcy Hdi Hdj).
    destruct (bool_decide (_ ∈ done)); simpl; [reflexivity|].
    case_bool_decide as Hcx'; simpl; [|reflexivity].
    case_bool_decide as Hcy'; simpl; [|reflexivity].
    replace (y_start + Z.of_nat cy) with y by lia.
    replace (x_start + Z.of_nat cx) with x by lia.
    rewrite Ht. reflexivity.
Qed.

(** A smart kernel returns, and its raster holds in every block the
    tile of the block's cell, or black. *)
Lemma draw_kernel_smart :
  exists mosaic,
    draw_kernel x_start x_len y_start y_len tile_map (Smart d) match_list tile_size
      hybrid frame_pos end_frame_map = Ok mosaic
    /\ painted cells mosaic.
Proof.
  unfold draw_kernel.
  rewrite (foldM_nested (fun m y x => cell m y x)).
  pose proof (foldM_prefix_inv (fun m (p : Z * Z) => cell m (fst p) (snd p))
                painted (fun _ => False) cells
                (zeros (x_len * tile_size) (y_len * tile_size)) painted_start) as Hinv.
  destruct (foldM _ _ cells) as [mosaic | f].
  - exists mosaic. split; [reflexivity|]. apply Hinv.
    intros done [y x] rest m0 Hl Hm0. simpl.
    assert ((y, x) ∈ cells) as Hin.
    { rewrite Hl. apply elem_of_app. right. left. }
    apply elem_of_cells in Hin as [Hy Hx].
    destruct (painted_step done y x m0 Hy Hx Hm0) as [m' [-> Hm']]. exact Hm'.
  - exfalso. apply Hinv.
    intros done [y x] rest m0 Hl Hm0. simpl.
    assert ((y, x) ∈ cells) as Hin.
    { rewrite Hl. apply elem_of_app. right. left. }
    apply elem_of_cells in Hin as [Hy Hx].
    destruct (painted_step done y x m0 Hy Hx Hm0) as [m' [-> Hm']]. exact Hm'.
Qed.

Lemma cells_on_grid (cy cx : nat) :
  (cx < x_len)%nat -> (cy < y_len)%nat ->
  bool_decide ((y_start + Z.of_nat cy, x_start + Z.of_nat cx) ∈ cells)
  = on_grid match_list (y_start + Z.of_nat cy) (x_start + Z.of_nat cx).
Proof.
  intros Hcx Hcy. apply eq_true_iff_eq.
  rewrite bool_decide_eq_true, elem_of_cells, elem_of_ys, elem_of_xs.
  unfold on_grid. rewrite !andb_true_iff, !Z.leb_le, !Z.ltb_lt. lia.
Qed.

End SmartKernelFacts.

Section DrawTheorem.

Import Store Render.
Local Open Scope Z_scope.

(** The mask of [draw] always selects a kernel: the one for the kind of
    store and for the mode; the threading flag changes nothing else. *)
Lemma draw_dispatch x_start x_len y_start y_len tile_map tile_store match_arr tile_size
    is_hybrid frame_pos end_frame_map st_flag cpu_count :
  draw x_start x_len y_start y_len tile_map tile_store match_arr tile_size
    is_hybrid frame_pos end_frame_map st_flag cpu_count
  = Some (draw_kernel x_start x_len y_start y_len tile_map tile_store match_arr tile_size
            is_hybrid frame_pos end_frame_map).
Proof.
  unfold draw.
  destruct tile_store, is_hybrid, st_flag, (y_len <=? cpu_count)%nat; reflexivity.
Qed.

(** C9. For every viewport rectangle, on-grid or not, and every kernel
    variant, [draw] reads only cells of the match grid that lie inside
    the grid (and inside the rectangle), and the raster it returns has
    shape [(x_len * tile_size, y_len * tile_size, 3)].  With a sparse
    store whose maps cover the visited cells and whose frames are
    [tile_size] squares, [draw] returns, and every block of the raster
    holds the tile of its cell when the cell is on the grid and the
    dictionary has the tile, and is left zero otherwise. *)
Theorem draw_reads_in_bounds x_start x_len y_start y_len tile_map tile_store match_arr
    tile_size is_hybrid frame_pos end_frame_map st_flag cpu_count :
  (forall y x, y ∈ ys y_start y_len match_arr -> x ∈ xs x_start x_len match_arr ->
     0 <= y - y_start < Z.of_nat y_len /\ 0 <= x - x_start < Z.of_nat x_len
     /\ on_grid match_arr y x = true
     /\ read_grid match_arr y x = Some (g_cell match_arr (Z.to_nat y) (Z.to_nat x)))
  /\ (exists res,
        draw x_start x_len y_start y_len tile_map tile_store match_arr tile_size
          is_hybrid frame_pos end_frame_map st_flag cpu_count = Some res
        /\ match res with
           | Ok mosaic => im_rows mosaic = (x_len * tile_size)%nat
                          /\ im_cols mosaic = (y_len * tile_size)%nat
           | Fault f => f <> MatchOutOfRange
           end)
  /\ (forall d, tile_store = Smart d ->
        maps_ok x_start x_len y_start y_len tile_map match_arr is_hybrid end_frame_map ->
        tiles_fit d tile_size ->
        exists mosaic,
          draw x_start x_len y_start y_len tile_map tile_store match_arr tile_size
            is_hybrid frame_pos end_frame_map st_flag cpu_count = Some (Ok mosaic)
          /\ im_rows mosaic = (x_len * tile_size)%nat
          /\ im_cols mosaic = (y_len * tile_size)%nat
          /\ forall cx cy di dj : nat,
               (cx < x_len)%nat -> (cy < y_len)%nat ->
               (di < tile_size)%nat -> (dj < tile_size)%nat ->
               im_px mosaic (cx * tile_size + di) (cy * tile_size + dj)
               = match block_tile x_start y_start tile_map d match_arr is_hybrid
                         frame_pos end_frame_map cy cx with
                 | Some t => im_px t di dj
                 | None => black
                 end).
Proof.
  split; [|split].
  - intros y x Hy Hx.
    pose proof (read_grid_visible x_start x_len y_start y_len match_arr y x Hy Hx) as Hread.
    apply elem_of_ys in Hy as [Hy Hy']. apply elem_of_xs in Hx as [Hx Hx'].
    split; [exact Hy|]. split; [exact Hx|]. split; [|exact Hread].
    unfold on_grid. rewrite !andb_true_iff, !Z.leb_le, !Z.ltb_lt. lia.
  - eexists. split; [apply draw_dispatch|]. apply draw_kernel_safe.
  - intros d -> Hmaps Hfit. rewrite draw_dispatch.
    destruct (draw_kernel_smart x_start x_len y_start y_len tile_map d match_arr tile_size
                is_hybrid frame_pos end_frame_map Hmaps Hfit)
      as [mosaic [Hdraw (Hrows & Hcols & Hpx)]].
    exists mosaic. split; [rewrite Hdraw; reflexivity|].
    split; [exact Hrows|]. split; [exact Hcols|].
    intros cx cy di dj Hcx Hcy Hdi Hdj.
    rewrite (Hpx cx cy di dj Hcx Hcy Hdi Hdj).
    rewrite (cells_on_grid x_start x_len y_start y_len match_arr cy cx Hcx Hcy).
    reflexivity.
Qed.

End DrawTheorem.

(** A two by two grid whose top-left cell asks for tile 0 and whose
    other cells ask for tile 1, a dictionary that only holds tile 0,
    and a viewport that starts one column left of the grid and ends
    one row and one column after it. *)
Definition white : Render.pixel := (255, 255, 255)%Z.
Definition demo_grid : Render.grid :=
  Render.mkGrid 2 2 (fun y x => if ((y =? 0) && (x =? 0))%nat then 0%nat else 1%nat).
Definition demo_dict : gmap nat Render.image :=
  {[ 0%nat := Render.mkImage 2 2 (fun _ _ => white) ]}.

Lemma demo_maps_ok : Render.maps_ok (-1) 3 0 3 [0; 1]%Z demo_grid false [].
Proof.
  intros y x _ _. split; [|discriminate].
  simpl. destruct (_ && _); eexists; reflexivity.
Defined.

Lemma demo_tiles_fit : Render.tiles_fit demo_dict 2.
Proof.
  intros k t Ht. unfold demo_dict in Ht.
  apply lookup_singleton_Some in Ht as [_ <-]. split; reflexivity.
Defined.

Example demo_draw_pixels :
  (fun r => match r with
            | Some (Render.Ok m) =>
                Some (Render.im_rows m, Render.im_cols m,
                      map (fun i => map (fun j => Render.im_px m i j) (seq 0 6)) (seq 0 6))
            | _ => None
            end)
    (Render.draw (-1) 3 0 3 [0; 1]%Z (Store.Smart demo_dict) demo_grid 2 false 0 []
       false 1)
  = Some (6%nat, 6%nat,
          [ repeat Render.black 6; repeat Render.black 6;
            [white; white; Render.black; Render.black; Render.black; Render.black];
            [white; white; Render.black; Render.black; Render.black; Render.black];
            repeat Render.black 6; repeat Render.black 6 ]).
Proof. vm_compute. reflexivity. Qed.

Lemma draw_reads_in_bounds_witness :
  exists mosaic,
    Render.draw (-1) 3 0 3 [0; 1]%Z (Store.Smart demo_dict) demo_grid 2 false 0 []
      false 1 = Some (Render.Ok mosaic)
    /\ Render.im_rows mosaic = 6%nat /\ Render.im_cols mosaic = 6%nat
    /\ Render.im_px mosaic 2 1 = white        (* the cell (0, 0): tile 0 *)
    /\ Render.im_px mosaic 4 0 = Render.black (* the cell (0, 1): tile 1 is absent *)
    /\ Render.im_px mosaic 0 0 = Render.black (* left of the grid *)
    /\ Render.im_px mosaic 5 5 = Render.black (* below the grid *).
Proof.
  destruct (draw_reads_in_bounds (-1) 3 0 3 [0; 1]%Z (Store.Smart demo_dict)
              demo_grid 2 false 0 [] false 1) as (_ & _ & Hsmart).
  destruct (Hsmart demo_dict eq_refl demo_maps_ok demo_tiles_fit)
    as (mosaic & Hdraw & Hrows & Hcols & Hpx).
  exists mosaic. split; [exact Hdraw|]. split; [exact Hrows|]. split; [exact Hcols|].
  split; [exact (Hpx 1 0 0 1 ltac:(lia) ltac:(lia) ltac:(lia) ltac:(lia))%nat|].
  split; [exact (Hpx 2 0 0 0 ltac:(lia) ltac:(lia) ltac:(lia) ltac:(lia))%nat|].
  split; [exact (Hpx 0 0 0 0 ltac:(lia) ltac:(lia) ltac:(lia) ltac:(lia))%nat|].
  exact (Hpx 2 2 1 1 ltac:(lia) ltac:(lia) ltac:(lia) ltac:(lia))%nat.
Defined.

(* ================================================================== *)
(** ** Facts about tile lengths and the rendering maps *)
(* ================================================================== *)

Section TileFacts.

Import Tiles.
Local Open Scope Z_scope.

(** A tile built from a start frame and a later end frame has a
    positive length, whatever [or] makes of a zero. *)
Lemma new_Tile_len st f e :
  f < e -> 1 <= len (new_Tile st (Some f) (Some e)).
Proof.
  intros Hfe. unfold new_Tile, or_default. simpl.
  destruct (Z.eqb_spec f 0), (Z.eqb_spec e 0); lia.
Qed.

Lemma pic_tile_len t : pic_tile true = Some t -> len t = 1.
Proof. intros [= <-]. reflexivity. Qed.

Lemma video_tile_len colours threshold good_idxs i f t :
  video_tile colours threshold good_idxs i f = Some (Some t) -> 1 <= len t.
Proof.
  unfold video_tile. intros H.
  destruct (colours !! f) as [avg|]; simpl in H; [|discriminate].
  destruct (good_idxs !! S i) as [e|]; simpl in H; [|discriminate].
  destruct (mapM _ _) as [cs|]; simpl in H; [|discriminate].
  destruct (Z.leb_spec (scan_colours avg threshold f 0 cs e) f) as [|Hlt];
    [discriminate|].
  injection H as <-. apply new_Tile_len. exact Hlt.
Qed.

Lemma video_tiles_len good_frames frame_dict colours threshold ts :
  video_tiles good_frames frame_dict colours threshold = Some ts ->
  Forall (fun t => 1 <= len t) ts.
Proof.
  unfold video_tiles. intros H.
  destruct (last _) as [last_frame|]; simpl in H; [|discriminate].
  destruct (mapM _ _) as [rs|] eqn:Hrs; simpl in H; [|discriminate].
  injection H as <-.
  apply Forall_forall. intros t Ht.
  apply list_elem_of_omap in Ht as [r [Hr Hsome]]. simpl in Hsome. subst r.
  apply mapM_Some in Hrs.
  apply list_elem_of_lookup in Hr as [k Hk].
  destruct (Forall2_lookup_r _ _ _ _ _ Hrs Hk) as [[i f] [_ Htile]].
  exact (video_tile_len _ _ _ _ _ _ Htile).
Qed.

(** Every tile that [pic_tile] or [video_tiles] returns has at least
    one frame. *)
Lemma constructed_len t : constructed t -> 1 <= len t.
Proof.
  intros [Hpic | (gf & fd & cs & th & ts & Hts & Hin)].
  - rewrite (pic_tile_len t Hpic). lia.
  - apply video_tiles_len in Hts. rewrite Forall_forall in Hts. exact (Hts t Hin).
Qed.

Lemma sum_ge_length (l : list Z) :
  Forall (fun x => 1 <= x) l -> Z.of_nat (length l) <= foldr Z.add 0 l.
Proof.
  induction 1 as [|x l Hx _ IH]; simpl; lia.
Qed.

Lemma int_mean_ge (l : list Z) :
  l <> [] -> Forall (fun x => 1 <= x) l -> exists m, int_mean l = Some m /\ 1 <= m.
Proof.
  intros Hne Hl. pose proof (sum_ge_length l Hl) as Hsum.
  destruct l as [|x l]; [contradiction|].
  eexists. split; [reflexivity|].
  apply Z.quot_le_lower_bound; [simpl; lia | lia].
Qed.

Lemma foldl_max_ge (l : list Z) : forall x, x <= foldl Z.max x l.
Proof.
  induction l as [|y l IH]; intros x; simpl; [lia|].
  specialize (IH (Z.max x y)). lia.
Qed.

Lemma py_max_ge (l : list Z) :
  l <> [] -> Forall (fun x => 1 <= x) l -> exists m, py_max l = Some m /\ 1 <= m.
Proof.
  intros Hne Hl. destruct l as [|x l]; [contradiction|].
  eexists. split; [reflexivity|].
  apply Forall_cons in Hl as [Hx _]. pose proof (foldl_max_ge l x). lia.
Qed.

(** The loop that fills the maps: it ends, the maps keep their length,
    and every index it went through has a positive entry in
    [tile_len_map]. *)
Lemma map_loop_spec (tiles : list Tile) (max_tile_len : Z) (n : nat) :
  1 <= max_tile_len ->
  Forall (fun t => 1 <= len t < 2 ^ 31) tiles ->
  forall streamable tile_map tile_len_map offset,
    length tile_map = n -> length tile_len_map = n ->
    Forall (fun i => i < n /\ i < length tiles)%nat streamable ->
    exists tile_map' tile_len_map' offset',
      map_loop tiles max_tile_len (tile_map, tile_len_map, offset) streamable
      = Some (tile_map', tile_len_map', offset')
      /\ length tile_map' = n /\ length tile_len_map' = n
      /\ (forall i, i ∈ streamable -> exists e, tile_len_map' !! i = Some e /\ 1 <= e)
      /\ (forall i, (exists e, tile_len_map !! i = Some e /\ 1 <= e) ->
                    exists e, tile_len_map' !! i = Some e /\ 1 <= e).
Proof.
  intros Hmax Htiles.
  induction streamable as [|idx rest IH]; intros tm tlm off Htm Htlm Hidx.
  - exists tm, tlm, off. split; [reflexivity|]. split; [exact Htm|]. split; [exact Htlm|].
    split; [|auto]. intros i Hi. apply elem_of_nil in Hi. contradiction.
  - apply Forall_cons in Hidx as [[Hidx Hidx'] Hrest].
    destruct (lookup_lt_is_Some_2 tiles idx Hidx') as [t Ht].
    assert (1 <= Z.min (len t) max_tile_len < 2 ^ 31) as Hfc.
    { rewrite Forall_forall in Htiles.
      pose proof (Htiles t (list_elem_of_lookup_2 _ _ _ Ht)). lia. }
    assert (map_step tiles max_tile_len (tm, tlm, off) idx
            = Some (<[idx := Match.i32 off]> tm, <[idx := Z.min (len t) max_tile_len]> tlm,
                    off + Z.min (len t) max_tile_len)) as Hfirst.
    { unfold map_step. destruct (decide (idx < length tm)%nat) as [_|Hn]; [|lia].
      rewrite Ht. simpl.
      rewrite (i32_small (Z.min (len t) max_tile_len)) by lia. reflexivity. }
    destruct (IH (<[idx := Match.i32 off]> tm) (<[idx := Z.min (len t) max_tile_len]> tlm)
                (off + Z.min (len t) max_tile_len))
      as (tm' & tlm' & off' & Hloop & Htm' & Htlm' & Hin & Hkeep);
      [rewrite length_insert; exact Htm | rewrite length_insert; exact Htlm | exact Hrest |].
    exists tm', tlm', off'.
    split; [cbn [map_loop]; rewrite Hfirst; exact Hloop|]. split; [exact Htm'|].
    split; [exact Htlm'|].
    assert (forall i, (i = idx \/ exists e, tlm !! i = Some e /\ 1 <= e) ->
                      exists e, tlm' !! i = Some e /\ 1 <= e) as Hstep.
    { intros i Hi. apply Hkeep.
      destruct (decide (i = idx)) as [-> | Hne].
      - exists (Z.min (len t) max_tile_len).
        rewrite list_lookup_insert_eq by lia. split; [reflexivity | lia].
      - destruct Hi as [? | Hi]; [contradiction|].
        rewrite list_lookup_insert_ne by auto. exact Hi. }
    split.
    + intros i Hi. apply elem_of_cons in Hi as [-> | Hi]; [apply Hstep; auto | auto].
    + intros i Hi. apply Hstep. auto.
Qed.

End TileFacts.

Section MapFacts.

Import Tiles.
Local Open Scope Z_scope.

(** Step 5 in hybrid mode: with tiles of positive length and matches
    that are indices of tiles, the maps are built, they are one longer
    than the largest match, and every match has a positive entry in
    [tile_len_map]. *)
Lemma rendering_maps_hyb CAP tiles matches unique_tiles :
  Forall (fun t => 1 <= len t < 2 ^ 31) tiles ->
  set_of unique_tiles matches ->
  matches <> [] ->
  Forall (fun i => i < length tiles)%nat matches ->
  exists mp,
    rendering_maps ModeHyb CAP tiles matches unique_tiles = Some mp
    /\ length (tile_map mp) = (max_list matches + 1)%nat
    /\ length (tile_len_map mp) = (max_list matches + 1)%nat
    /\ 1 <= max_tile_len mp
    /\ forall i, i ∈ matches -> exists e, tile_len_map mp !! i = Some e /\ 1 <= e.
Proof.
  intros Htiles [_ Hset] Hne Hidx. rewrite Forall_forall in Hidx.
  unfold rendering_maps. simpl.
  assert (np_max_succ matches = Some (max_list matches + 1)%nat) as ->.
  { destruct matches; [contradiction | reflexivity]. }
  simpl.
  assert (is_Some (mapM (fun tile_idx => len <$> tiles !! tile_idx) unique_tiles))
    as [lens Hlens].
  { apply mapM_is_Some. apply Forall_forall. intros i Hi. simpl.
    apply Hset, Hidx in Hi.
    destruct (lookup_lt_is_Some_2 tiles i Hi) as [t ->]. eexists. reflexivity. }
  rewrite Hlens. simpl.
  assert (Forall (fun x => 1 <= x) lens) as Hpos.
  { apply mapM_Some in Hlens.
    apply (Forall2_Forall_r _ _ _ _ Hlens). apply Forall_forall.
    intros i _ y Hy. destruct (tiles !! i) as [t|] eqn:Ht; [|discriminate].
    injection Hy as <-. rewrite Forall_forall in Htiles.
    apply (Htiles t (list_elem_of_lookup_2 _ _ _ Ht)). }
  assert (lens <> []) as Hlne.
  { apply length_mapM in Hlens. intros ->.
    destruct matches as [|m ms]; [contradiction|].
    assert (m ∈ unique_tiles) as Hm by (apply Hset; left).
    destruct unique_tiles; [apply elem_of_nil in Hm; contradiction | discriminate]. }
  destruct (int_mean_ge lens Hlne Hpos) as [mean [-> Hmean]]. simpl.
  assert (exists mx, (if CAP then Some mean else py_max lens) = Some mx /\ 1 <= mx)
    as [mx [-> Hmx]].
  { destruct CAP; [eauto | apply py_max_ge; assumption]. }
  simpl.
  destruct (map_loop_spec tiles mx (max_list matches + 1) Hmx Htiles unique_tiles
              (replicate (max_list matches + 1) 0) (replicate (max_list matches + 1) 0) 0)
    as (tm & tlm & off & Hloop & Htm & Htlm & Hin & _);
    [apply length_replicate | apply length_replicate | |].
  { apply Forall_forall. intros i Hi. apply Hset in Hi.
    split; [|apply Hidx; exact Hi].
    pose proof (max_list_elem_of_le i matches Hi). lia. }
  rewrite Hloop. simpl. eexists. split; [reflexivity|]. simpl.
  split; [exact Htm|]. split; [exact Htlm|]. split; [exact Hmx|].
  intros i Hi. apply Hin, Hset, Hi.
Qed.

(** The grid of the renderer holds matches only, so maps that cover the
    matches cover every cell the kernels visit. *)
Lemma reshape_maps_ok matches h w g (tm tlm : list Z) hybrid :
  reshape matches h w = Some g ->
  (forall i, i ∈ matches ->
     is_Some (tm !! i) /\ exists e, tlm !! i = Some e /\ e <> 0) ->
  forall x_start x_len y_start y_len,
    Render.maps_ok x_start x_len y_start y_len tm g hybrid tlm.
Proof.
  unfold reshape. destruct (decide (h * w = length matches)%nat) as [Hlen|]; [|discriminate].
  intros [= <-] Hcover x_start x_len y_start y_len y x Hy Hx.
  apply elem_of_ys in Hy as [_ Hy]. apply elem_of_xs in Hx as [_ Hx]. simpl in Hy, Hx |- *.
  assert (matches !!! (Z.to_nat y * w + Z.to_nat x)%nat ∈ matches) as Hin.
  { apply list_elem_of_lookup_total_2. rewrite <- Hlen. nia. }
  destruct (Hcover _ Hin) as [Hbase He]. split; [exact Hbase | intros _; exact He].
Qed.

End MapFacts.

Section CoveredKernelFacts.

Import Store Render.
Local Open Scope Z_scope.

Variables (x_start : Z) (x_len : nat) (y_start : Z) (y_len : nat).
Variable tile_map : list Z.
Variable tile_store : raw_store (Frame := image).
Variable match_list : grid.
Variable tile_size : nat.
Variable hybrid : bool.
Variable frame_pos : Z.
Variable end_frame_map : list Z.

Hypothesis Hmaps : maps_ok x_start x_len y_start y_len tile_map match_list hybrid end_frame_map.

Definition store_fault (f : fault) : Prop := f = StoreOutOfRange \/ f = ShapeMismatch.

Lemma draw_cell_covered mosaic y x :
  y ∈ ys y_start y_len match_list -> x ∈ xs x_start x_len match_list ->
  match draw_cell x_start y_start tile_map tile_store match_list tile_size
          hybrid frame_pos end_frame_map mosaic y x with
  | Ok _ => True
  | Fault f => store_fault f
  end.
Proof.
  intros Hy Hx. unfold draw_cell.
  rewrite (read_grid_visible x_start x_len y_start y_len match_list y x Hy Hx). simpl.
  destruct (Hmaps y x Hy Hx) as [[base Hbase] Hhyb].
  unfold mapped_id. rewrite Hbase. simpl.
  assert (forall mapped,
            match bind (fetch tile_store mapped) (fun tile =>
                    match tile with
                    | None => Ok mosaic
                    | Some t => slice_assign mosaic ((x - x_start) * Z.of_nat tile_size)
                                  ((y - y_start) * Z.of_nat tile_size) tile_size t
                    end) with
            | Ok _ => True
            | Fault f => store_fault f
            end) as Hrest.
  { intros mapped.
    assert (forall o : option image,
              match match o with
                    | None => Ok mosaic
                    | Some t => slice_assign mosaic ((x - x_start) * Z.of_nat tile_size)
                                  ((y - y_start) * Z.of_nat tile_size) tile_size t
                    end with
              | Ok _ => True
              | Fault f => store_fault f
              end) as Hassign.
    { intros [t|]; [|exact I]. unfold slice_assign.
      destruct (_ && _); [exact I | right; reflexivity]. }
    unfold fetch. destruct tile_store as [arr | d]; simpl.
    - destruct (axis_index (length arr) mapped) as [i|]; simpl; [|left; reflexivity].
      destruct (arr !! i) as [t|]; simpl; [apply (Hassign (Some t)) | left; reflexivity].
    - apply Hassign. }
  destruct hybrid; simpl; [|apply Hrest].
  destruct Hhyb as [e [He Hne]]; [reflexivity|]. rewrite He. simpl.
  destruct (Z.eqb_spec e 0) as [?|_]; [contradiction|]. simpl. apply Hrest.
Qed.

(** With maps that cover the visited cells a kernel can only fail on
    the tile store: not on a map, and not on a modulus. *)
Lemma draw_kernel_covered :
  match draw_kernel x_start x_len y_start y_len tile_map tile_store match_list tile_size
          hybrid frame_pos end_frame_map with
  | Ok _ => True
  | Fault f => store_fault f
  end.
Proof.
  unfold draw_kernel.
  apply (foldM_prefix_inv _ (fun _ _ => True) store_fault); [exact I|].
  intros done y rest m0 Hl _.
  assert (y ∈ ys y_start y_len match_list) as Hy.
  { rewrite Hl. apply elem_of_app. right. left. }
  apply (foldM_prefix_inv _ (fun _ _ => True) store_fault); [exact I|].
  intros done' x rest' m1 Hl' _.
  assert (x ∈ xs x_start x_len match_list) as Hx.
  { rewrite Hl'. apply elem_of_app. right. left. }
  apply (draw_cell_covered m1 y x Hy Hx).
Qed.

End CoveredKernelFacts.

Section HybridTheorem.

Import Tiles.
Local Open Scope Z_scope.

(** C10. Every tile that [pic_tile] or [video_tiles] returns has a
    frame length of at least 1.  Hence, for a list of such tiles (of
    lengths that fit [int32]) and a non-empty match list of tile
    indices, step 5 of [process_mosaic] in hybrid mode builds its maps,
    [tile_len_map] holds a positive length at every index of the match
    list, and on the grid the renderer reshapes the match list into the
    hybrid kernels compute [frame_pos % end_frame_map[match_id]] with a
    modulus that is never zero. *)
Theorem hybrid_modulus_never_zero (CAP_TILE_LENGTHS : bool) (tiles : list Tile)
    (matches unique_tiles : list nat) (h w : nat) (g : Render.grid) :
  Forall constructed tiles ->
  Forall (fun t => len t < 2 ^ 31) tiles ->
  set_of unique_tiles matches ->
  matches <> [] ->
  Forall (fun i => i < length tiles)%nat matches ->
  reshape matches h w = Some g ->
  (forall t, constructed t -> 1 <= len t)
  /\ exists mp,
       rendering_maps ModeHyb CAP_TILE_LENGTHS tiles matches unique_tiles = Some mp
       /\ (forall i, i ∈ matches -> exists e, tile_len_map mp !! i = Some e /\ 1 <= e)
       /\ hybrid_offsets_defined mp g.
Proof.
  intros Hbuilt Hsmall Hset Hne Hidx Hgrid.
  split; [exact constructed_len|].
  assert (Forall (fun t => 1 <= len t < 2 ^ 31) tiles) as Htiles.
  { rewrite Forall_forall in Hbuilt, Hsmall |- *. intros t Ht.
    split; [apply constructed_len, Hbuilt, Ht | apply Hsmall, Ht]. }
  destruct (rendering_maps_hyb CAP_TILE_LENGTHS tiles matches unique_tiles
              Htiles Hset Hne Hidx) as (mp & Hmp & Htm & Htlm & _ & Hpos).
  exists mp. split; [exact Hmp|]. split; [exact Hpos|].
  assert (forall i, i ∈ matches ->
            is_Some (tile_map mp !! i) /\ exists e, tile_len_map mp !! i = Some e /\ e <> 0)
    as Hcover.
  { intros i Hi. split.
    - apply lookup_lt_is_Some_2. rewrite Htm.
      pose proof (max_list_elem_of_le i matches Hi). lia.
    - destruct (Hpos i Hi) as [e [He Hge]]. exists e. split; [exact He | lia]. }
  intros x_start x_len y_start y_len tile_store tile_size frame_pos st_flag cpu_count.
  pose proof (reshape_maps_ok matches h w g (tile_map mp) (tile_len_map mp) true
                Hgrid Hcover x_start x_len y_start y_len) as Hmaps.
  split.
  - intros y x Hy Hx.
    destruct (Hmaps y x Hy Hx) as [[base Hbase] Hhyb].
    destruct (Hhyb eq_refl) as [e [He Hne0]].
    exists base, e. split.
    + assert (Render.g_cell g (Z.to_nat y) (Z.to_nat x) ∈ matches) as Hin.
      { unfold reshape in Hgrid.
        destruct (decide (h * w = length matches)%nat) as [Hlen|]; [|discriminate].
        injection Hgrid as <-. simpl.
        apply elem_of_ys in Hy as [_ Hy]. apply elem_of_xs in Hx as [_ Hx].
        simpl in Hy, Hx.
        apply list_elem_of_lookup_total_2. rewrite <- Hlen. nia. }
      destruct (Hpos _ Hin) as [e' [He' Hge]]. rewrite He in He'. injection He' as <-.
      exact Hge.
    + unfold Render.mapped_id. rewrite Hbase. simpl. rewrite He. simpl.
      destruct (Z.eqb_spec e 0) as [?|_]; [contradiction | reflexivity].
  - rewrite draw_dispatch. intros [= Hfault].
    pose proof (draw_kernel_covered x_start x_len y_start y_len (tile_map mp) tile_store g
                  tile_size true frame_pos (tile_len_map mp) Hmaps) as Hcov.
    rewrite Hfault in Hcov. destruct Hcov as [? | ?]; discriminate.
Qed.

End HybridTheorem.

(** A clip of six frames with a cut at frame 3: its two good frames
    give a tile of three frames and a tile of two. *)
Definition clip_colours : gmap Z Match.colour :=
  list_to_map [(0, (10, 10, 10)); (1, (10, 10, 10)); (2, (10, 10, 10));
               (3, (200, 200, 200)); (4, (200, 200, 200)); (5, (200, 200, 200))]%Z.

Example video_tiles_clip :
  Tiles.video_tiles [0; 3]%Z [3; 0; 1; 2; 4; 5]%Z clip_colours 75
  = Some [Tiles.new_Tile Stream.Vid (Some 0%Z) (Some 3%Z);
          Tiles.new_Tile Stream.Vid (Some 3%Z) (Some 5%Z)].
Proof. vm_compute. reflexivity. Qed.

(** A good frame whose next frame is already too far from it, and a
    good frame that is the last frame of the clip: no tile is built
    from either. *)
Example video_tiles_discards :
  Tiles.video_tiles [0; 3; 5]%Z [0; 1; 2; 3; 4; 5]%Z
    (<[1%Z := (90, 90, 90)%Z]> clip_colours) 75
  = Some [Tiles.new_Tile Stream.Vid (Some 3%Z) (Some 5%Z)].
Proof. vm_compute. reflexivity. Qed.

(** A picture and the two tiles of the clip, on a two by two grid. *)
Definition hyb_tiles : list Tiles.Tile :=
  [Tiles.new_Tile Stream.Pic None None;
   Tiles.new_Tile Stream.Vid (Some 0%Z) (Some 3%Z);
   Tiles.new_Tile Stream.Vid (Some 3%Z) (Some 5%Z)].
Definition hyb_matches : list nat := [0; 1; 2; 1]%nat.
Definition hyb_grid : Render.grid :=
  Render.mkGrid 2 2 (fun y x => hyb_matches !!! (y * 2 + x)%nat).

Example rendering_maps_hyb_tiles :
  Tiles.rendering_maps Tiles.ModeHyb true hyb_tiles hyb_matches [0; 1; 2]%nat
  = Some (Tiles.mkMaps [0; 1; 3]%Z [1; 2; 2]%Z 2 2 5).
Proof. vm_compute. reflexivity. Qed.

Example rendering_maps_uncapped :
  Tiles.rendering_maps Tiles.ModeHyb false hyb_tiles hyb_matches [2; 0; 1]%nat
  = Some (Tiles.mkMaps [2; 3; 0]%Z [1; 3; 2]%Z 2 3 6).
Proof. vm_compute. reflexivity. Qed.

Lemma hyb_tiles_constructed : Forall Tiles.constructed hyb_tiles.
Proof.
  assert (forall t,
            t ∈ [Tiles.new_Tile Stream.Vid (Some 0%Z) (Some 3%Z);
                 Tiles.new_Tile Stream.Vid (Some 3%Z) (Some 5%Z)] ->
            Tiles.constructed t) as Hvid.
  { intros t Ht. right.
    exists [0; 3]%Z, [3; 0; 1; 2; 4; 5]%Z, clip_colours, 75%Z. eexists.
    split; [vm_compute; reflexivity | exact Ht]. }
  unfold hyb_tiles.
  constructor; [left; reflexivity|].
  constructor; [apply Hvid; left|].
  constructor; [apply Hvid; right; left | constructor].
Defined.

Lemma hybrid_modulus_witness :
  (forall t, Tiles.constructed t -> (1 <= Tiles.len t)%Z)
  /\ exists mp,
       Tiles.rendering_maps Tiles.ModeHyb true hyb_tiles hyb_matches [0; 1; 2]%nat = Some mp
       /\ (forall i, i ∈ hyb_matches ->
             exists e, Tiles.tile_len_map mp !! i = Some e /\ (1 <= e)%Z)
       /\ Tiles.hybrid_offsets_defined mp hyb_grid.
Proof.
  apply (hybrid_modulus_never_zero true hyb_tiles hyb_matches [0; 1; 2]%nat 2 2 hyb_grid).
  - exact hyb_tiles_constructed.
  - repeat constructor.
  - split.
    + apply (bool_decide_unpack _). vm_compute. exact I.
    + intros i. unfold hyb_matches. rewrite !elem_of_cons, !elem_of_nil. tauto.
  - discriminate.
  - repeat constructor.
  - reflexivity.
Defined.

(* ================================================================== *)
(** ** More on the single-choice matcher: padding, lanes, indices *)
(* ================================================================== *)

Section PaddingFacts.

Import Match.

(** The padded rows of the lanes are the per-pixel results followed by
    the padding, all of it at the end. *)
Lemma rows_split {A} (zero : A) (g : colour -> A) blocks sl c : forall i0,
  length blocks - i0 * sl <= c * sl ->
  rows zero g blocks sl (seq i0 c)
  = map g (drop (i0 * sl) blocks)
    ++ replicate (c * sl - (length blocks - i0 * sl)) zero.
Proof.
  induction c as [|c IH]; intros i0 Hcov.
  - simpl. rewrite drop_ge by lia. reflexivity.
  - unfold rows. simpl. fold (rows zero g blocks sl (seq (S i0) c)).
    destruct (le_lt_dec sl (length blocks - i0 * sl)) as [Hfull | Hpart].
    + assert (length (map g (subslice blocks sl i0)) = sl) as Hlen.
      { rewrite length_map, length_subslice. lia. }
      unfold pad_row. rewrite Hlen, Nat.sub_diag. simpl. rewrite app_nil_r.
      rewrite IH by (simpl; lia).
      rewrite app_assoc. f_equal.
      * unfold subslice. rewrite <- map_app. f_equal.
        replace (S i0 * sl) with (i0 * sl + sl) by lia.
        rewrite <- drop_drop. apply take_drop.
      * f_equal. simpl. lia.
    + assert (subslice blocks sl i0 = drop (i0 * sl) blocks) as Hsub.
      { unfold subslice. apply take_ge. rewrite length_drop. lia. }
      rewrite Hsub, IH by (simpl; lia).
      rewrite (drop_ge blocks (S i0 * sl)) by (simpl; lia). simpl.
      unfold pad_row. rewrite length_map, length_drop, <- app_assoc. f_equal.
      rewrite <- replicate_add. f_equal. simpl. lia.
Qed.

Lemma rows_padded {A} (zero : A) (g : colour -> A) blocks cpu :
  cpu <> 0 ->
  rows zero g blocks (s_len (length blocks) cpu) (seq 0 cpu)
  = map g blocks ++ replicate (s_len (length blocks) cpu * cpu - length blocks) zero.
Proof.
  intros Hc. pose proof (s_len_covers (length blocks) cpu Hc) as Hcov.
  rewrite rows_split by lia. simpl. rewrite Nat.sub_0_r.
  f_equal. f_equal. lia.
Qed.

End PaddingFacts.

Section LaneResults.

Import Match.
Local Open Scope Z_scope.

Variables (avg : list colour) (ssq : list Z).

(** A pass that returns has matched every pixel afresh, by the one
    function of the colour that [fresh_1d] is. *)
Lemma pass_without_memo_1d_rows blocks cpu out :
  pass_without_memo_1d avg ssq blocks cpu = Some out ->
  cpu <> 0%nat
  /\ exists g : colour -> Z,
       (forall s, s ∈ blocks -> fresh_1d avg ssq s = Some (g s))
       /\ out = rows 0 g blocks (s_len (length blocks) cpu) (seq 0 cpu).
Proof.
  intros Hp.
  assert (cpu <> 0%nat) as Hc by (intros ->; discriminate Hp).
  split; [exact Hc|].
  exists (fun s => default 0 (fresh_1d avg ssq s)).
  assert (forall s, s ∈ blocks ->
            fresh_1d avg ssq s = Some (default 0 (fresh_1d avg ssq s))) as Hg.
  { intros s Hs. apply list_elem_of_lookup in Hs as [i Hi].
    destruct (pass_without_memo_1d_lookup avg ssq blocks cpu out i s Hp Hi) as [Ho [t Ht]].
    rewrite <- Ho, Ht. reflexivity. }
  split; [exact Hg|].
  unfold pass_without_memo_1d in Hp.
  destruct (Nat.eqb_spec cpu 0) as [? | _]; [contradiction|]. cbv zeta in Hp.
  rewrite (mapM_total _ (fun i => pad_row 0 (s_len (length blocks) cpu)
             (map (fun s => default 0 (fresh_1d avg ssq s))
                (subslice blocks (s_len (length blocks) cpu) i)))) in Hp.
  - injection Hp as <-. reflexivity.
  - intros i _.
    rewrite (mapM_total _ (fun s => default 0 (fresh_1d avg ssq s))); [reflexivity|].
    intros s Hs. apply Hg. unfold subslice in Hs.
    apply elem_of_take in Hs as (j & Hj & _).
    rewrite lookup_drop in Hj. apply list_elem_of_lookup. eauto.
Qed.

(** X1. What [build_matches_mt_1d] returns is the match of every source
    pixel, in source order, followed by nothing but zeros: the first
    [n] cells are, pixel by pixel, the tile index that the matcher
    computes for the pixel's colour ([fresh_1d], the first minimum of
    the shortcut distances), and the padding of the lanes all ends up
    behind them.  The array has [cpu_count * ceil(n / cpu_count)]
    cells, never fewer than the source has pixels, so the cap that
    [process_mosaic] applies removes exactly the padding. *)
Theorem mt_1d_matches_then_zeros (blocks : list colour) (cpu : nat) (out : list Z) :
  Forall colour_ok blocks ->
  build_matches_mt_1d avg ssq blocks cpu = Some out ->
  let n := length blocks in
  out = capped blocks out ++ replicate (s_len n cpu * cpu - n) 0
  /\ mapM (fresh_1d avg ssq) blocks = Some (capped blocks out)
  /\ (forall i s, blocks !! i = Some s -> fresh_1d avg ssq s = out !! i)
  /\ length (capped blocks out) = n
  /\ length out = (s_len n cpu * cpu)%nat
  /\ (n <= length out)%nat.
Proof.
  intros Hok Hb n.
  rewrite build_matches_mt_1d_no_memo in Hb by exact Hok.
  destruct (pass_without_memo_1d_rows blocks cpu out Hb) as (Hc & g & Hg & ->).
  pose proof (s_len_covers (length blocks) cpu Hc) as Hcov.
  rewrite capped_rows by exact Hc. rewrite rows_padded by exact Hc.
  fold n in Hcov |- *.
  split; [reflexivity|].
  split; [apply mapM_total; exact Hg|].
  split.
  { intros i s Hi.
    rewrite lookup_app_l by (rewrite length_map; apply lookup_lt_Some in Hi; exact Hi).
    rewrite list_lookup_fmap, Hi. simpl. apply Hg.
    apply list_elem_of_lookup. eauto. }
  split; [apply length_map|].
  rewrite length_app, length_map, length_replicate. fold n. lia.
Qed.

(** X2. The number of lanes does not show in the result: once capped to
    the source, [build_matches_mt_1d] returns the same match list for
    any two lane counts, or fails for both. *)
Theorem mt_1d_lane_count_irrelevant (blocks : list colour) (cpu1 cpu2 : nat) :
  Forall colour_ok blocks -> cpu1 <> 0%nat -> cpu2 <> 0%nat ->
  capped blocks <$> build_matches_mt_1d avg ssq blocks cpu1
  = capped blocks <$> build_matches_mt_1d avg ssq blocks cpu2.
Proof.
  intros Hok H1 H2. rewrite !build_matches_mt_1d_no_memo by exact Hok.
  assert (forall cpu, cpu <> 0%nat ->
            capped blocks <$> pass_without_memo_1d avg ssq blocks cpu
            = mapM (fresh_1d avg ssq) blocks) as Hone.
  { intros cpu Hc.
    destruct (pass_without_memo_1d avg ssq blocks cpu) as [out|] eqn:Hp; simpl.
    - destruct (pass_without_memo_1d_rows blocks cpu out Hp) as (_ & g & Hg & ->).
      rewrite capped_rows by exact Hc. symmetry. apply mapM_total. exact Hg.
    - symmetry. destruct (mapM (fresh_1d avg ssq) blocks) as [ts|] eqn:Hm; [|reflexivity].
      exfalso.
      set (g := fun s => default 0 (fresh_1d avg ssq s)).
      assert (forall s, fresh_1d avg ssq s = Some (g s)) as Hg.
      { intros s. unfold g. destruct (fresh_1d avg ssq s) as [t|] eqn:E; [reflexivity|].
        exfalso. destruct blocks as [|s1 rest].
        - unfold pass_without_memo_1d in Hp.
          destruct (Nat.eqb_spec cpu 0) as [? | _]; [contradiction|]. cbv zeta in Hp.
          rewrite (mapM_total _ (fun _ => pad_row 0 (s_len 0 cpu) [])) in Hp;
            [discriminate|].
          intros i _. unfold subslice. rewrite drop_nil, take_nil. reflexivity.
        - simpl in Hm. rewrite (fresh_1d_uniform avg ssq s s1 E) in Hm. discriminate. }
      rewrite (pass_without_memo_1d_total avg ssq g blocks cpu Hc Hg) in Hp. discriminate. }
  rewrite (Hone cpu1 H1), (Hone cpu2 H2). reflexivity.
Qed.

(** X3. Every match is the index of a tile: with at most [2^31] tiles,
    each entry of the capped match list lies between 0 and the number
    of tiles, so [tiles[tile_idx]] never leaves the tile list. *)
Theorem mt_1d_matches_are_tile_indices (blocks : list colour) (cpu : nat) (out : list Z) :
  Forall colour_ok blocks ->
  Z.of_nat (length avg) <= 2 ^ 31 ->
  build_matches_mt_1d avg ssq blocks cpu = Some out ->
  Forall (fun t => 0 <= t < Z.of_nat (length avg)) (capped blocks out).
Proof.
  intros Hok Hlen Hb.
  rewrite build_matches_mt_1d_no_memo in Hb by exact Hok.
  destruct (pass_without_memo_1d_rows blocks cpu out Hb) as (Hc & g & Hg & ->).
  rewrite capped_rows by exact Hc.
  apply Forall_forall. intros t Ht.
  apply list_elem_of_fmap in Ht as (s & -> & Hs).
  specialize (Hg s Hs). unfold fresh_1d in Hg.
  destruct (argmin (distances avg ssq s)) as [i|] eqn:Hi; [|discriminate].
  simpl in Hg. injection Hg as <-.
  assert (i < length avg)%nat as Hlt.
  { destruct (argmin_is_Some (distances avg ssq s)) as (j & Hj & Hjl).
    - intros E. rewrite E in Hi. discriminate.
    - rewrite Hi in Hj. injection Hj as <-.
      unfold distances in Hjl. rewrite length_zip_with in Hjl. lia. }
  rewrite i32_small by lia. lia.
Qed.

End LaneResults.

Lemma mt_1d_matches_then_zeros_witness :
  Match.build_matches_mt_1d demo_tiles (Match.sum_avg_sq demo_tiles)
    (demo_source ++ [(130, 120, 125)%Z]) 2 = Some [0; 1; 2; 0]%Z
  /\ [0; 1; 2; 0]%Z = [0; 1; 2]%Z ++ replicate (2 * 2 - 3) 0%Z
  /\ mapM (Match.fresh_1d demo_tiles (Match.sum_avg_sq demo_tiles))
       (demo_source ++ [(130, 120, 125)%Z]) = Some [0; 1; 2]%Z.
Proof.
  split; [reflexivity|].
  destruct (mt_1d_matches_then_zeros demo_tiles (Match.sum_avg_sq demo_tiles)
              (demo_source ++ [(130, 120, 125)%Z]) 2 [0; 1; 2; 0]%Z)
    as (Hpad & Hmatch & _).
  - repeat (constructor; [cbn; lia|]). constructor.
  - reflexivity.
  - split; [exact Hpad | exact Hmatch].
Defined.

Lemma mt_1d_lane_count_irrelevant_witness :
  Match.capped demo_source
    <$> Match.build_matches_mt_1d demo_tiles (Match.sum_avg_sq demo_tiles) demo_source 1
  = Match.capped demo_source
    <$> Match.build_matches_mt_1d demo_tiles (Match.sum_avg_sq demo_tiles) demo_source 12.
Proof.
  apply (mt_1d_lane_count_irrelevant demo_tiles (Match.sum_avg_sq demo_tiles) demo_source 1 12).
  - repeat (constructor; [cbn; lia|]). constructor.
  - discriminate.
  - discriminate.
Defined.

Lemma mt_1d_matches_are_tile_indices_witness :
  Forall (fun t => 0 <= t < 4)%Z (Match.capped demo_source [0; 1]%Z).
Proof.
  apply (mt_1d_matches_are_tile_indices demo_tiles (Match.sum_avg_sq demo_tiles)
           demo_source 2 [0; 1]%Z).
  - repeat (constructor; [cbn; lia|]). constructor.
  - cbn. lia.
  - reflexivity.
Defined.

(* ================================================================== *)
(** ** The memo table of [build_matches_st] *)
(* ================================================================== *)

Section TableFacts.

Import Match.
Local Open Scope Z_scope.

Variables (avg : list colour) (ssq : list Z).

(** The tile set is not empty and fits [int32]: a fresh match is the
    index of a tile. *)
Hypothesis Hne : avg <> [].
Hypothesis Hssq : length ssq = length avg.
Hypothesis Hlen : Z.of_nat (length avg) <= 2 ^ 31.

Lemma scan_min_index s :
  0 <= scan_min None (-1) 0 (distances avg ssq s) < Z.of_nat (length avg).
Proof.
  rewrite scan_min_argmin.
  destruct (argmin_is_Some (distances avg ssq s)) as (j & -> & Hj).
  - intros E. apply (f_equal length) in E. unfold distances in E.
    rewrite length_zip_with in E. simpl in E.
    assert (length avg <> 0)%nat as Hpos.
    { intros E0. apply length_zero_iff_nil in E0. contradiction. }
    lia.
  - unfold distances in Hj. rewrite length_zip_with in Hj. lia.
Qed.

(** [later] keeps every cell that [cmap] has written. *)
Definition settled (cmap later : gmap Z Z) : Prop :=
  forall k, cmap_get cmap k <> -1 -> cmap_get later k = cmap_get cmap k.

Lemma settled_refl cmap : settled cmap cmap.
Proof. intros k _. reflexivity. Qed.

Lemma settled_trans c1 c2 c3 : settled c1 c2 -> settled c2 c3 -> settled c1 c3.
Proof.
  intros H12 H23 k Hk. rewrite H23; [apply H12, Hk | rewrite H12; exact Hk].
Qed.

Lemma match_pixel_st_effect cmap s cmap1 t u :
  match_pixel_st avg ssq cmap s = (cmap1, t, u) ->
  t = cmap_get cmap1 (key s) /\ t <> -1
  /\ (forall k, k <> key s -> cmap_get cmap1 k = cmap_get cmap k)
  /\ (cmap_get cmap (key s) <> -1 -> cmap1 = cmap /\ u = None)
  /\ (cmap_get cmap (key s) = -1 -> u = Some t).
Proof.
  unfold match_pixel_st. pose proof (scan_min_index s) as Hidx.
  destruct (Z.eqb_spec (cmap_get cmap (key s)) (-1)) as [Heq | Hneq].
  - intros [= <- <- <-]. rewrite cmap_get_set_eq, i32_small by lia.
    split; [reflexivity|]. split; [lia|]. split.
    + intros k Hk. apply cmap_get_set_ne. congruence.
    + split; [intros H; contradiction | reflexivity].
  - intros [= <- <- <-]. split; [reflexivity|]. split; [exact Hneq|].
    split; [reflexivity|]. split; [auto | intros H; contradiction].
Qed.

Lemma match_pixel_st_settled cmap s cmap1 t u :
  match_pixel_st avg ssq cmap s = (cmap1, t, u) -> settled cmap cmap1.
Proof.
  intros Hm k Hk.
  destruct (match_pixel_st_effect _ _ _ _ _ Hm) as (_ & _ & Hother & Hhit & _).
  destruct (Z.eq_dec k (key s)) as [-> | Hneq].
  - destruct (Hhit Hk) as [-> _]. reflexivity.
  - apply Hother, Hneq.
Qed.

(** What a lane does to the table and what it reports: the table only
    grows, the row holds what the table holds for each colour
    afterwards, and the reported indices are the table's values for the
    colours that had no cell before. *)
Lemma lane_st_effect sub : forall cmap cmap' row us,
  lane_st avg ssq cmap sub = (cmap', row, us) ->
  settled cmap cmap'
  /\ row = map (fun s => cmap_get cmap' (key s)) sub
  /\ Forall (fun s => cmap_get cmap' (key s) <> -1) sub
  /\ (forall u, u ∈ us <->
        exists s, s ∈ sub /\ cmap_get cmap (key s) = -1 /\ u = cmap_get cmap' (key s)).
Proof.
  induction sub as [|s sub IH]; intros cmap cmap' row us; simpl.
  - intros [= <- <- <-]. split; [apply settled_refl|]. split; [reflexivity|].
    split; [constructor|]. intros u. split.
    + intros Hu. apply elem_of_nil in Hu. contradiction.
    + intros (s & Hs & _). apply elem_of_nil in Hs. contradiction.
  - destruct (match_pixel_st avg ssq cmap s) as [[cmap1 t] u0] eqn:Hm.
    destruct (lane_st avg ssq cmap1 sub) as [[cmap2 ts] us'] eqn:Hl.
    intros [= <- <- <-].
    destruct (match_pixel_st_effect _ _ _ _ _ Hm) as (Ht & Htne & Hother & Hhit & Hmiss).
    pose proof (match_pixel_st_settled _ _ _ _ _ Hm) as Hs1.
    destruct (IH _ _ _ _ Hl) as (Hs2 & -> & Hall & Hus).
    assert (cmap_get cmap2 (key s) = t) as Hkeep.
    { rewrite Hs2; [symmetry; exact Ht | rewrite <- Ht; exact Htne]. }
    split; [exact (settled_trans _ _ _ Hs1 Hs2)|].
    split; [simpl; rewrite Hkeep; reflexivity|].
    split; [constructor; [rewrite Hkeep; exact Htne | exact Hall]|].
    intros u. split.
    + intros Hu.
      assert (u0 = Some u \/ u ∈ us') as [-> | Hin].
      { destruct u0; [apply elem_of_cons in Hu as [-> | ?]|]; auto. }
      * exists s. split; [left|].
        destruct (Z.eq_dec (cmap_get cmap (key s)) (-1)) as [Hk | Hk].
        -- split; [exact Hk|]. specialize (Hmiss Hk). injection Hmiss as ->.
           symmetry. exact Hkeep.
        -- destruct (Hhit Hk) as [_ ?]. discriminate.
      * apply Hus in Hin as (s' & Hs' & Hk' & ->).
        exists s'. split; [right; exact Hs'|]. split; [|reflexivity].
        destruct (Z.eq_dec (cmap_get cmap (key s')) (-1)) as [? | Hk]; [assumption|].
        rewrite (Hs1 _ Hk) in Hk'. contradiction.
    + intros (s' & Hs' & Hk' & ->).
      assert (key s' = key s /\ cmap_get cmap (key s) = -1
              \/ s' ∈ sub /\ cmap_get cmap1 (key s') = -1) as [[Hkey Hk] | [Hin Hk1]].
      { apply elem_of_cons in Hs' as [-> | Hin]; [left; auto|].
        destruct (Z.eq_dec (key s') (key s)) as [Hkey | Hkey].
        - left. split; [exact Hkey | rewrite <- Hkey; exact Hk'].
        - right. split; [exact Hin|]. rewrite Hother by exact Hkey. exact Hk'. }
      * rewrite Hkey, Hkeep. rewrite (Hmiss Hk). left.
      * assert (cmap_get cmap2 (key s') ∈ us') as Hin'.
        { apply Hus. exists s'. auto. }
        destruct u0; [right|]; exact Hin'.
Qed.

(** A cell that a lane wrote belongs to the colour of one of its
    pixels. *)
Lemma lane_st_new_cell sub : forall cmap cmap1 row us1 k,
  lane_st avg ssq cmap sub = (cmap1, row, us1) ->
  cmap_get cmap k = -1 -> cmap_get cmap1 k <> -1 ->
  exists s1, s1 ∈ sub /\ key s1 = k.
Proof.
  induction sub as [|p sub IHsub]; intros cmap cmap1 row us1 k Hl Hk Hk1; simpl in Hl.
  - injection Hl as <- _ _. contradiction.
  - destruct (match_pixel_st avg ssq cmap p) as [[c1 t] u0] eqn:Hm.
    destruct (lane_st avg ssq c1 sub) as [[c2 ts] us'] eqn:Hl'.
    injection Hl as <- _ _.
    destruct (match_pixel_st_effect _ _ _ _ _ Hm) as (_ & _ & Hother & _ & _).
    destruct (Z.eq_dec k (key p)) as [Hkey | Hkey].
    + exists p. split; [left | auto].
    + destruct (IHsub c1 c2 ts us' k Hl') as (s1 & Hin & Hkey1).
      * rewrite Hother by exact Hkey. exact Hk.
      * exact Hk1.
      * exists s1. split; [right; exact Hin | exact Hkey1].
Qed.

(** A lane whose colours all have a cell reads the table and nothing
    else. *)
Lemma lane_st_hits sub cmap :
  Forall (fun s => cmap_get cmap (key s) <> -1) sub ->
  lane_st avg ssq cmap sub = (cmap, map (fun s => cmap_get cmap (key s)) sub, []).
Proof.
  induction 1 as [|s sub Hs _ IH]; simpl; [reflexivity|].
  unfold match_pixel_st at 1.
  destruct (Z.eqb_spec (cmap_get cmap (key s)) (-1)) as [? | _]; [contradiction|].
  rewrite IH. reflexivity.
Qed.

(** The pixels the lanes [ids] go through. *)
Definition lane_pixels (blocks : list colour) (sl : nat) (ids : list nat) : list colour :=
  concat (map (subslice blocks sl) ids).

Lemma lanes_st_effect blocks sl ids : forall cmap cmap' out us,
  lanes_st avg ssq blocks sl cmap ids = (cmap', out, us) ->
  settled cmap cmap'
  /\ out = rows 0 (fun s => cmap_get cmap' (key s)) blocks sl ids
  /\ Forall (fun s => cmap_get cmap' (key s) <> -1) (lane_pixels blocks sl ids)
  /\ (forall u, u ∈ us <->
        exists s, s ∈ lane_pixels blocks sl ids
                  /\ cmap_get cmap (key s) = -1 /\ u = cmap_get cmap' (key s)).
Proof.
  induction ids as [|i ids IH]; intros cmap cmap' out us; simpl.
  - intros [= <- <- <-]. split; [apply settled_refl|]. split; [reflexivity|].
    split; [constructor|]. intros u. split.
    + intros Hu. apply elem_of_nil in Hu. contradiction.
    + intros (s & Hs & _). apply elem_of_nil in Hs. contradiction.
  - destruct (lane_st avg ssq cmap (subslice blocks sl i)) as [[cmap1 row] us1] eqn:Hl.
    destruct (lanes_st avg ssq blocks sl cmap1 ids) as [[cmap2 out'] us2] eqn:Hls.
    intros [= <- <- <-].
    pose proof Hl as Hl0.
    destruct (lane_st_effect _ _ _ _ _ Hl) as (Hs1 & Hrow & Hall1 & Hus1).
    destruct (IH _ _ _ _ Hls) as (Hs2 & -> & Hall2 & Hus2).
    assert (forall s, s ∈ subslice blocks sl i ->
              cmap_get cmap2 (key s) = cmap_get cmap1 (key s)
              /\ cmap_get cmap1 (key s) <> -1) as Hkeep.
    { intros s Hs. rewrite Forall_forall in Hall1. specialize (Hall1 s Hs).
      split; [apply Hs2, Hall1 | exact Hall1]. }
    split; [exact (settled_trans _ _ _ Hs1 Hs2)|].
    split.
    { unfold rows. simpl. rewrite Hrow. f_equal. f_equal. apply map_ext_in. intros s Hs.
      symmetry. apply Hkeep. apply list_elem_of_In. exact Hs. }
    split.
    { unfold lane_pixels. simpl. apply Forall_app. split; [|exact Hall2].
      apply Forall_forall. intros s Hs. destruct (Hkeep s Hs) as [-> ?]. assumption. }
    intros u. unfold lane_pixels. simpl. rewrite elem_of_app, Hus1, Hus2. split.
    + intros [(s & Hs & Hk & ->) | (s & Hs & Hk & ->)].
      * exists s. rewrite elem_of_app. split; [left; exact Hs|]. split; [exact Hk|].
        symmetry. apply Hkeep, Hs.
      * exists s. rewrite elem_of_app. split; [right; exact Hs|]. split; [|reflexivity].
        destruct (Z.eq_dec (cmap_get cmap (key s)) (-1)) as [? | Hne']; [assumption|].
        rewrite (Hs1 _ Hne') in Hk. contradiction.
    + intros (s & Hs & Hk & ->). apply elem_of_app in Hs as [Hs | Hs].
      * left. exists s. split; [exact Hs|]. split; [exact Hk|]. apply Hkeep, Hs.
      * destruct (Z.eq_dec (cmap_get cmap1 (key s)) (-1)) as [Hk1 | Hk1].
        -- right. exists s. auto.
        -- left.
           (* the colour got its cell in lane [i]: from a pixel of that lane *)
           destruct (lane_st_new_cell _ _ _ _ _ (key s) Hl0 Hk Hk1) as (s1 & Hs1' & Hkey).
           exists s1. split; [exact Hs1'|]. rewrite Hkey. split; [exact Hk|].
           rewrite (Hs2 _ Hk1). reflexivity.
Qed.

Lemma lanes_st_hits blocks sl ids cmap :
  Forall (fun s => cmap_get cmap (key s) <> -1) (lane_pixels blocks sl ids) ->
  lanes_st avg ssq blocks sl cmap ids
  = (cmap, rows 0 (fun s => cmap_get cmap (key s)) blocks sl ids, []).
Proof.
  induction ids as [|i ids IH]; intros Hall; simpl; [reflexivity|].
  unfold lane_pixels in Hall. simpl in Hall. apply Forall_app in Hall as [H1 H2].
  rewrite (lane_st_hits _ _ H1), (IH H2). reflexivity.
Qed.

Lemma elem_of_concat {A} (x : A) (ls : list (list A)) :
  x ∈ concat ls <-> exists l, x ∈ l /\ l ∈ ls.
Proof.
  induction ls as [|l ls IH]; simpl.
  - split; [intros H; apply elem_of_nil in H; contradiction|].
    intros (l & _ & H). apply elem_of_nil in H. contradiction.
  - rewrite elem_of_app, IH. split.
    + intros [H | (l' & H1 & H2)]; [exists l; split; [exact H | left]|].
      exists l'. split; [exact H1 | right; exact H2].
    + intros (l' & H1 & H2). apply elem_of_cons in H2 as [-> | H2]; [left; exact H1|].
      right. exists l'. auto.
Qed.

(** The lanes of a pass go through every pixel of the source. *)
Lemma lane_pixels_cover blocks cpu s :
  cpu <> 0%nat ->
  s ∈ lane_pixels blocks (s_len (length blocks) cpu) (seq 0 cpu) <-> s ∈ blocks.
Proof.
  intros Hc. pose proof (s_len_covers (length blocks) cpu Hc) as Hcov.
  set (sl := s_len (length blocks) cpu) in *.
  unfold lane_pixels. rewrite elem_of_concat. split.
  - intros (l & Hs & Hl). apply list_elem_of_fmap in Hl as (i & -> & _).
    unfold subslice in Hs. apply elem_of_take in Hs as (j & Hj & _).
    rewrite lookup_drop in Hj. apply list_elem_of_lookup. eauto.
  - intros Hs. apply list_elem_of_lookup in Hs as [j Hj].
    pose proof (lookup_lt_Some _ _ _ Hj) as Hjn.
    assert (sl <> 0)%nat as Hsl by (intros E; rewrite E in Hcov; simpl in Hcov; lia).
    exists (subslice blocks sl (j / sl)). split.
    + unfold subslice. apply list_elem_of_lookup. exists (j mod sl)%nat.
      rewrite lookup_take_lt by (apply Nat.mod_upper_bound; exact Hsl).
      rewrite lookup_drop.
      replace (j / sl * sl + j mod sl)%nat with j; [exact Hj|].
      pose proof (Nat.div_mod_eq j sl). lia.
    + apply list_elem_of_fmap. exists (j / sl)%nat. split; [reflexivity|].
      apply elem_of_seq. split; [lia|].
      apply Nat.Div0.div_lt_upper_bound. lia.
Qed.

(** A reported index was computed in the call: it is a tile index. *)
Lemma lane_st_in_range sub : forall cmap cmap1 row us1,
  lane_st avg ssq cmap sub = (cmap1, row, us1) ->
  Forall (fun t => 0 <= t < Z.of_nat (length avg)) us1.
Proof.
  induction sub as [|p sub IHsub]; intros cmap cmap1 row us1; simpl.
  - intros [= _ _ <-]. constructor.
  - destruct (match_pixel_st avg ssq cmap p) as [[c1 t] u0] eqn:Hm.
    destruct (lane_st avg ssq c1 sub) as [[c2 ts] us'] eqn:Hl'.
    intros [= _ _ <-]. specialize (IHsub _ _ _ _ Hl').
    unfold match_pixel_st in Hm.
    destruct (cmap_get cmap (key p) =? -1); injection Hm as _ _ <-; [|exact IHsub].
    constructor; [apply scan_min_index | exact IHsub].
Qed.

Lemma lanes_st_in_range blocks sl ids : forall cmap cmap' out us,
  lanes_st avg ssq blocks sl cmap ids = (cmap', out, us) ->
  Forall (fun t => 0 <= t < Z.of_nat (length avg)) us.
Proof.
  induction ids as [|i ids IH]; intros cmap cmap' out us; simpl.
  - intros [= _ _ <-]. constructor.
  - destruct (lane_st avg ssq cmap (subslice blocks sl i)) as [[cmap1 row] us1] eqn:Hl.
    destruct (lanes_st avg ssq blocks sl cmap1 ids) as [[cmap2 out'] us2] eqn:Hls.
    intros [= _ _ <-]. apply Forall_app.
    split; [exact (lane_st_in_range _ _ _ _ _ Hl) | exact (IH _ _ _ _ Hls)].
Qed.

(** X4. Matching a frame a second time against the table the first pass
    left behind reads the table and nothing else: it returns the same
    match list, leaves the table as it is and reports no new tile. *)
Theorem st_rematch_reads_table (blocks : list colour) (cmap cmap' : gmap Z Z)
    (cpu : nat) (out us : list Z) :
  build_matches_st avg ssq blocks cmap cpu = Some (cmap', out, us) ->
  build_matches_st avg ssq blocks cmap' cpu = Some (cmap', out, []).
Proof.
  unfold build_matches_st.
  destruct (cpu =? 0)%nat; [discriminate|].
  intros [= H].
  destruct (lanes_st_effect _ _ _ _ _ _ _ H) as (_ & -> & Hall & _).
  rewrite (lanes_st_hits _ _ _ _ Hall). reflexivity.
Qed.

(** X5. The set that [build_matches_st] returns besides the match list
    holds exactly the matches of the colours that had no cell in the
    table when the call began; and every cell of the match list, up to
    the length of the source, is what the table holds for the pixel's
    colour afterwards. *)
Theorem st_reports_new_matches (blocks : list colour) (cmap cmap' : gmap Z Z)
    (cpu : nat) (out us : list Z) :
  build_matches_st avg ssq blocks cmap cpu = Some (cmap', out, us) ->
  (forall u, u ∈ us <->
     exists s, s ∈ blocks /\ cmap_get cmap (key s) = -1 /\ u = cmap_get cmap' (key s))
  /\ capped blocks out = map (fun s => cmap_get cmap' (key s)) blocks
  /\ Forall (fun t => 0 <= t < Z.of_nat (length avg)) us.
Proof.
  unfold build_matches_st.
  destruct (Nat.eqb_spec cpu 0) as [? | Hc]; [discriminate|].
  intros [= H].
  destruct (lanes_st_effect _ _ _ _ _ _ _ H) as (_ & Hout & _ & Hus).
  assert (forall u, u ∈ us <->
            exists s, s ∈ blocks /\ cmap_get cmap (key s) = -1
                      /\ u = cmap_get cmap' (key s)) as Hspec.
  { intros u. rewrite Hus. split; intros (s & Hs & Hk & Hu); exists s;
      (split; [apply (lane_pixels_cover blocks cpu s Hc); exact Hs | auto]). }
  split; [exact Hspec|]. split; [rewrite Hout; apply capped_rows; exact Hc|].
  exact (lanes_st_in_range _ _ _ _ _ _ _ H).
Qed.

End TableFacts.

Lemma st_rematch_reads_table_witness :
  exists cmap' out us,
    Match.build_matches_st demo_tiles (Match.sum_avg_sq demo_tiles)
      (demo_source ++ demo_source) ∅ 2 = Some (cmap', out, us)
    /\ out = [0; 1; 0; 1]%Z /\ us = [0; 1]%Z
    /\ Match.build_matches_st demo_tiles (Match.sum_avg_sq demo_tiles)
         (demo_source ++ demo_source) cmap' 2 = Some (cmap', out, []).
Proof.
  eexists _, _, _. split; [reflexivity|]. split; [reflexivity|]. split; [reflexivity|].
  apply (st_rematch_reads_table demo_tiles (Match.sum_avg_sq demo_tiles)
           ltac:(discriminate) ltac:(reflexivity) ltac:(cbn; lia)
           (demo_source ++ demo_source) ∅ _ 2 _ [0; 1]%Z).
  reflexivity.
Defined.

Lemma st_reports_new_matches_witness :
  exists cmap' out us,
    Match.build_matches_st demo_tiles (Match.sum_avg_sq demo_tiles)
      (demo_source ++ demo_source) ∅ 2 = Some (cmap', out, us)
    /\ (forall u, u ∈ us <->
          exists s, s ∈ demo_source ++ demo_source
                    /\ Match.cmap_get ∅ (Match.key s) = (-1)%Z
                    /\ u = Match.cmap_get cmap' (Match.key s))
    /\ Match.capped (demo_source ++ demo_source) out
       = map (fun s => Match.cmap_get cmap' (Match.key s)) (demo_source ++ demo_source)
    /\ Forall (fun t => 0 <= t < Z.of_nat (length demo_tiles))%Z us.
Proof.
  eexists _, _, _. split; [reflexivity|].
  apply (st_reports_new_matches demo_tiles (Match.sum_avg_sq demo_tiles)
           ltac:(discriminate) ltac:(reflexivity) ltac:(cbn; lia)
           (demo_source ++ demo_source) ∅ _ 2).
  reflexivity.
Defined.

(* ================================================================== *)
(** ** More on the dithered matcher *)
(* ================================================================== *)

Section DitherRows.

Import Match.
Local Open Scope Z_scope.

Variable argpartition : list Z -> nat -> list nat.
Variable argsort : list Z -> list nat.
Hypothesis Hpart : argpartition_contract argpartition.
Hypothesis Hsort : argsort_contract argsort.

(** The candidates [top_k] picks are distinct indices of the array. *)
Lemma top_k_distinct (d : list Z) (K : nat) (row : list nat) :
  (K < length d)%nat ->
  top_k argpartition argsort d K = Some row ->
  NoDup row /\ Forall (fun t => t < length d)%nat row.
Proof.
  intros HK Hrow.
  destruct (top_k_spec argpartition argsort Hpart Hsort d K HK) as (row' & Hrow' & Hperm & _).
  rewrite Hrow in Hrow'. injection Hrow' as <-.
  destruct (Hpart d K HK) as [Hp _].
  assert (NoDup (argpartition d K)) as Hnd by (rewrite Hp; apply NoDup_seq).
  split.
  - rewrite Hperm. apply (sublist_NoDup _ _ Hnd), sublist_take.
  - apply Forall_forall. intros t Ht. rewrite Hperm in Ht.
    apply (perm_seq_bound _ _ _ Hp).
    apply elem_of_take in Ht as (i & Hi & _). apply list_elem_of_lookup. eauto.
Qed.

(** X6. The rows of the dithered matcher.  With more tiles than
    candidates, [build_matches_mt_2d] gives every source pixel a row of
    [K] tile indices that are pairwise distinct and ordered nearest
    first: along the row the squared distance to the pixel never
    decreases. *)
Theorem dithered_rows_sorted (avg blocks : list colour) (cpu K : nat) :
  Forall colour_ok avg -> Z.of_nat (length avg) <= 2 ^ 31 ->
  Forall colour_ok blocks -> cpu <> 0%nat ->
  K <> 0%nat -> (K < length avg)%nat ->
  exists rows,
    capped blocks <$> build_matches_mt_2d argpartition argsort avg (sum_avg_sq avg) blocks cpu K
    = Some rows
    /\ length rows = length blocks
    /\ forall i p row, blocks !! i = Some p -> rows !! i = Some row ->
         exists idxs : list nat,
           row = map Z.of_nat idxs /\ length idxs = K /\ NoDup idxs
           /\ Forall (fun t => t < length avg)%nat idxs
           /\ forall a b ta tb, (a <= b)%nat ->
                idxs !! a = Some ta -> idxs !! b = Some tb ->
                euclid p (avg !!! ta) <= euclid p (avg !!! tb).
Proof.
  intros Hok Hlen Hblocks Hcpu HK0 HK.
  assert (forall s, exists idxs,
            top_k argpartition argsort (distances avg (sum_avg_sq avg) s) K = Some idxs
            /\ length idxs = K) as Hfresh.
  { intros s. apply top_k_total; assumption. }
  rewrite (build_matches_mt_2d_fresh argpartition argsort avg (sum_avg_sq avg) K
             HK0 Hfresh blocks cpu Hcpu Hblocks).
  eexists. split; [reflexivity|]. split; [apply length_map|].
  intros i p row Hi Hrow. rewrite list_lookup_fmap, Hi in Hrow. injection Hrow as <-.
  destruct (Hfresh p) as (idxs & Hidxs & Hidxlen).
  assert (K < length (distances avg (sum_avg_sq avg) p))%nat as HKd.
  { rewrite length_distances. exact HK. }
  destruct (top_k_distinct _ K idxs HKd Hidxs) as [Hnd Hbound].
  rewrite length_distances in Hbound.
  exists idxs. split.
  { unfold fresh_row. rewrite Hidxs. simpl. unfold i32_row.
    apply map_ext_in. intros t Ht. apply i32_small.
    rewrite Forall_forall in Hbound.
    specialize (Hbound t ltac:(apply list_elem_of_In; exact Ht)). lia. }
  split; [exact Hidxlen|]. split; [exact Hnd|]. split; [exact Hbound|].
  intros a b ta tb Hab Ha Hb.
  destruct (top_k_spec argpartition argsort Hpart Hsort _ K HKd) as (row' & Hrow' & _ & Hsorted).
  rewrite Hidxs in Hrow'. injection Hrow' as <-.
  pose proof (Hsorted a b ta tb Hab Ha Hb) as Hle.
  rewrite Forall_forall in Hbound.
  rewrite !distances_lookup in Hle; [lia | exact Hok | | exact Hok |].
  - apply Hbound, list_elem_of_lookup. eauto.
  - apply Hbound, list_elem_of_lookup. eauto.
Qed.

(** X7. The dithered matcher needs more tiles than candidates: with
    [K] candidates asked for and no more than [K] tiles,
    [np.argpartition] refuses [kth = K], so on a source that is not
    empty [build_matches_mt_2d] raises on the first pixel. *)
Theorem dithered_needs_more_tiles (avg : list colour) (ssq : list Z)
    (blocks : list colour) (cpu K : nat) :
  blocks <> [] -> K <> 0%nat -> (length avg <= K)%nat ->
  build_matches_mt_2d argpartition argsort avg ssq blocks cpu K = None.
Proof.
  intros Hne HK0 HK. unfold build_matches_mt_2d.
  destruct (Nat.eqb_spec cpu 0) as [? | Hc]; [reflexivity|]. cbv zeta.
  pose proof (s_len_covers (length blocks) cpu Hc) as Hcov.
  remember (s_len (length blocks) cpu) as sl eqn:Hsl. clear Hsl.
  destruct cpu as [|c]; [contradiction|].
  rewrite <- cons_seq.
  destruct blocks as [|s1 rest]; [contradiction|].
  destruct sl as [|sl]; [simpl in Hcov; lia|].
  unfold subslice. simpl.
  assert (match_pixel_2d argpartition argsort avg ssq K ∅ s1 = None) as ->;
    [|reflexivity].
  unfold match_pixel_2d, cmap2_get. rewrite lookup_empty. simpl.
  destruct K as [|k]; [contradiction|]. simpl.
  unfold top_k, np_argpartition.
  destruct (Nat.ltb_spec (S k) (length (distances avg ssq s1))) as [Hlt | _];
    [|reflexivity].
  unfold distances in Hlt. rewrite length_zip_with in Hlt. lia.
Qed.

End DitherRows.

Lemma dithered_rows_sorted_witness :
  exists rows,
    Match.capped demo_source
      <$> Match.build_matches_mt_2d NumpyModel.argpartition_ties_first
            NumpyModel.argsort_ties_first demo_tiles (Match.sum_avg_sq demo_tiles)
            demo_source 2 2
    = Some rows
    /\ length rows = length demo_source
    /\ forall i p row, demo_source !! i = Some p -> rows !! i = Some row ->
         exists idxs : list nat,
           row = map Z.of_nat idxs /\ length idxs = 2%nat /\ NoDup idxs
           /\ Forall (fun t => t < length demo_tiles)%nat idxs
           /\ forall a b ta tb, (a <= b)%nat ->
                idxs !! a = Some ta -> idxs !! b = Some tb ->
                (Match.euclid p (demo_tiles !!! ta) <= Match.euclid p (demo_tiles !!! tb))%Z.
Proof.
  apply (dithered_rows_sorted NumpyModel.argpartition_ties_first NumpyModel.argsort_ties_first
           argpartition_ties_first_ok argsort_ties_first_ok demo_tiles demo_source 2 2).
  - repeat (constructor; [cbn; lia|]). constructor.
  - cbn. lia.
  - repeat (constructor; [cbn; lia|]). constructor.
  - discriminate.
  - discriminate.
  - cbn. lia.
Defined.

Lemma dithered_needs_more_tiles_witness :
  Match.build_matches_mt_2d NumpyModel.argpartition_ties_first NumpyModel.argsort_ties_first
    demo_tiles (Match.sum_avg_sq demo_tiles) demo_source 2 4 = None.
Proof.
  apply (dithered_needs_more_tiles NumpyModel.argpartition_ties_first
           NumpyModel.argsort_ties_first demo_tiles (Match.sum_avg_sq demo_tiles)
           demo_source 2 4).
  - discriminate.
  - discriminate.
  - cbn. lia.
Defined.

(* ================================================================== *)
(** ** More on the tile store: round trips and the order of eviction *)
(* ================================================================== *)

Section OrderFacts.

Import Store.
Context {V : Type}.
Implicit Types (d : list (nat * V)) (k : nat) (v : V).

Lemma od_set_absent k v d : od_get k d = None -> od_set k v d = d ++ [(k, v)].
Proof.
  induction d as [|[k' v'] d IH]; simpl; [reflexivity|].
  destruct (k =? k')%nat; [discriminate|]. intros H. rewrite IH by exact H. reflexivity.
Qed.

Lemma od_remove_absent k d : od_get k d = None -> od_remove k d = d.
Proof.
  induction d as [|[k' v'] d IH]; simpl; [reflexivity|].
  destruct (k =? k')%nat; [discriminate|]. intros H. rewrite IH by exact H. reflexivity.
Qed.

Lemma od_remove_app k d1 d2 : od_remove k (d1 ++ d2) = od_remove k d1 ++ od_remove k d2.
Proof.
  induction d1 as [|[k' v'] d1 IH]; simpl; [reflexivity|].
  destruct (k =? k')%nat; [exact IH | simpl; rewrite IH; reflexivity].
Qed.

Lemma od_keys_remove k d : od_keys (od_remove k d) = filter (fun k' => k' <> k) (od_keys d).
Proof.
  unfold od_keys. induction d as [|[k' v'] d IH]; simpl; [reflexivity|].
  rewrite filter_cons. destruct (Nat.eqb_spec k k') as [-> | Hne].
  - destruct (decide (k' <> k')) as [? | _]; [contradiction | exact IH].
  - destruct (decide (k' <> k)) as [_ | Hn]; [simpl; rewrite IH; reflexivity|].
    exfalso. apply Hn. congruence.
Qed.

Lemma od_keys_set k v d :
  od_keys (od_set k v d) = if od_mem k d then od_keys d else od_keys d ++ [k].
Proof.
  unfold od_keys, od_mem. induction d as [|[k' v'] d IH]; simpl; [reflexivity|].
  destruct (Nat.eqb_spec k k') as [-> | Hne]; simpl; [reflexivity|].
  rewrite IH. destruct (od_get k d); reflexivity.
Qed.

Lemma od_keys_move_to_end k d :
  od_keys (od_move_to_end k d)
  = if od_mem k d then filter (fun k' => k' <> k) (od_keys d) ++ [k] else od_keys d.
Proof.
  unfold od_move_to_end, od_mem. destruct (od_get k d) as [v|]; [|reflexivity].
  unfold od_keys at 1. rewrite map_app. fold (od_keys (od_remove k d)).
  rewrite od_keys_remove. reflexivity.
Qed.

Lemma NoDup_od_keys_remove k d : NoDup (od_keys d) -> NoDup (od_keys (od_remove k d)).
Proof. intros Hd. rewrite od_keys_remove. apply NoDup_filter, Hd. Qed.

Lemma NoDup_od_keys_move_to_end k d :
  NoDup (od_keys d) -> NoDup (od_keys (od_move_to_end k d)).
Proof.
  intros Hd. rewrite od_keys_move_to_end. destruct (od_mem k d); [|exact Hd].
  apply NoDup_app. split; [apply NoDup_filter, Hd|]. split.
  - intros x Hx Hin. apply list_elem_of_filter in Hx as [Hne _].
    apply list_elem_of_singleton in Hin. contradiction.
  - apply NoDup_singleton.
Qed.

Lemma NoDup_od_keys_set k v d : NoDup (od_keys d) -> NoDup (od_keys (od_set k v d)).
Proof.
  intros Hd. rewrite od_keys_set. destruct (od_mem k d) eqn:Hm; [exact Hd|].
  apply NoDup_app. split; [exact Hd|]. split; [|apply NoDup_singleton].
  intros x Hx Hin. apply list_elem_of_singleton in Hin. subst x.
  apply od_keys_get in Hx. apply od_mem_false in Hm. rewrite Hm in Hx.
  destruct Hx as [? Hx]. discriminate Hx.
Qed.

Lemma filter_ext_elem {A} (P Q : A -> Prop) `{!forall x, Decision (P x)}
    `{!forall x, Decision (Q x)} (l : list A) :
  (forall x, x ∈ l -> P x <-> Q x) -> filter P l = filter Q l.
Proof.
  induction l as [|x l IH]; intros Hext; [reflexivity|].
  rewrite !filter_cons.
  rewrite IH by (intros y Hy; apply Hext; right; exact Hy).
  destruct (decide (P x)) as [HP | HP], (decide (Q x)) as [HQ | HQ]; try reflexivity.
  - exfalso. apply HQ, (Hext x ltac:(left)), HP.
  - exfalso. apply HP, (Hext x ltac:(left)), HQ.
Qed.

Lemma filter_all {A} (P : A -> Prop) `{!forall x, Decision (P x)} (l : list A) :
  (forall x, x ∈ l -> P x) -> filter P l = l.
Proof.
  induction l as [|x l IH]; intros Hall; [reflexivity|].
  rewrite filter_cons. destruct (decide (P x)) as [_ | HP].
  - rewrite IH by (intros y Hy; apply Hall; right; exact Hy). reflexivity.
  - exfalso. apply HP, Hall. left.
Qed.

(** [refresh] on the keys: the keys of [idxs] that are present go to
    the end, in the order of [idxs]; the others keep their order. *)
Lemma od_keys_refresh (idxs : list nat) : forall d,
  NoDup (od_keys d) -> NoDup idxs ->
  od_keys (foldl (fun f idx => if od_mem idx f then od_move_to_end idx f else f) d idxs)
  = filter (fun k => k ∉ idxs) (od_keys d) ++ filter (fun k => k ∈ od_keys d) idxs.
Proof.
  induction idxs as [|i idxs IH]; intros d Hd Hi; simpl.
  - rewrite app_nil_r. symmetry. apply filter_all. intros x _. apply not_elem_of_nil.
  - apply NoDup_cons in Hi as [Hni Hi].
    assert (forall k, k ∈ od_keys (if od_mem i d then od_move_to_end i d else d)
                      <-> k ∈ od_keys d) as Hsame.
    { intros k. rewrite !od_keys_get.
      destruct (od_mem i d); [rewrite od_get_move_to_end|]; reflexivity. }
    rewrite IH; [| destruct (od_mem i d); [apply NoDup_od_keys_move_to_end|]; exact Hd
                 | exact Hi].
    rewrite (list_filter_iff
               (fun k => k ∈ od_keys (if od_mem i d then od_move_to_end i d else d))
               (fun k => k ∈ od_keys d) idxs Hsame).
    rewrite (filter_cons (fun k => k ∈ od_keys d) i idxs).
    destruct (od_mem i d) eqn:Hm.
    + assert (i ∈ od_keys d) as Hin by (apply od_keys_get, od_mem_true, Hm).
      destruct (decide (i ∈ od_keys d)) as [_ | ?]; [|contradiction].
      rewrite od_keys_move_to_end, Hm, filter_app.
      rewrite list_filter_filter.
      assert (filter (fun k => k ∉ idxs) [i] = [i]) as ->.
      { apply filter_all. intros x Hx. apply list_elem_of_singleton in Hx. subst x.
        exact Hni. }
      rewrite <- app_assoc. simpl. f_equal.
      apply list_filter_iff. intros k. rewrite not_elem_of_cons. tauto.
    + assert (i ∉ od_keys d) as Hnin.
      { intros Hin. apply od_keys_get, od_mem_true in Hin. congruence. }
      destruct (decide (i ∈ od_keys d)) as [? | _]; [contradiction|].
      f_equal. apply filter_ext_elem. intros k Hk. rewrite not_elem_of_cons.
      split; [intros H; split; [intros ->; contradiction | exact H] | tauto].
Qed.

End OrderFacts.

Section StoreRoundTrips.

Import Store.
Context {Frame : Type}.
Local Open Scope Z_scope.
Implicit Types (s : TileStore (Frame := Frame)) (d : gmap nat Frame).

(** What the frames of a put read as afterwards.  On the array the
    slots have to exist. *)
Lemma add_frames_getitem values : forall s m i,
  (forall arr, raw s = Fast arr -> (m + i + length values <= length arr)%nat) ->
  exists s',
    add_frames s m i values = Ret s' false
    /\ finished s' = finished s
    /\ (forall arr, raw s = Fast arr -> exists arr', raw s' = Fast arr'
                                                    /\ length arr' = length arr)
    /\ forall x, getitem s' x
                 = if decide (m + i <= x < m + i + length values)%nat
                   then values !! (x - (m + i))%nat else getitem s x.
Proof.
  induction values as [|frame rest IH]; intros s m i Hfit; simpl.
  - exists s. split; [reflexivity|]. split; [reflexivity|]. split; [eauto|].
    intros x. destruct (decide _) as [? | _]; [lia | reflexivity].
  - set (s1 := if is_smart s then set_ram_usage (ram_usage s + frame_bytes s) s else s).
    assert (raw s1 = raw s /\ finished s1 = finished s) as [Hraw1 Hfin1].
    { unfold s1. destruct (is_smart s); auto. }
    assert (forall x, getitem s1 x = getitem s x) as Hget1.
    { intros x. unfold getitem. rewrite Hraw1. reflexivity. }
    destruct (raw s1) as [arr | d] eqn:Hr.
    + symmetry in Hraw1.
      specialize (Hfit arr Hraw1). simpl in Hfit.
      destruct (decide (m + i < length arr)%nat) as [Hlt | ?]; [|lia].
      destruct (IH (set_raw (Fast (<[(m + i)%nat := frame]> arr)) s1) m (S i))
        as (s' & Hrun & Hfin & Hkind & Hget).
      { intros arr' [= <-]. rewrite length_insert. lia. }
      exists s'. split; [exact Hrun|]. split; [rewrite Hfin; exact Hfin1|].
      split.
      { intros arr0 Harr0. rewrite Hraw1 in Harr0. injection Harr0 as <-.
        destruct (Hkind _ eq_refl) as (arr' & Harr' & Hlen').
        exists arr'. split; [exact Harr'|]. rewrite Hlen', length_insert. reflexivity. }
      intros x. rewrite Hget. unfold getitem at 1. simpl.
      rewrite <- Hget1. unfold getitem. rewrite Hr.
      destruct (decide (x = m + i)%nat) as [-> | Hne].
      * rewrite list_lookup_insert_eq by exact Hlt.
        destruct (decide (m + S i <= m + i < m + S i + length rest)%nat) as [? | _]; [lia|].
        destruct (decide (m + i <= m + i < m + i + S (length rest))%nat) as [_ | ?]; [|lia].
        rewrite Nat.sub_diag. reflexivity.
      * rewrite list_lookup_insert_ne by congruence.
        destruct (decide (m + S i <= x < m + S i + length rest)%nat) as [Hin | Hout].
        -- destruct (decide (m + i <= x < m + i + S (length rest))%nat) as [_ | ?]; [|lia].
           replace (x - (m + i))%nat with (S (x - (m + S i))) by lia. reflexivity.
        -- destruct (decide (m + i <= x < m + i + S (length rest))%nat) as [? | _];
             [lia | reflexivity].
    + destruct (IH (set_raw (Smart (<[(m + i)%nat := frame]> d)) s1) m (S i))
        as (s' & Hrun & Hfin & Hkind & Hget).
      { intros arr' H. discriminate H. }
      exists s'. split; [exact Hrun|]. split; [rewrite Hfin; exact Hfin1|].
      split.
      { intros arr0 Harr0. rewrite <- Hraw1 in Harr0. discriminate Harr0. }
      intros x. rewrite Hget. unfold getitem at 1. simpl.
      rewrite <- Hget1. unfold getitem. rewrite Hr.
      destruct (decide (x = m + i)%nat) as [-> | Hne].
      * rewrite lookup_insert_eq.
        destruct (decide (m + S i <= m + i < m + S i + length rest)%nat) as [? | _]; [lia|].
        destruct (decide (m + i <= m + i < m + i + S (length rest))%nat) as [_ | ?]; [|lia].
        rewrite Nat.sub_diag. reflexivity.
      * rewrite lookup_insert_ne by congruence.
        destruct (decide (m + S i <= x < m + S i + length rest)%nat) as [Hin | Hout].
        -- destruct (decide (m + i <= x < m + i + S (length rest))%nat) as [_ | ?]; [|lia].
           replace (x - (m + i))%nat with (S (x - (m + S i))) by lia. reflexivity.
        -- destruct (decide (m + i <= x < m + i + S (length rest))%nat) as [? | _];
             [lia | reflexivity].
Qed.

(** X8. Put, then get.  A put of a tile that is not yet stored (on the
    array: into slots that exist) returns, records the tile as the most
    recently used one with its offset and frame count, makes
    [store[mapped_idx + i]] the [i]-th frame put, and leaves every
    other slot as it was. *)
Theorem put_then_get s (t m : nat) (vs : list Frame) :
  contains s t = false ->
  (forall arr, raw s = Fast arr -> (m + length vs <= length arr)%nat) ->
  exists s',
    add_tile s t m vs = Ret s' false
    /\ contains s' t = true
    /\ od_get t (finished s') = Some (m, length vs)
    /\ get_least_used s' = get_least_used s ++ [t]
    /\ (forall i frame, vs !! i = Some frame -> getitem s' (m + i) = Some frame)
    /\ (forall x, ~ (m <= x < m + length vs)%nat -> getitem s' x = getitem s x).
Proof.
  intros Hnew Hfit. unfold contains in Hnew. unfold add_tile. rewrite Hnew.
  apply od_mem_false in Hnew.
  set (fin := od_move_to_end t (od_set t (m, length vs) (finished s))).
  assert (fin = finished s ++ [(t, (m, length vs))]) as Hfin.
  { unfold fin. rewrite (od_set_absent _ _ _ Hnew).
    unfold od_move_to_end. rewrite od_get_app, Hnew. simpl. rewrite Nat.eqb_refl.
    rewrite od_remove_app, (od_remove_absent _ _ Hnew). simpl. rewrite Nat.eqb_refl.
    rewrite app_nil_r. reflexivity. }
  destruct (add_frames_getitem vs
              (set_finished fin (set_finished (od_set t (m, length vs) (finished s)) s)) m 0)
    as (s' & Hrun & Hfin' & _ & Hget).
  { intros arr Harr. simpl in Harr. specialize (Hfit arr Harr). lia. }
  simpl in Hfin'.
  exists s'. split; [exact Hrun|].
  assert (od_get t (finished s') = Some (m, length vs)) as Hrec.
  { rewrite Hfin', Hfin, od_get_app, Hnew. simpl. rewrite Nat.eqb_refl. reflexivity. }
  split; [unfold contains; apply od_mem_true; rewrite Hrec; eauto|].
  split; [exact Hrec|].
  split.
  { unfold get_least_used. rewrite Hfin', Hfin. unfold od_keys. rewrite map_app. reflexivity. }
  split.
  - intros i frame Hi. rewrite Hget. pose proof (lookup_lt_Some _ _ _ Hi).
    destruct (decide _) as [_ | ?]; [|lia].
    replace (m + i - (m + 0))%nat with i by lia. exact Hi.
  - intros x Hx. rewrite Hget. destruct (decide _) as [? | _]; [lia | reflexivity].
Qed.

(** On a dictionary a put is the frames inserted and the counter
    raised, nothing else. *)
Lemma add_frames_smart_exact values : forall s d m i,
  is_smart s = true -> raw s = Smart d ->
  exists d',
    add_frames s m i values
    = Ret (set_ram_usage (ram_usage s + Z.of_nat (length values) * frame_bytes s)
             (set_raw (Smart d') s)) false
    /\ forall x, d' !! x
                 = if decide (m + i <= x < m + i + length values)%nat
                   then values !! (x - (m + i))%nat else d !! x.
Proof.
  induction values as [|frame rest IH]; intros s d m i Hsm Hraw; simpl.
  - exists d. split.
    + destruct s as [fin0 ts0 len0 sm0 raw0 ram0]. simpl in *. subst.
      unfold set_ram_usage, set_raw. simpl. do 2 f_equal. lia.
    + intros x. destruct (decide _) as [? | _]; [lia | reflexivity].
  - rewrite Hsm. simpl. rewrite Hraw.
    destruct (IH (set_raw (Smart (<[(m + i)%nat := frame]> d))
                    (set_ram_usage (ram_usage s + frame_bytes s) s))
                (<[(m + i)%nat := frame]> d) m (S i) Hsm eq_refl) as (d' & Hrun & Hget).
    exists d'. split.
    + rewrite Hrun. f_equal. unfold set_ram_usage, set_raw, frame_bytes. simpl.
      f_equal. lia.
    + intros x. rewrite Hget.
      destruct (decide (x = m + i)%nat) as [-> | Hne].
      * rewrite lookup_insert_eq.
        destruct (decide (m + S i <= m + i < m + S i + length rest)%nat) as [? | _]; [lia|].
        destruct (decide (m + i <= m + i < m + i + S (length rest))%nat) as [_ | ?]; [|lia].
        rewrite Nat.sub_diag. reflexivity.
      * rewrite lookup_insert_ne by congruence.
        destruct (decide (m + S i <= x < m + S i + length rest)%nat) as [Hin | Hout].
        -- destruct (decide (m + i <= x < m + i + S (length rest))%nat) as [_ | ?]; [|lia].
           replace (x - (m + i))%nat with (S (x - (m + S i))) by lia. reflexivity.
        -- destruct (decide (m + i <= x < m + i + S (length rest))%nat) as [? | _];
             [lia | reflexivity].
Qed.

(** Freeing slots that are all held is the slots deleted, nothing
    else. *)
Lemma pop_frames_exact offsets : forall s d freed,
  raw s = Smart d -> NoDup offsets ->
  (forall x, x ∈ offsets -> is_Some (d !! x)) ->
  exists d',
    pop_frames s offsets freed
    = Ret (set_raw (Smart d') s) (freed + Z.of_nat (length offsets) * frame_bytes s)
    /\ forall x, d' !! x = if decide (x ∈ offsets) then None else d !! x.
Proof.
  induction offsets as [|o rest IH]; intros s d freed Hraw Hnd Hin; simpl.
  - exists d. split.
    + f_equal; [|lia]. destruct s; simpl in *. subst. reflexivity.
    + intros x. destruct (decide (x ∈ [])) as [Hx | _]; [|reflexivity].
      apply elem_of_nil in Hx. contradiction.
  - rewrite Hraw. apply NoDup_cons in Hnd as [Hno Hnd].
    destruct (Hin o ltac:(left)) as [f Hf]. rewrite Hf.
    destruct (IH (set_raw (Smart (delete o d)) s) (delete o d) (freed + frame_bytes s)
                eq_refl Hnd) as (d' & Hrun & Hget).
    { intros x Hx. rewrite lookup_delete_ne by (intros ->; contradiction).
      apply Hin. right. exact Hx. }
    exists d'. split.
    + rewrite Hrun. f_equal. unfold frame_bytes. simpl. lia.
    + intros x. rewrite Hget.
      destruct (decide (x = o)) as [-> | Hne].
      * rewrite lookup_delete_eq.
        destruct (decide (o ∈ rest)); destruct (decide (o ∈ o :: rest)) as [_ | Hn];
          try reflexivity; exfalso; apply Hn; left.
      * rewrite lookup_delete_ne by congruence.
        destruct (decide (x ∈ rest)) as [Hx | Hx];
          destruct (decide (x ∈ o :: rest)) as [Hx' | Hx']; try reflexivity.
        -- exfalso. apply Hx'. right. exact Hx.
        -- exfalso. apply elem_of_cons in Hx' as [? | ?]; contradiction.
Qed.

(** X9. Put, then evict.  On a sparse store, putting a tile that is not
    stored into slots that are free and then freeing that tile gives
    back the store as it was before the put (frames, LRU order and
    reported usage alike), and [free_tile] returns the bytes the put
    had added: [tile_size^2 * 3] per frame. *)
Theorem put_then_evict_restores s d (t m : nat) (vs : list Frame) :
  is_smart s = true -> raw s = Smart d ->
  contains s t = false ->
  (forall x, (m <= x < m + length vs)%nat -> d !! x = None) ->
  free_tile (state_of (add_tile s t m vs)) t
  = Ret s (Z.of_nat (length vs) * frame_bytes s).
Proof.
  intros Hsm Hraw Hmem Hfree. unfold contains in Hmem.
  pose proof (proj1 (od_mem_false _ _) Hmem) as Hnew.
  set (fin := od_move_to_end t (od_set t (m, length vs) (finished s))).
  assert (fin = finished s ++ [(t, (m, length vs))]) as Hfin.
  { unfold fin. rewrite (od_set_absent _ _ _ Hnew).
    unfold od_move_to_end. rewrite od_get_app, Hnew. simpl. rewrite Nat.eqb_refl.
    rewrite od_remove_app, (od_remove_absent _ _ Hnew). simpl. rewrite Nat.eqb_refl.
    rewrite app_nil_r. reflexivity. }
  assert (add_tile s t m vs
          = add_frames
              (set_finished fin (set_finished (od_set t (m, length vs) (finished s)) s))
              m 0 vs) as ->.
  { unfold add_tile. rewrite Hmem. reflexivity. }
  destruct (add_frames_smart_exact vs
              (set_finished fin (set_finished (od_set t (m, length vs) (finished s)) s))
              d m 0 Hsm Hraw) as (d1 & -> & Hget1).
  simpl. unfold free_tile. simpl. rewrite Hsm. simpl.
  rewrite Hfin, od_get_app, Hnew. simpl. rewrite Nat.eqb_refl.
  rewrite od_remove_app, (od_remove_absent _ _ Hnew). simpl. rewrite Nat.eqb_refl.
  rewrite app_nil_r.
  match goal with |- context [pop_frames ?s1 _ _] =>
    destruct (pop_frames_exact (seq m (length vs)) s1 d1 0 eq_refl (NoDup_seq _ _))
      as (d2 & Hpop & Hget2) end.
  { intros x Hx. apply elem_of_seq in Hx. rewrite Hget1.
    destruct (decide _) as [_ | ?]; [|lia].
    apply lookup_lt_is_Some_2. lia. }
  rewrite Hpop. simpl.
  assert (d2 = d) as ->.
  { apply map_eq. intros x. rewrite Hget2.
    destruct (decide (x ∈ seq m (length vs))) as [Hx | Hx].
    - apply elem_of_seq in Hx. symmetry. apply Hfree. lia.
    - rewrite Hget1. destruct (decide _) as [Hin | _]; [|reflexivity].
      exfalso. apply Hx, elem_of_seq. lia. }
  rewrite length_seq. unfold frame_bytes. simpl.
  replace (0 + Z.of_nat (length vs) * (Z.of_nat (tile_size s) * Z.of_nat (tile_size s) * 3))
    with (Z.of_nat (length vs) * (Z.of_nat (tile_size s) * Z.of_nat (tile_size s) * 3))
    by lia.
  f_equal.
  destruct s as [fin0 ts0 len0 sm0 raw0 ram0]. simpl in *. subst.
  unfold set_ram_usage, set_raw, set_finished. simpl. f_equal. lia.
Qed.

(** X10. The order of eviction.  On a sparse store whose LRU list names
    no tile twice, [refresh] with a set of tiles moves the ones that are
    stored to the end of the list, in the order the set is gone through,
    and keeps the other tiles in front in the order they had; no entry,
    frame or byte count changes.  A dense store is left as it is. *)
Theorem refresh_moves_to_end s (idxs : list nat) :
  NoDup (get_least_used s) -> NoDup idxs ->
  (is_smart s = true ->
     get_least_used (refresh s idxs)
     = filter (fun k => k ∉ idxs) (get_least_used s)
       ++ filter (fun k => k ∈ get_least_used s) idxs
     /\ (forall t, od_get t (finished (refresh s idxs)) = od_get t (finished s))
     /\ raw (refresh s idxs) = raw s
     /\ ram_usage (refresh s idxs) = ram_usage s)
  /\ (is_smart s = false -> refresh s idxs = s).
Proof.
  intros Hnd Hi. split; intros Hsm; unfold refresh; rewrite Hsm; simpl; [|reflexivity].
  split; [apply od_keys_refresh; assumption|].
  split; [intros t; apply od_get_refresh|]. split; reflexivity.
Qed.

Lemma pop_frames_finished offsets : forall s freed,
  finished (state_of (pop_frames s offsets freed)) = finished s.
Proof.
  induction offsets as [|o rest IH]; intros s freed; simpl; [reflexivity|].
  destruct (raw s) as [arr | d]; [reflexivity|].
  destruct (d !! o); [|reflexivity]. rewrite IH. reflexivity.
Qed.

Lemma step_keeps_NoDup s (c : call) :
  NoDup (get_least_used s) -> NoDup (get_least_used (step s c)).
Proof.
  unfold get_least_used. intros Hnd. destruct c as [t m vs | t | idxs]; simpl.
  - unfold add_tile. destruct (od_mem t (finished s)); [exact Hnd|].
    match goal with |- context [add_frames ?s2 m 0%nat vs] =>
      destruct (add_frames_static vs s2 m 0%nat) as (_ & _ & ->) end.
    simpl. apply NoDup_od_keys_move_to_end, NoDup_od_keys_set, Hnd.
  - unfold free_tile. destruct (negb (is_smart s)); [exact Hnd|].
    destruct (od_get t (finished s)) as [[m k]|]; [|exact Hnd].
    match goal with |- context [pop_frames ?s1 ?o ?f] =>
      pose proof (pop_frames_finished o s1 f) as Hfin;
      destruct (pop_frames s1 o f) as [s2 freed | s2 e] end;
      simpl in Hfin |- *; rewrite Hfin; apply NoDup_od_keys_remove, Hnd.
  - unfold refresh. destruct (negb (is_smart s)); [exact Hnd|]. simpl.
    clear -Hnd. revert Hnd. generalize (finished s) as f.
    induction idxs as [|i idxs IH]; intros f Hf; simpl; [exact Hf|].
    apply IH. destruct (od_mem i f); [apply NoDup_od_keys_move_to_end|]; exact Hf.
Qed.

(** The LRU list of a store names no tile twice, whatever puts,
    evictions and refreshes the store has gone through since it was
    built, calls that raised included. *)
Lemma lru_has_no_duplicates (zero_frame : Frame) (tile_size len : nat) (smart : bool)
    (calls : list call) :
  NoDup (get_least_used (run (new_store zero_frame tile_size len smart) calls)).
Proof.
  assert (forall s, NoDup (get_least_used s) -> NoDup (get_least_used (run s calls))) as Hrun.
  { induction calls as [|c calls IH]; intros s Hs; simpl; [exact Hs|].
    apply IH, step_keeps_NoDup, Hs. }
  apply Hrun. unfold new_store. destruct smart; apply NoDup_nil_2.
Qed.

End StoreRoundTrips.

Lemma put_then_get_witness :
  exists s',
    Store.add_tile (Store.new_store 0%nat 4 6 false) 1 2 [7; 8]%nat = Store.Ret s' false
    /\ Store.contains s' 1 = true
    /\ Store.od_get 1 (Store.finished s') = Some (2, 2)%nat
    /\ Store.get_least_used s' = [1]%nat
    /\ Store.getitem s' 2 = Some 7%nat /\ Store.getitem s' 3 = Some 8%nat
    /\ Store.getitem s' 4 = Some 0%nat.
Proof.
  destruct (put_then_get (Store.new_store 0%nat 4 6 false) 1 2 [7; 8]%nat)
    as (s' & Hrun & Hin & Hrec & Hlru & Hget & Hother).
  - reflexivity.
  - intros arr [= <-]. simpl. lia.
  - exists s'. split; [exact Hrun|]. split; [exact Hin|]. split; [exact Hrec|].
    split; [exact Hlru|].
    split; [exact (Hget 0%nat 7%nat eq_refl)|].
    split; [exact (Hget 1%nat 8%nat eq_refl)|].
    rewrite (Hother 4%nat) by (simpl; lia). reflexivity.
Defined.

Lemma put_then_evict_restores_witness :
  let s := Store.state_of (Store.add_tile (Store.new_store 0%nat 4 6 true) 0 0 [5]%nat) in
  Store.free_tile (Store.state_of (Store.add_tile s 1 2 [7; 8]%nat)) 1
  = Store.Ret s (2 * (4 * 4 * 3))%Z.
Proof.
  apply (put_then_evict_restores
           (Store.state_of (Store.add_tile (Store.new_store 0%nat 4 6 true) 0 0 [5]%nat))
           {[ 0%nat := 5%nat ]} 1 2 [7; 8]%nat).
  - reflexivity.
  - reflexivity.
  - reflexivity.
  - intros x Hx. simpl in Hx. apply lookup_singleton_ne. lia.
Defined.

Lemma refresh_moves_to_end_witness :
  let s := Store.run (Store.new_store 0%nat 4 6 true)
             [Store.Put 0 0 [5]; Store.Put 1 2 [7]; Store.Put 2 4 [9]]%nat in
  Store.get_least_used s = [0; 1; 2]%nat
  /\ Store.get_least_used (Store.refresh s [1; 7; 0]%nat) = [2; 1; 0]%nat.
Proof.
  intros s. split; [reflexivity|].
  destruct (refresh_moves_to_end s [1; 7; 0]%nat) as [Hsmart _].
  - apply (bool_decide_unpack _). vm_compute. exact I.
  - apply (bool_decide_unpack _). vm_compute. exact I.
  - destruct (Hsmart eq_refl) as [-> _]. vm_compute. reflexivity.
Defined.

(* ================================================================== *)
(** ** More on the streaming manager: the probe and the work list *)
(* ================================================================== *)

Section ProbeFacts.

Import Store Stream.
Context {Frame : Type}.
Implicit Types (sm : Manager (Frame := Frame)).

(** The loop of the probe: the size it returns is the first of
    [size], [2*size], [4*size], ... up to the resolution limit whose
    store holds the tile; it returns [False] when none does. *)
Lemma probe_up_spec sm t fuel : forall size,
  match probe_up sm t fuel size with
  | Found size' =>
      store_contains sm size' t = Some true /\ (size' <= res_limit sm)%nat
      /\ exists k, size' = (size * 2 ^ k)%nat
                   /\ forall j, (j < k)%nat ->
                        store_contains sm (size * 2 ^ j)%nat t = Some false
  | Missing =>
      forall j, (size * 2 ^ j <= res_limit sm)%nat ->
                store_contains sm (size * 2 ^ j)%nat t = Some false
  | NoStore | OutOfFuel => True
  end.
Proof.
  induction fuel as [|fuel IH]; intros size; simpl.
  - destruct (decide (size <= res_limit sm)%nat) as [Hle | Hgt]; [exact I|].
    intros j Hj. pose proof (Nat.pow_nonzero 2 j). nia.
  - destruct (decide (size <= res_limit sm)%nat) as [Hle | Hgt].
    + destruct (store_contains sm size t) as [[|]|] eqn:Hc; [| |exact I].
      * split; [exact Hc|]. split; [exact Hle|]. exists 0%nat.
        split; [simpl; lia | intros j Hj; lia].
      * specialize (IH (size * 2)%nat).
        destruct (probe_up sm t fuel (size * 2)) as [size'| | |]; [| |exact I..].
        -- destruct IH as (Hc' & Hle' & k & -> & Hbelow).
           split; [exact Hc'|]. split; [exact Hle'|]. exists (S k).
           split; [rewrite Nat.pow_succ_r'; lia|].
           intros [|j] Hj.
           ++ rewrite Nat.pow_0_r, Nat.mul_1_r. exact Hc.
           ++ specialize (Hbelow j ltac:(lia)).
              rewrite Nat.pow_succ_r'.
              replace (size * (2 * 2 ^ j))%nat with (size * 2 * 2 ^ j)%nat by lia.
              exact Hbelow.
        -- intros [|j] Hj.
           ++ rewrite Nat.pow_0_r, Nat.mul_1_r. exact Hc.
           ++ rewrite Nat.pow_succ_r' in Hj |- *.
              replace (size * (2 * 2 ^ j))%nat with (size * 2 * 2 ^ j)%nat in Hj |- * by lia.
              apply IH, Hj.
    + intros j Hj. pose proof (Nat.pow_nonzero 2 j). nia.
Qed.

(** X11. What [_find_supersized_tile] answers.  A size it returns names
    a store that holds the tile; the size is above [start_size], except
    that the resolution limit itself is returned when [start_size] is
    at or above it.  When it returns [False], the tile is in none of
    the stores it looks at: the one of the resolution limit (when
    [start_size] is at or above it), the one of the fast limit (when
    [start_size] is below it), and those of the sizes
    [max(fast_limit, start_size) * 2, * 4, ...] up to the resolution
    limit.  The loop always ends. *)
Theorem supersized_probe_spec sm (t start : nat) :
  (1 <= fast_limit sm)%nat ->
  match find_supersized_tile sm t start with
  | Found size =>
      store_contains sm size t = Some true
      /\ ((start < size)%nat \/ (size = res_limit sm /\ res_limit sm <= start)%nat)
  | Missing =>
      ((res_limit sm <= start)%nat -> store_contains sm (res_limit sm) t = Some false)
      /\ ((start < fast_limit sm)%nat -> store_contains sm (fast_limit sm) t = Some false)
      /\ forall j, (Nat.max (fast_limit sm) start * 2 ^ S j <= res_limit sm)%nat ->
           store_contains sm (Nat.max (fast_limit sm) start * 2 ^ S j)%nat t = Some false
  | NoStore => True
  | OutOfFuel => False
  end.
Proof.
  intros Hfast.
  pose proof (find_supersized_tile_fuel sm t start ltac:(lia)) as Hfuel.
  unfold find_supersized_tile in *.
  destruct (decide (res_limit sm <= start)%nat) as [Hres | Hres].
  - destruct (store_contains sm (res_limit sm) t) as [[|]|] eqn:Hc1; [| |exact I].
    + split; [exact Hc1 | right; auto].
    + destruct (decide (start < fast_limit sm)%nat) as [Hlt | Hlt].
      * destruct (store_contains sm (fast_limit sm) t) as [[|]|] eqn:Hc2; [| |exact I].
        -- split; [exact Hc2 | left; exact Hlt].
        -- pose proof (probe_up_spec sm t (S (res_limit sm))
                         (Nat.max (fast_limit sm) start * 2)) as Hp.
           destruct (probe_up sm t (S (res_limit sm)) (Nat.max (fast_limit sm) start * 2))
             as [size| | |]; [| |exact I|contradiction].
           ++ destruct Hp as (Hc & _ & k & -> & _). split; [exact Hc|]. left.
              pose proof (Nat.pow_nonzero 2 k). nia.
           ++ split; [auto|]. split; [auto|]. intros j Hj.
              rewrite Nat.pow_succ_r' in Hj |- *.
              replace (Nat.max (fast_limit sm) start * (2 * 2 ^ j))%nat
                with (Nat.max (fast_limit sm) start * 2 * 2 ^ j)%nat in Hj |- * by lia.
              apply Hp, Hj.
      * pose proof (probe_up_spec sm t (S (res_limit sm))
                      (Nat.max (fast_limit sm) start * 2)) as Hp.
        destruct (probe_up sm t (S (res_limit sm)) (Nat.max (fast_limit sm) start * 2))
          as [size| | |]; [| |exact I|contradiction].
        -- destruct Hp as (Hc & _ & k & -> & _). split; [exact Hc|]. left.
           pose proof (Nat.pow_nonzero 2 k). nia.
        -- split; [auto|]. split; [intros ?; lia|]. intros j Hj.
           rewrite Nat.pow_succ_r' in Hj |- *.
           replace (Nat.max (fast_limit sm) start * (2 * 2 ^ j))%nat
             with (Nat.max (fast_limit sm) start * 2 * 2 ^ j)%nat in Hj |- * by lia.
           apply Hp, Hj.
  - destruct (decide (start < fast_limit sm)%nat) as [Hlt | Hlt].
    + destruct (store_contains sm (fast_limit sm) t) as [[|]|] eqn:Hc2; [| |exact I].
      * split; [exact Hc2 | left; exact Hlt].
      * pose proof (probe_up_spec sm t (S (res_limit sm))
                      (Nat.max (fast_limit sm) start * 2)) as Hp.
        destruct (probe_up sm t (S (res_limit sm)) (Nat.max (fast_limit sm) start * 2))
          as [size| | |]; [| |exact I|contradiction].
        -- destruct Hp as (Hc & _ & k & -> & _). split; [exact Hc|]. left.
           pose proof (Nat.pow_nonzero 2 k). nia.
        -- split; [intros ?; lia|]. split; [auto|]. intros j Hj.
           rewrite Nat.pow_succ_r' in Hj |- *.
           replace (Nat.max (fast_limit sm) start * (2 * 2 ^ j))%nat
             with (Nat.max (fast_limit sm) start * 2 * 2 ^ j)%nat in Hj |- * by lia.
           apply Hp, Hj.
    + pose proof (probe_up_spec sm t (S (res_limit sm))
                    (Nat.max (fast_limit sm) start * 2)) as Hp.
      destruct (probe_up sm t (S (res_limit sm)) (Nat.max (fast_limit sm) start * 2))
        as [size| | |]; [| |exact I|contradiction].
      * destruct Hp as (Hc & _ & k & -> & _). split; [exact Hc|]. left.
        pose proof (Nat.pow_nonzero 2 k). nia.
      * split; [intros ?; lia|]. split; [intros ?; lia|]. intros j Hj.
        rewrite Nat.pow_succ_r' in Hj |- *.
        replace (Nat.max (fast_limit sm) start * (2 * 2 ^ j))%nat
          with (Nat.max (fast_limit sm) start * 2 * 2 ^ j)%nat in Hj |- * by lia.
        apply Hp, Hj.
Qed.

End ProbeFacts.

Lemma supersized_probe_spec_witness :
  Stream.store_contains top_tier_manager 8 0 = Some true
  /\ ((8 < 8)%nat
      \/ (8%nat = Stream.res_limit top_tier_manager
          /\ (Stream.res_limit top_tier_manager <= 8)%nat)).
Proof.
  pose proof (supersized_probe_spec top_tier_manager 0 8) as Hspec.
  assert (Stream.find_supersized_tile top_tier_manager 0 8 = Stream.Found 8) as Hfind
    by (vm_compute; reflexivity).
  rewrite Hfind in Hspec. apply Hspec. vm_compute. lia.
Defined.

Section WorkListFacts.

Import Store Stream.
Context {Frame : Type}.
Variable env : Env.
Implicit Types (sm : Manager (Frame := Frame)) (n : needs).
Local Open Scope Z_scope.

(** A tile of the given kind of which no larger copy is found. *)
Definition to_decode sm (ts : nat) (kind : source_type) (t : nat) : Prop :=
  exists tile, tiles env !! t = Some tile /\ t_source_type tile = kind
               /\ probe_truth (find_supersized_tile sm t ts) = Some false.

Lemma classify_spec sm ts pf todo : forall n n',
  classify env sm ts pf todo n = Some n' ->
  base_idxs n' = base_idxs n
  /\ (forall t, t ∈ pic_idxs n' <-> t ∈ pic_idxs n \/ (t ∈ todo /\ to_decode sm ts Pic t))
  /\ (forall t, t ∈ vid_idxs n' <-> t ∈ vid_idxs n \/ (t ∈ todo /\ to_decode sm ts Vid t))
  /\ (forall t, t ∈ cached_idxs n' <->
                t ∈ cached_idxs n \/ (t ∈ todo /\ (ts < res_limit sm)%nat)).
Proof.
  induction todo as [|t0 todo IH]; intros n n'; simpl.
  - intros [= <-]. split; [reflexivity|].
    split; [|split]; intros t; (split; [auto | intros [? | [Hin _]]; [assumption|]]);
      apply elem_of_nil in Hin; contradiction.
  - destruct (tiles env !! t0) as [tile|] eqn:Htile; simpl; [|discriminate].
    destruct (probe_truth (find_supersized_tile sm t0 ts)) as [found|] eqn:Hfound; simpl;
      [|discriminate].
    intros Hrest. apply IH in Hrest as (Hbase & Hpic & Hvid & Hcached).
    assert (forall kind, to_decode sm ts kind t0
                         <-> found = false /\ t_source_type tile = kind) as Hdec.
    { intros kind. unfold to_decode. rewrite Htile, Hfound. split.
      - intros (tile' & [= <-] & Hk & [= Hf]). auto.
      - intros [-> Hk]. exists tile. auto. }
    split.
    { rewrite Hbase.
      destruct found, (t_source_type tile), (decide (fast_limit sm < pf)%nat),
        (decide (ts < res_limit sm)%nat); reflexivity. }
    split; [|split]; intros t.
    + rewrite Hpic, elem_of_cons.
      assert (t ∈ pic_idxs
                (if decide (ts < res_limit sm)%nat then _ else _)
              <-> t ∈ pic_idxs n \/ (t = t0 /\ found = false /\ t_source_type tile = Pic))
        as ->.
      { destruct found, (t_source_type tile), (decide (fast_limit sm < pf)%nat),
          (decide (ts < res_limit sm)%nat); simpl; rewrite ?elem_of_app,
          ?list_elem_of_singleton; intuition congruence. }
      specialize (Hdec Pic).
      destruct (decide (t = t0)) as [-> | Hne]; [|tauto].
      assert (t0 = t0) as Hrefl by reflexivity. tauto.
    + rewrite Hvid, elem_of_cons.
      assert (t ∈ vid_idxs
                (if decide (ts < res_limit sm)%nat then _ else _)
              <-> t ∈ vid_idxs n \/ (t = t0 /\ found = false /\ t_source_type tile = Vid))
        as ->.
      { destruct found, (t_source_type tile), (decide (fast_limit sm < pf)%nat),
          (decide (ts < res_limit sm)%nat); simpl; rewrite ?elem_of_app,
          ?list_elem_of_singleton; intuition congruence. }
      specialize (Hdec Vid).
      destruct (decide (t = t0)) as [-> | Hne]; [|tauto].
      assert (t0 = t0) as Hrefl by reflexivity. tauto.
    + rewrite Hcached, elem_of_cons.
      assert (t ∈ cached_idxs
                (if decide (ts < res_limit sm)%nat then _ else _)
              <-> t ∈ cached_idxs n \/ (t = t0 /\ (ts < res_limit sm)%nat)) as ->.
      { destruct found, (t_source_type tile), (decide (fast_limit sm < pf)%nat),
          (decide (ts < res_limit sm)%nat); simpl; rewrite ?elem_of_app,
          ?list_elem_of_singleton; intuition lia. }
      tauto.
Qed.

(** The base tiles of a request. *)
Definition is_base (ts : nat) (t : nat) : Prop :=
  (ts <= BASE_TILE_RES env)%nat
  /\ (max_tile_len env = 1 \/ exists tile, tiles env !! t = Some tile /\ t_len tile = 1).

Lemma classic_base (ts t : nat) : is_base ts t \/ ~ is_base ts t.
Proof.
  unfold is_base.
  destruct (decide (ts <= BASE_TILE_RES env)%nat) as [Hts | Hts]; [|right; tauto].
  destruct (Z.eq_dec (max_tile_len env) 1) as [Hone | Hmany]; [left; auto|].
  destruct (tiles env !! t) as [tile|] eqn:Htile.
  - destruct (Z.eq_dec (t_len tile) 1) as [Hlen | Hlen].
    + left. split; [exact Hts|]. right. eauto.
    + right. intros [_ [? | (tile' & [= <-] & ?)]]; contradiction.
  - right. intros [_ [? | (tile' & ? & ?)]]; [contradiction | discriminate].
Qed.

Lemma zip_flags_spec (blanks : list nat) (flags : list bool) (f : nat -> option bool) :
  Forall2 (fun t b => f t = Some b) blanks flags ->
  forall t, t ∈ map fst (filter (fun b => snd b = true) (zip blanks flags))
            <-> t ∈ blanks /\ f t = Some true.
Proof.
  induction 1 as [|t0 b0 blanks flags H0 _ IH]; intros t; simpl.
  - split; [intros H | intros [H _]]; apply elem_of_nil in H; contradiction.
  - rewrite filter_cons. simpl. destruct (decide (b0 = true)) as [-> | Hb]; simpl.
    + rewrite !elem_of_cons, IH. split.
      * intros [-> | [? ?]]; auto.
      * intros [[-> | ?] ?]; auto.
    + rewrite IH, elem_of_cons. split.
      * intros [? ?]; auto.
      * intros [[-> | ?] Hf]; [|auto]. rewrite H0 in Hf. congruence.
Qed.

(** The four lists of [_stream_thread], tile by tile. *)
Lemma compute_needs_lists sm (ts : nat) (blanks : list nat) (n : needs) :
  compute_needs env sm ts blanks = Some n ->
  (forall t, t ∈ base_idxs n <-> t ∈ blanks /\ is_base ts t)
  /\ (forall t, t ∈ pic_idxs n <->
                t ∈ blanks /\ ~ is_base ts t /\ to_decode sm ts Pic t)
  /\ (forall t, t ∈ vid_idxs n <->
                t ∈ blanks /\ ~ is_base ts t /\ to_decode sm ts Vid t)
  /\ (forall t, t ∈ cached_idxs n <->
                t ∈ blanks /\ ~ is_base ts t /\ (ts < res_limit sm)%nat).
Proof.
  unfold compute_needs. intros Hn.
  destruct (if decide (ts <= BASE_TILE_RES env)%nat then _ else _) as [base|] eqn:Hbase;
    simpl in Hn; [|discriminate].
  assert (forall t, t ∈ base <-> t ∈ blanks /\ is_base ts t) as Hb.
  { intros t. unfold is_base.
    destruct (decide (ts <= BASE_TILE_RES env)%nat) as [Hts | Hts].
    - destruct (Z.eqb_spec (max_tile_len env) 1) as [Hone | Hmany].
      + injection Hbase as <-. tauto.
      + destruct (mapM _ blanks) as [flags|] eqn:Hflags; simpl in Hbase; [|discriminate].
        injection Hbase as <-. apply mapM_Some in Hflags.
        rewrite (zip_flags_spec blanks flags _ Hflags t). split.
        * intros [Hin Hf]. split; [exact Hin|]. split; [exact Hts|]. right.
          destruct (tiles env !! t) as [tile|]; [|discriminate]. simpl in Hf.
          injection Hf as Hf. exists tile. split; [reflexivity|]. lia.
        * intros [Hin [_ [? | (tile & Htile & Hlen)]]]; [contradiction|].
          split; [exact Hin|]. rewrite Htile. simpl. f_equal. lia.
    - injection Hbase as <-. split.
      + intros H. apply elem_of_nil in H. contradiction.
      + intros [_ [? _]]. contradiction. }
  apply classify_spec in Hn as (Hbase' & Hpic & Hvid & Hcached). simpl in *.
  assert (forall t, t ∈ filter (fun t => t ∉ base) blanks
                    <-> t ∈ blanks /\ ~ is_base ts t) as Htodo.
  { intros t. rewrite list_elem_of_filter, Hb. tauto. }
  split; [intros t; rewrite Hbase'; apply Hb|].
  split; [|split]; intros t.
  - rewrite Hpic, Htodo. split.
    + intros [H | ?]; [apply elem_of_nil in H; contradiction | tauto].
    + tauto.
  - rewrite Hvid, Htodo. split.
    + intros [H | ?]; [apply elem_of_nil in H; contradiction | tauto].
    + tauto.
  - rewrite Hcached, Htodo. split.
    + intros [H | ?]; [apply elem_of_nil in H; contradiction | tauto].
    + tauto.
Qed.

(** X12. The work list of a streaming job.  Of the tiles that are
    missing at the requested size, the base tiles are those of length 1
    (all of them when tiles are capped at length 1), provided the size
    is at most [BASE_TILE_RES]; of the others, the picture and video
    tiles to decode are those of which no larger copy is found, and the
    tiles to downscale from cache are all of them when the size is
    below the resolution limit, none otherwise.  No tile is a base tile
    and something else. *)
Theorem work_list_spec sm (ts : nat) (blanks : list nat) (n : needs) :
  compute_needs env sm ts blanks = Some n ->
  (forall t, t ∈ base_idxs n <-> t ∈ blanks /\ is_base ts t)
  /\ (forall t, t ∈ pic_idxs n <->
                t ∈ blanks /\ ~ is_base ts t /\ to_decode sm ts Pic t)
  /\ (forall t, t ∈ vid_idxs n <->
                t ∈ blanks /\ ~ is_base ts t /\ to_decode sm ts Vid t)
  /\ (forall t, t ∈ cached_idxs n <->
                t ∈ blanks /\ ~ is_base ts t /\ (ts < res_limit sm)%nat).
Proof. apply compute_needs_lists. Qed.

End WorkListFacts.

Lemma work_list_spec_witness :
  exists n,
    Stream.compute_needs evict_env evict_manager 4 [0] = Some n
    /\ (forall t, t ∈ Stream.base_idxs n <-> t ∈ [0] /\ is_base evict_env 4 t)
    /\ (forall t, t ∈ Stream.pic_idxs n <->
                  t ∈ [0] /\ ~ is_base evict_env 4 t
                  /\ to_decode evict_env evict_manager 4 Stream.Pic t)
    /\ (forall t, t ∈ Stream.vid_idxs n <->
                  t ∈ [0] /\ ~ is_base evict_env 4 t
                  /\ to_decode evict_env evict_manager 4 Stream.Vid t)
    /\ (forall t, t ∈ Stream.cached_idxs n <->
                  t ∈ [0] /\ ~ is_base evict_env 4 t
                  /\ (4 < Stream.res_limit evict_manager)%nat).
Proof.
  eexists. split; [vm_compute; reflexivity|].
  apply (work_list_spec evict_env evict_manager 4 [0]). vm_compute. reflexivity.
Defined.

Section JobFacts.

Import Store Stream.
Context {Frame : Type}.
Variable env : Env.
Implicit Types (sm : Manager (Frame := Frame)) (n : needs).
Local Open Scope Z_scope.

(** The tiles a task loads. *)
Definition names (tk : task) (t : nat) : Prop :=
  match tk with
  | BaseTile t' _ | PicTile t' _ | CachedTile t' _ => t' = t
  | VidTiles _ tile_idxs _ => t ∈ tile_idxs
  end.

(** A classification that returns has looked up every tile and probed
    for it. *)
Lemma classify_total sm ts pf todo : forall n n',
  classify env sm ts pf todo n = Some n' ->
  forall t, t ∈ todo ->
    exists tile found, tiles env !! t = Some tile
                       /\ probe_truth (find_supersized_tile sm t ts) = Some found.
Proof.
  induction todo as [|t0 todo IH]; intros n n' Hc t Ht; simpl in Hc.
  - apply elem_of_nil in Ht. contradiction.
  - destruct (tiles env !! t0) as [tile|] eqn:Htile; simpl in Hc; [|discriminate].
    destruct (probe_truth (find_supersized_tile sm t0 ts)) as [found|] eqn:Hfound;
      simpl in Hc; [|discriminate].
    apply elem_of_cons in Ht as [-> | Ht]; [eauto|].
    exact (IH _ _ Hc t Ht).
Qed.

Lemma find_supersized_tile_found sm t start size :
  (fast_limit sm <= res_limit sm)%nat ->
  find_supersized_tile sm t start = Found size ->
  store_contains sm size t = Some true /\ (size <= res_limit sm)%nat.
Proof.
  intros Hfl. unfold find_supersized_tile.
  destruct (if decide (res_limit sm <= start)%nat then _ else _) as [[|]|] eqn:H1;
    try discriminate.
  - intros [= <-]. destruct (decide (res_limit sm <= start)%nat); [|discriminate].
    split; [exact H1 | lia].
  - destruct (if decide (start < fast_limit sm)%nat then _ else _) as [[|]|] eqn:H2;
      try discriminate.
    + intros [= <-]. destruct (decide (start < fast_limit sm)%nat); [|discriminate].
      split; [exact H2 | exact Hfl].
    + intros Hp. pose proof (probe_up_spec sm t (S (res_limit sm))
                               (Nat.max (fast_limit sm) start * 2)) as Hs.
      rewrite Hp in Hs. destruct Hs as (Hc & Hle & _). auto.
Qed.

(** Adding a tile to the group of its file. *)
Lemma group_add_covers (p t0 : nat) (acc : list (nat * list nat)) (t : nat) :
  (exists q l, (q, l) ∈ od_set p (default [] (od_get p acc) ++ [t0]) acc /\ t ∈ l)
  <-> (exists q l, (q, l) ∈ acc /\ t ∈ l) \/ t = t0.
Proof.
  induction acc as [|[q0 l0] acc IH]; simpl.
  - split.
    + intros (q & l & Hin & Ht). apply list_elem_of_singleton in Hin. injection Hin as -> ->.
      apply list_elem_of_singleton in Ht. auto.
    + intros [(q & l & Hin & _) | ->]; [apply elem_of_nil in Hin; contradiction|].
      exists p, [t0]. split; left.
  - destruct (Nat.eqb_spec p q0) as [-> | Hne]; simpl.
    + split.
      * intros (q & l & Hin & Ht). apply elem_of_cons in Hin as [[= -> ->] | Hin].
        -- apply elem_of_app in Ht as [Ht | Ht].
           ++ left. exists q0, l0. split; [left | exact Ht].
           ++ apply list_elem_of_singleton in Ht. auto.
        -- left. exists q, l. split; [right; exact Hin | exact Ht].
      * intros [(q & l & Hin & Ht) | ->].
        -- apply elem_of_cons in Hin as [[= -> ->] | Hin].
           ++ exists q0, (l0 ++ [t0]). split; [left | apply elem_of_app; auto].
           ++ exists q, l. split; [right; exact Hin | exact Ht].
        -- exists q0, (l0 ++ [t0]). split; [left|]. apply elem_of_app. right. left.
    + split.
      * intros (q & l & Hin & Ht). apply elem_of_cons in Hin as [[= -> ->] | Hin].
        -- left. exists q0, l0. split; [left | exact Ht].
        -- destruct (proj1 IH (ex_intro _ q (ex_intro _ l (conj Hin Ht))))
             as [(q' & l' & Hin' & Ht') | ->]; [|auto].
           left. exists q', l'. split; [right; exact Hin' | exact Ht'].
      * intros [(q & l & Hin & Ht) | ->].
        -- apply elem_of_cons in Hin as [[= -> ->] | Hin].
           ++ exists q0, l0. split; [left | exact Ht].
           ++ destruct (proj2 IH (or_introl (ex_intro _ q (ex_intro _ l (conj Hin Ht)))))
                as (q' & l' & Hin' & Ht').
              exists q', l'. split; [right; exact Hin' | exact Ht'].
        -- destruct (proj2 IH (or_intror eq_refl)) as (q' & l' & Hin' & Ht').
           exists q', l'. split; [right; exact Hin' | exact Ht'].
Qed.

(** The groups hold the video tiles, all of them and nothing else. *)
Lemma group_by_path_covers idxs : forall acc vids,
  group_by_path env idxs acc = Some vids ->
  forall t, (exists q l, (q, l) ∈ vids /\ t ∈ l)
            <-> (exists q l, (q, l) ∈ acc /\ t ∈ l) \/ t ∈ idxs.
Proof.
  induction idxs as [|t0 idxs IH]; intros acc vids Hg t; simpl in Hg.
  - injection Hg as <-. split; [auto|].
    intros [? | Hin]; [assumption | apply elem_of_nil in Hin; contradiction].
  - destruct (tiles env !! t0) as [tile|]; simpl in Hg; [|discriminate].
    rewrite (IH _ _ Hg t), group_add_covers, elem_of_cons. tauto.
Qed.

(** X13. A streaming job loads what is missing and only that.  When
    [_stream_thread] gets as far as dispatching, a tile is named by one
    of the dispatched tasks (a base, picture, video or cached-tile
    task) exactly when it is requested and not yet stored at the
    requested size: no missing tile is left out, and no stored tile is
    loaded again. *)
Theorem job_loads_the_blanks sm (onscreen : list nat) (ts : nat) sm' (j : job) :
  stop_streaming_flag sm = false -> never_stream_flag sm = false ->
  (1 <= fast_limit sm <= res_limit sm)%nat -> (ts <= res_limit sm)%nat ->
  stream_thread env sm onscreen ts = Ret sm' j ->
  forall t, (exists tk, tk ∈ dispatched j /\ names tk t) <-> t ∈ blanks_of sm onscreen ts.
Proof.
  intros Hstop Hnever Hlim Hts. unfold stream_thread, blanks_of.
  rewrite Hstop, Hnever. simpl.
  destruct (od_get ts (tile_stores sm)) as [store|] eqn:Hstore; [|discriminate].
  set (blanks := filter (fun t => t ∉ od_keys (finished store)) onscreen).
  destruct blanks as [|b0 rest] eqn:Hblanks.
  { intros [= _ <-] t. simpl. split.
    - intros (tk & Hin & _). apply elem_of_nil in Hin. contradiction.
    - intros Hin. apply elem_of_nil in Hin. contradiction. }
  rewrite <- Hblanks. clear Hblanks b0 rest.
  destruct (compute_needs env sm ts blanks) as [n|] eqn:Hn; [|discriminate].
  destruct (free_ram sm onscreen (cached_idxs n) (needed_ram n) ts) as [st stage | st e];
    [|discriminate].
  destruct (group_by_path env (vid_idxs n) []) as [vids|] eqn:Hg; [|discriminate].
  intros [= _ <-] t. simpl.
  destruct (compute_needs_lists env sm ts blanks n Hn) as (Hbase & Hpic & Hvid & Hcached).
  assert ((exists q l, (q, l) ∈ vids /\ t ∈ l) <-> t ∈ vid_idxs n) as Hgroups.
  { rewrite (group_by_path_covers _ _ _ Hg t). split; [|auto].
    intros [(q & l & Hin & _) | ?]; [apply elem_of_nil in Hin; contradiction | assumption]. }
  assert ((exists tk,
             tk ∈ map (fun t => BaseTile t ts) (base_idxs n)
                  ++ map (fun t => PicTile t (prefetch_size_of env sm ts)) (pic_idxs n)
                  ++ map (fun v => VidTiles (fst v) (snd v) (prefetch_size_of env sm ts)) vids
                  ++ map (fun t => CachedTile t ts) (cached_idxs n)
             /\ names tk t)
          <-> t ∈ base_idxs n \/ t ∈ pic_idxs n \/ t ∈ vid_idxs n \/ t ∈ cached_idxs n)
    as ->.
  { split.
    - intros (tk & Hin & Hname).
      rewrite !elem_of_app, !list_elem_of_fmap in Hin.
      destruct Hin as [(x & -> & Hx) | [(x & -> & Hx) | [([q l] & -> & Hx) | (x & -> & Hx)]]];
        simpl in Hname; subst; auto.
      right. right. left. apply Hgroups. eauto.
    - intros [Hin | [Hin | [Hin | Hin]]].
      + exists (BaseTile t ts). split; [|reflexivity].
        apply elem_of_app. left. apply list_elem_of_fmap. eauto.
      + exists (PicTile t (prefetch_size_of env sm ts)). split; [|reflexivity].
        apply elem_of_app. right. apply elem_of_app. left. apply list_elem_of_fmap. eauto.
      + destruct (proj2 Hgroups Hin) as (q & l & Hql & Hl).
        exists (VidTiles q l (prefetch_size_of env sm ts)). split; [|exact Hl].
        apply elem_of_app. right. apply elem_of_app. right. apply elem_of_app. left.
        apply list_elem_of_fmap. exists (q, l). auto.
      + exists (CachedTile t ts). split; [|reflexivity].
        apply elem_of_app. right. apply elem_of_app. right. apply elem_of_app. right.
        apply list_elem_of_fmap. eauto. }
  rewrite Hbase, Hpic, Hvid, Hcached. split; [tauto|].
  intros Hin.
  destruct (classic_base env ts t) as [Hb | Hnb]; [tauto|].
  (* not a base tile: it was classified *)
  unfold compute_needs in Hn.
  destruct (if decide (ts <= BASE_TILE_RES env)%nat then _ else _) as [base|] eqn:Hbase0;
    simpl in Hn; [|discriminate].
  assert (t ∈ filter (fun t => t ∉ base) blanks) as Htodo.
  { apply list_elem_of_filter. split; [|exact Hin].
    intros Hinb. apply Hnb.
    apply classify_spec in Hn as (Hb' & _). simpl in Hb'. rewrite <- Hb' in Hinb.
    apply Hbase in Hinb. tauto. }
  destruct (classify_total _ _ _ _ _ _ Hn t Htodo) as (tile & found & Htile & Hfound).
  destruct found.
  - (* a larger copy exists: the size is below the limit *)
    right. right. right. split; [exact Hin|]. split; [exact Hnb|].
    destruct (decide (ts < res_limit sm)%nat) as [? | Hge]; [assumption|]. exfalso.
    assert (ts = res_limit sm) as Heq by lia.
    destruct (find_supersized_tile sm t ts) as [size| | |] eqn:Hf; try discriminate.
    destruct (find_supersized_tile_found sm t ts size ltac:(lia) Hf) as [Hc Hle].
    unfold find_supersized_tile in Hf.
    assert (size = ts) as ->.
    { destruct (decide (res_limit sm <= ts)%nat) as [_ | ?]; [|lia].
      destruct (store_contains sm (res_limit sm) t) as [[|]|]; try discriminate.
      - injection Hf as <-. lia.
      - destruct (decide (ts < fast_limit sm)%nat) as [? | _]; [lia|].
        apply probe_up_sound in Hf as [Hge' _]. lia. }
    unfold store_contains in Hc. rewrite Hstore in Hc. simpl in Hc.
    injection Hc as Hc. unfold contains in Hc.
    apply list_elem_of_filter in Hin as [Hnot _]. apply Hnot.
    apply od_keys_get, od_mem_true, Hc.
  - destruct (t_source_type tile) eqn:Hkind.
    + right. left. split; [exact Hin|]. split; [exact Hnb|]. exists tile. auto.
    + right. right. left. split; [exact Hin|]. split; [exact Hnb|]. exists tile. auto.
Qed.

End JobFacts.

Lemma job_loads_the_blanks_witness :
  exists sm' j,
    Stream.stream_thread evict_env evict_manager [0] 4 = Store.Ret sm' j
    /\ forall t, (exists tk, tk ∈ Stream.dispatched j /\ names tk t)
                 <-> t ∈ Stream.blanks_of evict_manager [0] 4.
Proof.
  destruct (Stream.stream_thread evict_env evict_manager [0] 4) as [sm' j | sm' e] eqn:Hrun;
    [|vm_compute in Hrun; discriminate].
  exists sm', j. split; [reflexivity|].
  apply (job_loads_the_blanks evict_env evict_manager [0] 4 sm' j); try exact Hrun.
  - vm_compute. reflexivity.
  - vm_compute. reflexivity.
  - vm_compute. lia.
  - vm_compute. lia.
Defined.

Section VideoTileFacts.

Import Match Tiles.
Local Open Scope Z_scope.

(** The range of a [uint16] colour. *)
Definition colour16 (c : colour) : Prop :=
  let '(r, g, b) := c in
  (0 <= r < 2 ^ 16) /\ (0 <= g < 2 ^ 16) /\ (0 <= b < 2 ^ 16).

Lemma square_diff_bound (a b : Z) :
  0 <= a < 65536 -> 0 <= b < 65536 -> 0 <= (a - b) * (a - b) <= 65535 * 65535.
Proof.
  intros Ha Hb. destruct (Z.le_ge_cases a b).
  - replace ((a - b) * (a - b)) with ((b - a) * (b - a)) by ring.
    split; [apply Z.mul_nonneg_nonneg; lia | apply Z.mul_le_mono_nonneg; lia].
  - split; [apply Z.mul_nonneg_nonneg; lia | apply Z.mul_le_mono_nonneg; lia].
Qed.

(** The square of a wrapped difference is the square of the
    difference. *)
Lemma u64_square_diff (a b : Z) :
  0 <= a < 2 ^ 16 -> 0 <= b < 2 ^ 16 ->
  u64 (u64 (a - b) * u64 (a - b)) = (a - b) * (a - b).
Proof.
  intros Ha Hb. unfold u64.
  rewrite Zmult_mod_idemp_l, Zmult_mod_idemp_r.
  apply Z.mod_small.
  change (2 ^ 16) with 65536 in Ha, Hb.
  pose proof (square_diff_bound a b Ha Hb).
  change (2 ^ 64) with 18446744073709551616. lia.
Qed.

(** X14. The unsigned subtraction of [mse] does no harm: on [uint16]
    colours the differences wrap around in [uint64] when a channel of
    the first colour is the smaller one, and their squares are the true
    squares all the same, so that [mse(a, b) > threshold] holds exactly
    when the squared Euclidean distance of the two colours exceeds
    three times the threshold. *)
Theorem mse_is_squared_distance (a b : colour) (threshold : Z) :
  colour16 a -> colour16 b ->
  mse_above a b threshold = (3 * threshold <? euclid a b).
Proof.
  destruct a as [[ar ag] ab], b as [[br bg] bb].
  intros (Har & Hag & Hab) (Hbr & Hbg & Hbb).
  unfold mse_above, euclid.
  rewrite !u64_square_diff by assumption.
  f_equal. unfold u64.
  change (2 ^ 16) with 65536 in *.
  pose proof (square_diff_bound ar br Har Hbr).
  pose proof (square_diff_bound ag bg Hag Hbg).
  pose proof (square_diff_bound ab bb Hab Hbb).
  change (2 ^ 64) with 18446744073709551616.
  rewrite (Z.mod_small ((ar - br) * (ar - br) + (ag - bg) * (ag - bg))) by lia.
  apply Z.mod_small. lia.
Qed.

Lemma mse_is_squared_distance_witness :
  mse_above (10, 200, 30) (200, 10, 30) 75 = (3 * 75 <? euclid (10, 200, 30) (200, 10, 30)).
Proof.
  apply (mse_is_squared_distance (10, 200, 30) (200, 10, 30) 75); vm_compute; intuition discriminate.
Defined.

(** The second pass: the end frame is only ever moved back, and every
    frame before the end it settles on is close to the first frame. *)
Lemma scan_colours_spec avg threshold f : forall cs j e,
  f + j + Z.of_nat (length cs) <= e ->
  let r := scan_colours avg threshold f j cs e in
  r <= e
  /\ forall (i : nat) c, cs !! i = Some c -> f + j + Z.of_nat i < r ->
       mse_above avg c threshold = false.
Proof.
  induction cs as [|c0 cs IH]; intros j e Hlen; simpl.
  - split; [lia|]. intros i c Hi. discriminate.
  - simpl in Hlen. destruct (mse_above avg c0 threshold) eqn:Hc0.
    + split; [lia|]. intros i c _ Hlt. lia.
    + destruct (IH (j + 1) e ltac:(lia)) as [Hle Hpre]. split; [exact Hle|].
      intros [|i] c Hi Hlt.
      * injection Hi as <-. exact Hc0.
      * apply (Hpre i c Hi). lia.
Qed.

(** One tile of a clip. *)
Lemma video_tile_frames colours threshold good_idxs i f t :
  0 <= f ->
  video_tile colours threshold good_idxs i f = Some (Some t) ->
  source_type t = Stream.Vid /\ frame_idx t = f
  /\ frame_idx t < end_frame_idx t /\ len t = end_frame_idx t - frame_idx t
  /\ (exists e, good_idxs !! S i = Some e /\ end_frame_idx t <= e)
  /\ exists avg, colours !! f = Some avg
       /\ forall k, frame_idx t <= k < end_frame_idx t ->
            exists c, colours !! k = Some c /\ mse_above avg c threshold = false.
Proof.
  intros Hf. unfold video_tile. intros H.
  destruct (colours !! f) as [avg|] eqn:Havg; simpl in H; [|discriminate].
  destruct (good_idxs !! S i) as [e|]; simpl in H; [|discriminate].
  destruct (mapM _ _) as [cs|] eqn:Hcs; simpl in H; [|discriminate].
  destruct (Z.leb_spec (scan_colours avg threshold f 0 cs e) f) as [|Hlt];
    [discriminate|].
  injection H as <-.
  pose proof (length_mapM _ _ _ Hcs) as Hlen. rewrite length_seqZ in Hlen.
  assert (f <= e) as Hfe.
  { destruct (Z.le_gt_cases f e) as [? | Hgt]; [assumption|]. exfalso.
    replace (Z.to_nat (e - f)) with 0%nat in Hlen by lia.
    symmetry in Hlen. apply length_zero_iff_nil in Hlen. subst cs. simpl in Hlt. lia. }
  destruct (scan_colours_spec avg threshold f cs 0 e ltac:(lia)) as [Hle Hpre].
  set (r := scan_colours avg threshold f 0 cs e) in *.
  assert (or_default (Some f) 0 = f) as Hf0.
  { unfold or_default. destruct (Z.eqb_spec f 0); [lia | reflexivity]. }
  assert (or_default (Some r) 1 = r) as Hr1.
  { unfold or_default. destruct (Z.eqb_spec r 0); [lia | reflexivity]. }
  unfold new_Tile. cbv zeta. rewrite Hf0, Hr1. simpl.
  split; [reflexivity|]. split; [reflexivity|]. split; [exact Hlt|]. split; [reflexivity|].
  split; [eauto|].
  exists avg. split; [reflexivity|]. intros k [Hk1 Hk2].
  apply mapM_Some in Hcs.
  assert (seqZ f (e - f) !! Z.to_nat (k - f) = Some k) as Hseq.
  { rewrite lookup_seqZ. split; lia. }
  destruct (Forall2_lookup_l _ _ _ _ _ Hcs Hseq) as (c & Hc & Hcol).
  exists c. split; [exact Hcol|].
  apply (Hpre _ c Hc). lia.
Qed.

(** X15. The frames of a video tile keep to the colour of its first
    frame.  Every tile that [video_tiles] builds starts at one of the
    good frames, ends after it starts and no later than the next good
    frame (or the last frame of the clip), has the frames in between
    as its length, and each of its frames has an average colour whose
    [mse] to that of the first frame is within the threshold. *)
Theorem video_tiles_coherent good_frames frame_dict colours threshold ts t :
  Forall (fun f => 0 <= f) good_frames ->
  video_tiles good_frames frame_dict colours threshold = Some ts ->
  t ∈ ts ->
  source_type t = Stream.Vid
  /\ frame_idx t < end_frame_idx t /\ len t = end_frame_idx t - frame_idx t
  /\ (exists (i : nat) last_frame e,
        good_frames !! i = Some (frame_idx t)
        /\ last (merge_sort Z.le frame_dict) = Some last_frame
        /\ (good_frames ++ [last_frame]) !! S i = Some e
        /\ end_frame_idx t <= e)
  /\ exists avg, colours !! frame_idx t = Some avg
       /\ forall k, frame_idx t <= k < end_frame_idx t ->
            exists c, colours !! k = Some c /\ mse_above avg c threshold = false.
Proof.
  intros Hgood. unfold video_tiles. intros H Ht.
  destruct (last _) as [last_frame|]; simpl in H; [|discriminate].
  destruct (mapM _ _) as [rs|] eqn:Hrs; simpl in H; [|discriminate].
  injection H as <-.
  apply list_elem_of_omap in Ht as [r [Hr Hsome]]. simpl in Hsome. subst r.
  apply mapM_Some in Hrs.
  apply list_elem_of_lookup in Hr as [k Hk].
  destruct (Forall2_lookup_r _ _ _ _ _ Hrs Hk) as [[i f] [Hif Htile]].
  apply list_lookup_imap_Some in Hif as (f' & Hf' & Heq). injection Heq as -> ->.
  simpl in Htile.
  assert (0 <= f') as Hpos.
  { rewrite Forall_forall in Hgood. apply Hgood. eapply list_elem_of_lookup_2. exact Hf'. }
  destruct (video_tile_frames _ _ _ _ _ _ Hpos Htile)
    as (Hkind & Hstart & Hlt & Hlen & (e & He & Hle) & avg & Havg & Hframes).
  split; [exact Hkind|]. split; [exact Hlt|]. split; [exact Hlen|]. split.
  - exists k, last_frame, e. rewrite Hstart. repeat split; assumption.
  - exists avg. rewrite Hstart in Hframes |- *. split; assumption.
Qed.

End VideoTileFacts.

(** The second tile of the clip. *)
Definition clip_tile : Tiles.Tile := Tiles.new_Tile Stream.Vid (Some 3%Z) (Some 5%Z).

Lemma video_tiles_coherent_witness :
  Tiles.source_type clip_tile = Stream.Vid
  /\ (Tiles.frame_idx clip_tile < Tiles.end_frame_idx clip_tile)%Z
  /\ Tiles.len clip_tile = (Tiles.end_frame_idx clip_tile - Tiles.frame_idx clip_tile)%Z
  /\ (exists (i : nat) last_frame e,
        [0; 3; 5]%Z !! i = Some (Tiles.frame_idx clip_tile)
        /\ last (merge_sort Z.le [0; 1; 2; 3; 4; 5]%Z) = Some last_frame
        /\ ([0; 3; 5]%Z ++ [last_frame]) !! S i = Some e
        /\ (Tiles.end_frame_idx clip_tile <= e)%Z)
  /\ exists avg, <[1%Z := (90, 90, 90)%Z]> clip_colours !! Tiles.frame_idx clip_tile = Some avg
       /\ forall k, (Tiles.frame_idx clip_tile <= k < Tiles.end_frame_idx clip_tile)%Z ->
            exists c, <[1%Z := (90, 90, 90)%Z]> clip_colours !! k = Some c
                      /\ Tiles.mse_above avg c 75 = false.
Proof.
  apply (video_tiles_coherent [0; 3; 5]%Z [0; 1; 2; 3; 4; 5]%Z
           (<[1%Z := (90, 90, 90)%Z]> clip_colours) 75
           [Tiles.new_Tile Stream.Vid (Some 3%Z) (Some 5%Z)]).
  - repeat constructor; lia.
  - vm_compute. reflexivity.
  - left.
Defined.

Section LayoutFacts.

Import Tiles.
Local Open Scope Z_scope.

(** The tiles step 5 goes through. *)
Definition streamable_of (m : mode) (tiles : list Tile) (unique_tiles : list nat) : list nat :=
  if is_vid m then seq 0 (length tiles) else unique_tiles.

(** The slots of a tile, and of a list of tiles. *)
Definition frame_count (tiles : list Tile) (max_tile_len : Z) (i : nat) : Z :=
  default 0 ((fun t => Z.min (len t) max_tile_len) <$> tiles !! i).

Definition slots (tiles : list Tile) (max_tile_len : Z) (l : list nat) : Z :=
  foldr Z.add 0 (map (frame_count tiles max_tile_len) l).

Variable tiles : list Tile.
Variable mx : Z.
Hypothesis Hmx : 1 <= mx.
Hypothesis Htiles : Forall (fun t => 1 <= len t) tiles.

Lemma frame_count_nonneg i : 0 <= frame_count tiles mx i.
Proof.
  unfold frame_count. destruct (tiles !! i) as [t|] eqn:Ht; simpl; [|lia].
  rewrite Forall_forall in Htiles.
  pose proof (Htiles t (list_elem_of_lookup_2 _ _ _ Ht)). lia.
Qed.

Lemma slots_nonneg l : 0 <= slots tiles mx l.
Proof.
  induction l as [|i l IH]; unfold slots in *; simpl; [lia|].
  pose proof (frame_count_nonneg i). lia.
Qed.

Lemma slots_app l1 l2 : slots tiles mx (l1 ++ l2) = slots tiles mx l1 + slots tiles mx l2.
Proof.
  induction l1 as [|i l1 IH]; unfold slots in *; simpl; [reflexivity|].
  rewrite IH. lia.
Qed.

Lemma slots_cons i l : slots tiles mx (i :: l) = frame_count tiles mx i + slots tiles mx l.
Proof. reflexivity. Qed.

(** The loop gives every tile the slots after those of the tiles before
    it, and leaves the other entries of the maps alone. *)
Lemma map_loop_layout : forall streamable tm tlm off tm' tlm' off',
  map_loop tiles mx (tm, tlm, off) streamable = Some (tm', tlm', off') ->
  NoDup streamable -> length tlm = length tm ->
  0 <= off -> off' < 2 ^ 31 ->
  off' = off + slots tiles mx streamable
  /\ length tm' = length tm /\ length tlm' = length tlm
  /\ (forall pre i post, streamable = pre ++ i :: post ->
        tm' !! i = Some (off + slots tiles mx pre)
        /\ exists t, tiles !! i = Some t
                     /\ tlm' !! i = Some (Z.min (len t) mx)
                     /\ frame_count tiles mx i = Z.min (len t) mx
                     /\ 1 <= Z.min (len t) mx)
  /\ (forall i, i ∉ streamable -> tm' !! i = tm !! i /\ tlm' !! i = tlm !! i).
Proof.
  induction streamable as [|idx rest IH]; intros tm tlm off tm' tlm' off' Hloop Hnd Hsame Hoff Hoff'.
  - simpl in Hloop. injection Hloop as <- <- <-.
    split; [unfold slots; simpl; lia|]. split; [reflexivity|]. split; [reflexivity|].
    split; [|auto]. intros [|? ?] i post Heq; discriminate.
  - cbn [map_loop] in Hloop.
    destruct (map_step tiles mx (tm, tlm, off) idx) as [[[tm1 tlm1] off1]|] eqn:Hstep;
      simpl in Hloop; [|discriminate].
    unfold map_step in Hstep.
    destruct (decide (idx < length tm)%nat) as [Hidx|]; [|discriminate].
    destruct (tiles !! idx) as [t|] eqn:Ht; simpl in Hstep; [|discriminate].
    injection Hstep as <- <- <-.
    apply NoDup_cons in Hnd as [Hnotin Hnd].
    assert (1 <= Z.min (len t) mx) as Hfc.
    { rewrite Forall_forall in Htiles.
      pose proof (Htiles t (list_elem_of_lookup_2 _ _ _ Ht)). lia. }
    assert (frame_count tiles mx idx = Z.min (len t) mx) as Hcount.
    { unfold frame_count. rewrite Ht. reflexivity. }
    destruct (IH _ _ _ _ _ _ Hloop Hnd ltac:(rewrite !length_insert; exact Hsame)
                ltac:(lia) Hoff')
      as (Htotal & Htm & Htlm & Hin & Hout).
    rewrite !length_insert in Htm, Htlm.
    pose proof (slots_nonneg rest) as Hrest.
    assert (Match.i32 off = off) as Hi_off by (apply i32_small; lia).
    assert (Match.i32 (Z.min (len t) mx) = Z.min (len t) mx) as Hi_fc
      by (apply i32_small; lia).
    split; [rewrite slots_cons, Hcount; lia|]. split; [exact Htm|]. split; [exact Htlm|].
    split.
    + intros [|p pre] i post Heq; simpl in Heq; injection Heq as <- Hrest_eq.
      * destruct (Hout idx Hnotin) as [-> ->].
        rewrite Hi_off, Hi_fc.
        rewrite !list_lookup_insert_eq by lia.
        split; [unfold slots; simpl; f_equal; lia|]. exists t. auto.
      * destruct (Hin pre i post Hrest_eq) as [Hbase Hlen].
        split; [|exact Hlen].
        rewrite Hbase, slots_cons, Hcount. f_equal. lia.
    + intros i Hi. apply not_elem_of_cons in Hi as [Hne Hi].
      destruct (Hout i Hi) as [-> ->].
      rewrite !list_lookup_insert_ne by auto. auto.
Qed.

End LayoutFacts.

Section LayoutTheorems.

Import Tiles.
Local Open Scope Z_scope.

Variables (m : mode) (CAP_TILE_LENGTHS : bool) (tiles : list Tile).
Variables (matches unique_tiles : list nat) (mp : maps).
Hypothesis Htiles : Forall (fun t => 1 <= len t) tiles.
Hypothesis Hmaps : rendering_maps m CAP_TILE_LENGTHS tiles matches unique_tiles = Some mp.

Local Abbreviation streamable := (streamable_of m tiles unique_tiles).

(** Step 5 is its loop, run from maps of zeros with a cap of at least
    one frame. *)
Lemma rendering_maps_loop :
  exists n,
    map_loop tiles (max_tile_len mp) (replicate n 0, replicate n 0, 0) streamable
    = Some (tile_map mp, tile_len_map mp, total_frames mp)
    /\ 1 <= max_tile_len mp
    /\ (m <> ModeHyb -> max_tile_len mp = 1).
Proof.
  unfold rendering_maps in Hmaps. fold streamable in Hmaps.
  destruct (if is_vid m then Some (length tiles) else np_max_succ matches) as [n|];
    simpl in Hmaps; [|discriminate].
  destruct (mapM _ streamable) as [lens|] eqn:Hlens; simpl in Hmaps; [|discriminate].
  destruct (int_mean lens) as [mean|] eqn:Hmean; simpl in Hmaps; [|discriminate].
  assert (Forall (fun x => 1 <= x) lens) as Hpos.
  { apply mapM_Some in Hlens.
    apply (Forall2_Forall_r _ _ _ _ Hlens). apply Forall_forall.
    intros i _ y Hy. destruct (tiles !! i) as [t|] eqn:Ht; [|discriminate].
    injection Hy as <-. rewrite Forall_forall in Htiles.
    apply (Htiles t (list_elem_of_lookup_2 _ _ _ Ht)). }
  assert (lens <> []) as Hne by (intros ->; discriminate).
  destruct (match m with
            | ModeHyb => if CAP_TILE_LENGTHS then Some mean else py_max lens
            | _ => Some 1
            end) as [mx|] eqn:Hmx; simpl in Hmaps; [|discriminate].
  destruct (map_loop _ _ _ _) as [[[tm tlm] off]|] eqn:Hloop; simpl in Hmaps; [|discriminate].
  injection Hmaps as <-. simpl. exists n. split; [exact Hloop|]. split.
  - destruct m; try (injection Hmx as <-; lia).
    destruct CAP_TILE_LENGTHS.
    + injection Hmx as <-. destruct (int_mean_ge lens Hne Hpos) as [mean' [Hm' Hge]].
      congruence.
    + destruct (py_max_ge lens Hne Hpos) as [mx' [Hm' Hge]]. congruence.
  - intros Hm. destruct m; [congruence | contradiction | congruence].
Qed.

Hypothesis Hset : NoDup unique_tiles.
Hypothesis Htotal : total_frames mp < 2 ^ 31.

Lemma NoDup_streamable : NoDup streamable.
Proof. unfold streamable_of. destruct (is_vid m); [apply NoDup_seq | exact Hset]. Qed.

(** What the maps hold: the slots of the tiles step 5 went through, one
    after the other, and zeros elsewhere. *)
Lemma rendering_maps_entries :
  total_frames mp = slots tiles (max_tile_len mp) streamable
  /\ (forall pre i post, streamable = pre ++ i :: post ->
        tile_map mp !! i = Some (slots tiles (max_tile_len mp) pre)
        /\ exists t, tiles !! i = Some t
                     /\ tile_len_map mp !! i = Some (Z.min (len t) (max_tile_len mp))
                     /\ frame_count tiles (max_tile_len mp) i = Z.min (len t) (max_tile_len mp)
                     /\ 1 <= Z.min (len t) (max_tile_len mp))
  /\ (forall i, i ∉ streamable -> default 0 (tile_len_map mp !! i) = 0).
Proof.
  destruct rendering_maps_loop as (n & Hloop & Hmx & _).
  destruct (map_loop_layout tiles (max_tile_len mp) Hmx Htiles _ _ _ _ _ _ _ Hloop
              NoDup_streamable ltac:(rewrite !length_replicate; reflexivity)
              ltac:(lia) Htotal)
    as (Hsum & _ & _ & Hin & Hout).
  split; [lia|]. split.
  - intros pre i post Heq. destruct (Hin pre i post Heq) as [Hbase Hlen].
    split; [rewrite Hbase; f_equal; lia | exact Hlen].
  - intros i Hi. destruct (Hout i Hi) as [_ ->].
    destruct (replicate n 0 !! i) as [z|] eqn:Hz; [|reflexivity].
    apply lookup_replicate in Hz as [-> _]. reflexivity.
Qed.

(** X16. The slots of step 5.  When the total stays below [2^31], the
    maps number the frames of the used tiles without gaps and without
    overlap: a tile's entry in [tile_map] is the number of frames of
    the tiles that come before it in the iteration, its entry in
    [tile_len_map] is its own number of frames (its length, capped by
    [max_tile_len], and at least one), [total_frames] is the sum over
    all of them, and no slot belongs to two tiles. *)
Theorem rendering_maps_layout :
  total_frames mp = slots tiles (max_tile_len mp) (streamable_of m tiles unique_tiles)
  /\ (forall pre i post, streamable_of m tiles unique_tiles = pre ++ i :: post ->
        tile_map mp !! i = Some (slots tiles (max_tile_len mp) pre)
        /\ tile_len_map mp !! i = Some (frame_count tiles (max_tile_len mp) i)
        /\ 1 <= frame_count tiles (max_tile_len mp) i
        /\ slots tiles (max_tile_len mp) pre + frame_count tiles (max_tile_len mp) i
           <= total_frames mp)
  /\ Store.layout_ok (fun t => Z.to_nat (default 0 (tile_map mp !! t)))
       (fun t => Z.to_nat (default 0 (tile_len_map mp !! t))).
Proof.
  destruct rendering_maps_loop as (_ & _ & Hmx & _).
  destruct rendering_maps_entries as (Hsum & Hin & Hout).
  split; [exact Hsum|]. split.
  - intros pre i post Heq.
    destruct (Hin pre i post Heq) as (Hbase & t & _ & Hlen & Hcount & Hpos).
    rewrite Hcount. split; [exact Hbase|]. split; [exact Hlen|]. split; [exact Hpos|].
    rewrite Hsum, Heq, slots_app, slots_cons, Hcount.
    pose proof (slots_nonneg tiles (max_tile_len mp) Hmx Htiles post). lia.
  - assert (forall t1 t2 x,
              t1 ∈ streamable -> t2 ∈ streamable ->
              forall l1 l2 l3, streamable = l1 ++ t1 :: l2 ++ t2 :: l3 ->
              Store.in_slots (Z.to_nat (default 0 (tile_map mp !! t1)))
                (Z.to_nat (default 0 (tile_len_map mp !! t1))) x ->
              Store.in_slots (Z.to_nat (default 0 (tile_map mp !! t2)))
                (Z.to_nat (default 0 (tile_len_map mp !! t2))) x -> False) as Hord.
    { intros t1 t2 x _ _ l1 l2 l3 Heq H1 H2.
      destruct (Hin l1 t1 (l2 ++ t2 :: l3) Heq) as (Hb1 & u1 & _ & Hl1 & Hc1 & Hp1).
      destruct (Hin (l1 ++ t1 :: l2) t2 l3) as (Hb2 & u2 & _ & Hl2 & Hc2 & Hp2).
      { rewrite Heq, <- app_assoc. reflexivity. }
      unfold Store.in_slots in H1, H2. rewrite Hb1, Hl1 in H1. rewrite Hb2, Hl2 in H2.
      simpl in H1, H2. rewrite slots_app, slots_cons, Hc1 in H2.
      pose proof (slots_nonneg tiles (max_tile_len mp) Hmx Htiles l1).
      pose proof (slots_nonneg tiles (max_tile_len mp) Hmx Htiles l2).
      lia. }
    assert (forall t x,
              Store.in_slots (Z.to_nat (default 0 (tile_map mp !! t)))
                (Z.to_nat (default 0 (tile_len_map mp !! t))) x -> t ∈ streamable) as Hused.
    { intros t x Hx. destruct (decide (t ∈ streamable)) as [? | Hnot]; [assumption|].
      exfalso. unfold Store.in_slots in Hx. rewrite (Hout t Hnot) in Hx. simpl in Hx. lia. }
    intros t1 t2 x H1 H2.
    destruct (decide (t1 = t2)) as [? | Hne]; [assumption|]. exfalso.
    pose proof (Hused t1 x H1) as Hin1. pose proof (Hused t2 x H2) as Hin2.
    apply list_elem_of_split in Hin1 as (l1 & l2 & Heq).
    rewrite Heq in Hin2. apply elem_of_app in Hin2 as [Hin2 | Hin2].
    + apply list_elem_of_split in Hin2 as (l1' & l2' & ->).
      apply (Hord t2 t1 x (Hused t2 x H2) (Hused t1 x H1) l1' l2' l2); [|exact H2 | exact H1].
      rewrite Heq, <- app_assoc. reflexivity.
    + apply elem_of_cons in Hin2 as [? | Hin2]; [congruence|].
      apply list_elem_of_split in Hin2 as (l1' & l2' & ->).
      exact (Hord t1 t2 x (Hused t1 x H1) (Hused t2 x H2) l1 l1' l2' Heq H1 H2).
Qed.

(** X17. Outside hybrid mode every tile is a single frame: in picture
    and in video mode [max_tile_len] is one, each used tile has one
    slot, its entry in [tile_map] is its position in the iteration, and
    [total_frames] is the number of used tiles. *)
Theorem rendering_maps_single_frames :
  m <> ModeHyb ->
  max_tile_len mp = 1
  /\ total_frames mp = Z.of_nat (length (streamable_of m tiles unique_tiles))
  /\ forall pre i post, streamable_of m tiles unique_tiles = pre ++ i :: post ->
       tile_map mp !! i = Some (Z.of_nat (length pre))
       /\ tile_len_map mp !! i = Some 1.
Proof.
  intros Hm.
  destruct rendering_maps_loop as (_ & _ & _ & Hone). specialize (Hone Hm).
  destruct rendering_maps_entries as (Hsum & Hin & _).
  assert (forall l, (forall i, i ∈ l -> i ∈ streamable) ->
                    slots tiles (max_tile_len mp) l = Z.of_nat (length l)) as Hcount.
  { induction l as [|i l IH]; intros Hl; [reflexivity|].
    rewrite slots_cons, IH by (intros j Hj; apply Hl; right; exact Hj).
    assert (i ∈ streamable) as Hi by (apply Hl; left).
    apply list_elem_of_split in Hi as (pre & post & Heq).
    destruct (Hin pre i post Heq) as (_ & t & _ & _ & -> & Hpos).
    rewrite Hone in Hpos |- *. simpl length. lia. }
  split; [exact Hone|]. split; [rewrite Hsum; apply Hcount; auto|].
  intros pre i post Heq.
  destruct (Hin pre i post Heq) as (Hbase & t & _ & Hlen & _ & Hpos).
  split.
  - rewrite Hbase. f_equal. apply Hcount. intros j Hj. rewrite Heq.
    apply elem_of_app. auto.
  - rewrite Hlen. f_equal. rewrite Hone in Hpos |- *. lia.
Qed.

End LayoutTheorems.

Lemma hyb_tiles_lengths : Forall (fun t => (1 <= Tiles.len t)%Z) hyb_tiles.
Proof. repeat constructor; vm_compute; discriminate. Qed.

(** The maps of the three tiles, uncapped, and in picture mode. *)
Definition hyb_maps : Tiles.maps := Tiles.mkMaps [2; 3; 0]%Z [1; 3; 2]%Z 2 3 6.
Definition pic_maps : Tiles.maps := Tiles.mkMaps [1; 2; 0]%Z [1; 1; 1]%Z 2 1 3.

Lemma rendering_maps_layout_witness :
  Tiles.total_frames hyb_maps
  = slots hyb_tiles (Tiles.max_tile_len hyb_maps) (streamable_of Tiles.ModeHyb hyb_tiles [2; 0; 1]%nat)
  /\ (forall pre i post,
        streamable_of Tiles.ModeHyb hyb_tiles [2; 0; 1]%nat = pre ++ i :: post ->
        Tiles.tile_map hyb_maps !! i = Some (slots hyb_tiles (Tiles.max_tile_len hyb_maps) pre)
        /\ Tiles.tile_len_map hyb_maps !! i = Some (frame_count hyb_tiles (Tiles.max_tile_len hyb_maps) i)
        /\ (1 <= frame_count hyb_tiles (Tiles.max_tile_len hyb_maps) i)%Z
        /\ (slots hyb_tiles (Tiles.max_tile_len hyb_maps) pre
            + frame_count hyb_tiles (Tiles.max_tile_len hyb_maps) i
            <= Tiles.total_frames hyb_maps)%Z)
  /\ Store.layout_ok (fun t => Z.to_nat (default 0%Z (Tiles.tile_map hyb_maps !! t)))
       (fun t => Z.to_nat (default 0%Z (Tiles.tile_len_map hyb_maps !! t))).
Proof.
  apply (rendering_maps_layout Tiles.ModeHyb false hyb_tiles hyb_matches [2; 0; 1]%nat hyb_maps).
  - exact hyb_tiles_lengths.
  - vm_compute. reflexivity.
  - apply (bool_decide_unpack _). vm_compute. exact I.
  - vm_compute. reflexivity.
Defined.

Lemma rendering_maps_single_frames_witness :
  Tiles.max_tile_len pic_maps = 1%Z
  /\ Tiles.total_frames pic_maps
     = Z.of_nat (length (streamable_of Tiles.ModePic hyb_tiles [2; 0; 1]%nat))
  /\ forall pre i post,
       streamable_of Tiles.ModePic hyb_tiles [2; 0; 1]%nat = pre ++ i :: post ->
       Tiles.tile_map pic_maps !! i = Some (Z.of_nat (length pre))
       /\ Tiles.tile_len_map pic_maps !! i = Some 1%Z.
Proof.
  apply (rendering_maps_single_frames Tiles.ModePic false hyb_tiles hyb_matches [2; 0; 1]%nat pic_maps).
  - exact hyb_tiles_lengths.
  - vm_compute. reflexivity.
  - apply (bool_decide_unpack _). vm_compute. exact I.
  - vm_compute. reflexivity.
  - discriminate.
Defined.

(* ================================================================== *)
(** ** More on the render kernels: dense stores *)
(* ================================================================== *)

Section DenseKernelFacts.

Import Store Render.
Local Open Scope Z_scope.

Lemma foldM_ext {A B} (f g : A -> B -> result A) (l : list B) : forall a,
  (forall a' b, b ∈ l -> f a' b = g a' b) -> foldM f a l = foldM g a l.
Proof.
  induction l as [|b l IH]; intros a Hext; simpl; [reflexivity|].
  rewrite (Hext a b) by left. destruct (g a b) as [a'|]; simpl; [|reflexivity].
  apply IH. intros a'' b' Hb'. apply Hext. right. exact Hb'.
Qed.

Variables (x_start : Z) (x_len : nat) (y_start : Z) (y_len : nat).
Variable tile_map : list Z.
Variable arr : list image.
Variable match_list : grid.
Variable tile_size : nat.
Variable hybrid : bool.
Variable frame_pos : Z.
Variable end_frame_map : list Z.

(** The slot of every cell the loops visit is a slot of the array. *)
Definition slots_in_range : Prop :=
  forall y x m,
    y ∈ ys y_start y_len match_list -> x ∈ xs x_start x_len match_list ->
    mapped_id tile_map hybrid frame_pos end_frame_map
      (g_cell match_list (Z.to_nat y) (Z.to_nat x)) = Ok m ->
    0 <= m < Z.of_nat (length arr).

(** The dictionary holds the frame of the array at every slot the
    loops ask for. *)
Definition same_frames (d : gmap nat image) : Prop :=
  forall y x m,
    y ∈ ys y_start y_len match_list -> x ∈ xs x_start x_len match_list ->
    mapped_id tile_map hybrid frame_pos end_frame_map
      (g_cell match_list (Z.to_nat y) (Z.to_nat x)) = Ok m ->
    d !! Z.to_nat m = arr !! Z.to_nat m.

(** The tile a fast kernel draws in the block [(cx, cy)] of the
    raster. *)
Definition dense_block_tile (cy cx : nat) : option image :=
  let y := y_start + Z.of_nat cy in
  let x := x_start + Z.of_nat cx in
  if on_grid match_list y x
  then
    base ← tile_map !! g_cell match_list (Z.to_nat y) (Z.to_nat x);
    offset ← (if hybrid
              then (fun e => frame_pos mod e)
                     <$> end_frame_map !! g_cell match_list (Z.to_nat y) (Z.to_nat x)
              else Some 0);
    arr !! Z.to_nat (base + offset)
  else None.

Lemma draw_cell_dense_sparse d mosaic y x :
  slots_in_range -> same_frames d ->
  y ∈ ys y_start y_len match_list -> x ∈ xs x_start x_len match_list ->
  draw_cell x_start y_start tile_map (Fast arr) match_list tile_size hybrid frame_pos
    end_frame_map mosaic y x
  = draw_cell x_start y_start tile_map (Smart d) match_list tile_size hybrid frame_pos
      end_frame_map mosaic y x.
Proof.
  intros Hrange Hsame Hy Hx. unfold draw_cell.
  rewrite (read_grid_visible x_start x_len y_start y_len match_list y x Hy Hx). simpl.
  destruct (mapped_id tile_map hybrid frame_pos end_frame_map
              (g_cell match_list (Z.to_nat y) (Z.to_nat x))) as [m|f] eqn:Hm;
    simpl; [|reflexivity].
  pose proof (Hrange y x m Hy Hx Hm) as Hin. pose proof (Hsame y x m Hy Hx Hm) as Heq.
  unfold fetch. rewrite axis_index_in_range by exact Hin.
  destruct (Z.leb_spec 0 m) as [_ | ?]; [|lia]. rewrite Heq.
  destruct (lookup_lt_is_Some_2 arr (Z.to_nat m) ltac:(lia)) as [t ->]. reflexivity.
Qed.

Lemma draw_kernel_dense_sparse d :
  slots_in_range -> same_frames d ->
  draw_kernel x_start x_len y_start y_len tile_map (Fast arr) match_list tile_size
    hybrid frame_pos end_frame_map
  = draw_kernel x_start x_len y_start y_len tile_map (Smart d) match_list tile_size
      hybrid frame_pos end_frame_map.
Proof.
  intros Hrange Hsame. unfold draw_kernel.
  apply foldM_ext. intros mosaic y Hy.
  apply foldM_ext. intros mosaic' x Hx.
  apply draw_cell_dense_sparse; assumption.
Qed.

(** X18. The two kinds of store render the same picture.  When every
    slot the loops ask for is a slot of the array, and the dictionary
    holds at each of them the frame the array holds, [draw] on the
    array (a fast kernel) returns what [draw] on the dictionary (a
    smart kernel) returns, raster or fault, in static and in hybrid
    mode and with either threading variant. *)
Theorem dense_and_sparse_agree d st_flag st_flag' cpu_count cpu_count' :
  slots_in_range -> same_frames d ->
  draw x_start x_len y_start y_len tile_map (Fast arr) match_list tile_size
    hybrid frame_pos end_frame_map st_flag cpu_count
  = draw x_start x_len y_start y_len tile_map (Smart d) match_list tile_size
      hybrid frame_pos end_frame_map st_flag' cpu_count'.
Proof.
  intros Hrange Hsame. rewrite !draw_dispatch. f_equal.
  apply draw_kernel_dense_sparse; assumption.
Qed.

Hypothesis Hmaps : maps_ok x_start x_len y_start y_len tile_map match_list hybrid end_frame_map.
Hypothesis Hrange : slots_in_range.
Hypothesis Hfit : Forall (fun t => im_rows t = tile_size /\ im_cols t = tile_size) arr.

Lemma array_as_dict_fits : tiles_fit (map_seq 0 arr) tile_size.
Proof.
  intros k t Ht. rewrite lookup_map_seq_0 in Ht.
  rewrite Forall_forall in Hfit. apply Hfit. eapply list_elem_of_lookup_2. exact Ht.
Qed.

Lemma array_as_dict_same : same_frames (map_seq 0 arr).
Proof. intros y x m _ _ _. apply lookup_map_seq_0. Qed.

Lemma dense_block_tile_dict (cy cx : nat) :
  (cx < x_len)%nat -> (cy < y_len)%nat ->
  block_tile x_start y_start tile_map (map_seq 0 arr) match_list hybrid frame_pos
    end_frame_map cy cx
  = dense_block_tile cy cx.
Proof.
  intros Hcx Hcy. unfold block_tile, dense_block_tile, cell_tile.
  destruct (on_grid match_list (y_start + Z.of_nat cy) (x_start + Z.of_nat cx)) eqn:Hon;
    [|reflexivity].
  unfold on_grid in Hon. rewrite !andb_true_iff, !Z.leb_le, !Z.ltb_lt in Hon.
  assert (y_start + Z.of_nat cy ∈ ys y_start y_len match_list) as Hy
    by (apply elem_of_ys; lia).
  assert (x_start + Z.of_nat cx ∈ xs x_start x_len match_list) as Hx
    by (apply elem_of_xs; lia).
  pose proof (fun m => Hrange _ _ m Hy Hx) as Hr. destruct (Hmaps _ _ Hy Hx) as [_ Hhyb].
  cbv zeta in Hhyb. unfold mapped_id in Hr. revert Hr Hhyb.
  generalize (g_cell match_list (Z.to_nat (y_start + Z.of_nat cy))
                (Z.to_nat (x_start + Z.of_nat cx))).
  intros match_id.
  destruct (tile_map !! match_id) as [base|]; simpl; [|reflexivity].
  destruct hybrid; simpl; intros Hr Hhyb.
  - destruct (Hhyb eq_refl) as (e & He & Hne). rewrite He in Hr |- *. simpl in Hr |- *.
    destruct (Z.eqb_spec e 0) as [? | _]; [contradiction|].
    specialize (Hr _ eq_refl).
    destruct (Z.leb_spec 0 (base + frame_pos mod e)); [|lia].
    apply lookup_map_seq_0.
  - specialize (Hr _ eq_refl).
    destruct (Z.leb_spec 0 (base + 0)); [|lia]. apply lookup_map_seq_0.
Qed.

(** X19. What a fast kernel paints.  With maps that cover the visited
    cells, slots that lie inside the array and frames that are
    [tile_size] squares, [draw] on a dense store returns a raster of
    shape [(x_len * tile_size, y_len * tile_size, 3)] in which every
    block whose cell is on the grid holds the frame of the array at the
    cell's slot, and every other block is left zero. *)
Theorem draw_fast_blocks st_flag cpu_count :
  exists mosaic,
    draw x_start x_len y_start y_len tile_map (Fast arr) match_list tile_size
      hybrid frame_pos end_frame_map st_flag cpu_count = Some (Ok mosaic)
    /\ im_rows mosaic = (x_len * tile_size)%nat
    /\ im_cols mosaic = (y_len * tile_size)%nat
    /\ (forall cx cy di dj : nat,
          (cx < x_len)%nat -> (cy < y_len)%nat ->
          (di < tile_size)%nat -> (dj < tile_size)%nat ->
          im_px mosaic (cx * tile_size + di) (cy * tile_size + dj)
          = match dense_block_tile cy cx with
            | Some t => im_px t di dj
            | None => black
            end)
    /\ (forall cx cy : nat,
          (cx < x_len)%nat -> (cy < y_len)%nat ->
          on_grid match_list (y_start + Z.of_nat cy) (x_start + Z.of_nat cx) = true ->
          is_Some (dense_block_tile cy cx)).
Proof.
  rewrite draw_dispatch, (draw_kernel_dense_sparse (map_seq 0 arr) Hrange array_as_dict_same).
  destruct (draw_kernel_smart x_start x_len y_start y_len tile_map (map_seq 0 arr) match_list
              tile_size hybrid frame_pos end_frame_map Hmaps array_as_dict_fits)
    as [mosaic [Hdraw (Hrows & Hcols & Hpx)]].
  exists mosaic. split; [rewrite Hdraw; reflexivity|].
  split; [exact Hrows|]. split; [exact Hcols|]. split.
  - intros cx cy di dj Hcx Hcy Hdi Hdj.
    rewrite (Hpx cx cy di dj Hcx Hcy Hdi Hdj).
    rewrite (cells_on_grid x_start x_len y_start y_len match_list cy cx Hcx Hcy).
    rewrite <- (dense_block_tile_dict cy cx Hcx Hcy). reflexivity.
  - intros cx cy Hcx Hcy Hon. unfold dense_block_tile. rewrite Hon.
    unfold on_grid in Hon. rewrite !andb_true_iff, !Z.leb_le, !Z.ltb_lt in Hon.
    assert (y_start + Z.of_nat cy ∈ ys y_start y_len match_list) as Hy
      by (apply elem_of_ys; lia).
    assert (x_start + Z.of_nat cx ∈ xs x_start x_len match_list) as Hx
      by (apply elem_of_xs; lia).
    pose proof (fun m => Hrange _ _ m Hy Hx) as Hr. destruct (Hmaps _ _ Hy Hx) as [Hbase Hhyb].
    cbv zeta in Hbase, Hhyb. unfold mapped_id in Hr. revert Hr Hbase Hhyb.
    generalize (g_cell match_list (Z.to_nat (y_start + Z.of_nat cy))
                  (Z.to_nat (x_start + Z.of_nat cx))).
    intros match_id Hr [base Hbase]. rewrite Hbase in Hr |- *. simpl in Hr |- *.
    revert Hr. destruct hybrid; simpl; intros Hr Hhyb.
    + destruct (Hhyb eq_refl) as (e & He & Hne). rewrite He in Hr |- *. simpl in Hr |- *.
      destruct (Z.eqb_spec e 0) as [? | _]; [contradiction|].
      specialize (Hr _ eq_refl). apply lookup_lt_is_Some_2. lia.
    + specialize (Hr _ eq_refl). apply lookup_lt_is_Some_2. lia.
Qed.

End DenseKernelFacts.

(** The two tiles of the demo grid in a dense store, and a dictionary
    with the same two frames. *)
Definition grey : Render.pixel := (128, 128, 128)%Z.
Definition demo_array : list Render.image :=
  [Render.mkImage 2 2 (fun _ _ => white); Render.mkImage 2 2 (fun _ _ => grey)].
Definition demo_full_dict : gmap nat Render.image :=
  <[1%nat := Render.mkImage 2 2 (fun _ _ => grey)]> demo_dict.

Lemma demo_slot (y x : nat) (m : Z) :
  Render.mapped_id [0; 1]%Z false 0 [] (Render.g_cell demo_grid y x) = Render.Ok m ->
  m = 0%Z \/ m = 1%Z.
Proof.
  simpl. destruct (_ && _); simpl; intros [= <-]; auto.
Defined.

Lemma demo_slots_in_range : slots_in_range (-1) 3 0 3 [0; 1]%Z demo_array demo_grid false 0 [].
Proof.
  intros y x m _ _ Hm. apply demo_slot in Hm as [-> | ->]; simpl; lia.
Defined.

Lemma demo_same_frames :
  same_frames (-1) 3 0 3 [0; 1]%Z demo_array demo_grid false 0 [] demo_full_dict.
Proof.
  intros y x m _ _ Hm. apply demo_slot in Hm as [-> | ->]; reflexivity.
Defined.

Lemma dense_and_sparse_agree_witness :
  Render.draw (-1) 3 0 3 [0; 1]%Z (Store.Fast demo_array) demo_grid 2 false 0 [] false 1
  = Render.draw (-1) 3 0 3 [0; 1]%Z (Store.Smart demo_full_dict) demo_grid 2 false 0 [] true 4.
Proof.
  apply (dense_and_sparse_agree (-1) 3 0 3 [0; 1]%Z demo_array demo_grid 2 false 0 []
           demo_full_dict false true 1 4).
  - exact demo_slots_in_range.
  - exact demo_same_frames.
Defined.

Lemma draw_fast_blocks_witness :
  exists mosaic,
    Render.draw (-1) 3 0 3 [0; 1]%Z (Store.Fast demo_array) demo_grid 2 false 0 [] false 1
    = Some (Render.Ok mosaic)
    /\ Render.im_rows mosaic = 6%nat /\ Render.im_cols mosaic = 6%nat
    /\ Render.im_px mosaic 2 1 = white        (* the cell (0, 0): tile 0 *)
    /\ Render.im_px mosaic 4 0 = grey         (* the cell (0, 1): tile 1 *)
    /\ Render.im_px mosaic 0 0 = Render.black (* left of the grid *)
    /\ Render.im_px mosaic 5 5 = Render.black (* below the grid *).
Proof.
  destruct (draw_fast_blocks (-1) 3 0 3 [0; 1]%Z demo_array demo_grid 2 false 0 []
              demo_maps_ok demo_slots_in_range
              ltac:(repeat constructor) false 1)
    as (mosaic & Hdraw & Hrows & Hcols & Hpx & _).
  exists mosaic. split; [exact Hdraw|]. split; [exact Hrows|]. split; [exact Hcols|].
  split; [exact (Hpx 1 0 0 1 ltac:(lia) ltac:(lia) ltac:(lia) ltac:(lia))%nat|].
  split; [exact (Hpx 2 0 0 0 ltac:(lia) ltac:(lia) ltac:(lia) ltac:(lia))%nat|].
  split; [exact (Hpx 0 0 0 0 ltac:(lia) ltac:(lia) ltac:(lia) ltac:(lia))%nat|].
  exact (Hpx 2 2 1 1 ltac:(lia) ltac:(lia) ltac:(lia) ltac:(lia))%nat.
Defined.

(* ================================================================== *)
(** ** More on the streaming manager: the tiers of [partition] *)
(* ================================================================== *)

Section PartitionTiers.

Import Store Stream.
Context {Frame : Type}.
Variable zero_frame : Frame.
Variable env : Env.
Local Open Scope Z_scope.

Hypothesis Hmean : 0 <= mean_tile_len env.
Hypothesis Hmax : 0 <= max_tile_len env.

(** The bytes of the dense tier [2 ^ e], and of the dense tiers up to
    [2 ^ f]. *)
Definition tier_bytes (e : nat) : Z :=
  Z.of_nat (2 ^ e) * Z.of_nat (2 ^ e) * 3 * Z.of_nat (total_frames env).

Definition dense_bytes (f : nat) : Z := foldr Z.add 0 (map tier_bytes (seq 0 (S f))).

Lemma tier_bytes_nonneg e : 0 <= tier_bytes e.
Proof. unfold tier_bytes. repeat apply Z.mul_nonneg_nonneg; lia. Qed.

Lemma dense_bytes_succ f : dense_bytes (S f) = dense_bytes f + tier_bytes (S f).
Proof.
  unfold dense_bytes. rewrite (seq_S (S f)), map_app. simpl map at 2.
  generalize (map tier_bytes (seq 0 (S f))). intros l.
  induction l as [|x l IH]; simpl in *; lia.
Qed.

Lemma required_ram_mono a b w h :
  (a <= b)%nat -> required_ram env (2 ^ a) w h <= required_ram env (2 ^ b) w h.
Proof.
  intros Hab. unfold required_ram.
  assert (Z.of_nat (2 ^ a) <= Z.of_nat (2 ^ b)) as Hpow.
  { apply Nat2Z.inj_le. apply Nat.pow_le_mono_r; lia. }
  assert (0 <= Z.of_nat (2 ^ a)) by lia.
  assert (Z.of_nat (2 ^ a) * Z.of_nat (2 ^ a) <= Z.of_nat (2 ^ b) * Z.of_nat (2 ^ b))
    by (apply Z.mul_le_mono_nonneg; lia).
  assert (0 <= Z.of_nat (total_frames env)) by lia.
  nia.
Qed.

Lemma required_ram_bytes e w h :
  required_ram env (2 ^ e) w h = 2 * tier_bytes e + prefetch_reserve env w h.
Proof. unfold required_ram, tier_bytes. lia. Qed.

Lemma reserve_nonneg w h : 0 <= prefetch_reserve env w h.
Proof.
  unfold prefetch_reserve.
  assert (0 <= Z.min (mean_tile_len env) (max_tile_len env)) by lia.
  repeat apply Z.mul_nonneg_nonneg; lia.
Qed.

Lemma pow2_inj a b : (2 ^ a = 2 ^ b)%nat -> a = b.
Proof. apply Nat.pow_inj_r. lia. Qed.

(** The state of the loop after the exponents below [k]: the tiers up
    to [2 ^ f] are dense and the ones above are sparse. *)
Definition tiers_upto (init : Z) (w h : nat) (ps : part_state (Frame := Frame)) (k : nat)
    : Prop :=
  exists f : nat,
    (f < k)%nat
    /\ ps_fast_limit ps = (2 ^ f)%nat
    /\ ps_kept ps = map (fun e => (2 ^ e)%nat) (seq 0 k)
    /\ ps_ram_usage ps = dense_bytes f
    /\ ps_available_ram ps = init - dense_bytes f
    /\ (forall e, (e < k)%nat ->
          exists st, od_get (2 ^ e)%nat (ps_stores ps) = Some st
                     /\ is_smart st = negb (e <=? f)%nat)
    /\ (S f = k \/ ps_available_ram ps - required_ram env (2 ^ S f) w h < 0)
    /\ ((1 <= f)%nat -> 0 <= ps_available_ram ps).

Lemma tiers_first init w h stores fl :
  tiers_upto init w h (partition_step zero_frame env w h (mkPart stores init 0 fl []) 0) 1.
Proof.
  exists 0%nat. unfold partition_step. simpl (2 ^ 0)%nat. simpl (1 =? 1)%nat.
  rewrite orb_true_r. cbv zeta iota. simpl.
  assert (dense_bytes 0 = 1 * 1 * 3 * Z.of_nat (total_frames env)) as Hd.
  { unfold dense_bytes, tier_bytes. simpl. lia. }
  split; [lia|]. split; [reflexivity|]. split; [reflexivity|].
  split; [rewrite Hd; lia|]. split; [rewrite Hd; lia|].
  split; [|split; [left; reflexivity | lia]].
  intros e He. assert (e = 0)%nat as -> by lia. simpl.
  unfold store_is_smart.
  destruct (od_get 1%nat stores) as [st|] eqn:Hget; simpl.
  - destruct (is_smart st) eqn:Hsm.
    + rewrite od_get_set_eq. eauto.
    + eauto.
  - rewrite od_get_set_eq. eauto.
Qed.

Lemma tiers_step init w h ps k :
  (1 <= k)%nat -> tiers_upto init w h ps k ->
  tiers_upto init w h (partition_step zero_frame env w h ps k) (S k).
Proof.
  intros Hk (f & Hf & Hfl & Hkept & Husage & Hav & Hstores & Hphase & Hbudget).
  pose proof (pow2_ge_2 k Hk) as Hpow.
  pose proof (reserve_nonneg w h) as Hres.
  pose proof (tier_bytes_nonneg k) as Hbytes.
  assert (forall e st' stores',
            (forall size, size <> (2 ^ k)%nat -> od_get size stores' = od_get size (ps_stores ps)) ->
            od_get (2 ^ k)%nat stores' = Some st' ->
            forall f', (f' = f \/ f' = k) -> is_smart st' = negb (k <=? f')%nat ->
            (e < S k)%nat ->
            (forall e', (e' < k)%nat -> (e' <=? f')%nat = (e' <=? f)%nat) ->
            exists st, od_get (2 ^ e)%nat stores' = Some st
                       /\ is_smart st = negb (e <=? f')%nat) as Htier.
  { intros e st' stores' Hother Hnew f' _ Hsm He Hsame.
    destruct (decide (e = k)) as [-> | Hne]; [eauto|].
    rewrite Hother by (intros Heq; apply pow2_inj in Heq; contradiction).
    rewrite Hsame by lia. apply Hstores. lia. }
  unfold partition_step. cbv zeta.
  destruct (Nat.eqb_spec (2 ^ k) 1) as [? | _]; [lia|]. rewrite orb_false_r.
  case_bool_decide as Hcond.
  - (* dense: only while every tier so far is dense *)
    destruct Hphase as [Hall | Hshort].
    2:{ pose proof (required_ram_mono (S f) k w h ltac:(lia)). lia. }
    exists k. cbn [ps_fast_limit ps_kept ps_ram_usage ps_available_ram ps_stores].
    assert (k = S f) as Hk' by lia.
    split; [lia|]. split; [reflexivity|].
    split; [rewrite Hkept, (seq_S k), map_app; reflexivity|].
    split; [rewrite Hk', dense_bytes_succ, Husage; unfold tier_bytes; lia|].
    split; [rewrite Hk', dense_bytes_succ, Hav; unfold tier_bytes; lia|].
    split; [|split; [left; reflexivity|]].
    + intros e He. unfold store_is_smart.
      assert (negb (k <=? k)%nat = false) as Hkk by (rewrite Nat.leb_refl; reflexivity).
      assert (forall e', (e' < k)%nat -> (e' <=? k)%nat = (e' <=? f)%nat) as Hsame.
      { intros e' He'. destruct (Nat.leb_spec e' k), (Nat.leb_spec e' f); try reflexivity; lia. }
      destruct (od_get (2 ^ k)%nat (ps_stores ps)) as [st|] eqn:Hget; simpl.
      * destruct (is_smart st) eqn:Hsm.
        -- eapply Htier; [intros size Hne; apply od_get_set_ne; congruence
                         | apply od_get_set_eq | right; reflexivity
                         | rewrite Hkk; reflexivity | exact He | exact Hsame].
        -- eapply Htier; [reflexivity | exact Hget | right; reflexivity
                         | rewrite Hkk; exact Hsm | exact He | exact Hsame].
      * eapply Htier; [intros size Hne; apply od_get_set_ne; congruence
                      | apply od_get_set_eq | right; reflexivity
                      | rewrite Hkk; reflexivity | exact He | exact Hsame].
    + intros _. rewrite required_ram_bytes in Hcond. unfold tier_bytes in Hcond, Hbytes. lia.
  - (* sparse *)
    exists f. cbn [ps_fast_limit ps_kept ps_ram_usage ps_available_ram ps_stores].
    split; [lia|]. split; [exact Hfl|].
    split; [rewrite Hkept, (seq_S k), map_app; reflexivity|].
    split; [exact Husage|]. split; [exact Hav|].
    split; [|split; [|exact Hbudget]].
    + intros e He. unfold store_is_smart.
      assert (negb (k <=? f)%nat = true) as Hkf.
      { destruct (Nat.leb_spec k f); [lia | reflexivity]. }
      destruct (od_get (2 ^ k)%nat (ps_stores ps)) as [st|] eqn:Hget; simpl.
      * destruct (is_smart st) eqn:Hsm.
        -- eapply Htier; [reflexivity | exact Hget | left; reflexivity
                         | rewrite Hkf; exact Hsm | exact He | reflexivity].
        -- eapply Htier; [intros size Hne; apply od_get_set_ne; congruence
                         | apply od_get_set_eq | left; reflexivity
                         | rewrite Hkf; reflexivity | exact He | reflexivity].
      * eapply Htier; [intros size Hne; apply od_get_set_ne; congruence
                      | apply od_get_set_eq | left; reflexivity
                      | rewrite Hkf; reflexivity | exact He | reflexivity].
    + right. destruct Hphase as [Hall | Hshort]; [|exact Hshort].
      replace (S f) with k by lia. lia.
Qed.

Lemma tiers_loop init w h n : forall ps k,
  (1 <= k)%nat -> tiers_upto init w h ps k ->
  tiers_upto init w h (foldl (partition_step zero_frame env w h) ps (seq k n)) (k + n).
Proof.
  induction n as [|n IH]; intros ps k Hk Hinv; simpl.
  - rewrite Nat.add_0_r. exact Hinv.
  - replace (k + S n)%nat with (S k + n)%nat by lia.
    apply IH; [lia|]. apply tiers_step; assumption.
Qed.

(** X20. The tiers of [partition].  Called with minimum tier 1 on a
    display of at least one pixel each way, with any budget and any
    stores from before, [partition] returns; the retained tiers are the
    powers of two up to the resolution limit; the fast limit is one of
    them, every tier up to it is dense and every tier above it is
    sparse; [ram_usage] is the size of the dense tiers; and unless
    tier 1 is the only dense one, the dense tiers fit into the budget
    [init_ram]. *)
Theorem partition_tiers (sm : Manager (Frame := Frame)) (w h : nat) :
  (1 <= Nat.min w h)%nat ->
  exists sm' f,
    partition zero_frame env sm 1 (w, h) = Ret sm' tt
    /\ res_limit sm' = (2 ^ Nat.log2 (Nat.min w h))%nat
    /\ fast_limit sm' = (2 ^ f)%nat /\ (f <= Nat.log2 (Nat.min w h))%nat
    /\ (forall size, is_Some (get_store sm' size) <->
          exists e, (e <= Nat.log2 (Nat.min w h))%nat /\ size = (2 ^ e)%nat)
    /\ (forall size st, get_store sm' size = Some st ->
          is_smart st = negb (size <=? fast_limit sm')%nat)
    /\ sm_ram_usage sm' = dense_bytes f
    /\ ((1 <= f)%nat -> sm_ram_usage sm' <= init_ram sm).
Proof.
  intros Hdisp. unfold partition.
  destruct (Nat.eqb_spec (Nat.min w h) 0) as [? | _]; [lia|].
  simpl (1 =? 0)%nat. cbv iota.
  set (E := Nat.log2 (Nat.min w h)).
  replace (Nat.log2 1) with 0%nat by reflexivity.
  replace (Nat.log2 (2 ^ E * 2)) with (S E).
  2:{ replace (2 ^ E * 2)%nat with (2 ^ S E)%nat by (rewrite Nat.pow_succ_r'; lia).
      symmetry. apply Nat.log2_pow2. lia. }
  rewrite Nat.sub_0_r. rewrite <- cons_seq. simpl foldl.
  pose proof (tiers_loop (init_ram sm) w h E _ 1%nat ltac:(lia)
                (tiers_first (init_ram sm) w h (tile_stores sm) (fast_limit sm))) as Hinv.
  set (ps := foldl _ _ (seq 1 E)) in *.
  destruct Hinv as (f & Hf & Hfl & Hkept & Husage & Hav & Hstores & _ & Hbudget).
  assert (forall size, size ∈ ps_kept ps <->
            exists e, (e <= E)%nat /\ size = (2 ^ e)%nat) as Hin_kept.
  { intros size. rewrite Hkept, list_elem_of_fmap. split.
    - intros (e & -> & He). apply elem_of_seq in He. exists e. split; [lia | reflexivity].
    - intros (e & He & ->). exists e. split; [reflexivity|]. apply elem_of_seq. lia. }
  eexists. exists f. split; [reflexivity|]. unfold get_store. simpl.
  split; [reflexivity|]. split; [exact Hfl|]. split; [lia|].
  split; [|split; [|split]].
  - intros size. rewrite od_get_filter_keys, <- Hin_kept. split.
    + intros [st Hst]. case_decide; [assumption | discriminate].
    + intros Hin. rewrite decide_True by exact Hin.
      apply Hin_kept in Hin as (e & He & ->).
      destruct (Hstores e ltac:(lia)) as (st & -> & _). eauto.
  - intros size st. rewrite od_get_filter_keys. case_decide as Hin; [|discriminate].
    intros Hst. apply Hin_kept in Hin as (e & He & ->).
    destruct (Hstores e ltac:(lia)) as (st' & Hst' & Hsm).
    assert (st' = st) as -> by congruence. rewrite Hsm, Hfl. f_equal.
    destruct (Nat.leb_spec e f) as [Hle | Hgt], (Nat.leb_spec (2 ^ e) (2 ^ f)) as [Hle' | Hgt'];
      try reflexivity.
    + apply (Nat.pow_le_mono_r 2) in Hle; lia.
    + apply Nat.pow_le_mono_r_iff in Hle'; lia.
  - exact Husage.
  - intros Hf1. specialize (Hbudget Hf1). lia.
Qed.

End PartitionTiers.

(** The demo mosaic with a budget of 1750 bytes. *)
Definition budget_manager : Stream.Manager (Frame := nat) :=
  Stream.mkManager [] 1 1 1750 0 0 false false.

Example budget_partition :
  (fun sm => (map (fun b => (fst b, Store.is_smart (snd b))) (Stream.tile_stores sm),
              Stream.fast_limit sm, Stream.sm_ram_usage sm))
    (Store.state_of (Stream.partition 0 demo_env budget_manager 1 (5, 9)))
  = ([(1, false); (2, false); (4, true)], 2, 45%Z)%nat.
Proof. vm_compute. reflexivity. Qed.

Lemma partition_tiers_witness :
  exists sm' f,
    Stream.partition 0 demo_env budget_manager 1 (5, 9) = Store.Ret sm' tt
    /\ Stream.res_limit sm' = (2 ^ Nat.log2 (Nat.min 5 9))%nat
    /\ Stream.fast_limit sm' = (2 ^ f)%nat /\ (f <= Nat.log2 (Nat.min 5 9))%nat
    /\ (forall size, is_Some (Stream.get_store sm' size) <->
          exists e, (e <= Nat.log2 (Nat.min 5 9))%nat /\ size = (2 ^ e)%nat)
    /\ (forall size st, Stream.get_store sm' size = Some st ->
          Store.is_smart st = negb (size <=? Stream.fast_limit sm')%nat)
    /\ Stream.sm_ram_usage sm' = dense_bytes demo_env f
    /\ ((1 <= f)%nat -> (Stream.sm_ram_usage sm' <= Stream.init_ram budget_manager)%Z).
Proof.
  apply (partition_tiers 0 demo_env).
  - vm_compute. discriminate.
  - vm_compute. discriminate.
  - vm_compute. lia.
Defined.

(* ================================================================== *)
(** ** More on the streaming manager: the books of [free_ram] *)
(* ================================================================== *)

Section EvictionInvariant.

Import Store Stream.
Context {Frame : Type}.
Local Open Scope Z_scope.
Implicit Types (sm : Manager (Frame := Frame)) (st : evict_state (Frame := Frame)).

Variables (onscreen cached : list nat) (needed : Z) (ts : nat).

(** A property of the state of the loops that the three things they do
    keep: refreshing a store, evicting a tile, and leaving the inner
    loop once there is room. *)
Variable inv : evict_state (Frame := Frame) -> Prop.

Hypothesis inv_refresh : forall st size store,
  inv st -> od_get size (tile_stores (es_sm st)) = Some store ->
  inv (mkEvict (set_tile_stores (od_set size (refresh store onscreen)
                                   (tile_stores (es_sm st))) (es_sm st))
         (es_freeing st) (es_trace st)).

Hypothesis inv_evict : forall st stage size t store store' freed,
  inv st -> od_get size (tile_stores (es_sm st)) = Some store ->
  free_tile store t = Ret store' freed ->
  inv (mkEvict
         (set_sm_ram_usage (sm_ram_usage (es_sm st) - freed)
            (set_tile_stores (od_set size store' (tile_stores (es_sm st))) (es_sm st)))
         (es_freeing st) (es_trace st ++ [mkEviction stage size t (es_sm st)])).

Hypothesis inv_stop : forall st,
  inv st -> init_ram (es_sm st) - sm_ram_usage (es_sm st) >= needed ->
  inv (mkEvict (es_sm st) false (es_trace st)).

Lemma evict_tiles_inv stage size todo : forall st st' b,
  inv st -> evict_tiles onscreen cached needed ts stage size todo st = Ret st' b -> inv st'.
Proof.
  induction todo as [|t rest IH]; intros st st' b Hinv Hrun; simpl in Hrun.
  - injection Hrun as <- _. exact Hinv.
  - destruct (evict_cond (es_sm st) onscreen cached ts stage size t) as [c|];
      [|discriminate].
    destruct c.
    + destruct (od_get size (tile_stores (es_sm st))) as [store|] eqn:Hstore;
        [|discriminate].
      destruct (free_tile store t) as [store' freed | store' e] eqn:Hfree; [|discriminate].
      pose proof (inv_evict st stage size t store store' freed Hinv Hstore Hfree) as Hinv'.
      revert Hrun. case_bool_decide as Hroom; intros Hrun.
      * injection Hrun as <- _. apply (inv_stop _ Hinv'). exact Hroom.
      * exact (IH _ _ _ Hinv' Hrun).
    + revert Hrun. case_bool_decide as Hroom; intros Hrun.
      * injection Hrun as <- _. apply (inv_stop _ Hinv). exact Hroom.
      * exact (IH _ _ _ Hinv Hrun).
Qed.

Lemma evict_stores_inv stage freeable : forall st st' u,
  inv st -> evict_stores onscreen cached needed ts stage freeable st = Ret st' u -> inv st'.
Proof.
  induction freeable as [|size rest IH]; intros st st' u Hinv Hrun; simpl in Hrun.
  - injection Hrun as <- _. exact Hinv.
  - destruct (od_get size (tile_stores (es_sm st))) as [store|] eqn:Hstore; [|discriminate].
    pose proof (inv_refresh st size store Hinv Hstore) as Hinv1.
    match type of Hrun with context [evict_tiles _ _ _ _ _ _ ?todo ?st1] =>
      pose proof (evict_tiles_inv stage size todo st1) as Ht;
      destruct (evict_tiles onscreen cached needed ts stage size todo st1) as [st2 b | st2 e]
    end; [|discriminate].
    exact (IH _ _ _ (Ht _ _ Hinv1 eq_refl) Hrun).
Qed.

Lemma evict_stages_inv freeable stages : forall st st' stage,
  inv st -> evict_stages onscreen cached needed ts freeable stages st = Ret st' stage ->
  inv st'.
Proof.
  induction stages as [|s later IH]; intros st st' stage Hinv Hrun; simpl in Hrun.
  - injection Hrun as <- _. exact Hinv.
  - pose proof (evict_stores_inv s freeable st) as Hs.
    destruct (evict_stores onscreen cached needed ts s freeable st) as [st1 u | st1 e];
      [|discriminate].
    specialize (Hs _ _ Hinv eq_refl).
    destruct (es_freeing st1); [exact (IH _ _ _ Hs Hrun)|].
    injection Hrun as <- _. exact Hs.
Qed.

End EvictionInvariant.

Section EvictionBooks.

Import Store Stream.
Context {Frame : Type}.
Local Open Scope Z_scope.
Implicit Types (sm : Manager (Frame := Frame)) (st : evict_state (Frame := Frame)).
Implicit Types (s : TileStore (Frame := Frame)).

(** [sum([tile_store.ram_usage for tile_store in self.tile_stores.values()])] *)
Definition total_usage sm : Z :=
  foldr Z.add 0 (map (fun b => ram_usage (snd b)) (tile_stores sm)).

Lemma usage_od_set (size : nat) s s' (d : list (nat * TileStore (Frame := Frame))) :
  od_get size d = Some s ->
  foldr Z.add 0 (map (fun b => ram_usage (snd b)) (od_set size s' d))
  = foldr Z.add 0 (map (fun b => ram_usage (snd b)) d) - ram_usage s + ram_usage s'.
Proof.
  induction d as [|[k v] d IH]; simpl; [discriminate|].
  destruct (Nat.eqb_spec size k) as [-> | Hne]; simpl.
  - intros [= ->]. lia.
  - intros Hget. rewrite (IH Hget). lia.
Qed.

Lemma od_keys_set_present {V} (k : nat) (v : V) d :
  is_Some (od_get k d) -> od_keys (od_set k v d) = od_keys d.
Proof.
  unfold od_keys. induction d as [|[k' v'] d IH]; simpl; [intros [? ?]; discriminate|].
  destruct (Nat.eqb_spec k k') as [-> | Hne]; simpl; [reflexivity|].
  intros Hget. rewrite (IH Hget). reflexivity.
Qed.

Lemma pop_frames_books offsets : forall s freed s' freed',
  pop_frames s offsets freed = Ret s' freed' ->
  ram_usage s' = ram_usage s /\ tile_size s' = tile_size s /\ freed <= freed'.
Proof.
  induction offsets as [|o rest IH]; intros s freed s' freed' Hrun; simpl in Hrun.
  - injection Hrun as <- <-. split; [reflexivity|]. split; [reflexivity | lia].
  - destruct (raw s) as [arr | d]; [discriminate|].
    destruct (d !! o); [|discriminate].
    destruct (IH _ _ _ _ Hrun) as (Hu & Hts & Hle). simpl in Hu, Hts.
    split; [exact Hu|]. split; [exact Hts|].
    assert (0 <= frame_bytes s).
    { unfold frame_bytes. repeat apply Z.mul_nonneg_nonneg; lia. }
    lia.
Qed.

(** What [free_tile] returns is what the store's own figure goes down
    by, and it is not negative. *)
Lemma free_tile_books s t s' freed :
  free_tile s t = Ret s' freed -> ram_usage s' = ram_usage s - freed /\ 0 <= freed.
Proof.
  unfold free_tile. destruct (is_smart s); simpl.
  2:{ intros [= <- <-]. split; lia. }
  destruct (od_get t (finished s)) as [[m k]|].
  2:{ intros [= <- <-]. split; lia. }
  destruct (pop_frames _ _ 0) as [s2 f | s2 e] eqn:Hpop; [|discriminate].
  intros [= <- <-]. apply pop_frames_books in Hpop as (Hu & _ & Hle).
  simpl in Hu |- *. split; [lia | exact Hle].
Qed.

(** X21. The books of [free_ram] balance.  Whenever the freeing loop
    returns, whatever it evicted, the manager's [ram_usage] is the sum
    of the [ram_usage] of its stores, and the tiers, the budget and the
    limits are those from before. *)
Theorem free_ram_books_balance sm onscreen cached needed ts st stage :
  free_ram sm onscreen cached needed ts = Ret st stage ->
  sm_ram_usage (es_sm st) = total_usage (es_sm st)
  /\ od_keys (tile_stores (es_sm st)) = od_keys (tile_stores sm)
  /\ init_ram (es_sm st) = init_ram sm
  /\ fast_limit (es_sm st) = fast_limit sm
  /\ res_limit (es_sm st) = res_limit sm.
Proof.
  set (inv := fun st : evict_state (Frame := Frame) =>
                sm_ram_usage (es_sm st) = total_usage (es_sm st)
                /\ od_keys (tile_stores (es_sm st)) = od_keys (tile_stores sm)
                /\ init_ram (es_sm st) = init_ram sm
                /\ fast_limit (es_sm st) = fast_limit sm
                /\ res_limit (es_sm st) = res_limit sm).
  assert (inv (mkEvict (set_sm_ram_usage (total_usage sm) sm) true [])) as Hstart.
  { unfold inv. simpl. auto. }
  unfold free_ram. fold (total_usage sm).
  destruct (freeable_sizes sm) as [|size rest].
  { intros [= <- _]. exact Hstart. }
  apply (evict_stages_inv onscreen cached needed ts inv); [| | |exact Hstart].
  - intros st0 size0 store (Hu & Hk & Hrest) Hstore. unfold inv, total_usage. simpl.
    rewrite (usage_od_set _ _ _ _ Hstore), od_keys_set_present by eauto.
    destruct (refresh_keeps store onscreen) as (_ & -> & _).
    split; [unfold total_usage in Hu; lia|]. split; [exact Hk | exact Hrest].
  - intros st0 stage0 size0 t store store' freed (Hu & Hk & Hrest) Hstore Hfree.
    unfold inv, total_usage. simpl.
    rewrite (usage_od_set _ _ _ _ Hstore), od_keys_set_present by eauto.
    destruct (free_tile_books _ _ _ _ Hfree) as [-> _].
    split; [unfold total_usage in Hu; lia|]. split; [exact Hk | exact Hrest].
  - intros st0 Hinv _. exact Hinv.
Qed.

(** X22. A job that reports a stage below 4 has the room it asked for.
    When there is a sparse store to free from and the freeing loop
    returns a stage other than 4, the bytes in use at the end leave at
    least [needed_ram] of the budget [init_ram]. *)
Theorem free_ram_makes_room sm onscreen cached needed ts st stage :
  freeable_sizes sm <> [] ->
  free_ram sm onscreen cached needed ts = Ret st stage ->
  stage <> 4%nat ->
  init_ram (es_sm st) - sm_ram_usage (es_sm st) >= needed.
Proof.
  intros Hfreeable. unfold free_ram.
  destruct (freeable_sizes sm) as [|size rest]; [contradiction|]. clear Hfreeable.
  set (inv := fun st : evict_state (Frame := Frame) =>
                es_freeing st = false ->
                init_ram (es_sm st) - sm_ram_usage (es_sm st) >= needed).
  assert (forall stages st0 st1 stage1,
            inv st0 -> Forall (fun x : nat => x <> 4%nat) stages ->
            evict_stages onscreen cached needed ts (size :: rest) stages st0 = Ret st1 stage1 ->
            stage1 <> 4%nat -> es_freeing st1 = false) as Hleft.
  { induction stages as [|stg later IH]; intros st0 st1 stage1 Hinv Hs Hrun Hne;
      [simpl in Hrun; congruence|].
    apply Forall_cons in Hs as [Hs Hlater]. cbn [evict_stages] in Hrun.
    pose proof (evict_stores_inv onscreen cached needed ts inv) as Hkeep.
    destruct (evict_stores onscreen cached needed ts stg (size :: rest) st0)
      as [st' u | st' e] eqn:Hpass; [|discriminate].
    destruct (es_freeing st') eqn:Hfreeing.
    - eapply IH; [|exact Hlater | exact Hrun | exact Hne].
      intros Hf. congruence.
    - injection Hrun as <- _. exact Hfreeing. }
  intros Hrun Hstage.
  assert (inv st) as Hinv.
  { revert Hrun. apply (evict_stages_inv onscreen cached needed ts inv).
    - intros st0 size0 store Hi _. exact Hi.
    - intros st0 stage0 size0 t store store' freed Hi _ Hfree Hf.
      destruct (free_tile_books _ _ _ _ Hfree) as [_ Hpos].
      specialize (Hi Hf). simpl in *. lia.
    - intros st0 _ Hroom _. exact Hroom.
    - intros Hf. discriminate. }
  apply Hinv. eapply Hleft; [| |exact Hrun | exact Hstage].
  - intros Hf. discriminate.
  - repeat constructor; discriminate.
Qed.

End EvictionBooks.

Lemma free_ram_books_balance_witness :
  exists st stage,
    Stream.free_ram evict_manager [0] [] 48 4 = Store.Ret st stage
    /\ Stream.sm_ram_usage (Stream.es_sm st) = total_usage (Stream.es_sm st)
    /\ Store.od_keys (Stream.tile_stores (Stream.es_sm st))
       = Store.od_keys (Stream.tile_stores evict_manager)
    /\ Stream.init_ram (Stream.es_sm st) = Stream.init_ram evict_manager
    /\ Stream.fast_limit (Stream.es_sm st) = Stream.fast_limit evict_manager
    /\ Stream.res_limit (Stream.es_sm st) = Stream.res_limit evict_manager.
Proof.
  destruct (Stream.free_ram evict_manager [0] [] 48 4) as [st stage | st e] eqn:Hrun;
    [|vm_compute in Hrun; discriminate].
  exists st, stage. split; [reflexivity|].
  exact (free_ram_books_balance evict_manager [0] [] 48%Z 4 st stage Hrun).
Defined.

Lemma free_ram_makes_room_witness :
  exists st stage,
    Stream.free_ram evict_manager [0] [] 20 4 = Store.Ret st stage
    /\ stage <> 4
    /\ (Stream.init_ram (Stream.es_sm st) - Stream.sm_ram_usage (Stream.es_sm st) >= 20)%Z.
Proof.
  destruct (Stream.free_ram evict_manager [0] [] 20 4) as [st stage | st e] eqn:Hrun;
    [|vm_compute in Hrun; discriminate].
  assert (stage <> 4) as Hstage.
  { vm_compute in Hrun. injection Hrun as _ <-. discriminate. }
  exists st, stage. split; [reflexivity|]. split; [exact Hstage|].
  apply (free_ram_makes_room evict_manager [0] [] 20%Z 4 st stage);
    [vm_compute; discriminate | exact Hrun | exact Hstage].
Defined.

Section RoomFacts.

Import Store Stream.
Context {Frame : Type}.
Local Open Scope Z_scope.
Implicit Types (sm : Manager (Frame := Frame)) (st : evict_state (Frame := Frame)).
Implicit Types (s : TileStore (Frame := Frame)).

Variables (onscreen cached : list nat) (needed : Z) (ts : nat).

(** The same frames, the same figure and the same entry for every tile:
    what a refresh leaves of a store. *)
Definition same_content s s' : Prop :=
  raw s' = raw s /\ ram_usage s' = ram_usage s /\ is_smart s' = is_smart s
  /\ forall t, od_get t (finished s') = od_get t (finished s).

Lemma same_content_refl s : same_content s s.
Proof. repeat split. Qed.

Lemma same_content_refresh s s' :
  same_content s s' -> same_content s (refresh s' onscreen).
Proof.
  intros (Hraw & Hu & Hsm & Hf).
  destruct (refresh_keeps s' onscreen) as (Hraw' & Hu' & _ & _ & Hsm' & Hf').
  split; [congruence|]. split; [congruence|]. split; [congruence|].
  intros t. rewrite Hf'. apply Hf.
Qed.

Lemma same_content_lists s s' :
  same_content s s' -> finished s <> [] -> get_least_used s' <> [].
Proof.
  intros (_ & _ & _ & Hf) Hne. unfold get_least_used.
  destruct (finished s) as [|[t v] f] eqn:Heq; [contradiction|].
  specialize (Hf t). simpl in Hf. rewrite Nat.eqb_refl in Hf.
  destruct (finished s') as [|b f']; [discriminate | discriminate].
Qed.

(** Stage 0 frees nothing: its pass over a store only looks whether
    there is room. *)
Lemma evict_tiles_stage0 size todo st :
  init_ram (es_sm st) - sm_ram_usage (es_sm st) >= needed ->
  evict_tiles onscreen cached needed ts 0 size todo st
  = match todo with
    | [] => Ret st false
    | _ => Ret (mkEvict (es_sm st) false (es_trace st)) true
    end.
Proof.
  intros Hroom. destruct todo as [|t rest]; [reflexivity|].
  simpl. rewrite bool_decide_eq_true_2 by exact Hroom. reflexivity.
Qed.

Variable sm0 : Manager (Frame := Frame).

(** The state of the loops while nothing has been freed. *)
Definition untouched st : Prop :=
  es_trace st = []
  /\ sm_ram_usage (es_sm st) = total_usage sm0
  /\ init_ram (es_sm st) = init_ram sm0
  /\ forall size,
       match od_get size (tile_stores sm0), od_get size (tile_stores (es_sm st)) with
       | Some s, Some s' => same_content s s'
       | None, None => True
       | _, _ => False
       end.

Hypothesis Hroom : init_ram sm0 - total_usage sm0 >= needed.

Lemma evict_stores_stage0 freeable : forall st,
  untouched st ->
  (forall size, size ∈ freeable ->
     exists s, od_get size (tile_stores sm0) = Some s /\ finished s <> []) ->
  exists st',
    evict_stores onscreen cached needed ts 0 freeable st = Ret st' tt
    /\ untouched st'
    /\ es_freeing st' = match freeable with [] => es_freeing st | _ => false end.
Proof.
  induction freeable as [|size rest IH]; intros st Hst Hlists; simpl.
  - exists st. auto.
  - destruct Hst as (Htrace & Hu & Hinit & Hstores).
    destruct (Hlists size ltac:(left)) as (s & Hs & Hne).
    pose proof (Hstores size) as Hsize. rewrite Hs in Hsize.
    destruct (od_get size (tile_stores (es_sm st))) as [s'|] eqn:Hs'; [|contradiction].
    rewrite evict_tiles_stage0 by (simpl; lia).
    pose proof (same_content_lists s (refresh s' onscreen)
                  (same_content_refresh _ _ Hsize) Hne) as Hlist.
    destruct (get_least_used (refresh s' onscreen)) as [|t0 todo]; [contradiction|].
    cbn [es_sm es_trace].
    match goal with |- context [evict_stores _ _ _ _ _ rest ?st1] =>
      destruct (IH st1) as (st' & Hrun & Hst' & Hfreeing)
    end.
    + split; [exact Htrace|]. split; [exact Hu|]. split; [exact Hinit|].
      intros size'. simpl. specialize (Hstores size').
      destruct (decide (size = size')) as [<- | Hdiff].
      * rewrite od_get_set_eq, Hs. apply same_content_refresh, Hsize.
      * rewrite od_get_set_ne by exact Hdiff. exact Hstores.
    + intros size' Hin. apply Hlists. right. exact Hin.
    + exists st'. split; [exact Hrun|]. split; [exact Hst'|].
      rewrite Hfreeing. destruct rest; reflexivity.
Qed.

End RoomFacts.

Section RoomTheorem.

Import Store Stream.
Context {Frame : Type}.
Local Open Scope Z_scope.

Lemma od_get_NoDup {V} (k : nat) (v : V) d :
  NoDup (od_keys d) -> (k, v) ∈ d -> od_get k d = Some v.
Proof.
  unfold od_keys. induction d as [|[k' v'] d IH]; simpl; intros Hnd Hin.
  - apply elem_of_nil in Hin. contradiction.
  - apply NoDup_cons in Hnd as [Hnotin Hnd].
    apply elem_of_cons in Hin as [[= <- <-] | Hin].
    + rewrite Nat.eqb_refl. reflexivity.
    + destruct (Nat.eqb_spec k k') as [-> | Hne]; [|exact (IH Hnd Hin)].
      exfalso. apply Hnotin. apply list_elem_of_fmap. exists (k', v). auto.
Qed.

Lemma od_get_elem_of {V} (k : nat) (v : V) d : od_get k d = Some v -> (k, v) ∈ d.
Proof.
  induction d as [|[k' v'] d IH]; simpl; [discriminate|].
  destruct (Nat.eqb_spec k k') as [-> | Hne].
  - intros [= ->]. left.
  - intros Hget. right. exact (IH Hget).
Qed.

(** X23. With room, nothing is evicted.  When the budget already covers
    what the job needs, and every sparse store with bytes in use lists
    a tile, the freeing loop returns at stage 0 without an eviction:
    [ram_usage] is the sum over the stores as they were, and every
    store keeps its frames, its figure and the entry of every tile (a
    refresh reorders the LRU list and nothing else). *)
Theorem no_eviction_with_room (sm : Manager (Frame := Frame))
    (onscreen cached : list nat) (needed : Z) (ts : nat) :
  NoDup (od_keys (tile_stores sm)) ->
  (forall size s, get_store sm size = Some s -> is_smart s = true -> ram_usage s <> 0 ->
     finished s <> []) ->
  init_ram sm - total_usage sm >= needed ->
  exists st,
    free_ram sm onscreen cached needed ts = Ret st 0%nat
    /\ es_trace st = []
    /\ sm_ram_usage (es_sm st) = total_usage sm
    /\ forall size s, get_store sm size = Some s ->
         exists s', get_store (es_sm st) size = Some s' /\ same_content s s'.
Proof.
  intros Hkeys Hlists Hroom.
  assert (untouched sm (mkEvict (set_sm_ram_usage (total_usage sm) sm) true [])) as Hstart.
  { split; [reflexivity|]. split; [reflexivity|]. split; [reflexivity|].
    intros size. simpl. destruct (od_get size (tile_stores sm)); [|exact I].
    apply same_content_refl. }
  assert (forall st, untouched sm st ->
            forall size s, get_store sm size = Some s ->
              exists s', get_store (es_sm st) size = Some s' /\ same_content s s') as Hsame.
  { intros st (_ & _ & _ & Hstores) size s Hs. specialize (Hstores size).
    unfold get_store in *. rewrite Hs in Hstores.
    destruct (od_get size (tile_stores (es_sm st))) as [s'|]; [eauto | contradiction]. }
  unfold free_ram. fold (total_usage sm).
  destruct (freeable_sizes sm) as [|size rest] eqn:Hfreeable.
  { eexists. split; [reflexivity|]. split; [reflexivity|]. split; [reflexivity|].
    apply (Hsame _ Hstart). }
  destruct (evict_stores_stage0 onscreen cached needed ts sm Hroom (size :: rest) _ Hstart)
    as (st' & Hrun & Hst' & Hfreeing).
  { intros size' Hin. rewrite <- Hfreeable in Hin. unfold freeable_sizes in Hin.
    apply list_elem_of_fmap in Hin as ([k s] & -> & Hin).
    apply list_elem_of_filter in Hin as [[Hsm Hu] Hin]. simpl in Hsm, Hu |- *.
    pose proof (od_get_NoDup k s _ Hkeys Hin) as Hget.
    exists s. split; [exact Hget|]. exact (Hlists k s Hget Hsm Hu). }
  cbn [evict_stages]. rewrite Hrun, Hfreeing.
  exists st'. split; [reflexivity|].
  destruct Hst' as (Htrace & Hu & Hinit & Hstores).
  split; [exact Htrace|]. split; [exact Hu|].
  apply Hsame. split; [exact Htrace|]. split; [exact Hu|]. split; [exact Hinit | exact Hstores].
Qed.

End RoomTheorem.

Lemma no_eviction_with_room_witness :
  exists st,
    Stream.free_ram evict_manager [0] [] 8 4 = Store.Ret st 0
    /\ Stream.es_trace st = []
    /\ Stream.sm_ram_usage (Stream.es_sm st) = total_usage evict_manager
    /\ forall size s, Stream.get_store evict_manager size = Some s ->
         exists s', Stream.get_store (Stream.es_sm st) size = Some s' /\ same_content s s'.
Proof.
  apply (no_eviction_with_room evict_manager [0] [] 8%Z 4).
  - apply (bool_decide_unpack _). vm_compute. exact I.
  - intros size s Hs Hsm Hu. unfold Stream.get_store in Hs.
    apply od_get_elem_of in Hs. vm_compute in Hs.
    inversion Hs as [| ? ? ? Hs1]; subst; [discriminate|].
    inversion Hs1 as [| ? ? ? Hs2]; subst; [exfalso; apply Hu; reflexivity|].
    inversion Hs2 as [| ? ? ? Hs3]; subst; [exfalso; apply Hu; reflexivity|].
    inversion Hs3.
  - vm_compute. discriminate.
Defined.

(* ================================================================== *)
(** ** The filter of [stage_mosaic.py] *)
(* ================================================================== *)

Section FilterFacts.

Import Match Stage.
Local Open Scope Z_scope.

Context {T : Type}.
Variable avg_colour : T -> colour.

(** On 8-bit colours the key of a tile is the cell of the memo table,
    and nothing wraps around. *)
Lemma colour_key_key c : colour_ok c -> colour_key c = key c.
Proof.
  destruct c as [[r g] b]. intros Hc. pose proof (key_range _ Hc) as Hrange.
  pose proof (key_linear r g b Hc) as Hlin.
  destruct Hc as (Hr & Hg & Hb). unfold colour_key.
  rewrite (i32_small r), (i32_small g), (i32_small b) by lia.
  assert (Z.shiftl r 16 = r * 65536) as Hs16 by (rewrite Z.shiftl_mul_pow2 by lia; reflexivity).
  assert (Z.shiftl g 8 = g * 256) as Hs8 by (rewrite Z.shiftl_mul_pow2 by lia; reflexivity).
  rewrite (i32_small (Z.shiftl r 16)), (i32_small (Z.shiftl g 8)) by lia.
  assert (0 <= Z.lor (Z.shiftl r 16) (Z.shiftl g 8) < 2 ^ 24) as Hmid.
  { pose proof (key_range (r, g, 0) ltac:(repeat split; lia)) as Hk.
    unfold key in Hk. rewrite Z.lor_0_r in Hk. exact Hk. }
  rewrite (i32_small (Z.lor (Z.shiftl r 16) (Z.shiftl g 8))) by lia.
  unfold key in Hrange |- *. apply i32_small. lia.
Qed.

Local Abbreviation key_of := (fun t : T => colour_key (avg_colour t)).

(** The tile is the first of its colour in the list. *)
Definition first_of_colour (tiles : list T) (t : T) : Prop :=
  exists pre post, tiles = pre ++ t :: post
                   /\ forall t', t' ∈ pre -> avg_colour t' <> avg_colour t.

Lemma filter_loop_spec tiles : forall done tile_set filtered,
  Forall (fun t => colour_ok (avg_colour t)) (done ++ tiles) ->
  (forall k, k ∈ tile_set <-> k ∈ map key_of filtered) ->
  sublist filtered done ->
  NoDup (map avg_colour filtered) ->
  (forall t, t ∈ done -> avg_colour t ∈ map avg_colour filtered) ->
  (forall t, t ∈ filtered -> first_of_colour done t) ->
  let out := filter_loop avg_colour tiles tile_set filtered in
  sublist out (done ++ tiles)
  /\ NoDup (map avg_colour out)
  /\ (forall t, t ∈ done ++ tiles -> avg_colour t ∈ map avg_colour out)
  /\ (forall t, t ∈ out -> first_of_colour (done ++ tiles) t).
Proof.
  induction tiles as [|tile rest IH]; intros done tile_set filtered Hok Hset Hsub Hnd Hall Hfirst.
  - simpl. rewrite app_nil_r. auto.
  - cbn [filter_loop].
    assert (done ++ tile :: rest = (done ++ [tile]) ++ rest) as Happ
      by (rewrite <- app_assoc; reflexivity).
    rewrite Happ in Hok |- *.
    assert (colour_ok (avg_colour tile)) as Htile.
    { rewrite Forall_forall in Hok. apply Hok.
      apply elem_of_app. left. apply elem_of_app. right. left. }
    assert (forall t, t ∈ filtered -> colour_ok (avg_colour t)) as Hfok.
    { intros t Ht. rewrite Forall_forall in Hok. apply Hok.
      apply elem_of_app. left. apply elem_of_app. left.
      apply (elem_of_sublist _ _ _ Ht Hsub). }
    assert (key_of tile ∈ tile_set <-> avg_colour tile ∈ map avg_colour filtered) as Hseen.
    { rewrite Hset, !list_elem_of_fmap. split.
      - intros (t & Hk & Ht). exists t. split; [|exact Ht].
        simpl in Hk. rewrite !colour_key_key in Hk by auto.
        apply key_inj; auto.
      - intros (t & Hc & Ht). exists t. split; [|exact Ht]. simpl. rewrite Hc. reflexivity. }
    assert (forall t, first_of_colour done t -> first_of_colour (done ++ [tile]) t) as Hext.
    { intros t (pre & post & -> & Hpre). exists pre, (post ++ [tile]).
      split; [rewrite <- app_assoc; reflexivity | exact Hpre]. }
    destruct (decide (key_of tile ∈ tile_set)) as [Hin | Hout].
    + apply IH; try assumption.
      * apply sublist_inserts_r. exact Hsub.
      * intros t Ht. apply elem_of_app in Ht as [Ht | Ht]; [auto|].
        apply list_elem_of_singleton in Ht as ->. apply Hseen, Hin.
      * intros t Ht. apply Hext, Hfirst, Ht.
    + apply IH; try assumption.
      * intros k. rewrite map_app, elem_of_union, elem_of_singleton, elem_of_app, Hset.
        simpl. rewrite list_elem_of_singleton. tauto.
      * apply sublist_app; [exact Hsub | reflexivity].
      * rewrite map_app. apply NoDup_app. split; [exact Hnd|]. split.
        -- intros c Hc Hc'. apply list_elem_of_singleton in Hc' as ->.
           apply Hout, Hseen, Hc.
        -- apply NoDup_singleton.
      * intros t Ht. rewrite map_app, elem_of_app.
        apply elem_of_app in Ht as [Ht | Ht]; [left; auto|].
        apply list_elem_of_singleton in Ht as ->. right. left.
      * intros t Ht. apply elem_of_app in Ht as [Ht | Ht]; [apply Hext, Hfirst, Ht|].
        apply list_elem_of_singleton in Ht as ->.
        exists done, []. split; [reflexivity|].
        intros t' Ht' Heq. apply Hout, Hseen. rewrite <- Heq. apply Hall, Ht'.
Qed.

(** X24. One tile per colour.  On tiles with 8-bit average colours,
    [filter_tiles] fails on an empty list only (the percentage it
    prints divides by the number of tiles); otherwise it returns the
    tiles in their order with the later tiles of a colour already seen
    left out: no two tiles of the result have the same average colour,
    every colour of the input is still there, and each tile kept is the
    first of its colour. *)
Theorem filter_tiles_one_per_colour (tiles : list T) :
  Forall (fun t => colour_ok (avg_colour t)) tiles ->
  match filter_tiles avg_colour tiles with
  | None => tiles = []
  | Some out =>
      tiles <> []
      /\ sublist out tiles
      /\ NoDup (map avg_colour out)
      /\ (forall t, t ∈ tiles -> avg_colour t ∈ map avg_colour out)
      /\ (forall t, t ∈ out -> first_of_colour tiles t)
  end.
Proof.
  intros Hok. unfold filter_tiles.
  destruct tiles as [|tile rest]; [reflexivity|].
  cbn [length Nat.eqb]. split; [discriminate|].
  apply (filter_loop_spec (tile :: rest) [] ∅ []).
  - exact Hok.
  - intros k. simpl. rewrite elem_of_empty, elem_of_nil. tauto.
  - constructor.
  - constructor.
  - intros t Ht. apply elem_of_nil in Ht. contradiction.
  - intros t Ht. apply elem_of_nil in Ht. contradiction.
Qed.

End FilterFacts.

(** Four tiles, the third of the colour of the first. *)
Definition palette : list (nat * Match.colour) :=
  [(0%nat, (10, 20, 30)); (1%nat, (200, 0, 0)); (2%nat, (10, 20, 30)); (3%nat, (0, 0, 7))]%Z.

Example filter_palette :
  Stage.filter_tiles snd palette
  = Some [(0%nat, (10, 20, 30)); (1%nat, (200, 0, 0)); (3%nat, (0, 0, 7))]%Z.
Proof. vm_compute. reflexivity. Qed.

Lemma filter_tiles_one_per_colour_witness :
  match Stage.filter_tiles snd palette with
  | None => palette = []
  | Some out =>
      palette <> []
      /\ sublist out palette
      /\ NoDup (map snd out)
      /\ (forall t, t ∈ palette -> snd t ∈ map snd out)
      /\ (forall t, t ∈ out -> first_of_colour snd palette t)
  end.
Proof.
  apply (filter_tiles_one_per_colour snd palette).
  repeat constructor; vm_compute; intuition discriminate.
Defined.

(* ================================================================== *)
(** ** The crop of [tiles_funcs.py] *)
(* ================================================================== *)

Section CropFacts.

Import Render Funcs.

(** X25. [crop] cuts out the centred square.  The result is a square
    whose side is the shorter side of the input; it is the input when
    that is square already; each of its pixels is the pixel of the
    input at the same place counted from the start of the slice, which
    lies inside the input; and the slice is centred: what is cut off
    after it is what is cut off before it, or one more. *)
Theorem crop_centred_square (array : image) :
  im_rows (crop array) = Nat.min (im_rows array) (im_cols array)
  /\ im_cols (crop array) = Nat.min (im_rows array) (im_cols array)
  /\ exists start_y start_x,
       (forall i j, im_px (crop array) i j = im_px array (start_y + i) (start_x + j))
       /\ start_y + im_rows (crop array) <= im_rows array
       /\ start_x + im_cols (crop array) <= im_cols array
       /\ start_y <= im_rows array - (start_y + im_rows (crop array)) <= start_y + 1
       /\ start_x <= im_cols array - (start_x + im_cols (crop array)) <= start_x + 1
       /\ (im_rows array = im_cols array -> start_y = 0 /\ start_x = 0).
Proof.
  split; [reflexivity|]. split; [reflexivity|].
  cbn [crop im_rows im_cols].
  set (side := Nat.min (im_rows array) (im_cols array)).
  exists ((im_rows array - side) / 2), ((im_cols array - side) / 2).
  split; [reflexivity|].
  pose proof (Nat.div_mod_eq (im_rows array - side) 2) as Hy.
  pose proof (Nat.div_mod_eq (im_cols array - side) 2) as Hx.
  pose proof (Nat.mod_upper_bound (im_rows array - side) 2 ltac:(lia)) as Hy'.
  pose proof (Nat.mod_upper_bound (im_cols array - side) 2 ltac:(lia)) as Hx'.
  assert (side <= im_rows array /\ side <= im_cols array) as [Hr Hc] by (unfold side; lia).
  repeat split; lia.
Qed.

End CropFacts.

(* ================================================================== *)
(** ** The smallest tile size of [resize] *)
(* ================================================================== *)

Section MinSizeFacts.

Import Renderer.
Local Open Scope Z_scope.

Variables (sw sh w h : Z).

Definition fits (ts : Z) : Prop := sw * ts <= w /\ sh * ts <= h.

Lemma fits_dec ts :
  (sw * ts <=? w) && (sh * ts <=? h) = true <-> fits ts.
Proof. unfold fits. rewrite andb_true_iff, !Z.leb_le. reflexivity. Qed.

(** More fuel does not change a result. *)
Lemma min_size_from_more fuel : forall ts r extra,
  min_size_from fuel (sw, sh) (w, h) ts = Some r ->
  min_size_from (fuel + extra) (sw, sh) (w, h) ts = Some r.
Proof.
  induction fuel as [|fuel IH]; intros ts r extra; simpl; [discriminate|].
  destruct ((sw * ts <=? w) && (sh * ts <=? h)); [apply IH | auto].
Qed.

(** From a size that fits, the loop ends, on the last of the doubled
    sizes that fits. *)
Lemma min_size_from_spec (n : nat) : forall ts,
  1 <= sw -> 1 <= ts -> fits ts -> w < sw * ts * 2 ^ Z.of_nat n ->
  exists (k : nat),
    min_size_from (S n) (sw, sh) (w, h) ts = Some (ts * 2 ^ Z.of_nat k)
    /\ fits (ts * 2 ^ Z.of_nat k) /\ ~ fits (ts * 2 ^ Z.of_nat (S k)).
Proof.
  induction n as [|n IH]; intros ts Hsw Hts Hfit Hbound.
  - exfalso. destruct Hfit as [Hfit _]. simpl in Hbound. lia.
  - cbn [min_size_from fst snd].
    rewrite (proj2 (fits_dec ts) Hfit).
    destruct (decide (fits (ts * 2))) as [Hnext | Hstop].
    + destruct (IH (ts * 2) Hsw ltac:(lia) Hnext) as (k & Hrun & Hk & Hk').
      { rewrite Nat2Z.inj_succ, Z.pow_succ_r in Hbound by lia. lia. }
      exists (S k).
      rewrite !Nat2Z.inj_succ, !Z.pow_succ_r by lia.
      rewrite Nat2Z.inj_succ, Z.pow_succ_r in Hk' by lia.
      replace (ts * (2 * 2 ^ Z.of_nat k)) with (ts * 2 * 2 ^ Z.of_nat k) by lia.
      replace (ts * (2 * (2 * 2 ^ Z.of_nat k))) with (ts * 2 * (2 * 2 ^ Z.of_nat k)) by lia.
      auto.
    + exists 0%nat. simpl Z.of_nat. rewrite Z.pow_0_r, Z.mul_1_r.
      change (2 ^ Z.of_nat 1) with 2.
      split; [|auto].
      change (min_size_from (S n) (sw, sh) (w, h) (ts * 2) = Some ts).
      cbn [min_size_from fst snd].
      destruct ((sw * (ts * 2) <=? w) && (sh * (ts * 2) <=? h)) eqn:Hc.
      * apply fits_dec in Hc. contradiction.
      * f_equal. rewrite Z.div_mul by lia. reflexivity.
Qed.

(** X26. The smallest tile size of [resize].  For a mosaic at least
    one tile wide that fits the display at tile size 1, the loop
    ends, and [min_size] is a power of two at which the mosaic fits
    the display both ways while it no longer does at twice that size.
    For a mosaic that does not fit at tile size 1 the loop ends at
    once with [min_size = 0]. *)
Theorem min_size_largest_fit :
  1 <= sw ->
  (fits 1 ->
     exists (fuel k : nat),
       (forall extra, min_size (fuel + extra) (sw, sh) (w, h) = Some (2 ^ Z.of_nat k))
       /\ fits (2 ^ Z.of_nat k) /\ ~ fits (2 ^ Z.of_nat (S k)))
  /\ (~ fits 1 -> forall fuel, min_size (S fuel) (sw, sh) (w, h) = Some 0).
Proof.
  intros Hsw. split.
  - intros Hfit.
    assert (w < sw * 1 * 2 ^ Z.of_nat (Z.to_nat w)) as Hbound.
    { destruct Hfit as [Hfit _]. rewrite Z2Nat.id by lia.
      pose proof (Z.pow_gt_lin_r 2 w ltac:(lia)). nia. }
    destruct (min_size_from_spec (Z.to_nat w) 1 Hsw ltac:(lia) Hfit Hbound)
      as (k & Hrun & Hk & Hk').
    rewrite !Z.mul_1_l in *.
    exists (S (Z.to_nat w)), k. split; [|auto].
    intros extra. unfold min_size. apply min_size_from_more. exact Hrun.
  - intros Hno fuel. unfold min_size. cbn [min_size_from fst snd].
    destruct ((sw * 1 <=? w) && (sh * 1 <=? h)) eqn:Hc; [|reflexivity].
    apply fits_dec in Hc. contradiction.
Qed.

End MinSizeFacts.

Lemma min_size_largest_fit_witness :
  (fits 100 60 1920 1080 1 ->
     exists (fuel k : nat),
       (forall extra,
          Renderer.min_size (fuel + extra) (100, 60)%Z (1920, 1080)%Z = Some (2 ^ Z.of_nat k)%Z)
       /\ fits 100 60 1920 1080 (2 ^ Z.of_nat k)
       /\ ~ fits 100 60 1920 1080 (2 ^ Z.of_nat (S k)))
  /\ (~ fits 100 60 1920 1080 1 ->
      forall fuel, Renderer.min_size (S fuel) (100, 60)%Z (1920, 1080)%Z = Some 0%Z).
Proof.
  apply (min_size_largest_fit 100 60 1920 1080); lia.
Defined.

Example min_size_demo :
  Renderer.min_size 10 (100, 60)%Z (1920, 1080)%Z = Some 16%Z
  /\ Renderer.min_size 10 (100, 60)%Z (90, 1080)%Z = Some 0%Z.
Proof. vm_compute. split; reflexivity. Qed.
